(** * Solvency check of the Kai Finance entity graph (src/src/util.ts, the ocg module)

    A shallow embedding of [checkEntitySolvency], [propagateShortfalls] and
    [propagateEntityShortfalls].

    Conventions of the embedding.
    - A JavaScript [Map] is an association list in insertion order
      ([JsMap]): [set] on a present key keeps its place, [delete] removes
      it, iteration runs front to back.
    - [bigint] is [Z].
    - Numbers are modelled twice.  In the first part of the file
      [Decimal] values and JavaScript [number]s are exact rationals ([Qc],
      rationals in lowest terms, so that equal numbers are equal terms):
      nothing is rounded.  This part carries the properties that do not
      depend on rounding (which records and entries exist, what is
      thrown, signs, orders, integer amounts) and says what the arithmetic
      gives when nothing is rounded.  Division by zero, which Decimal.js
      answers with NaN or Infinity, is [0] in [Qc]; it only occurs for a
      zero price or a zero total and no theorem below depends on it.
    - [Module Machine] is the same code on the numbers the program
      computes with: a [number] is a binary64 float ([PrimFloat.float]),
      a [Decimal] is a rational rounded to 20 significant digits after
      every operation (the defaults of Decimal.js), [Decimal.toNumber]
      rounds to the nearest binary64 and [new Decimal(number)] takes the
      shortest decimal that reads back as the number.  What the program
      reports as a number is stated on this model, and so is what the
      second pass records whatever the numbers are (the processing order,
      a coin without a price); [Module Binary64] holds the division and
      the multiplication of the allocation on their own.
    - A [throw] is the [Throw] constructor of [Result].
    - The input [Map<string, Entity>] is keyed by [entity.id] everywhere in
      the repository (main.ts and the tests), so it is modelled by the
      list of its values in insertion order; [entities.get] searches by
      [id]. *)

From Stdlib Require Import ZArith QArith Qcanon Lqa Lia List String Bool.
From Stdlib Require Import Permutation FunctionalExtensionality.
From Corelib Require PrimFloat FloatOps SpecFloat.
Import ListNotations.

Local Open Scope string_scope.
Local Open Scope list_scope.
Local Open Scope Z_scope.
Local Open Scope Qc_scope.

(** ** Errors *)

Inductive Error : Type :=
| PriceNotFound (coinType : string)   (* `Price not found for coin type: "..."` *)
| PriceNotFoundLP                     (* 'Price not found for LP asset coins' *)
| CyclicDependencyGraph.              (* 'Dependency graph contains cycles. ...' *)

Inductive Result (A : Type) : Type :=
| Ok (a : A)
| Throw (e : Error).

Arguments Ok {A} a.
Arguments Throw {A} e.

Definition bind {A B : Type} (r : Result A) (k : A -> Result B) : Result B :=
  match r with
  | Ok a => k a
  | Throw e => Throw e
  end.

Notation "x <- r ;; k" := (bind r (fun x => k))
  (at level 61, r at next level, right associativity).

(** ** JavaScript maps in insertion order *)

Module JsMap.
Section Ops.
Context {V : Type}.

Definition t : Type := list (string * V).

Fixpoint get (m : t) (k : string) : option V :=
    match m with
    | [] => None
    | (k', v) :: m' => if String.eqb k' k then Some v else get m' k
    end.

Definition has (m : t) (k : string) : bool :=
    match get m k with Some _ => true | None => false end.

Fixpoint set (m : t) (k : string) (v : V) : t :=
    match m with
    | [] => [(k, v)]
    | (k', v') :: m' =>
        if String.eqb k' k then (k', v) :: m' else (k', v') :: set m' k v
    end.

Fixpoint delete (m : t) (k : string) : t :=
    match m with
    | [] => []
    | (k', v') :: m' =>
        if String.eqb k' k then m' else (k', v') :: delete m' k
    end.

Definition keys (m : t) : list string := map fst m.
Definition values (m : t) : list V := map snd m.
Definition size (m : t) : nat := List.length m.
End Ops.
Arguments t V : clear implicits.
End JsMap.

(** ** Numbers *)

Definition Z2Qc (z : Z) : Qc := Q2Qc (inject_Z z).

Definition Qcgtb (x y : Qc) : bool := negb (Qle_bool x y).   (* x > y, x.gt(y) *)
Definition Qcleb (x y : Qc) : bool := Qle_bool x y.          (* x.lte(y) *)
Definition Qcmin (x y : Qc) : Qc := if Qcleb x y then x else y.
Definition Qcmax (x y : Qc) : Qc := if Qcleb x y then y else x.

Definition sumQc (l : list Qc) : Qc := fold_right Qcplus 0 l.

(** ** Data model (the interfaces of the ocg module) *)

(** Modelled from the spec: [CoinInfo] and [Amount] come from the package
    @kunalabs-io/kai, which is not part of the sources.  By section 3 of
    the specification an amount is an integer scaled by a fixed
    per-asset-type decimal exponent, [int / 10^decimals]. *)
Record CoinInfo : Type := {
  typeName : string;
  decimals : nat
}.

Record Amount : Type := {
  int : Z;
  amt_decimals : nat
}.

Definition newAmount (coin : CoinInfo) (i : Z) : Amount :=
  {| int := i; amt_decimals := decimals coin |}.

Definition Amount_fromInt (i : Z) (d : nat) : Amount :=
  {| int := i; amt_decimals := d |}.

Definition pow10 (d : nat) : Qc := Z2Qc (10 ^ Z.of_nat d).

Definition toDecimal (a : Amount) : Qc := Z2Qc (int a) / pow10 (amt_decimals a).
Definition toNumber (a : Amount) : Qc := toDecimal a.

Inductive Asset : Type :=
| CoinAsset (coin : CoinInfo) (amount : Z)
| LPAsset (coinA coinB : CoinInfo) (amountA amountB : Z).

Record Obligation : Type := {
  from : string;   (* entity id (debtor) *)
  to : string;     (* entity id (creditor) *)
  asset : Asset
}.

Inductive EntityType : Type :=
| sav_depositors | sav | supply_pool_strategy | supply_pool | position | lp_user.

Record Entity : Type := {
  id : string;
  type : EntityType;
  name : string;
  holdings : list Asset;
  obligations : list Obligation
}.

Record AssetBalance : Type := {
  ab_coinType : string;
  ab_amount : Qc
}.

Record ShortfallDetail : Type := {
  coinType : string;
  amount : Qc;
  usdValue : Qc;
  causedBy : string
}.

Record EntityShortfall : Type := {
  owesTo : string;
  shortfalls : list ShortfallDetail;
  totalUsdValue : Qc
}.

Record ObligationDetail : Type := {
  od_to : string;
  od_coinType : string;
  od_amount : Amount;
  od_usdValue : Qc
}.

Record EntitySolvencyData : Type := {
  entityId : string;
  entityType : EntityType;
  entityName : string;
  totalAssets : list AssetBalance;
  totalLiabilities : list AssetBalance;
  totalAssetsUsd : Qc;
  totalLiabilitiesUsd : Qc;
  shortfallUsd : Qc;
  swapUsedUsd : Qc;
  swappedRepayments : list AssetBalance;
  shortfallsByCoin : JsMap.t Qc;
  shortfallsReceived : list EntityShortfall;
  shortfallsCaused : list EntityShortfall
}.

(** The [details] entries of [SolvencyResult] carry exactly the fields of
    [EntitySolvencyData] ([Object.fromEntries] keeps the entries of
    [shortfallsByCoin] in order), so the record is reused. *)
Record SolvencyResult : Type := {
  isSolvent : bool;
  insolventEntities : list string;
  details : list EntitySolvencyData
}.

Definition entities_get (entities : list Entity) (k : string) : option Entity :=
  find (fun e => String.eqb (id e) k) entities.

Fixpoint foldM {A B : Type} (f : A -> B -> Result A) (l : list B) (a : A) : Result A :=
  match l with
  | [] => Ok a
  | x :: l' => a' <- f a x ;; foldM f l' a'
  end.

(** ** First pass: the body of the first loop of [checkEntitySolvency] *)

(** *** Aggregate total assets by coin (holdings + incoming obligations) *)

Definition prevInt (totalAssets : JsMap.t Amount) (k : string) : Z :=
  match JsMap.get totalAssets k with
  | Some a => int a
  | None => 0%Z
  end.

(** For an LP asset both previous values are read before either is
    written, as in the source. *)
Definition addAsset (totalAssets : JsMap.t Amount) (a : Asset) : JsMap.t Amount :=
  match a with
  | CoinAsset coin amount =>
      let prev := prevInt totalAssets (typeName coin) in
      JsMap.set totalAssets (typeName coin) (newAmount coin (prev + amount))
  | LPAsset coinA coinB amountA amountB =>
      let prevA := prevInt totalAssets (typeName coinA) in
      let prevB := prevInt totalAssets (typeName coinB) in
      JsMap.set
        (JsMap.set totalAssets (typeName coinA) (newAmount coinA (prevA + amountA)))
        (typeName coinB) (newAmount coinB (prevB + amountB))
  end.

Definition addIncoming (entity : Entity) (totalAssets : JsMap.t Amount) (other : Entity)
  : JsMap.t Amount :=
  fold_left
    (fun m ob => if String.eqb (to ob) (id entity) then addAsset m (asset ob) else m)
    (obligations other) totalAssets.

Definition aggregateAssets (entities : list Entity) (entity : Entity) : JsMap.t Amount :=
  fold_left (addIncoming entity) entities (fold_left addAsset (holdings entity) []).

(** *** Flatten outgoing obligations into per-coin lines with USD value *)

Definition coinLine (priceOf : Qc) (creditor : string) (coin : CoinInfo) (i : Z)
  : ObligationDetail :=
  let amount := newAmount coin i in
  {| od_to := creditor;
     od_coinType := typeName coin;
     od_amount := amount;
     od_usdValue := toNumber amount * priceOf |}.

Definition flattenObligation (priceMap : JsMap.t Qc) (ob : Obligation)
  : Result (list ObligationDetail) :=
  match asset ob with
  | CoinAsset coin amount =>
      match JsMap.get priceMap (typeName coin) with
      | None => Throw (PriceNotFound (typeName coin))
      | Some price => Ok [coinLine price (to ob) coin amount]
      end
  | LPAsset coinA coinB amountA amountB =>
      match JsMap.get priceMap (typeName coinA), JsMap.get priceMap (typeName coinB) with
      | Some priceA, Some priceB =>
          Ok [coinLine priceA (to ob) coinA amountA; coinLine priceB (to ob) coinB amountB]
      | _, _ => Throw PriceNotFoundLP
      end
  end.

Fixpoint flattenObligations (priceMap : JsMap.t Qc) (obs : list Obligation)
  : Result (list ObligationDetail) :=
  match obs with
  | [] => Ok []
  | ob :: rest =>
      lines <- flattenObligation priceMap ob ;;
      more <- flattenObligations priceMap rest ;;
      Ok (lines ++ more)
  end.

(** *** Totals in USD *)

Definition addAssetUsd (priceMap : JsMap.t Qc) (acc : Qc) (kv : string * Amount) : Result Qc :=
  match JsMap.get priceMap (fst kv) with
  | None => Throw (PriceNotFound (fst kv))
  | Some price => Ok (acc + toDecimal (snd kv) * price)
  end.

Definition sumAssetsUsd (priceMap : JsMap.t Qc) (totalAssets : JsMap.t Amount) : Result Qc :=
  foldM (addAssetUsd priceMap) totalAssets 0.

Definition sumLiabilitiesUsd (obligations : list ObligationDetail) : Qc :=
  fold_left (fun acc ob => acc + od_usdValue ob) obligations 0.

(** *** Step 1: direct same-coin netting *)

Record Netting : Type := {
  remainingByCoin : JsMap.t Z;
  remainingLiabilitiesUsd : Qc;
  shortfallUsdByCoin : JsMap.t Qc
}.

(** The callback of the [reduce] that groups obligations by coin. *)
Definition groupStep (acc : JsMap.t (list ObligationDetail)) (ob : ObligationDetail)
  : JsMap.t (list ObligationDetail) :=
  match JsMap.get acc (od_coinType ob) with
  | Some list => JsMap.set acc (od_coinType ob) (list ++ [ob])
  | None => JsMap.set acc (od_coinType ob) [ob]
  end.

Definition groupByCoin (obligations : list ObligationDetail)
  : JsMap.t (list ObligationDetail) :=
  fold_left groupStep obligations [].

Definition totalObInt (obs : list ObligationDetail) : Z :=
  fold_left (fun sum o => (sum + int (od_amount o))%Z) obs 0%Z.

Definition netCoin (priceMap : JsMap.t Qc) (obligations : list ObligationDetail)
    (st : Netting) (g : string * list ObligationDetail) : Result Netting :=
  let coinType := fst g in
  let obs := snd g in
  let available :=
    match JsMap.get (remainingByCoin st) coinType with Some n => n | None => 0%Z end in
  let total := totalObInt obs in
  if (available >=? total)%Z then
    let rest := (available - total)%Z in
    Ok {| remainingByCoin :=
            if (rest >? 0)%Z then JsMap.set (remainingByCoin st) coinType rest
            else JsMap.delete (remainingByCoin st) coinType;
          remainingLiabilitiesUsd := remainingLiabilitiesUsd st;
          shortfallUsdByCoin := shortfallUsdByCoin st |}
  else
    match JsMap.get priceMap coinType with
    | None => Throw (PriceNotFound coinType)
    | Some price =>
        let short := (total - available)%Z in
        match find (fun ob => String.eqb (od_coinType ob) coinType) obligations with
        | Some obligation =>
            let shortfallAmount :=
              Amount_fromInt short (amt_decimals (od_amount obligation)) in
            let usdShort := toDecimal shortfallAmount * price in
            Ok {| remainingByCoin := JsMap.delete (remainingByCoin st) coinType;
                  remainingLiabilitiesUsd := remainingLiabilitiesUsd st + usdShort;
                  shortfallUsdByCoin := JsMap.set (shortfallUsdByCoin st) coinType usdShort |}
        | None =>
            Ok {| remainingByCoin := JsMap.delete (remainingByCoin st) coinType;
                  remainingLiabilitiesUsd := remainingLiabilitiesUsd st;
                  shortfallUsdByCoin := shortfallUsdByCoin st |}
        end
    end.

Definition directNetting (priceMap : JsMap.t Qc) (totalAssets : JsMap.t Amount)
    (obligations : list ObligationDetail) : Result Netting :=
  foldM (netCoin priceMap obligations) (groupByCoin obligations)
    {| remainingByCoin := map (fun kv => (fst kv, int (snd kv))) totalAssets;
       remainingLiabilitiesUsd := 0;
       shortfallUsdByCoin := [] |}.

(** *** Step 2: use remaining assets to cover shortfalls via swaps *)

Definition addRemainingUsd (priceMap : JsMap.t Qc) (totalAssets : JsMap.t Amount)
    (acc : Qc) (kv : string * Z) : Result Qc :=
  match JsMap.get priceMap (fst kv) with
  | None => Throw (PriceNotFound (fst kv))
  | Some price =>
      match JsMap.get totalAssets (fst kv) with
      | Some assetAmount =>
          let amountObj := Amount_fromInt (snd kv) (amt_decimals assetAmount) in
          Ok (acc + toNumber amountObj * price)
      | None => Ok acc
      end
  end.

Definition sumShortfallUsd (shortfallUsdByCoin : JsMap.t Qc) : Qc :=
  fold_left (fun sum shortfall => sum + shortfall) (JsMap.values shortfallUsdByCoin) 0.

Definition addRepayment (priceMap : JsMap.t Qc) (swapUsed totalShortfallUsd : Qc)
    (acc : list AssetBalance) (kv : string * Qc) : Result (list AssetBalance) :=
  let proportion := snd kv / totalShortfallUsd in
  let allocatedUsd := swapUsed * proportion in
  match JsMap.get priceMap (fst kv) with
  | None => Throw (PriceNotFound (fst kv))
  | Some price =>
      let repaidAmount := allocatedUsd / price in
      Ok (acc ++ [ {| ab_coinType := fst kv; ab_amount := repaidAmount |} ])
  end.

Record Swap : Type := {
  sw_swapUsedUsd : Qc;
  sw_swappedRepaymentsList : list AssetBalance;
  sw_remainingLiabilitiesUsd : Qc
}.

Definition swapCoverage (priceMap : JsMap.t Qc) (totalAssets : JsMap.t Amount)
    (net : Netting) : Result Swap :=
  if Qcgtb (remainingLiabilitiesUsd net) 0
     && Nat.ltb 0 (JsMap.size (remainingByCoin net)) then
    remainingAssetsUsd <-
      foldM (addRemainingUsd priceMap totalAssets) (remainingByCoin net) 0 ;;
    let swapUsed := Qcmin remainingAssetsUsd (remainingLiabilitiesUsd net) in
    repayments <-
      (if Qcgtb swapUsed 0 && Nat.ltb 0 (JsMap.size (shortfallUsdByCoin net)) then
         foldM (addRepayment priceMap swapUsed (sumShortfallUsd (shortfallUsdByCoin net)))
           (shortfallUsdByCoin net) []
       else Ok []) ;;
    Ok {| sw_swapUsedUsd := swapUsed;
          sw_swappedRepaymentsList := repayments;
          sw_remainingLiabilitiesUsd := remainingLiabilitiesUsd net - swapUsed |}
  else
    Ok {| sw_swapUsedUsd := 0;
          sw_swappedRepaymentsList := [];
          sw_remainingLiabilitiesUsd := remainingLiabilitiesUsd net |}.

(** *** Details and the per-coin shortfalls that remain after swaps *)

Definition totalAssetsList (totalAssets : JsMap.t Amount) : list AssetBalance :=
  map (fun kv => {| ab_coinType := fst kv; ab_amount := toNumber (snd kv) |}) totalAssets.

Definition totalLiabilitiesList (obligations : list ObligationDetail) : list AssetBalance :=
  JsMap.values
    (fold_left
       (fun acc ob =>
          match JsMap.get acc (od_coinType ob) with
          | Some ex =>
              JsMap.set acc (od_coinType ob)
                {| ab_coinType := od_coinType ob;
                   ab_amount := ab_amount ex + toNumber (od_amount ob) |}
          | None =>
              JsMap.set acc (od_coinType ob)
                {| ab_coinType := od_coinType ob;
                   ab_amount := toNumber (od_amount ob) |}
          end)
       obligations []).

Definition addShortfallByCoin (priceMap : JsMap.t Qc) (finalShortfallUsd totalShortfallUsd : Qc)
    (m : JsMap.t Qc) (kv : string * Qc) : JsMap.t Qc :=
  let proportion := snd kv / totalShortfallUsd in
  let remainingShortfallUsd := finalShortfallUsd * proportion in
  match JsMap.get priceMap (fst kv) with
  | Some price =>
      let remainingShortfallAmount := remainingShortfallUsd / price in
      if Qcgtb remainingShortfallAmount 0
      then JsMap.set m (fst kv) remainingShortfallAmount
      else m
  | None => m
  end.

Definition shortfallsByCoinMap (priceMap : JsMap.t Qc) (finalShortfallUsd : Qc)
    (shortfallUsdByCoin : JsMap.t Qc) : JsMap.t Qc :=
  if Qcgtb finalShortfallUsd 0 && Nat.ltb 0 (JsMap.size shortfallUsdByCoin) then
    fold_left
      (addShortfallByCoin priceMap finalShortfallUsd (sumShortfallUsd shortfallUsdByCoin))
      shortfallUsdByCoin []
  else [].

(** *** The record of one entity.  (The array [insolventEntities] that the
    first loop also fills is never read again: the result is built from
    [finalInsolventEntities] of the third pass.) *)

Definition entitySolvency (entities : list Entity) (priceMap : JsMap.t Qc) (entity : Entity)
  : Result EntitySolvencyData :=
  let totalAssets := aggregateAssets entities entity in
  obligations <- flattenObligations priceMap (obligations entity) ;;
  totalAssetsUsd <- sumAssetsUsd priceMap totalAssets ;;
  let totalLiabilitiesUsd := sumLiabilitiesUsd obligations in
  net <- directNetting priceMap totalAssets obligations ;;
  swap <- swapCoverage priceMap totalAssets net ;;
  let finalShortfallUsd := Qcmax (sw_remainingLiabilitiesUsd swap) 0 in
  Ok {| entityId := id entity;
        entityType := type entity;
        entityName := name entity;
        totalAssets := totalAssetsList totalAssets;
        totalLiabilities := totalLiabilitiesList obligations;
        totalAssetsUsd := totalAssetsUsd;
        totalLiabilitiesUsd := totalLiabilitiesUsd;
        shortfallUsd := finalShortfallUsd;
        swapUsedUsd := sw_swapUsedUsd swap;
        swappedRepayments := sw_swappedRepaymentsList swap;
        shortfallsByCoin :=
          shortfallsByCoinMap priceMap finalShortfallUsd (shortfallUsdByCoin net);
        shortfallsReceived := [];
        shortfallsCaused := [] |}.

Definition firstPassStep (entities : list Entity) (priceMap : JsMap.t Qc)
    (entityData : JsMap.t EntitySolvencyData) (entity : Entity)
  : Result (JsMap.t EntitySolvencyData) :=
  data <- entitySolvency entities priceMap entity ;;
  Ok (JsMap.set entityData (id entity) data).

Definition firstPass (entities : list Entity) (priceMap : JsMap.t Qc)
  : Result (JsMap.t EntitySolvencyData) :=
  foldM (firstPassStep entities priceMap) entities [].

(** ** Second pass: shortfall propagation *)

(** *** The dependency graph *)

(** Modelled from the spec: [DirectedGraph] (graphology) and [hasCycle],
    [topologicalSort] (graphology-dag) are external packages, not part of
    the sources.  By section 4.2 the graph has one node per entity id and
    one edge debtor -> creditor per pair with both ends in the set;
    [hasCycle] says whether it has a directed cycle and
    [topologicalSort] returns some valid topological order.  The order
    is computed here by repeatedly taking the first remaining node without
    an incoming edge from a remaining node; the graph has a cycle exactly
    when this gets stuck. *)
Record DirectedGraph : Type := {
  nodes : list string;
  edges : list (string * string)
}.

Definition hasNode (g : DirectedGraph) (n : string) : bool :=
  existsb (String.eqb n) (nodes g).

Definition hasEdge (g : DirectedGraph) (a b : string) : bool :=
  existsb (fun e => String.eqb (fst e) a && String.eqb (snd e) b) (edges g).

Definition addEdge (g : DirectedGraph) (a b : string) : DirectedGraph :=
  {| nodes := nodes g; edges := edges g ++ [(a, b)] |}.

Definition noIncoming (g : DirectedGraph) (remaining : list string) (v : string) : bool :=
  forallb (fun u => negb (hasEdge g u v)) remaining.

Fixpoint peel (g : DirectedGraph) (fuel : nat) (remaining : list string)
  : option (list string) :=
  match remaining with
  | [] => Some []
  | _ :: _ =>
      match fuel with
      | O => None
      | S fuel' =>
          match find (noIncoming g remaining) remaining with
          | None => None
          | Some v =>
              option_map (cons v) (peel g fuel' (remove string_dec v remaining))
          end
      end
  end.

Definition topologicalOrder (g : DirectedGraph) : option (list string) :=
  peel g (List.length (nodes g)) (nodes g).

Definition hasCycle (g : DirectedGraph) : bool :=
  match topologicalOrder g with
  | Some _ => false
  | None => true
  end.

Definition topologicalSort (g : DirectedGraph) : list string :=
  match topologicalOrder g with
  | Some order => order
  | None => []
  end.

(** Only add edge if both nodes exist and edge doesn't already exist. *)
Definition addObligationEdge (entity : Entity) (graph : DirectedGraph) (obligation : Obligation)
  : DirectedGraph :=
  if hasNode graph (id entity) && hasNode graph (to obligation) then
    if negb (hasEdge graph (id entity) (to obligation))
    then addEdge graph (id entity) (to obligation)
    else graph
  else graph.

Definition buildGraph (entities : list Entity) : DirectedGraph :=
  fold_left
    (fun graph entity => fold_left (addObligationEdge entity) (obligations entity) graph)
    entities
    {| nodes := map id entities; edges := [] |}.

(** *** Field updates of the mutable record *)

Definition set_shortfallsReceived (d : EntitySolvencyData) (x : list EntityShortfall)
  : EntitySolvencyData :=
  {| entityId := entityId d; entityType := entityType d; entityName := entityName d;
     totalAssets := totalAssets d; totalLiabilities := totalLiabilities d;
     totalAssetsUsd := totalAssetsUsd d; totalLiabilitiesUsd := totalLiabilitiesUsd d;
     shortfallUsd := shortfallUsd d; swapUsedUsd := swapUsedUsd d;
     swappedRepayments := swappedRepayments d;
     shortfallsByCoin := shortfallsByCoin d;
     shortfallsReceived := x;
     shortfallsCaused := shortfallsCaused d |}.

Definition set_shortfallsCaused (d : EntitySolvencyData) (x : list EntityShortfall)
  : EntitySolvencyData :=
  {| entityId := entityId d; entityType := entityType d; entityName := entityName d;
     totalAssets := totalAssets d; totalLiabilities := totalLiabilities d;
     totalAssetsUsd := totalAssetsUsd d; totalLiabilitiesUsd := totalLiabilitiesUsd d;
     shortfallUsd := shortfallUsd d; swapUsedUsd := swapUsedUsd d;
     swappedRepayments := swappedRepayments d;
     shortfallsByCoin := shortfallsByCoin d;
     shortfallsReceived := shortfallsReceived d;
     shortfallsCaused := x |}.

Definition set_shortfallsByCoin (d : EntitySolvencyData) (x : JsMap.t Qc)
  : EntitySolvencyData :=
  {| entityId := entityId d; entityType := entityType d; entityName := entityName d;
     totalAssets := totalAssets d; totalLiabilities := totalLiabilities d;
     totalAssetsUsd := totalAssetsUsd d; totalLiabilitiesUsd := totalLiabilitiesUsd d;
     shortfallUsd := shortfallUsd d; swapUsedUsd := swapUsedUsd d;
     swappedRepayments := swappedRepayments d;
     shortfallsByCoin := x;
     shortfallsReceived := shortfallsReceived d;
     shortfallsCaused := shortfallsCaused d |}.

(** *** Group obligations by creditor and coin type *)

Definition getOr0 (m : JsMap.t Qc) (k : string) : Qc :=
  match JsMap.get m k with
  | Some x => x
  | None => 0
  end.

Definition ensureCreditor (m : JsMap.t (JsMap.t Qc)) (creditorId : string)
  : JsMap.t (JsMap.t Qc) :=
  if JsMap.has m creditorId then m else JsMap.set m creditorId [].

Definition addCreditorObligation (m : JsMap.t (JsMap.t Qc)) (obligation : Obligation)
  : JsMap.t (JsMap.t Qc) :=
  let creditorId := to obligation in
  match asset obligation with
  | CoinAsset coin i =>
      let ct := typeName coin in
      let amount := toNumber (newAmount coin i) in
      let m1 := ensureCreditor m creditorId in
      match JsMap.get m1 creditorId with
      | Some creditorObligations =>
          JsMap.set m1 creditorId
            (JsMap.set creditorObligations ct (getOr0 creditorObligations ct + amount))
      | None => m1
      end
  | LPAsset coinA coinB iA iB =>
      let coinAType := typeName coinA in
      let coinBType := typeName coinB in
      let amountA := toNumber (newAmount coinA iA) in
      let amountB := toNumber (newAmount coinB iB) in
      let m1 := ensureCreditor m creditorId in
      match JsMap.get m1 creditorId with
      | Some creditorObligations =>
          let withA :=
            JsMap.set creditorObligations coinAType
              (getOr0 creditorObligations coinAType + amountA) in
          JsMap.set m1 creditorId
            (JsMap.set withA coinBType (getOr0 withA coinBType + amountB))
      | None => m1
      end
  end.

Definition obligationsByCreditor (entity : Entity) : JsMap.t (JsMap.t Qc) :=
  fold_left addCreditorObligation (obligations entity) [].

(** *** Recording a shortfall in a [shortfallsReceived] / [shortfallsCaused] list

    [key] is the entity searched for in [owesTo]: the debtor's id for the
    creditor's received list, the creditor's id for the debtor's caused
    list.  An existing entry and an existing detail are updated in place;
    otherwise one is pushed at the end. *)

Fixpoint updateFirst {A : Type} (p : A -> bool) (f : A -> A) (l : list A) : list A :=
  match l with
  | [] => []
  | x :: l' => if p x then f x :: l' else x :: updateFirst p f l'
  end.

Definition newDetail (ct : string) (creditorShortfall creditorShortfallUsd : Qc)
    (entityId : string) : ShortfallDetail :=
  {| coinType := ct;
     amount := creditorShortfall;
     usdValue := creditorShortfallUsd;
     causedBy := entityId |}.

Definition bumpDetail (creditorShortfall creditorShortfallUsd : Qc) (d : ShortfallDetail)
  : ShortfallDetail :=
  {| coinType := coinType d;
     amount := amount d + creditorShortfall;
     usdValue := usdValue d + creditorShortfallUsd;
     causedBy := causedBy d |}.

Definition bumpShortfall (ct : string) (creditorShortfall creditorShortfallUsd : Qc)
    (entityId : string) (s : EntityShortfall) : EntityShortfall :=
  {| owesTo := owesTo s;
     shortfalls :=
       match find (fun d => String.eqb (coinType d) ct) (shortfalls s) with
       | Some _ =>
           updateFirst (fun d => String.eqb (coinType d) ct)
             (bumpDetail creditorShortfall creditorShortfallUsd) (shortfalls s)
       | None =>
           shortfalls s ++ [newDetail ct creditorShortfall creditorShortfallUsd entityId]
       end;
     totalUsdValue := totalUsdValue s + creditorShortfallUsd |}.

Definition recordShortfall (key ct : string) (creditorShortfall creditorShortfallUsd : Qc)
    (entityId : string) (l : list EntityShortfall) : list EntityShortfall :=
  match find (fun s => String.eqb (owesTo s) key) l with
  | Some _ =>
      updateFirst (fun s => String.eqb (owesTo s) key)
        (bumpShortfall ct creditorShortfall creditorShortfallUsd entityId) l
  | None =>
      l ++ [ {| owesTo := key;
                shortfalls := [newDetail ct creditorShortfall creditorShortfallUsd entityId];
                totalUsdValue := creditorShortfallUsd |} ]
  end.

(** *** Pro-rata distribution of one coin type's shortfall *)

(** The body of the inner loop over [obligationsByCreditor].  The records
    are read from the current state at every step, so a creditor that is
    the debtor itself (one shared object in the source) is handled as the
    source does. *)
Definition allocateToCreditor (entityId ct : string)
    (shortfallAmount shortfallUsdValue totalObligationsForCoin : Qc)
    (entityData : JsMap.t EntitySolvencyData) (kv : string * JsMap.t Qc)
  : JsMap.t EntitySolvencyData :=
  let creditorId := fst kv in
  let creditorObligationAmount := getOr0 (snd kv) ct in
  if Qcgtb creditorObligationAmount 0 then
    let proportion := creditorObligationAmount / totalObligationsForCoin in
    let creditorShortfall := shortfallAmount * proportion in
    let creditorShortfallUsd := shortfallUsdValue * proportion in
    match JsMap.get entityData creditorId with
    | None => entityData                      (* if (!creditorData) continue *)
    | Some creditorData =>
        (* Add to creditor's received shortfalls *)
        let st1 :=
          JsMap.set entityData creditorId
            (set_shortfallsReceived creditorData
               (recordShortfall entityId ct creditorShortfall creditorShortfallUsd entityId
                  (shortfallsReceived creditorData))) in
        (* Add to this entity's caused shortfalls *)
        let st2 :=
          match JsMap.get st1 entityId with
          | Some data =>
              JsMap.set st1 entityId
                (set_shortfallsCaused data
                   (recordShortfall creditorId ct creditorShortfall creditorShortfallUsd
                      entityId (shortfallsCaused data)))
          | None => st1
          end in
        (* Update creditor's shortfalls by coin ONLY if the creditor has
           outgoing obligations *)
        match JsMap.get st2 creditorId with
        | Some creditorData' =>
            if Nat.ltb 0 (List.length (totalLiabilities creditorData')) then
              let creditorCurrentShortfall := getOr0 (shortfallsByCoin creditorData') ct in
              JsMap.set st2 creditorId
                (set_shortfallsByCoin creditorData'
                   (JsMap.set (shortfallsByCoin creditorData') ct
                      (creditorCurrentShortfall + creditorShortfall)))
            else st2
        | None => st2
        end
    end
  else entityData.

Definition totalObligationsForCoin (obligationsByCreditor : JsMap.t (JsMap.t Qc))
    (ct : string) : Qc :=
  fold_left (fun sum creditorObs => sum + getOr0 creditorObs ct)
    (JsMap.values obligationsByCreditor) 0.

(** The body of the loop over [totalShortfallsByCoin]. *)
Definition distributeCoin (entityId : string) (obligationsByCreditor : JsMap.t (JsMap.t Qc))
    (priceMap : JsMap.t Qc) (entityData : JsMap.t EntitySolvencyData) (kv : string * Qc)
  : JsMap.t EntitySolvencyData :=
  let ct := fst kv in
  let shortfallAmount := snd kv in
  let total := totalObligationsForCoin obligationsByCreditor ct in
  if Qcgtb total 0 then
    match JsMap.get priceMap ct with
    | None => entityData                      (* if (!price) continue *)
    | Some price =>
        let shortfallUsdValue := shortfallAmount * price in
        fold_left (allocateToCreditor entityId ct shortfallAmount shortfallUsdValue total)
          obligationsByCreditor entityData
    end
  else entityData.

Definition propagateEntityShortfalls (entityId : string)
    (entityData : JsMap.t EntitySolvencyData) (entities : list Entity)
    (priceMap : JsMap.t Qc) : JsMap.t EntitySolvencyData :=
  match entities_get entities entityId, JsMap.get entityData entityId with
  | Some entity, Some data =>
      (* a copy: later writes to data.shortfallsByCoin are not iterated *)
      let totalShortfallsByCoin := shortfallsByCoin data in
      if Nat.ltb 0 (JsMap.size totalShortfallsByCoin) then
        fold_left (distributeCoin entityId (obligationsByCreditor entity) priceMap)
          totalShortfallsByCoin entityData
      else entityData
  | _, _ => entityData
  end.

(** The loop of [propagateShortfalls] over a processing order. *)
Definition propagateInOrder (processingOrder : list string)
    (entityData : JsMap.t EntitySolvencyData) (entities : list Entity)
    (priceMap : JsMap.t Qc) : JsMap.t EntitySolvencyData :=
  fold_left
    (fun st entityId => propagateEntityShortfalls entityId st entities priceMap)
    processingOrder entityData.

Definition propagateShortfalls (entityData : JsMap.t EntitySolvencyData)
    (entities : list Entity) (priceMap : JsMap.t Qc)
  : Result (JsMap.t EntitySolvencyData) :=
  let graph := buildGraph entities in
  if hasCycle graph then Throw CyclicDependencyGraph
  else Ok (propagateInOrder (topologicalSort graph) entityData entities priceMap).

(** ** Third pass and the result *)

Definition isInsolvent (data : EntitySolvencyData) : bool :=
  let hasDirectShortfall :=
    Nat.ltb 0 (JsMap.size (shortfallsByCoin data)) || Qcgtb (shortfallUsd data) 0 in
  let hasOutgoingObligations := Nat.ltb 0 (List.length (totalLiabilities data)) in
  let hasReceivedShortfalls := Nat.ltb 0 (List.length (shortfallsReceived data)) in
  hasDirectShortfall || (hasOutgoingObligations && hasReceivedShortfalls).

Definition buildResult (entityData : JsMap.t EntitySolvencyData) : SolvencyResult :=
  let finalInsolventEntities :=
    map entityId (filter isInsolvent (JsMap.values entityData)) in
  {| isSolvent := Nat.eqb (List.length finalInsolventEntities) 0;
     insolventEntities := finalInsolventEntities;
     details := JsMap.values entityData |}.

Definition checkEntitySolvency (entities : list Entity) (priceMap : JsMap.t Qc)
  : Result SolvencyResult :=
  entityData <- firstPass entities priceMap ;;
  propagated <- propagateShortfalls entityData entities priceMap ;;
  Ok (buildResult propagated).

(** The same run with the processing order of the second pass given
    explicitly (used to compare topological orders). *)
Definition checkEntitySolvencyInOrder (processingOrder : list string)
    (entities : list Entity) (priceMap : JsMap.t Qc) : Result SolvencyResult :=
  entityData <- firstPass entities priceMap ;;
  Ok (buildResult (propagateInOrder processingOrder entityData entities priceMap)).

(** ** Observations of the propagation state

    Lookups into the lists that the second pass fills: the entry of a
    counterparty in a [shortfallsReceived] / [shortfallsCaused] list and
    the detail of a coin type inside it, as [find] in the source returns
    them. *)

Definition entryOf (l : list EntityShortfall) (k : string) : option EntityShortfall :=
  find (fun s => String.eqb (owesTo s) k) l.

Definition cellOf (l : list EntityShortfall) (k ct : string) : option (Qc * Qc * string) :=
  match entryOf l k with
  | Some s =>
      option_map (fun d => (amount d, usdValue d, causedBy d))
        (find (fun d => String.eqb (coinType d) ct) (shortfalls s))
  | None => None
  end.

Definition totalOfEntry (l : list EntityShortfall) (k : string) : option Qc :=
  option_map totalUsdValue (entryOf l k).

Definition optOr0 (x : option Qc) : Qc :=
  match x with
  | Some v => v
  | None => 0
  end.

Definition cellAmount (c : option (Qc * Qc * string)) : Qc :=
  match c with
  | Some (x, _, _) => x
  | None => 0
  end.

Definition cellUsd (c : option (Qc * Qc * string)) : Qc :=
  match c with
  | Some (_, u, _) => u
  | None => 0
  end.

(** Amount and USD value of the shortfall that [creditor] has on record as
    received from [origin] in coin [ct] (0 when there is no such entry),
    and the same for the shortfall that [debtor] has on record as caused
    to [dest]. *)
Definition receivedCell (st : JsMap.t EntitySolvencyData) (creditor origin ct : string)
  : option (Qc * Qc * string) :=
  match JsMap.get st creditor with
  | Some d => cellOf (shortfallsReceived d) origin ct
  | None => None
  end.

Definition causedCell (st : JsMap.t EntitySolvencyData) (debtor dest ct : string)
  : option (Qc * Qc * string) :=
  match JsMap.get st debtor with
  | Some d => cellOf (shortfallsCaused d) dest ct
  | None => None
  end.

Definition receivedAmount st creditor origin ct : Qc := cellAmount (receivedCell st creditor origin ct).
Definition receivedUsd st creditor origin ct : Qc := cellUsd (receivedCell st creditor origin ct).
Definition causedAmount st debtor dest ct : Qc := cellAmount (causedCell st debtor dest ct).
Definition causedUsd st debtor dest ct : Qc := cellUsd (causedCell st debtor dest ct).

(** The observable content of a propagation state: every lookup by
    entity, counterparty and coin type.  Two states with the same
    observations differ only in the order of the entries of their lists. *)
Record Obs : Type := {
  o_byCoin : string -> string -> option Qc;
  o_recvTotal : string -> string -> option Qc;
  o_recv : string -> string -> string -> option (Qc * Qc * string);
  o_causedTotal : string -> string -> option Qc;
  o_caused : string -> string -> string -> option (Qc * Qc * string)
}.

Definition observe (st : JsMap.t EntitySolvencyData) : Obs :=
  {| o_byCoin := fun e c =>
       match JsMap.get st e with
       | Some d => JsMap.get (shortfallsByCoin d) c
       | None => None
       end;
     o_recvTotal := fun e k =>
       match JsMap.get st e with
       | Some d => totalOfEntry (shortfallsReceived d) k
       | None => None
       end;
     o_recv := receivedCell st;
     o_causedTotal := fun e k =>
       match JsMap.get st e with
       | Some d => totalOfEntry (shortfallsCaused d) k
       | None => None
       end;
     o_caused := causedCell st |}.

Definition present (st : JsMap.t EntitySolvencyData) (k : string) : bool :=
  JsMap.has st k.

Definition hasLiabilities (st : JsMap.t EntitySolvencyData) (k : string) : bool :=
  match JsMap.get st k with
  | Some d => Nat.ltb 0 (List.length (totalLiabilities d))
  | None => false
  end.

Definition bumpCell (x u : Qc) (origin : string) (c : option (Qc * Qc * string))
  : option (Qc * Qc * string) :=
  match c with
  | Some (x0, u0, o0) => Some (x0 + x, u0 + u, o0)
  | None => Some (x, u, origin)
  end.

(** What one allocation of [x] units ([u] USD) of coin [ct] from debtor
    [entityId] to creditor [creditorId] does to the observations. *)
Definition allocObs (entityId creditorId ct : string) (x u : Qc) (liab : bool) (o : Obs) : Obs :=
  {| o_byCoin := fun e c =>
       if liab && String.eqb e creditorId && String.eqb c ct
       then Some (optOr0 (o_byCoin o e c) + x) else o_byCoin o e c;
     o_recvTotal := fun e k =>
       if String.eqb e creditorId && String.eqb k entityId
       then Some (optOr0 (o_recvTotal o e k) + u) else o_recvTotal o e k;
     o_recv := fun e k c =>
       if String.eqb e creditorId && String.eqb k entityId && String.eqb c ct
       then bumpCell x u entityId (o_recv o e k c) else o_recv o e k c;
     o_causedTotal := fun e k =>
       if String.eqb e entityId && String.eqb k creditorId
       then Some (optOr0 (o_causedTotal o e k) + u) else o_causedTotal o e k;
     o_caused := fun e k c =>
       if String.eqb e entityId && String.eqb k creditorId && String.eqb c ct
       then bumpCell x u entityId (o_caused o e k c) else o_caused o e k c |}.

(** The loops of [propagateEntityShortfalls] on observations; [pres] and
    [liab] say which ids have a record and which records have
    liabilities (neither changes during propagation). *)
Definition allocateObs (pres liab : string -> bool) (entityId ct : string)
    (shortfallAmount shortfallUsdValue total : Qc) (o : Obs) (kv : string * JsMap.t Qc) : Obs :=
  let amt := getOr0 (snd kv) ct in
  if Qcgtb amt 0 && pres (fst kv) then
    allocObs entityId (fst kv) ct (shortfallAmount * (amt / total))
      (shortfallUsdValue * (amt / total)) (liab (fst kv)) o
  else o.

Definition distributeObs (pres liab : string -> bool) (entityId : string)
    (obligationsByCreditor : JsMap.t (JsMap.t Qc)) (priceMap : JsMap.t Qc)
    (o : Obs) (kv : string * Qc) : Obs :=
  let total := totalObligationsForCoin obligationsByCreditor (fst kv) in
  if Qcgtb total 0 then
    match JsMap.get priceMap (fst kv) with
    | None => o
    | Some price =>
        fold_left (allocateObs pres liab entityId (fst kv) (snd kv) (snd kv * price) total)
          obligationsByCreditor o
    end
  else o.

(** Applying [f] to the record stored under [k], if there is one. *)
Definition modify (st : JsMap.t EntitySolvencyData) (k : string)
    (f : EntitySolvencyData -> EntitySolvencyData) : JsMap.t EntitySolvencyData :=
  match JsMap.get st k with
  | Some d => JsMap.set st k (f d)
  | None => st
  end.

(** The record of [e] after one allocation from [entityId] to
    [creditorId], in terms of its record [d] before. *)
Definition allocRecord (entityId creditorId ct : string) (x u : Qc) (e : string)
    (d : EntitySolvencyData) : EntitySolvencyData :=
  let d1 :=
    if String.eqb creditorId e
    then set_shortfallsReceived d
           (recordShortfall entityId ct x u entityId (shortfallsReceived d))
    else d in
  let d2 :=
    if String.eqb entityId e
    then set_shortfallsCaused d1
           (recordShortfall creditorId ct x u entityId (shortfallsCaused d1))
    else d1 in
  if String.eqb creditorId e && Nat.ltb 0 (List.length (totalLiabilities d2))
  then set_shortfallsByCoin d2
         (JsMap.set (shortfallsByCoin d2) ct (getOr0 (shortfallsByCoin d2) ct + x))
  else d2.

(** The part of a record that the second pass never writes, and the
    static part of a whole state. *)
Definition blank (d : EntitySolvencyData) : EntitySolvencyData :=
  set_shortfallsByCoin (set_shortfallsReceived (set_shortfallsCaused d []) []) [].

Definition statics (st : JsMap.t EntitySolvencyData) : JsMap.t EntitySolvencyData :=
  map (fun kv => (fst kv, blank (snd kv))) st.

(** One entity's propagation on observations, for a given copy
    [snapshot] of its per-coin shortfalls. *)
Definition stepObs (pres liab : string -> bool) (entityId : string) (entity : Entity)
    (priceMap : JsMap.t Qc) (snapshot : JsMap.t Qc) (o : Obs) : Obs :=
  fold_left (distributeObs pres liab entityId (obligationsByCreditor entity) priceMap)
    snapshot o.

(** ** Well-formed inputs

    Section 3 of the specification: amounts are non-negative integers and
    prices are positive; one asset type has one decimal exponent. *)

Definition assetNonneg (a : Asset) : bool :=
  match a with
  | CoinAsset _ i => (0 <=? i)%Z
  | LPAsset _ _ iA iB => (0 <=? iA)%Z && (0 <=? iB)%Z
  end.

Definition nonnegObligations (entity : Entity) : bool :=
  forallb (fun ob => assetNonneg (asset ob)) (obligations entity).

Definition nonnegHoldings (entity : Entity) : bool :=
  forallb assetNonneg (holdings entity).

Definition positivePrices (priceMap : JsMap.t Qc) : bool :=
  forallb (fun kv => Qcgtb (snd kv) 0) priceMap.

(** Every creditor of the grouped obligations has a record in the state. *)
Definition creditorsPresent (st : JsMap.t EntitySolvencyData)
    (obligationsByCreditor : JsMap.t (JsMap.t Qc)) : bool :=
  forallb (present st) (JsMap.keys obligationsByCreditor).

(** All amounts of a per-coin map are non-negative. *)
Definition nonnegMap (m : JsMap.t Qc) : Prop := forall c, 0 <= getOr0 m c.

(** ** Concrete inputs (the scenarios of the tests and of SOLVENCY_CHECK.md) *)

Module Examples.

Definition USDC : CoinInfo := {| typeName := "USDC"; decimals := 6 |}.
Definition SUI : CoinInfo := {| typeName := "SUI"; decimals := 9 |}.
Definition DEEP : CoinInfo := {| typeName := "DEEP"; decimals := 6 |}.

(** [Amount.fromNum(n, USDC.decimals).int] for a whole number [n]. *)
Definition usdc (n : Z) : Asset := CoinAsset USDC (n * 1000000)%Z.
Definition sui (n : Z) : Asset := CoinAsset SUI (n * 1000000000)%Z.

Definition priceMap : JsMap.t Qc :=
  [("USDC", Z2Qc 1); ("SUI", Z2Qc 2000); ("DEEP", Z2Qc 50000)].

Definition mkEntity (i : string) (h : list Asset) (o : list Obligation) : Entity :=
  {| id := i; type := sav; name := i; holdings := h; obligations := o |}.

Definition owes (debtor creditor : string) (a : Asset) : Obligation :=
  {| from := debtor; to := creditor; asset := a |}.

Definition stateOf (r : Result (JsMap.t EntitySolvencyData)) : JsMap.t EntitySolvencyData :=
  match r with
  | Ok st => st
  | Throw _ => []
  end.

Definition resultOf (r : Result SolvencyResult) : SolvencyResult :=
  match r with
  | Ok res => res
  | Throw _ => {| isSolvent := true; insolventEntities := []; details := [] |}
  end.

(** SOLVENCY_CHECK.md, "Shortfall Propagation Example". *)
Definition chain : list Entity :=
  [ mkEntity "position" [usdc 400] [owes "position" "pool" (usdc 1000)];
    mkEntity "pool" [] [owes "pool" "strategy" (usdc 800)];
    mkEntity "strategy" [] [owes "strategy" "vault" (usdc 600)];
    mkEntity "vault" [] [] ].

(** Test 'should distribute shortfalls pro-rata among multiple creditors'. *)
Definition proRataDebtor : Entity :=
  mkEntity "entity3" [usdc 50]
    [owes "entity3" "entity1" (usdc 300); owes "entity3" "entity2" (usdc 100)].

Definition proRata : list Entity :=
  [ mkEntity "entity1" [] []; mkEntity "entity2" [] []; proRataDebtor ].

(** The same debtor when "entity2" is not an entity of the map. *)
Definition proRataExternal : list Entity :=
  [ mkEntity "entity1" [] []; proRataDebtor ].

(** Test 'should throw error for missing price': holdings only, and the
    price of the held coin removed. *)
Definition holderOnly : list Entity := [ mkEntity "entity1" [usdc 1000] [] ].
Definition pricesWithoutUSDC : JsMap.t Qc := [("SUI", Z2Qc 2000); ("DEEP", Z2Qc 50000)].



(** A debtor that holds 7 USDC and owes 1 USDC to "c1" and 9 USDC to
    "c2": a shortfall of 3 USDC, of which one tenth goes to "c1". *)
Definition tenths : list Entity :=
  [ mkEntity "c1" [] [];
    mkEntity "c2" [] [];
    mkEntity "debtor" [usdc 7]
      [owes "debtor" "c1" (usdc 1); owes "debtor" "c2" (usdc 9)] ].

(** The chain of SOLVENCY_CHECK.md with a position that holds all it
    owes. *)
Definition solventChain : list Entity :=
  [ mkEntity "position" [usdc 1000] [owes "position" "pool" (usdc 1000)];
    mkEntity "pool" [] [owes "pool" "strategy" (usdc 800)];
    mkEntity "strategy" [] [owes "strategy" "vault" (usdc 600)];
    mkEntity "vault" [] [] ].

(** Test 'should throw error when dependency graph contains cycles'. *)
Definition cycle : list Entity :=
  [ mkEntity "entityA" [usdc 50] [owes "entityA" "entityB" (usdc 100)];
    mkEntity "entityB" [usdc 50] [owes "entityB" "entityC" (usdc 100)];
    mkEntity "entityC" [usdc 50] [owes "entityC" "entityA" (usdc 100)] ].

(** Test 'should distribute remaining assets proportionally across
    shortfalls': $2500 of assets against $50800 of liabilities. *)
Definition swapTest : list Entity :=
  [ mkEntity "entity1" [usdc 500; sui 1]
      [owes "entity1" "creditor1" (usdc 800);
       owes "entity1" "creditor2" (CoinAsset DEEP 1000000)] ].

(** Test 'should split LP assets into individual coin obligations', with
    the creditor added as an entity that holds 3 SUI. *)
Definition lpCreditor : Entity := mkEntity "creditor1" [sui 3] [].

Definition lpPair : list Entity :=
  [ mkEntity "entity1" [usdc 1000; sui 2]
      [owes "entity1" "creditor1" (LPAsset USDC SUI 500000000 1000000000)];
    lpCreditor ].

End Examples.

(** ** Reading a result *)

Definition detailsOf (r : SolvencyResult) (e : string) : option EntitySolvencyData :=
  find (fun d => String.eqb (entityId d) e) (details r).

(** The shortfall amount that the result reports [creditor] to have
    received from [origin] in coin [ct]. *)
Definition reportedReceived (r : SolvencyResult) (creditor origin ct : string) : Qc :=
  match detailsOf r creditor with
  | Some d => cellAmount (cellOf (shortfallsReceived d) origin ct)
  | None => 0
  end.

(** ** Asset types referenced by an entity, and whether they are priced *)

Definition assetCoinTypes (a : Asset) : list string :=
  match a with
  | CoinAsset coin _ => [typeName coin]
  | LPAsset coinA coinB _ _ => [typeName coinA; typeName coinB]
  end.

Definition heldCoinTypes (entity : Entity) : list string :=
  flat_map assetCoinTypes (holdings entity).

Definition owedCoinTypes (entity : Entity) : list string :=
  flat_map (fun ob => assetCoinTypes (asset ob)) (obligations entity).

Definition priced (priceMap : JsMap.t Qc) (ct : string) : bool :=
  JsMap.has priceMap ct.

Definition entityPriced (priceMap : JsMap.t Qc) (entity : Entity) : bool :=
  forallb (priced priceMap) (heldCoinTypes entity)
  && forallb (priced priceMap) (owedCoinTypes entity).

Definition allPriced (priceMap : JsMap.t Qc) (entities : list Entity) : bool :=
  forallb (entityPriced priceMap) entities.

Definition isPricingError (e : Error) : bool :=
  match e with
  | PriceNotFound _ | PriceNotFoundLP => true
  | CyclicDependencyGraph => false
  end.

(** The constituents of an asset: one coin for a coin asset, two for an
    LP asset. *)
Definition assetParts (a : Asset) : list (CoinInfo * Z) :=
  match a with
  | CoinAsset coin i => [(coin, i)]
  | LPAsset coinA coinB iA iB => [(coinA, iA); (coinB, iB)]
  end.

Definition owedParts (obs : list Obligation) : list (CoinInfo * Z) :=
  flat_map (fun ob => assetParts (asset ob)) obs.

(** What the flattening makes of one constituent of an obligation. *)
Definition lineOfPart (priceMap : JsMap.t Qc) (part : CoinInfo * Z) (o : ObligationDetail)
  : Prop :=
  od_coinType o = typeName (fst part)
  /\ od_amount o = newAmount (fst part) (snd part)
  /\ exists price, JsMap.get priceMap (typeName (fst part)) = Some price
                   /\ od_usdValue o = toNumber (od_amount o) * price.

(** The sum of a weight over the entries of a map. *)
Definition weight {V : Type} (w : string -> V -> Qc) (m : JsMap.t V) : Qc :=
  sumQc (map (fun kv => w (fst kv) (snd kv)) m).

(** All keys of the maps of the netting state have a price. *)
Definition NetPriced (priceMap : JsMap.t Qc) (st : Netting) : Prop :=
  (forall k, In k (JsMap.keys (remainingByCoin st)) -> JsMap.get priceMap k <> None)
  /\ (forall k, In k (JsMap.keys (shortfallUsdByCoin st)) -> JsMap.get priceMap k <> None).

(** ** Cycles and topological orders of the dependency graph *)

(** [isWalk g v l]: starting at [v], the nodes of [l] are visited one
    after the other along edges of [g]. *)
Fixpoint isWalk (g : DirectedGraph) (v : string) (l : list string) : bool :=
  match l with
  | [] => true
  | w :: l' => hasEdge g v w && isWalk g w l'
  end.

(** A directed cycle: a walk of at least one edge that returns to its
    start (a self-loop is a cycle of one edge). *)
Definition cyclic (g : DirectedGraph) : Prop :=
  exists v l, l <> [] /\ isWalk g v l = true /\ last l v = v.

(** No node of [l] has an edge to a node that stands before it, and no
    node has an edge to itself. *)
Fixpoint forward (g : DirectedGraph) (l : list string) : Prop :=
  match l with
  | [] => True
  | x :: l' =>
      hasEdge g x x = false
      /\ (forall y, In y l' -> hasEdge g y x = false)
      /\ forward g l'
  end.

(** A valid topological ordering of the graph: all its nodes, each once,
    every edge pointing forward. *)
Definition isTopologicalOrder (g : DirectedGraph) (l : list string) : Prop :=
  Permutation (nodes g) l /\ forward g l.

(** Every edge joins two nodes of the graph. *)
Definition edgesClosed (g : DirectedGraph) : Prop :=
  forall a b, In (a, b) (edges g) -> In a (nodes g) /\ In b (nodes g).

(** ** Invariants used for the classification (claim C3) *)

(** The per-coin deficits recorded by the netting: they add up to
    [remainingLiabilitiesUsd], and each is a positive amount times the
    price of its coin. *)
Definition NetShortfalls (priceMap : JsMap.t Qc) (st : Netting) : Prop :=
  remainingLiabilitiesUsd st = sumQc (JsMap.values (shortfallUsdByCoin st))
  /\ NoDup (JsMap.keys (shortfallUsdByCoin st))
  /\ (forall c usd, In (c, usd) (shortfallUsdByCoin st) ->
        exists p q, JsMap.get priceMap c = Some p /\ usd = q * p /\ 0 < q).

(** What the propagation keeps true of every record: the per-coin
    shortfalls are positive and have distinct coin types, there are none
    without liabilities, and there is one whenever the USD shortfall of
    the first pass is positive. *)
Definition RecordInv (d : EntitySolvencyData) : Prop :=
  Forall (fun kv => 0 < snd kv) (shortfallsByCoin d)
  /\ NoDup (JsMap.keys (shortfallsByCoin d))
  /\ (totalLiabilities d = [] -> shortfallsByCoin d = [])
  /\ (0 < shortfallUsd d -> shortfallsByCoin d <> []).

Definition StateInv (st : JsMap.t EntitySolvencyData) : Prop :=
  forall k d, JsMap.get st k = Some d -> RecordInv d.

(** ** Well-formed entity maps and the quantities of claim C2 *)

Definition assetCoins (a : Asset) : list CoinInfo := map fst (assetParts a).

Definition entityCoins (entity : Entity) : list CoinInfo :=
  flat_map assetCoins (holdings entity) ++ map fst (owedParts (obligations entity)).

Definition allCoins (entities : list Entity) : list CoinInfo :=
  flat_map entityCoins entities.

Definition sameDecimals (c1 c2 : CoinInfo) : bool :=
  negb (String.eqb (typeName c1) (typeName c2)) || Nat.eqb (decimals c1) (decimals c2).

(** One asset type has one decimal exponent throughout the input. *)
Definition consistentDecimals (entities : list Entity) : bool :=
  forallb (fun c1 => forallb (sameDecimals c1) (allCoins entities)) (allCoins entities).

Definition decimalsOf (entities : list Entity) (ct : string) : nat :=
  match find (fun c => String.eqb (typeName c) ct) (allCoins entities) with
  | Some c => decimals c
  | None => O
  end.

(** All amounts of holdings and obligations are non-negative. *)
Definition nonnegAmounts (entities : list Entity) : bool :=
  forallb (fun e => nonnegHoldings e && nonnegObligations e) entities.

(** The USD value of [n] raw units of coin [ct]. *)
Definition usdOfInt (entities : list Entity) (priceMap : JsMap.t Qc) (ct : string) (n : Z)
  : Qc :=
  Z2Qc n / pow10 (decimalsOf entities ct) * getOr0 priceMap ct.

Definition sumZ (l : list Z) : Z := fold_right Z.add 0%Z l.

(** Raw units of coin [ct] that the entity owes in total. *)
Definition owedInt (entity : Entity) (ct : string) : Z :=
  sumZ (map snd
          (filter (fun p => String.eqb (typeName (fst p)) ct)
             (owedParts (obligations entity)))).

(** The entity's available assets (holdings and inbound obligations)
    cover its liabilities in every asset type. *)
Definition coversEveryType (entities : list Entity) (entity : Entity) : bool :=
  forallb
    (fun ct => (owedInt entity ct <=? prevInt (aggregateAssets entities entity) ct)%Z)
    (owedCoinTypes entity).

(** An amount of coin [c] with the decimals of the coin and a
    non-negative integer. *)
Definition AmountOk (entities : list Entity) (kv : string * Amount) : Prop :=
  amt_decimals (snd kv) = decimalsOf entities (fst kv) /\ (0 <= int (snd kv))%Z.

(** A line of the flattened obligations: well-formed amount, priced,
    valued at its price. *)
Definition LineOk (entities : list Entity) (priceMap : JsMap.t Qc) (o : ObligationDetail)
  : Prop :=
  AmountOk entities (od_coinType o, od_amount o)
  /\ exists price, JsMap.get priceMap (od_coinType o) = Some price
                   /\ od_usdValue o = toNumber (od_amount o) * price.

(** The USD value of what is left per coin, and what the netting keeps
    true of its state. *)
Definition valueRem (entities : list Entity) (priceMap : JsMap.t Qc) (rem : JsMap.t Z) : Qc :=
  weight (usdOfInt entities priceMap) rem.

Definition RemInv (assets : JsMap.t Amount) (st : Netting) : Prop :=
  NoDup (JsMap.keys (remainingByCoin st))
  /\ Forall (fun kv => (0 <= snd kv)%Z) (remainingByCoin st)
  /\ (forall k, In k (JsMap.keys (remainingByCoin st)) -> In k (JsMap.keys assets))
  /\ 0 <= remainingLiabilitiesUsd st.

(** A group of obligation lines of one coin, as the netting needs it. *)
Definition GroupOk (entities : list Entity) (priceMap : JsMap.t Qc)
    (lines : list ObligationDetail) (g : string * list ObligationDetail) : Prop :=
  (0 <= totalObInt (snd g))%Z
  /\ (exists o, find (fun ob => String.eqb (od_coinType ob) (fst g)) lines = Some o
                /\ amt_decimals (od_amount o) = decimalsOf entities (fst g))
  /\ sumQc (map od_usdValue (snd g)) = usdOfInt entities priceMap (fst g) (totalObInt (snd g)).

(** ** Results up to the order of entries (claim C8)

    Two entries for the same counterparty with the same total and the
    same details in some order, and two lists of such entries in some
    order. *)
Definition sameEntry (s s' : EntityShortfall) : Prop :=
  owesTo s = owesTo s'
  /\ totalUsdValue s = totalUsdValue s'
  /\ Permutation (shortfalls s) (shortfalls s').

Definition sameEntries (l l' : list EntityShortfall) : Prop :=
  exists l0, Permutation l l0 /\ Forall2 sameEntry l0 l'.

(** Two lists of received or caused shortfalls on which every lookup by
    counterparty, and by counterparty and coin type, gives the same. *)
Definition sameLookups (l l' : list EntityShortfall) : Prop :=
  forall k, totalOfEntry l k = totalOfEntry l' k
            /\ forall ct, cellOf l k ct = cellOf l' k ct.

(** A list of received or caused shortfalls has one entry per
    counterparty and, inside an entry, one detail per coin type. *)
Definition EntriesInv (l : list EntityShortfall) : Prop :=
  NoDup (map owesTo l)
  /\ Forall (fun s => NoDup (map coinType (shortfalls s))) l.

Definition ListsInv (st : JsMap.t EntitySolvencyData) : Prop :=
  forall k d, JsMap.get st k = Some d ->
    EntriesInv (shortfallsReceived d) /\ EntriesInv (shortfallsCaused d).

(** Two records that differ at most in the order of their per-coin
    shortfalls, of the entries of their lists and of the details of an
    entry. *)
Definition sameRecord (d d' : EntitySolvencyData) : Prop :=
  blank d = blank d'
  /\ Permutation (shortfallsByCoin d) (shortfallsByCoin d')
  /\ sameEntries (shortfallsReceived d) (shortfallsReceived d')
  /\ sameEntries (shortfallsCaused d) (shortfallsCaused d').

Definition sameUpToOrder (r r' : SolvencyResult) : Prop :=
  isSolvent r = isSolvent r'
  /\ insolventEntities r = insolventEntities r'
  /\ Forall2 sameRecord (details r) (details r').

(** Two propagation states with the same records up to order. *)
Definition sameState (st st' : JsMap.t EntitySolvencyData) : Prop :=
  statics st = statics st' /\ observe st = observe st' /\ StateInv st /\ StateInv st'.

(** The ids that the entity stored under [e] owes to. *)
Definition creditorsOf (entities : list Entity) (e : string) : list string :=
  match entities_get entities e with
  | Some entity => JsMap.keys (obligationsByCreditor entity)
  | None => []
  end.

(** Neither of two distinct entities owes to the other. *)
Definition independent (entities : list Entity) (a b : string) : Prop :=
  a <> b /\ ~ In b (creditorsOf entities a) /\ ~ In a (creditorsOf entities b).

(** No entity of the list owes to one that stands before it. *)
Fixpoint debtorsFirst (entities : list Entity) (l : list string) : Prop :=
  match l with
  | [] => True
  | x :: l' =>
      (forall y, In y l' -> ~ In x (creditorsOf entities y)) /\ debtorsFirst entities l'
  end.

(** ** The allocation arithmetic on JavaScript numbers

    [propagateEntityShortfalls] keeps amounts as [number]: the share of a
    creditor is computed with the binary64 operations [/] and [*]. *)

Module Binary64.
Import PrimFloat.

(** [creditorObligationAmount / totalObligationsForCoin] *)
Definition proportion (creditorObligationAmount totalObligationsForCoin : float) : float :=
  div creditorObligationAmount totalObligationsForCoin.

(** [shortfallAmount * proportion] *)
Definition creditorShortfall
    (shortfallAmount creditorObligationAmount totalObligationsForCoin : float) : float :=
  mul shortfallAmount (proportion creditorObligationAmount totalObligationsForCoin).

End Binary64.

(** ** Reading the lists of a result

    The cell (amount, USD value, origin) and the entry total that a result
    records for [creditor] as received from [debtor], and for [debtor] as
    caused to [creditor]; [None] when the entity has no record or the
    lookup finds nothing. *)

Definition receivedIn (r : SolvencyResult) (creditor debtor ct : string)
  : option (Qc * Qc * string) :=
  match detailsOf r creditor with
  | Some d => cellOf (shortfallsReceived d) debtor ct
  | None => None
  end.

Definition causedIn (r : SolvencyResult) (debtor creditor ct : string)
  : option (Qc * Qc * string) :=
  match detailsOf r debtor with
  | Some d => cellOf (shortfallsCaused d) creditor ct
  | None => None
  end.

Definition receivedTotalIn (r : SolvencyResult) (creditor debtor : string) : option Qc :=
  match detailsOf r creditor with
  | Some d => totalOfEntry (shortfallsReceived d) debtor
  | None => None
  end.

Definition causedTotalIn (r : SolvencyResult) (debtor creditor : string) : option Qc :=
  match detailsOf r debtor with
  | Some d => totalOfEntry (shortfallsCaused d) creditor
  | None => None
  end.

(** Every record is stored under its own [entityId]. *)
Definition keyed (st : JsMap.t EntitySolvencyData) : Prop :=
  forall k d, In (k, d) st -> entityId d = k.

(** What a debtor has on record as caused to a creditor is what the
    creditor has on record as received from it. *)
Definition mirrored (o : Obs) : Prop :=
  (forall c e ct, o_recv o c e ct = o_caused o e c ct)
  /\ (forall c e, o_recvTotal o c e = o_causedTotal o e c).

(** An entry of a received or caused list is never empty, its total is
    the sum of the USD values of its details, every detail has a positive
    amount, and every detail names [origin s] as the entity that caused
    it. *)
Definition EntryOk (origin : EntityShortfall -> string) (s : EntityShortfall) : Prop :=
  shortfalls s <> []
  /\ totalUsdValue s = sumQc (map usdValue (shortfalls s))
  /\ Forall (fun det => 0 < amount det /\ causedBy det = origin s) (shortfalls s).

Definition ListsOk (st : JsMap.t EntitySolvencyData) : Prop :=
  forall k d, JsMap.get st k = Some d ->
    Forall (EntryOk owesTo) (shortfallsReceived d)
    /\ Forall (EntryOk (fun _ => k)) (shortfallsCaused d).

(** The USD value of per-coin amounts at the prices of the price map:
    of a [shortfallsByCoin] map and of a list of balances. *)
Definition usdOfShortfalls (priceMap : JsMap.t Qc) (m : JsMap.t Qc) : Qc :=
  weight (fun c q => q * getOr0 priceMap c) m.

Definition usdOfBalances (priceMap : JsMap.t Qc) (l : list AssetBalance) : Qc :=
  sumQc (map (fun b => ab_amount b * getOr0 priceMap (ab_coinType b)) l).

(** ** The shortfall analysis of main.ts

    The part of the command's action that reads the result of
    [checkEntitySolvency]: the total system shortfall, the SAVs and the
    positions listed as in shortfall, and the final verdict.  The options
    [minSystemShortfall] and [minEntityShortfall] are numbers. *)

Module Main.

Definition EntityType_eqb (a b : EntityType) : bool :=
  match a, b with
  | sav_depositors, sav_depositors | sav, sav
  | supply_pool_strategy, supply_pool_strategy | supply_pool, supply_pool
  | position, position | lp_user, lp_user => true
  | _, _ => false
  end.

(** [solvencyResult.details.reduce((sum, detail) => sum + detail.shortfallUsd, 0)] *)
Definition totalSystemShortfall (r : SolvencyResult) : Qc :=
  fold_left (fun sum detail => sum + shortfallUsd detail) (details r) 0.

(** [detail.shortfallsCaused.reduce((sum, shortfall) => sum + shortfall.totalUsdValue, 0)] *)
Definition totalCaused (detail : EntitySolvencyData) : Qc :=
  fold_left (fun sum shortfall => sum + totalUsdValue shortfall) (shortfallsCaused detail) 0.

(** The predicate of the two [filter] calls, for the entity type [ty]. *)
Definition inShortfall (ty : EntityType) (minEntityShortfall : Qc)
    (detail : EntitySolvencyData) : bool :=
  EntityType_eqb (entityType detail) ty
  && Nat.ltb 0 (List.length (shortfallsCaused detail))
  && Qcleb minEntityShortfall (totalCaused detail).

Definition savShortfalls (minEntityShortfall : Qc) (r : SolvencyResult)
  : list EntitySolvencyData :=
  filter (inShortfall sav minEntityShortfall) (details r).

Definition positionShortfalls (minEntityShortfall : Qc) (r : SolvencyResult)
  : list EntitySolvencyData :=
  filter (inShortfall position minEntityShortfall) (details r).

(** ['Overall system solvent: ' + (totalSystemShortfall < minSystemShortfall ? 'YES' : 'NO')] *)
Definition overallSystemSolvent (minSystemShortfall : Qc) (r : SolvencyResult) : bool :=
  Qcgtb minSystemShortfall (totalSystemShortfall r).

End Main.

(** Something was caused only by a record that has a per-coin shortfall. *)
Definition CausedInv (st : JsMap.t EntitySolvencyData) : Prop :=
  forall k d, JsMap.get st k = Some d ->
    shortfallsCaused d <> [] -> shortfallsByCoin d <> [].

(** The amount of coin [ct] in the details of an entry, and in all the
    entries of a list of received shortfalls. *)
Definition amountOfCoin (ct : string) (s : EntityShortfall) : Qc :=
  sumQc (map amount (filter (fun det => String.eqb (coinType det) ct) (shortfalls s))).

Definition receivedOfCoin (d : EntitySolvencyData) (ct : string) : Qc :=
  sumQc (map (amountOfCoin ct) (shortfallsReceived d)).

(** The per-coin shortfall of a record is that of its first-pass record
    [d0] plus, if it has liabilities, all it received in that coin. *)
Definition Accounted (d0 d : EntitySolvencyData) : Prop :=
  forall ct,
    getOr0 (shortfallsByCoin d) ct
    = getOr0 (shortfallsByCoin d0) ct
      + (if Nat.ltb 0 (List.length (totalLiabilities d)) then receivedOfCoin d ct else 0).

Definition hasRecord (r : SolvencyResult) (e : string) : bool :=
  match detailsOf r e with
  | Some _ => true
  | None => false
  end.

(** [a] has an obligation to [b], and both are entities of the map. *)
Definition owesWithin (entities : list Entity) (a b : string) : Prop :=
  In a (map id entities) /\ In b (map id entities)
  /\ exists entity ob,
       In entity entities /\ id entity = a /\ In ob (obligations entity) /\ to ob = b.

(** ** The set-up of main.ts: coin types, prices and strategy value *)

Module MainSetup.

(** [Array.from(new Set(xs))]: the distinct elements in the order of their
    first occurrence. *)
Definition dedup (xs : list string) : list string :=
  fold_left (fun acc x => if existsb (String.eqb x) acc then acc else acc ++ [x]) xs [].

(** The coin types of the holdings and of the obligations of the entities
    that are in the map when [allCoinTypes] is computed. *)
Definition allCoinTypes (entities : list Entity) : list string :=
  dedup (flat_map (fun e => heldCoinTypes e ++ owedCoinTypes e) entities).

(** [new Map(allCoinTypes.map((c, i) => [c, usdPrices[i]]))], where
    [usdPrices[i]] is the price fetched for [allCoinTypes[i]]. *)
Definition priceMapOf (allCoinTypes : list string) (usdPrice : string -> Qc) : JsMap.t Qc :=
  fold_left (fun m c => JsMap.set m c (usdPrice c)) allCoinTypes [].

(** Division of [bigint]s: it truncates towards zero and throws a
    [RangeError] for a zero divisor ([None]). *)
Definition bigintDiv (a b : Z) : option Z :=
  if (b =? 0)%Z then None else Some (Z.quot a b).

(** The value of the strategy's shares of a supply pool
    ([1n << 64n] is [2^64]). *)
Definition strategyValue (stShares underlyingValueX64 supplyX64 : Z) : option Z :=
  let stSharesX64 := (stShares * Z.shiftl 1 64)%Z in
  match bigintDiv (underlyingValueX64 * stSharesX64) supplyX64 with
  | Some valueX64 => bigintDiv valueX64 (Z.shiftl 1 64)
  | None => None
  end.

End MainSetup.

(** ** util.ts: prices and batched object fetching

    The functions of util.ts talk to a price API and to a Sui client.
    The answer of the outside world is a parameter of the model: the
    response to a price request, and the objects that [multiGetObjects]
    returns for a list of ids ([None] for an object without [data]).  A
    rejected promise is the [Throws] outcome. *)

Module Util.

Inductive Outcome (E A : Type) : Type :=
| Returns (a : A)
| Throws (e : E).

Arguments Returns {E A} a.
Arguments Throws {E A} e.

(** *** [fetchUsdPrice] *)

Record TokenPrice : Type := {
  price : option Qc;        (* number | null *)
  lastUpdated : Z
}.

Record Response : Type := {
  ok : bool;
  status : Z;
  json : JsMap.t TokenPrice  (* Record<string, TokenPrice | undefined> *)
}.

Inductive PriceError : Type :=
| FetchFailed (status : Z)              (* `Failed to fetch price: ${response.status}` *)
| PriceNotFoundFor (coinType : string). (* `Price not found for coin type: "${coinType}"` *)

Definition PRICES_API : string := "https://prices.7k.ag".

Section FetchUsdPrice.
Variable USDC_typeName : string.
Variable fetch : string -> Response.
Variable normalizeStructTag : string -> string.

Definition priceUrl (coinType : string) : string :=
  PRICES_API ++ "/price?ids=" ++ coinType ++ "&vsCoin=" ++ USDC_typeName.

Definition fetchUsdPrice (coinType : string) : Outcome PriceError Qc :=
  if String.eqb coinType USDC_typeName then Returns 1
  else
    let response := fetch (priceUrl coinType) in
    if negb (ok response) then Throws (FetchFailed (status response))
    else
      match JsMap.get (json response) (normalizeStructTag coinType) with
      | Some tokenPrice =>
          match price tokenPrice with
          | Some p =>
              if Qc_eq_bool p 0 then Throws (PriceNotFoundFor coinType)  (* !0 *)
              else Returns p
          | None => Throws (PriceNotFoundFor coinType)
          end
      | None => Throws (PriceNotFoundFor coinType)
      end.

End FetchUsdPrice.

(** *** [getBatchedObjects]

    The loop [for (let i = 0; i < ids.length; i += batchSize)] runs on
    fuel: [None] means that the fuel did not suffice. *)

Section GetBatchedObjects.
Variables Data T E : Type.
Variable multiGetObjects : list string -> list (option Data).
Variable deserializer : Data -> Outcome E T.

Inductive BatchError : Type :=
| NoDataFound (id : option string)   (* `No data found in response for ${ids[i]}` *)
| DeserializerError (e : E).

(** The inner loop over [batchRes]; [first] is [ids[i]]. *)
Fixpoint pushAll (first : option string) (batchRes : list (option Data)) (results : list T)
  : Outcome BatchError (list T) :=
  match batchRes with
  | [] => Returns results
  | obj :: rest =>
      match obj with
      | None => Throws (NoDataFound first)
      | Some data =>
          match deserializer data with
          | Throws e => Throws (DeserializerError e)
          | Returns t => pushAll first rest (results ++ [t])
          end
      end
  end.

Fixpoint batchLoop (fuel : nat) (ids : list string) (batchSize i : nat) (results : list T)
  : option (Outcome BatchError (list T)) :=
  if Nat.ltb i (List.length ids) then
    match fuel with
    | O => None
    | S fuel' =>
        let batch := firstn batchSize (skipn i ids) in   (* ids.slice(i, i + batchSize) *)
        match pushAll (nth_error ids i) (multiGetObjects batch) results with
        | Throws e => Some (Throws e)
        | Returns results' => batchLoop fuel' ids batchSize (i + batchSize) results'
        end
    end
  else Some (Returns results).

Definition getBatchedObjects (fuel : nat) (ids : list string) (batchSize : nat)
  : option (Outcome BatchError (list T)) :=
  batchLoop fuel ids batchSize 0 [].

End GetBatchedObjects.

Arguments NoDataFound {E} id.
Arguments DeserializerError {E} e.

(** ** [getAllClmmPools]

    [POSITION_CONFIG_INFOS] is a constant of the SDK, of which the fields
    read here are modelled; the [fromSuiObjectData] of a pool's reified
    class, the [objectId] of the data of an object and the client are
    passed in.  The default batch size of [getBatchedObjects] is 50. *)
Section GetAllClmmPools.
Variables Data Reified PoolData E : Type.

Record PositionConfigInfo : Type := {
  poolObjectId : string;
  poolReified : Reified;
  X : CoinInfo;
  Y : CoinInfo
}.

(** The values of [poolInfosMap]. *)
Record PoolInfo : Type := {
  poolId : string;
  info_poolReified : Reified;
  info_X : CoinInfo;
  info_Y : CoinInfo
}.

Record ClmmPool : Type := {
  pool_reified : Reified;
  pool_X : CoinInfo;
  pool_Y : CoinInfo;
  pool_data : PoolData
}.

Variable POSITION_CONFIG_INFOS : list PositionConfigInfo.
Variable multiGetObjects : list string -> list (option Data).
Variable objectId : Data -> string.
Variable fromSuiObjectData : Reified -> Data -> Outcome E PoolData.

Definition poolInfosMap : JsMap.t PoolInfo :=
  fold_left
    (fun m c =>
       if JsMap.has m (poolObjectId c) then m
       else JsMap.set m (poolObjectId c)
              {| poolId := poolObjectId c;
                 info_poolReified := poolReified c;
                 info_X := X c;
                 info_Y := Y c |})
    POSITION_CONFIG_INFOS [].

Definition poolIds : list string := JsMap.keys poolInfosMap.

Inductive ClmmError : Type :=
| PoolReifiedNotFound (id : string)   (* `Pool reified not found for ${data.objectId}` *)
| FromSuiObjectDataError (e : E).

(** The deserializer passed to [getBatchedObjects]. *)
Definition clmmDeserializer (data : Data) : Outcome ClmmError ClmmPool :=
  match JsMap.get poolInfosMap (objectId data) with
  | None => Throws (PoolReifiedNotFound (objectId data))
  | Some info =>
      match fromSuiObjectData (info_poolReified info) data with
      | Throws e => Throws (FromSuiObjectDataError e)
      | Returns poolData =>
          Returns {| pool_reified := info_poolReified info;
                     pool_X := info_X info;
                     pool_Y := info_Y info;
                     pool_data := poolData |}
      end
  end.

Definition getAllClmmPools (fuel : nat)
  : option (Outcome (BatchError ClmmError) (list ClmmPool)) :=
  getBatchedObjects Data ClmmPool ClmmError multiGetObjects clmmDeserializer
    fuel poolIds 50.

End GetAllClmmPools.

End Util.

(** ** Total assets in raw units

    What the first loop of [checkEntitySolvency] adds up for an entity:
    the raw units of a coin among the constituents of a list of assets,
    and the assets that the entities owe to [entity], in the order in
    which the loop reads them. *)
Definition unitsOf (ct : string) (assets : list Asset) : Z :=
  sumZ (map snd
          (filter (fun p => String.eqb (typeName (fst p)) ct)
             (flat_map assetParts assets))).

Definition incomingAssets (entities : list Entity) (entity : Entity) : list Asset :=
  flat_map
    (fun other =>
       map asset
         (filter (fun ob => String.eqb (to ob) (id entity)) (obligations other)))
    entities.

(** The two coins of an LP asset have different type names. *)
Definition lpDistinct (a : Asset) : bool :=
  match a with
  | CoinAsset _ _ => true
  | LPAsset coinA coinB _ _ => negb (String.eqb (typeName coinA) (typeName coinB))
  end.

(** ** LP obligations as pairs of coin obligations

    [splitObligation] replaces an LP obligation by one coin obligation
    for each of its two coins, to the same creditor; [splitEntity] does
    so for all obligations of an entity. *)
Definition splitObligation (ob : Obligation) : list Obligation :=
  match asset ob with
  | CoinAsset _ _ => [ob]
  | LPAsset coinA coinB amountA amountB =>
      [ {| from := from ob; to := to ob; asset := CoinAsset coinA amountA |};
        {| from := from ob; to := to ob; asset := CoinAsset coinB amountB |} ]
  end.

Definition splitEntity (entity : Entity) : Entity :=
  {| id := id entity;
     type := type entity;
     name := name entity;
     holdings := holdings entity;
     obligations := flat_map splitObligation (obligations entity) |}.

Definition lpObligationsDistinct (entities : list Entity) : bool :=
  forallb (fun entity => forallb (fun ob => lpDistinct (asset ob)) (obligations entity))
    entities.

(** Two runs that both throw, or both return the same value. *)
Definition sameOk {A : Type} (r1 r2 : Result A) : Prop :=
  match r1, r2 with
  | Ok a, Ok b => a = b
  | Throw _, Throw _ => True
  | _, _ => False
  end.

(** ** The [from] field of an obligation

    [relabelFrom f] rewrites the [from] field of every obligation of an
    entity to [f] of the obligation and leaves everything else as it
    is. *)
Definition setFrom (f : Obligation -> string) (ob : Obligation) : Obligation :=
  {| from := f ob; to := to ob; asset := asset ob |}.

Definition relabelFrom (f : Obligation -> string) (entity : Entity) : Entity :=
  {| id := id entity;
     type := type entity;
     name := name entity;
     holdings := holdings entity;
     obligations := map (setFrom f) (obligations entity) |}.

(** * The run on machine numbers

    The definitions above compute on exact rationals.  The program
    computes on two kinds of rounded numbers, and the definitions of this
    part follow it there:
    - a JavaScript [number] is an IEEE 754 binary64 value, Rocq's
      primitive [float], with its correctly rounded [+], [*] and [/];
    - a [Decimal] of decimal.js is a decimal fraction; with the package's
      defaults an arithmetic result is rounded to 20 significant digits,
      ties away from zero ([precision = 20], [rounding = ROUND_HALF_UP]).
    decimal.js and the class [Amount] of @kunalabs-io/kai are packages
    outside the sources; what is used of them is modelled from their
    documented behaviour and named after their methods. *)

(** ** JavaScript numbers *)

Module Number.

Definition t : Set := PrimFloat.float.

(** [x > 0] *)
Definition gt0 (x : t) : bool := PrimFloat.ltb PrimFloat.zero x.

(** The integer nearest to [n / d], ties to the even one ([0 <= n], [0 < d]). *)
Definition nearestEven (n d : Z) : Z :=
  let q := (n / d)%Z in
  match (2 * (n mod d) ?= d)%Z with
  | Lt => q
  | Gt => (q + 1)%Z
  | Eq => if Z.even q then q else (q + 1)%Z
  end.

(** The binary64 value nearest to [n / d], ties to even: the quotient is
    scaled by a power of two [2^(-e)] into [[2^52, 2^53]] (or, below the
    normal range, with [e = -1074]), rounded to an integer [m], and
    [m * 2^e] is exact in binary64 unless it overflows to [Infinity]. *)
Definition ofRatio (n d : positive) : t :=
  let e0 := (Z.log2 (Zpos n) - Z.log2 (Zpos d) - 52)%Z in
  let num e := (Zpos n * 2 ^ Z.max 0 (- e))%Z in
  let den e := (Zpos d * 2 ^ Z.max 0 e)%Z in
  let e1 := if (num e0 >=? den e0 * 2 ^ 52)%Z then e0 else (e0 - 1)%Z in
  let e := Z.max e1 (-1074) in
  let m := nearestEven (num e) (den e) in
  FloatOps.Z.ldexp (PrimFloat.of_uint63 (Uint63Axioms.of_Z m)) e.

(** The number nearest to a rational (reading a decimal literal). *)
Definition ofQ (q : Q) : t :=
  match Qnum q with
  | Z0 => PrimFloat.zero
  | Zpos n => ofRatio n (Qden q)
  | Zneg n => PrimFloat.opp (ofRatio n (Qden q))
  end.

(** The exact value of a finite number. *)
Definition toQ (f : t) : option Q :=
  match FloatOps.Prim2SF f with
  | SpecFloat.S754_zero _ => Some 0%Q
  | SpecFloat.S754_finite s m e =>
      let v := if (0 <=? e)%Z then inject_Z (Zpos m * 2 ^ e)
               else Qmake (Zpos m) (Z.to_pos (2 ^ (- e))) in
      Some (if s then Qopp v else v)
  | _ => None
  end.

End Number.

(** ** Decimals (decimal.js) *)

Module Decimal.

(** A [Decimal] is represented by its value.  [NaN] and the infinities,
    which decimal.js gives for a division by zero, are not modelled:
    such a division has the value [0] here and does not occur for
    positive prices. *)
Definition t : Set := Qc.

Definition precision : Z := 20.

Fixpoint digitsFuel (fuel : nat) (n : Z) : Z :=
  match fuel with
  | O => 0%Z
  | S fuel' => if (n <? 10)%Z then 1%Z else (1 + digitsFuel fuel' (n / 10))%Z
  end.

(** The number of decimal digits of [n]. *)
Definition digits (n : positive) : Z :=
  digitsFuel (S (Z.to_nat (Z.log2 (Zpos n)))) (Zpos n).

(** The exponent [E] of the leading digit: [10^E <= n / d < 10^(E + 1)]. *)
Definition floorLog10 (n d : positive) : Z :=
  let E := (digits n - digits d)%Z in
  if (Zpos n * 10 ^ Z.max 0 (- E) >=? Zpos d * 10 ^ Z.max 0 E)%Z then E else (E - 1)%Z.

(** [m / 10^sh] *)
Definition scale10 (sh : Z) (m : Z) : Q :=
  if (0 <=? sh)%Z then Qmake m (Z.to_pos (10 ^ sh)) else inject_Z (m * 10 ^ (- sh)).

(** Rounding of a positive [n / d] to [prec] significant digits, ties up. *)
Definition roundPos (prec : Z) (n d : positive) : Q :=
  let sh := (prec - 1 - floorLog10 n d)%Z in
  let num := (Zpos n * 10 ^ Z.max 0 sh)%Z in
  let den := (Zpos d * 10 ^ Z.max 0 (- sh))%Z in
  scale10 sh ((2 * num + den) / (2 * den)).

(** Rounding to [precision] significant digits, ties away from zero. *)
Definition round (x : Q) : t :=
  match Qnum x with
  | Z0 => 0
  | Zpos n => Q2Qc (roundPos precision n (Qden x))
  | Zneg n => Q2Qc (Qopp (roundPos precision n (Qden x)))
  end.

Definition plus (x y : t) : t := round (x + y)%Q.
Definition minus (x y : t) : t := round (x - y)%Q.
Definition mul (x y : t) : t := round (x * y)%Q.
Definition div (x y : t) : t := round (x / y)%Q.

Definition gt (x y : t) : bool := Qcgtb x y.
Definition lte (x y : t) : bool := Qcleb x y.
Definition min (x y : t) : t := Qcmin x y.
Definition max (x y : t) : t := Qcmax x y.

(** [new Decimal(n)] for a [bigint] or an integer literal *)
Definition ofZ (n : Z) : t := Z2Qc n.

(** [x.toNumber()]: the number nearest to the decimal. *)
Definition toNumber (x : t) : Number.t := Number.ofQ x.

(** The shortest decimal that reads back as [f], found by trying 1, 2,
    ... significant digits; of two candidates of one length the closer
    to [f] is taken.  This is the decimal that [String(f)] prints. *)
Fixpoint shortestFuel (fuel : nat) (k : Z) (f : Number.t) (n d : positive) (E : Z) : Q :=
  match fuel with
  | O => Qmake (Zpos n) d
  | S fuel' =>
      let sh := (k - 1 - E)%Z in
      let num := (Zpos n * 10 ^ Z.max 0 sh)%Z in
      let den := (Zpos d * 10 ^ Z.max 0 (- sh))%Z in
      let lo := (num / den)%Z in
      let cLo := scale10 sh lo in
      let cHi := scale10 sh (lo + 1) in
      let okLo := PrimFloat.eqb (Number.ofQ cLo) f in
      let okHi := PrimFloat.eqb (Number.ofQ cHi) f in
      if okLo && okHi then (if (2 * (num mod den) <=? den)%Z then cLo else cHi)
      else if okLo then cLo
      else if okHi then cHi
      else shortestFuel fuel' (k + 1)%Z f n d E
  end.

(** [new Decimal(f)] for a [number]: decimal.js reads the digits of
    [String(f)], so the value is the shortest decimal that reads back as
    [f], not the exact binary value of [f]. *)
Definition ofNumber (f : Number.t) : t :=
  match Number.toQ f with
  | Some v =>
      match Qnum v with
      | Z0 => 0
      | Zpos n => Q2Qc (shortestFuel 17 1 f n (Qden v) (floorLog10 n (Qden v)))
      | Zneg n =>
          Q2Qc (Qopp (shortestFuel 17 1 (PrimFloat.opp f) n (Qden v)
                        (floorLog10 n (Qden v))))
      end
  | None => 0
  end.

End Decimal.

(** ** [checkEntitySolvency] on machine numbers

    The same three passes as above, line by line, with every number and
    every Decimal of the source as such.  The aggregation of the total
    assets, the grouping by coin and the obligation graph work on
    [bigint]s and strings only and are the definitions of the first
    part. *)

Module Machine.

(** [Amount] (@kunalabs-io/kai): [int / 10^decimals], as a Decimal and
    as the number nearest to it. *)
Definition toDecimal (a : Amount) : Decimal.t :=
  Decimal.div (Decimal.ofZ (int a)) (Decimal.ofZ (10 ^ Z.of_nat (amt_decimals a))).

Definition toNumber (a : Amount) : Number.t := Decimal.toNumber (toDecimal a).

Record AssetBalance : Type := {
  ab_coinType : string;
  ab_amount : Number.t
}.

Record ShortfallDetail : Type := {
  coinType : string;
  amount : Number.t;
  usdValue : Number.t;
  causedBy : string
}.

Record EntityShortfall : Type := {
  owesTo : string;
  shortfalls : list ShortfallDetail;
  totalUsdValue : Number.t
}.

Record EntitySolvencyData : Type := {
  entityId : string;
  entityType : EntityType;
  entityName : string;
  totalAssets : list AssetBalance;
  totalLiabilities : list AssetBalance;
  totalAssetsUsd : Number.t;
  totalLiabilitiesUsd : Number.t;
  shortfallUsd : Number.t;
  swapUsedUsd : Number.t;
  swappedRepayments : list AssetBalance;
  shortfallsByCoin : JsMap.t Number.t;
  shortfallsReceived : list EntityShortfall;
  shortfallsCaused : list EntityShortfall
}.

Record SolvencyResult : Type := {
  isSolvent : bool;
  insolventEntities : list string;
  details : list EntitySolvencyData
}.

(** *** First pass *)

(** [usdValue: new Decimal(amount.toNumber()).mul(price)] *)
Definition coinLine (price : Decimal.t) (creditor : string) (coin : CoinInfo) (i : Z)
  : ObligationDetail :=
  let amount := newAmount coin i in
  {| od_to := creditor;
     od_coinType := typeName coin;
     od_amount := amount;
     od_usdValue := Decimal.mul (Decimal.ofNumber (toNumber amount)) price |}.

Definition flattenObligation (priceMap : JsMap.t Decimal.t) (ob : Obligation)
  : Result (list ObligationDetail) :=
  match asset ob with
  | CoinAsset coin amount =>
      match JsMap.get priceMap (typeName coin) with
      | None => Throw (PriceNotFound (typeName coin))
      | Some price => Ok [coinLine price (to ob) coin amount]
      end
  | LPAsset coinA coinB amountA amountB =>
      match JsMap.get priceMap (typeName coinA), JsMap.get priceMap (typeName coinB) with
      | Some priceA, Some priceB =>
          Ok [coinLine priceA (to ob) coinA amountA; coinLine priceB (to ob) coinB amountB]
      | _, _ => Throw PriceNotFoundLP
      end
  end.

Fixpoint flattenObligations (priceMap : JsMap.t Decimal.t) (obs : list Obligation)
  : Result (list ObligationDetail) :=
  match obs with
  | [] => Ok []
  | ob :: rest =>
      lines <- flattenObligation priceMap ob ;;
      more <- flattenObligations priceMap rest ;;
      Ok (lines ++ more)
  end.

(** [totalAssetsUsd = totalAssetsUsd.plus(amount.toDecimal().mul(price))] *)
Definition addAssetUsd (priceMap : JsMap.t Decimal.t) (acc : Decimal.t)
    (kv : string * Amount) : Result Decimal.t :=
  match JsMap.get priceMap (fst kv) with
  | None => Throw (PriceNotFound (fst kv))
  | Some price => Ok (Decimal.plus acc (Decimal.mul (toDecimal (snd kv)) price))
  end.

Definition sumAssetsUsd (priceMap : JsMap.t Decimal.t) (totalAssets : JsMap.t Amount)
  : Result Decimal.t :=
  foldM (addAssetUsd priceMap) totalAssets (Decimal.ofZ 0).

Definition sumLiabilitiesUsd (obligations : list ObligationDetail) : Decimal.t :=
  fold_left (fun acc ob => Decimal.plus acc (od_usdValue ob)) obligations (Decimal.ofZ 0).

(** Step 1: direct same-coin netting. *)
Definition netCoin (priceMap : JsMap.t Decimal.t) (obligations : list ObligationDetail)
    (st : Netting) (g : string * list ObligationDetail) : Result Netting :=
  let coinType := fst g in
  let obs := snd g in
  let available :=
    match JsMap.get (remainingByCoin st) coinType with Some n => n | None => 0%Z end in
  let total := totalObInt obs in
  if (available >=? total)%Z then
    let rest := (available - total)%Z in
    Ok {| remainingByCoin :=
            if (rest >? 0)%Z then JsMap.set (remainingByCoin st) coinType rest
            else JsMap.delete (remainingByCoin st) coinType;
          remainingLiabilitiesUsd := remainingLiabilitiesUsd st;
          shortfallUsdByCoin := shortfallUsdByCoin st |}
  else
    match JsMap.get priceMap coinType with
    | None => Throw (PriceNotFound coinType)
    | Some price =>
        let short := (total - available)%Z in
        match find (fun ob => String.eqb (od_coinType ob) coinType) obligations with
        | Some obligation =>
            let shortfallAmount :=
              Amount_fromInt short (amt_decimals (od_amount obligation)) in
            let usdShort := Decimal.mul (toDecimal shortfallAmount) price in
            Ok {| remainingByCoin := JsMap.delete (remainingByCoin st) coinType;
                  remainingLiabilitiesUsd :=
                    Decimal.plus (remainingLiabilitiesUsd st) usdShort;
                  shortfallUsdByCoin := JsMap.set (shortfallUsdByCoin st) coinType usdShort |}
        | None =>
            Ok {| remainingByCoin := JsMap.delete (remainingByCoin st) coinType;
                  remainingLiabilitiesUsd := remainingLiabilitiesUsd st;
                  shortfallUsdByCoin := shortfallUsdByCoin st |}
        end
    end.

Definition directNetting (priceMap : JsMap.t Decimal.t) (totalAssets : JsMap.t Amount)
    (obligations : list ObligationDetail) : Result Netting :=
  foldM (netCoin priceMap obligations) (groupByCoin obligations)
    {| remainingByCoin := map (fun kv => (fst kv, int (snd kv))) totalAssets;
       remainingLiabilitiesUsd := Decimal.ofZ 0;
       shortfallUsdByCoin := [] |}.

(** Step 2: swaps.
    [remainingAssetsUsd.plus(new Decimal(amountObj.toNumber()).mul(price))] *)
Definition addRemainingUsd (priceMap : JsMap.t Decimal.t) (totalAssets : JsMap.t Amount)
    (acc : Decimal.t) (kv : string * Z) : Result Decimal.t :=
  match JsMap.get priceMap (fst kv) with
  | None => Throw (PriceNotFound (fst kv))
  | Some price =>
      match JsMap.get totalAssets (fst kv) with
      | Some assetAmount =>
          let amountObj := Amount_fromInt (snd kv) (amt_decimals assetAmount) in
          Ok (Decimal.plus acc (Decimal.mul (Decimal.ofNumber (toNumber amountObj)) price))
      | None => Ok acc
      end
  end.

Definition sumShortfallUsd (shortfallUsdByCoin : JsMap.t Decimal.t) : Decimal.t :=
  fold_left (fun sum shortfall => Decimal.plus sum shortfall)
    (JsMap.values shortfallUsdByCoin) (Decimal.ofZ 0).

(** [repaidAmount = allocatedUsd.div(price).toNumber()] *)
Definition addRepayment (priceMap : JsMap.t Decimal.t) (swapUsed totalShortfallUsd : Decimal.t)
    (acc : list AssetBalance) (kv : string * Decimal.t) : Result (list AssetBalance) :=
  let proportion := Decimal.div (snd kv) totalShortfallUsd in
  let allocatedUsd := Decimal.mul swapUsed proportion in
  match JsMap.get priceMap (fst kv) with
  | None => Throw (PriceNotFound (fst kv))
  | Some price =>
      let repaidAmount := Decimal.toNumber (Decimal.div allocatedUsd price) in
      Ok (acc ++ [ {| ab_coinType := fst kv; ab_amount := repaidAmount |} ])
  end.

Record Swap : Type := {
  sw_swapUsedUsd : Decimal.t;
  sw_swappedRepaymentsList : list AssetBalance;
  sw_remainingLiabilitiesUsd : Decimal.t
}.

Definition swapCoverage (priceMap : JsMap.t Decimal.t) (totalAssets : JsMap.t Amount)
    (net : Netting) : Result Swap :=
  if Decimal.gt (remainingLiabilitiesUsd net) (Decimal.ofZ 0)
     && Nat.ltb 0 (JsMap.size (remainingByCoin net)) then
    remainingAssetsUsd <-
      foldM (addRemainingUsd priceMap totalAssets) (remainingByCoin net) (Decimal.ofZ 0) ;;
    let swapUsed := Decimal.min remainingAssetsUsd (remainingLiabilitiesUsd net) in
    repayments <-
      (if Decimal.gt swapUsed (Decimal.ofZ 0)
          && Nat.ltb 0 (JsMap.size (shortfallUsdByCoin net)) then
         foldM (addRepayment priceMap swapUsed (sumShortfallUsd (shortfallUsdByCoin net)))
           (shortfallUsdByCoin net) []
       else Ok []) ;;
    Ok {| sw_swapUsedUsd := swapUsed;
          sw_swappedRepaymentsList := repayments;
          sw_remainingLiabilitiesUsd :=
            Decimal.minus (remainingLiabilitiesUsd net) swapUsed |}
  else
    Ok {| sw_swapUsedUsd := Decimal.ofZ 0;
          sw_swappedRepaymentsList := [];
          sw_remainingLiabilitiesUsd := remainingLiabilitiesUsd net |}.

(** The details: [amount: amount.toNumber()] and
    [amount: ex.amount + ob.amount.toNumber()]. *)
Definition totalAssetsList (totalAssets : JsMap.t Amount) : list AssetBalance :=
  map (fun kv => {| ab_coinType := fst kv; ab_amount := toNumber (snd kv) |}) totalAssets.

Definition totalLiabilitiesList (obligations : list ObligationDetail) : list AssetBalance :=
  JsMap.values
    (fold_left
       (fun acc ob =>
          match JsMap.get acc (od_coinType ob) with
          | Some ex =>
              JsMap.set acc (od_coinType ob)
                {| ab_coinType := od_coinType ob;
                   ab_amount := PrimFloat.add (ab_amount ex) (toNumber (od_amount ob)) |}
          | None =>
              JsMap.set acc (od_coinType ob)
                {| ab_coinType := od_coinType ob;
                   ab_amount := toNumber (od_amount ob) |}
          end)
       obligations []).

(** [remainingShortfallAmount = remainingShortfallUsd.div(price).toNumber()],
    kept [if (remainingShortfallAmount > 0)]. *)
Definition addShortfallByCoin (priceMap : JsMap.t Decimal.t)
    (finalShortfallUsd totalShortfallUsd : Decimal.t)
    (m : JsMap.t Number.t) (kv : string * Decimal.t) : JsMap.t Number.t :=
  let proportion := Decimal.div (snd kv) totalShortfallUsd in
  let remainingShortfallUsd := Decimal.mul finalShortfallUsd proportion in
  match JsMap.get priceMap (fst kv) with
  | Some price =>
      let remainingShortfallAmount :=
        Decimal.toNumber (Decimal.div remainingShortfallUsd price) in
      if Number.gt0 remainingShortfallAmount
      then JsMap.set m (fst kv) remainingShortfallAmount
      else m
  | None => m
  end.

Definition shortfallsByCoinMap (priceMap : JsMap.t Decimal.t) (finalShortfallUsd : Decimal.t)
    (shortfallUsdByCoin : JsMap.t Decimal.t) : JsMap.t Number.t :=
  if Decimal.gt finalShortfallUsd (Decimal.ofZ 0)
     && Nat.ltb 0 (JsMap.size shortfallUsdByCoin) then
    fold_left
      (addShortfallByCoin priceMap finalShortfallUsd (sumShortfallUsd shortfallUsdByCoin))
      shortfallUsdByCoin []
  else [].

Definition entitySolvency (entities : list Entity) (priceMap : JsMap.t Decimal.t)
    (entity : Entity) : Result EntitySolvencyData :=
  let totalAssets := aggregateAssets entities entity in
  obligations <- flattenObligations priceMap (obligations entity) ;;
  totalAssetsUsd <- sumAssetsUsd priceMap totalAssets ;;
  let totalLiabilitiesUsd := sumLiabilitiesUsd obligations in
  net <- directNetting priceMap totalAssets obligations ;;
  swap <- swapCoverage priceMap totalAssets net ;;
  let finalShortfallUsd := Decimal.max (sw_remainingLiabilitiesUsd swap) (Decimal.ofZ 0) in
  Ok {| entityId := id entity;
        entityType := type entity;
        entityName := name entity;
        totalAssets := totalAssetsList totalAssets;
        totalLiabilities := totalLiabilitiesList obligations;
        totalAssetsUsd := Decimal.toNumber totalAssetsUsd;
        totalLiabilitiesUsd := Decimal.toNumber totalLiabilitiesUsd;
        shortfallUsd := Decimal.toNumber finalShortfallUsd;
        swapUsedUsd := Decimal.toNumber (sw_swapUsedUsd swap);
        swappedRepayments := sw_swappedRepaymentsList swap;
        shortfallsByCoin :=
          shortfallsByCoinMap priceMap finalShortfallUsd (shortfallUsdByCoin net);
        shortfallsReceived := [];
        shortfallsCaused := [] |}.

Definition firstPassStep (entities : list Entity) (priceMap : JsMap.t Decimal.t)
    (entityData : JsMap.t EntitySolvencyData) (entity : Entity)
  : Result (JsMap.t EntitySolvencyData) :=
  data <- entitySolvency entities priceMap entity ;;
  Ok (JsMap.set entityData (id entity) data).

Definition firstPass (entities : list Entity) (priceMap : JsMap.t Decimal.t)
  : Result (JsMap.t EntitySolvencyData) :=
  foldM (firstPassStep entities priceMap) entities [].

(** *** Second pass *)

Definition set_shortfallsReceived (d : EntitySolvencyData) (x : list EntityShortfall)
  : EntitySolvencyData :=
  {| entityId := entityId d; entityType := entityType d; entityName := entityName d;
     totalAssets := totalAssets d; totalLiabilities := totalLiabilities d;
     totalAssetsUsd := totalAssetsUsd d; totalLiabilitiesUsd := totalLiabilitiesUsd d;
     shortfallUsd := shortfallUsd d; swapUsedUsd := swapUsedUsd d;
     swappedRepayments := swappedRepayments d;
     shortfallsByCoin := shortfallsByCoin d;
     shortfallsReceived := x;
     shortfallsCaused := shortfallsCaused d |}.

Definition set_shortfallsCaused (d : EntitySolvencyData) (x : list EntityShortfall)
  : EntitySolvencyData :=
  {| entityId := entityId d; entityType := entityType d; entityName := entityName d;
     totalAssets := totalAssets d; totalLiabilities := totalLiabilities d;
     totalAssetsUsd := totalAssetsUsd d; totalLiabilitiesUsd := totalLiabilitiesUsd d;
     shortfallUsd := shortfallUsd d; swapUsedUsd := swapUsedUsd d;
     swappedRepayments := swappedRepayments d;
     shortfallsByCoin := shortfallsByCoin d;
     shortfallsReceived := shortfallsReceived d;
     shortfallsCaused := x |}.

Definition set_shortfallsByCoin (d : EntitySolvencyData) (x : JsMap.t Number.t)
  : EntitySolvencyData :=
  {| entityId := entityId d; entityType := entityType d; entityName := entityName d;
     totalAssets := totalAssets d; totalLiabilities := totalLiabilities d;
     totalAssetsUsd := totalAssetsUsd d; totalLiabilitiesUsd := totalLiabilitiesUsd d;
     shortfallUsd := shortfallUsd d; swapUsedUsd := swapUsedUsd d;
     swappedRepayments := swappedRepayments d;
     shortfallsByCoin := x;
     shortfallsReceived := shortfallsReceived d;
     shortfallsCaused := shortfallsCaused d |}.

(** [m.get(k) ?? 0] *)
Definition getOr0 (m : JsMap.t Number.t) (k : string) : Number.t :=
  match JsMap.get m k with
  | Some x => x
  | None => PrimFloat.zero
  end.

Definition ensureCreditor (m : JsMap.t (JsMap.t Number.t)) (creditorId : string)
  : JsMap.t (JsMap.t Number.t) :=
  if JsMap.has m creditorId then m else JsMap.set m creditorId [].

(** Obligations grouped by creditor and coin type, amounts as numbers:
    [(creditorObligations.get(coinType) ?? 0) + amount]. *)
Definition addCreditorObligation (m : JsMap.t (JsMap.t Number.t)) (obligation : Obligation)
  : JsMap.t (JsMap.t Number.t) :=
  let creditorId := to obligation in
  match asset obligation with
  | CoinAsset coin i =>
      let ct := typeName coin in
      let amount := toNumber (newAmount coin i) in
      let m1 := ensureCreditor m creditorId in
      match JsMap.get m1 creditorId with
      | Some creditorObligations =>
          JsMap.set m1 creditorId
            (JsMap.set creditorObligations ct
               (PrimFloat.add (getOr0 creditorObligations ct) amount))
      | None => m1
      end
  | LPAsset coinA coinB iA iB =>
      let coinAType := typeName coinA in
      let coinBType := typeName coinB in
      let amountA := toNumber (newAmount coinA iA) in
      let amountB := toNumber (newAmount coinB iB) in
      let m1 := ensureCreditor m creditorId in
      match JsMap.get m1 creditorId with
      | Some creditorObligations =>
          let withA :=
            JsMap.set creditorObligations coinAType
              (PrimFloat.add (getOr0 creditorObligations coinAType) amountA) in
          JsMap.set m1 creditorId
            (JsMap.set withA coinBType (PrimFloat.add (getOr0 withA coinBType) amountB))
      | None => m1
      end
  end.

Definition obligationsByCreditor (entity : Entity) : JsMap.t (JsMap.t Number.t) :=
  fold_left addCreditorObligation (obligations entity) [].

Definition newDetail (ct : string) (creditorShortfall creditorShortfallUsd : Number.t)
    (entityId : string) : ShortfallDetail :=
  {| coinType := ct;
     amount := creditorShortfall;
     usdValue := creditorShortfallUsd;
     causedBy := entityId |}.

(** [existingDetail.amount += creditorShortfall] and
    [existingDetail.usdValue += creditorShortfallUsd] *)
Definition bumpDetail (creditorShortfall creditorShortfallUsd : Number.t)
    (d : ShortfallDetail) : ShortfallDetail :=
  {| coinType := coinType d;
     amount := PrimFloat.add (amount d) creditorShortfall;
     usdValue := PrimFloat.add (usdValue d) creditorShortfallUsd;
     causedBy := causedBy d |}.

Definition bumpShortfall (ct : string) (creditorShortfall creditorShortfallUsd : Number.t)
    (entityId : string) (s : EntityShortfall) : EntityShortfall :=
  {| owesTo := owesTo s;
     shortfalls :=
       match find (fun d => String.eqb (coinType d) ct) (shortfalls s) with
       | Some _ =>
           updateFirst (fun d => String.eqb (coinType d) ct)
             (bumpDetail creditorShortfall creditorShortfallUsd) (shortfalls s)
       | None =>
           shortfalls s ++ [newDetail ct creditorShortfall creditorShortfallUsd entityId]
       end;
     totalUsdValue := PrimFloat.add (totalUsdValue s) creditorShortfallUsd |}.

Definition recordShortfall (key ct : string)
    (creditorShortfall creditorShortfallUsd : Number.t)
    (entityId : string) (l : list EntityShortfall) : list EntityShortfall :=
  match find (fun s => String.eqb (owesTo s) key) l with
  | Some _ =>
      updateFirst (fun s => String.eqb (owesTo s) key)
        (bumpShortfall ct creditorShortfall creditorShortfallUsd entityId) l
  | None =>
      l ++ [ {| owesTo := key;
                shortfalls := [newDetail ct creditorShortfall creditorShortfallUsd entityId];
                totalUsdValue := creditorShortfallUsd |} ]
  end.

(** The body of the loop over [obligationsByCreditor]:
    [proportion = creditorObligationAmount / totalObligationsForCoin],
    [creditorShortfall = shortfallAmount * proportion],
    [creditorShortfallUsd = shortfallUsdValue * proportion]. *)
Definition allocateToCreditor (entityId ct : string)
    (shortfallAmount shortfallUsdValue totalObligationsForCoin : Number.t)
    (entityData : JsMap.t EntitySolvencyData) (kv : string * JsMap.t Number.t)
  : JsMap.t EntitySolvencyData :=
  let creditorId := fst kv in
  let creditorObligationAmount := getOr0 (snd kv) ct in
  if Number.gt0 creditorObligationAmount then
    let proportion := PrimFloat.div creditorObligationAmount totalObligationsForCoin in
    let creditorShortfall := PrimFloat.mul shortfallAmount proportion in
    let creditorShortfallUsd := PrimFloat.mul shortfallUsdValue proportion in
    match JsMap.get entityData creditorId with
    | None => entityData                      (* if (!creditorData) continue *)
    | Some creditorData =>
        let st1 :=
          JsMap.set entityData creditorId
            (set_shortfallsReceived creditorData
               (recordShortfall entityId ct creditorShortfall creditorShortfallUsd entityId
                  (shortfallsReceived creditorData))) in
        let st2 :=
          match JsMap.get st1 entityId with
          | Some data =>
              JsMap.set st1 entityId
                (set_shortfallsCaused data
                   (recordShortfall creditorId ct creditorShortfall creditorShortfallUsd
                      entityId (shortfallsCaused data)))
          | None => st1
          end in
        match JsMap.get st2 creditorId with
        | Some creditorData' =>
            if Nat.ltb 0 (List.length (totalLiabilities creditorData')) then
              let creditorCurrentShortfall := getOr0 (shortfallsByCoin creditorData') ct in
              JsMap.set st2 creditorId
                (set_shortfallsByCoin creditorData'
                   (JsMap.set (shortfallsByCoin creditorData') ct
                      (PrimFloat.add creditorCurrentShortfall creditorShortfall)))
            else st2
        | None => st2
        end
    end
  else entityData.

(** [reduce((sum, creditorObs) => sum + (creditorObs.get(coinType) ?? 0), 0)] *)
Definition totalObligationsForCoin (obligationsByCreditor : JsMap.t (JsMap.t Number.t))
    (ct : string) : Number.t :=
  fold_left (fun sum creditorObs => PrimFloat.add sum (getOr0 creditorObs ct))
    (JsMap.values obligationsByCreditor) PrimFloat.zero.

(** The body of the loop over [totalShortfallsByCoin]:
    [shortfallUsdValue = shortfallAmount * price.toNumber()]. *)
Definition distributeCoin (entityId : string)
    (obligationsByCreditor : JsMap.t (JsMap.t Number.t))
    (priceMap : JsMap.t Decimal.t) (entityData : JsMap.t EntitySolvencyData)
    (kv : string * Number.t) : JsMap.t EntitySolvencyData :=
  let ct := fst kv in
  let shortfallAmount := snd kv in
  let total := totalObligationsForCoin obligationsByCreditor ct in
  if Number.gt0 total then
    match JsMap.get priceMap ct with
    | None => entityData                      (* if (!price) continue *)
    | Some price =>
        let shortfallUsdValue := PrimFloat.mul shortfallAmount (Decimal.toNumber price) in
        fold_left (allocateToCreditor entityId ct shortfallAmount shortfallUsdValue total)
          obligationsByCreditor entityData
    end
  else entityData.

Definition propagateEntityShortfalls (entityId : string)
    (entityData : JsMap.t EntitySolvencyData) (entities : list Entity)
    (priceMap : JsMap.t Decimal.t) : JsMap.t EntitySolvencyData :=
  match entities_get entities entityId, JsMap.get entityData entityId with
  | Some entity, Some data =>
      let totalShortfallsByCoin := shortfallsByCoin data in
      if Nat.ltb 0 (JsMap.size totalShortfallsByCoin) then
        fold_left (distributeCoin entityId (obligationsByCreditor entity) priceMap)
          totalShortfallsByCoin entityData
      else entityData
  | _, _ => entityData
  end.

Definition propagateInOrder (processingOrder : list string)
    (entityData : JsMap.t EntitySolvencyData) (entities : list Entity)
    (priceMap : JsMap.t Decimal.t) : JsMap.t EntitySolvencyData :=
  fold_left
    (fun st entityId => propagateEntityShortfalls entityId st entities priceMap)
    processingOrder entityData.

Definition propagateShortfalls (entityData : JsMap.t EntitySolvencyData)
    (entities : list Entity) (priceMap : JsMap.t Decimal.t)
  : Result (JsMap.t EntitySolvencyData) :=
  let graph := buildGraph entities in
  if hasCycle graph then Throw CyclicDependencyGraph
  else Ok (propagateInOrder (topologicalSort graph) entityData entities priceMap).

(** *** Third pass and the result *)

Definition isInsolvent (data : EntitySolvencyData) : bool :=
  let hasDirectShortfall :=
    Nat.ltb 0 (JsMap.size (shortfallsByCoin data)) || Number.gt0 (shortfallUsd data) in
  let hasOutgoingObligations := Nat.ltb 0 (List.length (totalLiabilities data)) in
  let hasReceivedShortfalls := Nat.ltb 0 (List.length (shortfallsReceived data)) in
  hasDirectShortfall || (hasOutgoingObligations && hasReceivedShortfalls).

Definition buildResult (entityData : JsMap.t EntitySolvencyData) : SolvencyResult :=
  let finalInsolventEntities :=
    map entityId (filter isInsolvent (JsMap.values entityData)) in
  {| isSolvent := Nat.eqb (List.length finalInsolventEntities) 0;
     insolventEntities := finalInsolventEntities;
     details := JsMap.values entityData |}.

Definition checkEntitySolvency (entities : list Entity) (priceMap : JsMap.t Decimal.t)
  : Result SolvencyResult :=
  entityData <- firstPass entities priceMap ;;
  propagated <- propagateShortfalls entityData entities priceMap ;;
  Ok (buildResult propagated).

(** The same run with the processing order of the second pass given. *)
Definition checkEntitySolvencyInOrder (processingOrder : list string)
    (entities : list Entity) (priceMap : JsMap.t Decimal.t) : Result SolvencyResult :=
  entityData <- firstPass entities priceMap ;;
  Ok (buildResult (propagateInOrder processingOrder entityData entities priceMap)).

(** *** Reading a result *)

Definition detailsOf (r : Result SolvencyResult) (e : string) : option EntitySolvencyData :=
  match r with
  | Ok res => find (fun d => String.eqb (entityId d) e) (details res)
  | Throw _ => None
  end.

(** The detail of coin [ct] in the entry of [k] of a received or caused
    list. *)
Definition detailOf (l : list EntityShortfall) (k ct : string) : option ShortfallDetail :=
  match find (fun s => String.eqb (owesTo s) k) l with
  | Some s => find (fun d => String.eqb (coinType d) ct) (shortfalls s)
  | None => None
  end.

(** The amount that the run reports [creditor] to have received from
    [debtor] in coin [ct], the amount [debtor] is reported to have caused
    to [creditor], and the per-coin shortfall of an entity. *)
Definition receivedAmount (r : Result SolvencyResult) (creditor debtor ct : string)
  : option Number.t :=
  match detailsOf r creditor with
  | Some d => option_map amount (detailOf (shortfallsReceived d) debtor ct)
  | None => None
  end.

Definition causedAmount (r : Result SolvencyResult) (debtor creditor ct : string)
  : option Number.t :=
  match detailsOf r debtor with
  | Some d => option_map amount (detailOf (shortfallsCaused d) creditor ct)
  | None => None
  end.

Definition shortfallOf (r : Result SolvencyResult) (e ct : string) : option Number.t :=
  match detailsOf r e with
  | Some d => JsMap.get (shortfallsByCoin d) ct
  | None => None
  end.

(** What a result records, without the numbers: for every record the
    entity, the coin types that have a per-coin shortfall, and for each
    received and each caused entry the counterparty and the coin types
    of its details. *)
Definition entryShape (s : EntityShortfall) : string * list string :=
  (owesTo s, map coinType (shortfalls s)).

Definition recordShape (d : EntitySolvencyData)
  : string * list string * list (string * list string) * list (string * list string) :=
  (entityId d, JsMap.keys (shortfallsByCoin d),
   map entryShape (shortfallsReceived d), map entryShape (shortfallsCaused d)).

Definition shapeOf (r : Result SolvencyResult)
  : option (bool * list string
            * list (string * list string * list (string * list string)
                    * list (string * list string))) :=
  match r with
  | Ok res => Some (isSolvent res, insolventEntities res, map recordShape (details res))
  | Throw _ => None
  end.

(** *** What the second pass records, numbers aside *)

(** Whether the entry of [k] in a received or caused list has a detail
    of coin [ct]. *)
Definition hasDetail (l : list EntityShortfall) (k ct : string) : bool :=
  match detailOf l k ct with
  | Some _ => true
  | None => false
  end.

Definition hasCoin (l : list ShortfallDetail) (c : string) : bool :=
  match find (fun d => String.eqb (coinType d) c) l with
  | Some _ => true
  | None => false
  end.

(** The record stored under [k], if there is one, replaced by [f] of it. *)
Definition update (entityData : JsMap.t EntitySolvencyData) (k : string)
    (f : EntitySolvencyData -> EntitySolvencyData) : JsMap.t EntitySolvencyData :=
  match JsMap.get entityData k with
  | Some d => JsMap.set entityData k (f d)
  | None => entityData
  end.

(** [entityData.get(c)] is defined; the record of [c] has liabilities. *)
Definition present (entityData : JsMap.t EntitySolvencyData) (c : string) : bool :=
  JsMap.has entityData c.

Definition hasLiabilities (entityData : JsMap.t EntitySolvencyData) (c : string) : bool :=
  match JsMap.get entityData c with
  | Some d => Nat.ltb 0 (List.length (totalLiabilities d))
  | None => false
  end.

(** Which details and which per-coin shortfalls a state holds:
    [f_received c d ct] for a detail of [ct] received by [c] from [d],
    [f_caused d c ct] for a detail of [ct] caused by [d] to [c],
    [f_short e ct] for a per-coin shortfall of [e] in [ct]. *)
Record Flags : Type := {
  f_received : string -> string -> string -> bool;
  f_caused : string -> string -> string -> bool;
  f_short : string -> string -> bool
}.

Definition flags (entityData : JsMap.t EntitySolvencyData) : Flags :=
  {| f_received := fun c d ct =>
       match JsMap.get entityData c with
       | Some r => hasDetail (shortfallsReceived r) d ct
       | None => false
       end;
     f_caused := fun d c ct =>
       match JsMap.get entityData d with
       | Some r => hasDetail (shortfallsCaused r) c ct
       | None => false
       end;
     f_short := fun e ct =>
       match JsMap.get entityData e with
       | Some r => JsMap.has (shortfallsByCoin r) ct
       | None => false
       end |}.





(** The state of a first pass that returned. *)
Definition stateOf (r : Result (JsMap.t EntitySolvencyData)) : JsMap.t EntitySolvencyData :=
  match r with
  | Ok st => st
  | Throw _ => []
  end.

(** [entity] owes a positive amount of coin [ct] to [c]. *)
Definition owed (obligationsByCreditor : JsMap.t (JsMap.t Number.t)) (c ct : string) : bool :=
  existsb (fun kv => String.eqb (fst kv) c && Number.gt0 (getOr0 (snd kv) ct))
    obligationsByCreditor.

(** The guards under which [propagateEntityShortfalls] allocates a share
    of coin [ct] to creditor [c]: the total of the obligations in [ct]
    is positive, [ct] has a price, a positive amount of [ct] is owed to
    [c], and [c] has a record. *)
Definition allocates (pres : string -> bool)
    (obligationsByCreditor : JsMap.t (JsMap.t Number.t))
    (priceMap : JsMap.t Decimal.t) (c ct : string) : bool :=
  Number.gt0 (totalObligationsForCoin obligationsByCreditor ct)
  && JsMap.has priceMap ct
  && owed obligationsByCreditor c ct
  && pres c.

(** What processing [e] adds to the flags: for every coin [ct] in which
    [e] has a per-coin shortfall and every creditor [c] to which it
    allocates, the received detail of [c], the caused detail of [e] and,
    if [c] has liabilities, the per-coin shortfall of [c]. *)
Definition stepFlags (pres liab : string -> bool) (entities : list Entity)
    (priceMap : JsMap.t Decimal.t) (e : string) (o : Flags) : Flags :=
  match entities_get entities e with
  | Some entity =>
      let obc := obligationsByCreditor entity in
      {| f_received := fun c d ct =>
           f_received o c d ct
           || (String.eqb d e && f_short o e ct && allocates pres obc priceMap c ct);
         f_caused := fun d c ct =>
           f_caused o d c ct
           || (String.eqb d e && f_short o e ct && allocates pres obc priceMap c ct);
         f_short := fun c ct =>
           f_short o c ct
           || (liab c && f_short o e ct && allocates pres obc priceMap c ct) |}
  | None => o
  end.

(** A record without what the second pass writes. *)
Definition blank (d : EntitySolvencyData) : EntitySolvencyData :=
  set_shortfallsByCoin (set_shortfallsReceived (set_shortfallsCaused d []) []) [].

Definition statics (entityData : JsMap.t EntitySolvencyData)
  : JsMap.t EntitySolvencyData :=
  map (fun kv => (fst kv, blank (snd kv))) entityData.

(** Every entry of the received and caused lists has a detail, and no
    list has two entries for one counterparty. *)
Definition listOk (l : list EntityShortfall) : Prop :=
  NoDup (map owesTo l) /\ Forall (fun s => shortfalls s <> []) l.

Definition listsOk (entityData : JsMap.t EntitySolvencyData) : Prop :=
  forall k d, JsMap.get entityData k = Some d ->
    listOk (shortfallsReceived d) /\ listOk (shortfallsCaused d)
    /\ NoDup (JsMap.keys (shortfallsByCoin d)).




End Machine.

(** ** Inputs for the run on machine numbers *)

Module MachineExamples.
Import Examples.

(** A token without decimals, priced at 3. *)
Definition UNIT : CoinInfo := {| typeName := "UNIT"; decimals := 0 |}.
Definition unitPrices : JsMap.t Decimal.t := [("UNIT", Z2Qc 3)].

(** A debtor that holds nothing and owes [2^53 + 1] units. *)
Definition bigDebt : list Entity :=
  [ mkEntity "debtor" [] [owes "debtor" "creditor" (CoinAsset UNIT (2 ^ 53 + 1))];
    mkEntity "creditor" [] [] ].


(** A debtor that owes 16777216 SUI to "pool" and one raw unit
    (0.000000001 SUI) to "ghost", which is not an entity of the map, and
    holds 5 SUI less than it owes. *)
Definition absorbed : list Entity :=
  [ mkEntity "pool" [] [];
    mkEntity "debtor" [CoinAsset SUI (16777211 * 1000000000 + 1)]
      [owes "debtor" "pool" (sui 16777216);
       owes "debtor" "ghost" (CoinAsset SUI 1)] ].

(** "a" owes 0.1 USDC and "b" owes 0.4 USDC to "c", which holds nothing
    and owes 0.6 USDC to "d": "c" is 0.1 USDC short on its own. *)
Definition accumulated : list Entity :=
  [ mkEntity "a" [] [owes "a" "c" (CoinAsset USDC 100000)];
    mkEntity "b" [] [owes "b" "c" (CoinAsset USDC 400000)];
    mkEntity "c" [] [owes "c" "d" (CoinAsset USDC 600000)];
    mkEntity "d" [] [] ].

End MachineExamples.

(** ** An input for the propagation without a price

    A debtor that holds nothing and owes 3 USDC and 1 SUI to one
    creditor, and a price map that prices USDC only. *)
Module PropagationExamples.
Import Examples.




End PropagationExamples.

(** * Properties *)

(** ** Facts about [JsMap] *)

Module JsMapFacts.
Section Facts.
Context {V : Type}.
Implicit Types (m : JsMap.t V) (k : string) (v : V).

Lemma get_set_eq m k v : JsMap.get (JsMap.set m k v) k = Some v.
Proof.
    induction m as [|[k' v'] m IH]; simpl.
    - now rewrite String.eqb_refl.
    - destruct (String.eqb k' k) eqn:E; simpl; rewrite E; auto.
Qed.

Lemma get_set_neq m k k' v : k <> k' -> JsMap.get (JsMap.set m k v) k' = JsMap.get m k'.
Proof.
    intros N. induction m as [|[k0 v0] m IH]; simpl.
    - destruct (String.eqb_spec k k'); congruence.
    - destruct (String.eqb_spec k0 k); simpl.
      + subst. destruct (String.eqb_spec k k'); congruence.
      + now rewrite IH.
Qed.

Lemma get_set m k k' v :
    JsMap.get (JsMap.set m k v) k' = if String.eqb k k' then Some v else JsMap.get m k'.
Proof.
    destruct (String.eqb_spec k k').
    - subst. apply get_set_eq.
    - now apply get_set_neq.
Qed.

Lemma get_None_iff m k : JsMap.get m k = None <-> ~ In k (JsMap.keys m).
Proof.
    induction m as [|[k' v'] m IH]; simpl.
    - tauto.
    - destruct (String.eqb_spec k' k).
      + split; [discriminate | intros H; exfalso; apply H; auto].
      + rewrite IH. tauto.
Qed.

Lemma get_Some_in m k v : JsMap.get m k = Some v -> In (k, v) m.
Proof.
    induction m as [|[k' v'] m IH]; simpl; [discriminate|].
    destruct (String.eqb_spec k' k).
    - intros [= ->]. subst. now left.
    - intros H. right. auto.
Qed.

Lemma get_Some_key m k v : JsMap.get m k = Some v -> In k (JsMap.keys m).
Proof.
    intros H. apply get_Some_in in H. unfold JsMap.keys.
    change k with (fst (k, v)). now apply in_map.
Qed.

Lemma in_get_NoDup m k v :
    NoDup (JsMap.keys m) -> In (k, v) m -> JsMap.get m k = Some v.
Proof.
    induction m as [|[k' v'] m IH]; simpl; [tauto|].
    intros ND [E|I].
    - inversion E; subst. now rewrite String.eqb_refl.
    - inversion ND as [|? ? NI ND']; subst.
      destruct (String.eqb_spec k' k).
      + subst. exfalso. apply NI. change k with (fst (k, v)). now apply in_map.
      + auto.
Qed.

Lemma keys_set_present m k v :
    In k (JsMap.keys m) -> JsMap.keys (JsMap.set m k v) = JsMap.keys m.
Proof.
    induction m as [|[k' v'] m IH]; simpl; [tauto|].
    intros H. destruct (String.eqb_spec k' k); simpl.
    - reflexivity.
    - f_equal. apply IH. destruct H; congruence.
Qed.

Lemma keys_set_absent m k v :
    ~ In k (JsMap.keys m) -> JsMap.keys (JsMap.set m k v) = JsMap.keys m ++ [k].
Proof.
    induction m as [|[k' v'] m IH]; simpl; [reflexivity|].
    intros H. destruct (String.eqb_spec k' k); simpl.
    - exfalso. auto.
    - f_equal. apply IH. tauto.
Qed.

Lemma in_keys_set m k v k' :
    In k' (JsMap.keys (JsMap.set m k v)) <-> k' = k \/ In k' (JsMap.keys m).
Proof.
    destruct (in_dec string_dec k (JsMap.keys m)) as [I|NI].
    - rewrite keys_set_present by assumption. split; [tauto|]. intros [->|]; auto.
    - rewrite keys_set_absent by assumption. rewrite in_app_iff. simpl.
      split; [intros [|[|[]]]; auto | intros [|]; auto].
Qed.

Lemma NoDup_keys_set m k v :
    NoDup (JsMap.keys m) -> NoDup (JsMap.keys (JsMap.set m k v)).
Proof.
    intros ND. destruct (in_dec string_dec k (JsMap.keys m)) as [I|NI].
    - now rewrite keys_set_present.
    - rewrite keys_set_absent by assumption.
      apply NoDup_app; [assumption | repeat constructor; simpl; tauto |].
      intros x Hx [<-|[]]. contradiction.
Qed.

Lemma in_keys_delete m k k' :
    In k' (JsMap.keys (JsMap.delete m k)) -> In k' (JsMap.keys m).
Proof.
    induction m as [|[k0 v0] m IH]; simpl; [tauto|].
    destruct (String.eqb_spec k0 k); simpl; tauto.
Qed.

Lemma NoDup_keys_delete m k :
    NoDup (JsMap.keys m) -> NoDup (JsMap.keys (JsMap.delete m k)).
Proof.
    induction m as [|[k0 v0] m IH]; simpl; [auto|].
    intros ND. inversion ND as [|? ? NI ND']; subst.
    destruct (String.eqb_spec k0 k); simpl; [assumption|].
    constructor; [|auto]. intros H. apply NI. eapply in_keys_delete; eauto.
Qed.

Lemma get_delete_eq m k :
    NoDup (JsMap.keys m) -> JsMap.get (JsMap.delete m k) k = None.
Proof.
    induction m as [|[k0 v0] m IH]; simpl; [auto|].
    intros ND. inversion ND as [|? ? NI ND']; subst.
    destruct (String.eqb_spec k0 k); simpl.
    - subst. now apply get_None_iff.
    - destruct (String.eqb_spec k0 k); [congruence | auto].
Qed.

Lemma get_delete_neq m k k' :
    k <> k' -> JsMap.get (JsMap.delete m k) k' = JsMap.get m k'.
Proof.
    intros N. induction m as [|[k0 v0] m IH]; simpl; [auto|].
    destruct (String.eqb_spec k0 k); simpl.
    - subst. destruct (String.eqb_spec k k'); congruence.
    - now rewrite IH.
Qed.
End Facts.
End JsMapFacts.

(** ** Facts about rationals in lowest terms *)

Lemma this_plus (x y : Qc) : (this (x + y) == this x + this y)%Q.
Proof. unfold Qcplus. cbn [this Q2Qc]. apply Qred_correct. Qed.

Lemma this_mult (x y : Qc) : (this (x * y) == this x * this y)%Q.
Proof. unfold Qcmult. cbn [this Q2Qc]. apply Qred_correct. Qed.

Lemma this_opp (x : Qc) : (this (- x) == - this x)%Q.
Proof. unfold Qcopp. cbn [this Q2Qc]. apply Qred_correct. Qed.

Lemma this_minus (x y : Qc) : (this (x - y) == this x - this y)%Q.
Proof. unfold Qcminus. rewrite this_plus, this_opp. reflexivity. Qed.

Lemma this_inv (x : Qc) : (this (/ x) == / this x)%Q.
Proof. unfold Qcinv. cbn [this Q2Qc]. apply Qred_correct. Qed.

Lemma this_div (x y : Qc) : (this (x / y) == this x / this y)%Q.
Proof. unfold Qcdiv. rewrite this_mult, this_inv. reflexivity. Qed.

Lemma this_0 : this 0 = 0%Q.
Proof. reflexivity. Qed.

Ltac qc_unfold :=
  unfold Qclt, Qcle in *;
  repeat first
    [ rewrite this_plus in * | rewrite this_mult in * | rewrite this_minus in *
    | rewrite this_opp in * | rewrite this_div in * | rewrite this_inv in * ];
  change (this 0) with 0%Q in *.

Lemma Qcgtb_true (x y : Qc) : Qcgtb x y = true <-> y < x.
Proof.
  unfold Qcgtb, Qclt. rewrite negb_true_iff.
  split; intros H.
  - apply Qnot_le_lt. intros L. apply Qle_bool_iff in L. congruence.
  - destruct (Qle_bool x y) eqn:E; [|reflexivity].
    apply Qle_bool_iff in E. exfalso. eapply Qlt_not_le; eauto.
Qed.

Lemma Qcgtb_false (x y : Qc) : Qcgtb x y = false <-> x <= y.
Proof.
  unfold Qcgtb, Qcle. rewrite negb_false_iff. apply Qle_bool_iff.
Qed.

Lemma Qcleb_true (x y : Qc) : Qcleb x y = true <-> x <= y.
Proof. unfold Qcleb, Qcle. apply Qle_bool_iff. Qed.

Lemma Qcmult_pos (a b : Qc) : 0 < a -> 0 < b -> 0 < a * b.
Proof. intros. qc_unfold. now apply Qmult_lt_0_compat. Qed.

Lemma Qcinv_pos (a : Qc) : 0 < a -> 0 < / a.
Proof. intros. qc_unfold. now apply Qinv_lt_0_compat. Qed.

Lemma Qcdiv_pos (a b : Qc) : 0 < a -> 0 < b -> 0 < a / b.
Proof. intros. unfold Qcdiv. apply Qcmult_pos; [assumption | now apply Qcinv_pos]. Qed.

Lemma Qcplus_nonneg_pos (a b : Qc) : 0 <= a -> 0 < b -> 0 < a + b.
Proof. intros. qc_unfold. lra. Qed.

Lemma Qcplus_nonneg (a b : Qc) : 0 <= a -> 0 <= b -> 0 <= a + b.
Proof. intros. qc_unfold. lra. Qed.

Lemma Qcmult_nonneg (a b : Qc) : 0 <= a -> 0 <= b -> 0 <= a * b.
Proof. intros. qc_unfold. now apply Qmult_le_0_compat. Qed.

Lemma Qclt_neq0 (a : Qc) : 0 < a -> a <> 0.
Proof. intros H E. subst. eapply Qclt_not_eq in H. congruence. Qed.

Lemma fold_left_Qcplus (A : Type) (f : A -> Qc) (l : list A) (acc : Qc) :
  fold_left (fun s x => s + f x) l acc = acc + sumQc (map f l).
Proof.
  revert acc. induction l as [|x l IH]; intros acc; simpl.
  - ring.
  - rewrite IH. ring.
Qed.

Lemma sumQc_app (l1 l2 : list Qc) : sumQc (l1 ++ l2) = sumQc l1 + sumQc l2.
Proof.
  induction l1 as [|x l1 IH]; simpl.
  - ring.
  - rewrite IH. ring.
Qed.

Lemma sumQc_nonneg (l : list Qc) : (forall x, In x l -> 0 <= x) -> 0 <= sumQc l.
Proof.
  induction l as [|x l IH]; simpl; intros H.
  - apply Qcle_refl.
  - apply Qcplus_nonneg; auto.
Qed.

(** ** Recording a shortfall, seen through the lookups *)

Lemma find_updateFirst_same (A : Type) (p : A -> bool) (f : A -> A) (l : list A) :
  (forall x, p x = true -> p (f x) = true) ->
  find p (updateFirst p f l) = option_map f (find p l).
Proof.
  intros Hp. induction l as [|x l IH]; simpl; [reflexivity|].
  destruct (p x) eqn:E; simpl.
  - now rewrite (Hp x E).
  - now rewrite E.
Qed.

Lemma find_updateFirst_other (A : Type) (p q : A -> bool) (f : A -> A) (l : list A) :
  (forall x, p x = true -> q x = false /\ q (f x) = false) ->
  find q (updateFirst p f l) = find q l.
Proof.
  intros Hp. induction l as [|x l IH]; simpl; [reflexivity|].
  destruct (p x) eqn:E; simpl.
  - destruct (Hp x E) as [-> ->]. reflexivity.
  - now rewrite IH.
Qed.

Lemma find_snoc (A : Type) (p : A -> bool) (l : list A) (x : A) :
  find p (l ++ [x]) =
  match find p l with
  | Some y => Some y
  | None => if p x then Some x else None
  end.
Proof.
  induction l as [|y l IH]; simpl; [reflexivity|].
  destruct (p y); auto.
Qed.

Lemma entryOf_recordShortfall_other key ct x u o l k :
  key <> k -> entryOf (recordShortfall key ct x u o l) k = entryOf l k.
Proof.
  intros N. unfold recordShortfall, entryOf.
  destruct (find (fun s => String.eqb (owesTo s) key) l) eqn:F.
  - apply find_updateFirst_other. intros s Hs. simpl.
    apply String.eqb_eq in Hs. rewrite Hs.
    destruct (String.eqb_spec key k); [contradiction | auto].
  - rewrite find_snoc. simpl.
    destruct (find (fun s => String.eqb (owesTo s) k) l); [reflexivity|].
    destruct (String.eqb_spec key k); [contradiction | reflexivity].
Qed.

Lemma entryOf_recordShortfall_same key ct x u o l :
  entryOf (recordShortfall key ct x u o l) key =
  Some match entryOf l key with
       | Some s => bumpShortfall ct x u o s
       | None => {| owesTo := key; shortfalls := [newDetail ct x u o]; totalUsdValue := u |}
       end.
Proof.
  unfold recordShortfall, entryOf.
  destruct (find (fun s => String.eqb (owesTo s) key) l) eqn:F.
  - rewrite find_updateFirst_same; [now rewrite F | auto].
  - rewrite find_snoc, F. simpl. now rewrite String.eqb_refl.
Qed.

Lemma totalOfEntry_recordShortfall key ct x u o l k :
  totalOfEntry (recordShortfall key ct x u o l) k =
  if String.eqb key k then Some (optOr0 (totalOfEntry l k) + u) else totalOfEntry l k.
Proof.
  unfold totalOfEntry. destruct (String.eqb_spec key k) as [<-|N].
  - rewrite entryOf_recordShortfall_same.
    destruct (entryOf l key); simpl; f_equal. ring.
  - now rewrite entryOf_recordShortfall_other.
Qed.

Lemma cellOf_recordShortfall key ct x u o l k c :
  cellOf (recordShortfall key ct x u o l) k c =
  if String.eqb key k && String.eqb ct c then bumpCell x u o (cellOf l k c)
  else cellOf l k c.
Proof.
  unfold cellOf. destruct (String.eqb_spec key k) as [<-|N]; simpl.
  - rewrite entryOf_recordShortfall_same.
    destruct (entryOf l key) as [s|]; simpl.
    + destruct (find (fun d => String.eqb (coinType d) ct) (shortfalls s)) eqn:F.
      * destruct (String.eqb_spec ct c) as [<-|Nc].
        -- rewrite find_updateFirst_same by auto. rewrite F. reflexivity.
        -- rewrite find_updateFirst_other; [reflexivity|].
           intros d Hd. simpl. apply String.eqb_eq in Hd. rewrite Hd.
           destruct (String.eqb_spec ct c); [contradiction | auto].
      * rewrite find_snoc. simpl.
        destruct (String.eqb_spec ct c) as [<-|Nc].
        -- rewrite F. reflexivity.
        -- destruct (find (fun d => String.eqb (coinType d) c) (shortfalls s)); reflexivity.
    + destruct (String.eqb_spec ct c) as [<-|Nc]; reflexivity.
  - now rewrite entryOf_recordShortfall_other.
Qed.

(** ** One allocation, record by record *)

Lemma get_allocateToCreditor entityId ct s su T st kv e :
  Qcgtb (getOr0 (snd kv) ct) 0 = true ->
  JsMap.get st (fst kv) <> None ->
  JsMap.get (allocateToCreditor entityId ct s su T st kv) e =
  option_map
    (allocRecord entityId (fst kv) ct
       (s * (getOr0 (snd kv) ct / T)) (su * (getOr0 (snd kv) ct / T)) e)
    (JsMap.get st e).
Proof.
  intros Hpos Hk. unfold allocateToCreditor. rewrite Hpos. cbv zeta.
  destruct (JsMap.get st (fst kv)) as [cd|] eqn:Gk; [clear Hk | congruence].
  set (x := s * (getOr0 (snd kv) ct / T)).
  set (u := su * (getOr0 (snd kv) ct / T)).
  set (k := fst kv) in *.
  unfold allocRecord.
  rewrite !JsMapFacts.get_set.
  destruct (String.eqb_spec k entityId) as [Eka|Nka].
  - (* the creditor is the debtor itself *)
    subst entityId. rewrite !JsMapFacts.get_set, String.eqb_refl. cbn [set_shortfallsReceived set_shortfallsCaused totalLiabilities shortfallsByCoin shortfallsCaused shortfallsReceived].
    destruct (Nat.ltb 0 (List.length (totalLiabilities cd))) eqn:L.
    + rewrite !JsMapFacts.get_set.
      destruct (String.eqb_spec k e) as [<-|N].
      * rewrite Gk. simpl. rewrite L. reflexivity.
      * destruct (JsMap.get st e); reflexivity.
    + rewrite !JsMapFacts.get_set.
      destruct (String.eqb_spec k e) as [<-|N].
      * rewrite Gk. simpl. rewrite L. reflexivity.
      * destruct (JsMap.get st e); reflexivity.
  - destruct (JsMap.get st entityId) as [data|] eqn:Ga.
    + rewrite !JsMapFacts.get_set.
      destruct (String.eqb_spec entityId k) as [E|_]; [congruence|].
      rewrite String.eqb_refl.
      cbn [set_shortfallsReceived totalLiabilities shortfallsByCoin].
      destruct (Nat.ltb 0 (List.length (totalLiabilities cd))) eqn:L.
      * rewrite !JsMapFacts.get_set.
        destruct (String.eqb_spec k e) as [<-|N].
        -- rewrite Gk. simpl.
           destruct (String.eqb_spec entityId k); [congruence|].
           simpl. rewrite L. reflexivity.
        -- destruct (String.eqb_spec entityId e) as [<-|N'].
           ++ rewrite Ga. reflexivity.
           ++ destruct (JsMap.get st e); reflexivity.
      * rewrite !JsMapFacts.get_set.
        destruct (String.eqb_spec k e) as [<-|N].
        -- rewrite Gk. simpl.
           destruct (String.eqb_spec entityId k); [congruence|].
           simpl. rewrite L. reflexivity.
        -- destruct (String.eqb_spec entityId e) as [<-|N'].
           ++ rewrite Ga. reflexivity.
           ++ destruct (JsMap.get st e); reflexivity.
    + rewrite !JsMapFacts.get_set. rewrite String.eqb_refl.
      cbn [set_shortfallsReceived totalLiabilities shortfallsByCoin].
      destruct (Nat.ltb 0 (List.length (totalLiabilities cd))) eqn:L.
      * rewrite !JsMapFacts.get_set.
        destruct (String.eqb_spec k e) as [<-|N].
        -- rewrite Gk. simpl.
           destruct (String.eqb_spec entityId k); [congruence|].
           simpl. rewrite L. reflexivity.
        -- destruct (String.eqb_spec entityId e) as [<-|N'].
           ++ rewrite Ga. reflexivity.
           ++ destruct (JsMap.get st e); reflexivity.
      * rewrite !JsMapFacts.get_set.
        destruct (String.eqb_spec k e) as [<-|N].
        -- rewrite Gk. simpl.
           destruct (String.eqb_spec entityId k); [congruence|].
           simpl. rewrite L. reflexivity.
        -- destruct (String.eqb_spec entityId e) as [<-|N'].
           ++ rewrite Ga. reflexivity.
           ++ destruct (JsMap.get st e); reflexivity.
Qed.

Lemma allocRecord_byCoin a k ct x u e d :
  shortfallsByCoin (allocRecord a k ct x u e d) =
  if String.eqb k e && Nat.ltb 0 (List.length (totalLiabilities d))
  then JsMap.set (shortfallsByCoin d) ct (getOr0 (shortfallsByCoin d) ct + x)
  else shortfallsByCoin d.
Proof.
  unfold allocRecord.
  destruct (String.eqb k e), (String.eqb a e); simpl;
    destruct (Nat.ltb 0 (List.length (totalLiabilities d))); reflexivity.
Qed.

Lemma allocRecord_received a k ct x u e d :
  shortfallsReceived (allocRecord a k ct x u e d) =
  if String.eqb k e then recordShortfall a ct x u a (shortfallsReceived d)
  else shortfallsReceived d.
Proof.
  unfold allocRecord.
  destruct (String.eqb k e), (String.eqb a e); simpl;
    destruct (Nat.ltb 0 (List.length (totalLiabilities d))); reflexivity.
Qed.

Lemma allocRecord_caused a k ct x u e d :
  shortfallsCaused (allocRecord a k ct x u e d) =
  if String.eqb a e then recordShortfall k ct x u a (shortfallsCaused d)
  else shortfallsCaused d.
Proof.
  unfold allocRecord.
  destruct (String.eqb k e), (String.eqb a e); simpl;
    destruct (Nat.ltb 0 (List.length (totalLiabilities d))); reflexivity.
Qed.

Lemma allocRecord_totalLiabilities a k ct x u e d :
  totalLiabilities (allocRecord a k ct x u e d) = totalLiabilities d.
Proof.
  unfold allocRecord.
  destruct (String.eqb k e), (String.eqb a e); simpl;
    destruct (Nat.ltb 0 (List.length (totalLiabilities d))); reflexivity.
Qed.

Lemma allocateToCreditor_skip entityId ct s su T st kv :
  Qcgtb (getOr0 (snd kv) ct) 0 && present st (fst kv) = false ->
  allocateToCreditor entityId ct s su T st kv = st.
Proof.
  unfold allocateToCreditor, present, JsMap.has. intros H.
  destruct (Qcgtb (getOr0 (snd kv) ct) 0); [|reflexivity].
  destruct (JsMap.get st (fst kv)); [discriminate | reflexivity].
Qed.

Lemma present_true st k : present st k = true <-> JsMap.get st k <> None.
Proof.
  unfold present, JsMap.has. destruct (JsMap.get st k); split; congruence.
Qed.

Ltac eqb_cases :=
  repeat match goal with
         | |- context [String.eqb ?a ?b] => destruct (String.eqb_spec a b); subst
         | H : ?a <> ?a |- _ => contradiction
         end.

Lemma observe_allocateToCreditor entityId ct s su T st kv :
  JsMap.get st entityId <> None ->
  observe (allocateToCreditor entityId ct s su T st kv) =
  allocateObs (present st) (hasLiabilities st) entityId ct s su T (observe st) kv.
Proof.
  intros Ha. unfold allocateObs. cbv zeta.
  destruct (Qcgtb (getOr0 (snd kv) ct) 0 && present st (fst kv)) eqn:C.
  2:{ now rewrite allocateToCreditor_skip. }
  apply andb_true_iff in C. destruct C as [Hpos Hpres].
  apply present_true in Hpres.
  set (x := s * (getOr0 (snd kv) ct / T)).
  set (u := su * (getOr0 (snd kv) ct / T)).
  pose proof (fun e => get_allocateToCreditor entityId ct s su T st kv e Hpos Hpres) as G.
  fold x u in G.
  unfold observe, allocObs, receivedCell, causedCell, hasLiabilities.
  cbn [o_byCoin o_recvTotal o_recv o_causedTotal o_caused]. f_equal.
  - extensionality e. extensionality c. rewrite G.
    destruct (JsMap.get st e) as [d|] eqn:Ge; simpl.
    + rewrite allocRecord_byCoin, (String.eqb_sym e (fst kv)), (String.eqb_sym c ct).
      destruct (String.eqb_spec (fst kv) e) as [<-|N]; simpl.
      * rewrite Ge.
        destruct (Nat.ltb 0 (List.length (totalLiabilities d))); simpl; [|reflexivity].
        rewrite JsMapFacts.get_set. unfold getOr0.
        destruct (String.eqb_spec ct c) as [<-|Nc]; reflexivity.
      * rewrite andb_false_r. reflexivity.
    + destruct (JsMap.get st (fst kv)) as [d'|] eqn:G'; simpl; [|reflexivity].
      destruct (Nat.ltb 0 (List.length (totalLiabilities d'))); simpl; [|reflexivity].
      destruct (String.eqb_spec e (fst kv)) as [->|N]; simpl; [congruence | reflexivity].
  - extensionality e. extensionality k. rewrite G.
    destruct (JsMap.get st e) as [d|] eqn:Ge; simpl.
    + rewrite allocRecord_received, (String.eqb_sym e (fst kv)), (String.eqb_sym k entityId).
      destruct (String.eqb (fst kv) e); simpl; [|reflexivity].
      apply totalOfEntry_recordShortfall.
    + destruct (String.eqb_spec e (fst kv)) as [->|N]; simpl; [congruence | reflexivity].
  - extensionality e. extensionality k. extensionality c. rewrite G.
    destruct (JsMap.get st e) as [d|] eqn:Ge; simpl.
    + rewrite allocRecord_received, (String.eqb_sym e (fst kv)), (String.eqb_sym k entityId),
        (String.eqb_sym c ct).
      destruct (String.eqb (fst kv) e); simpl; [|reflexivity].
      rewrite cellOf_recordShortfall. reflexivity.
    + destruct (String.eqb_spec e (fst kv)) as [->|N]; simpl; [congruence | reflexivity].
  - extensionality e. extensionality k. rewrite G.
    destruct (JsMap.get st e) as [d|] eqn:Ge; simpl.
    + rewrite allocRecord_caused, (String.eqb_sym e entityId), (String.eqb_sym k (fst kv)).
      destruct (String.eqb entityId e); simpl; [|reflexivity].
      apply totalOfEntry_recordShortfall.
    + destruct (String.eqb_spec e entityId) as [->|N]; simpl; [congruence | reflexivity].
  - extensionality e. extensionality k. extensionality c. rewrite G.
    destruct (JsMap.get st e) as [d|] eqn:Ge; simpl.
    + rewrite allocRecord_caused, (String.eqb_sym e entityId), (String.eqb_sym k (fst kv)),
        (String.eqb_sym c ct).
      destruct (String.eqb entityId e); simpl; [|reflexivity].
      rewrite cellOf_recordShortfall. reflexivity.
    + destruct (String.eqb_spec e entityId) as [->|N]; simpl; [congruence | reflexivity].
Qed.

(** ** What propagation leaves unchanged *)

Lemma get_statics st k : JsMap.get (statics st) k = option_map blank (JsMap.get st k).
Proof.
  induction st as [|[k' d] st IH]; simpl; [reflexivity|].
  destruct (String.eqb k' k); auto.
Qed.

Lemma keys_statics st : JsMap.keys (statics st) = JsMap.keys st.
Proof.
  unfold statics, JsMap.keys. rewrite map_map. reflexivity.
Qed.

Lemma statics_set st k d d' :
  JsMap.get st k = Some d -> blank d' = blank d ->
  statics (JsMap.set st k d') = statics st.
Proof.
  intros G B. induction st as [|[k0 d0] st IH]; simpl in *; [discriminate|].
  destruct (String.eqb k0 k) eqn:E; simpl.
  - inversion G; subst. now rewrite B.
  - now rewrite IH.
Qed.

Lemma statics_present st st' : statics st = statics st' -> present st = present st'.
Proof.
  intros H. extensionality k. unfold present, JsMap.has.
  pose proof (get_statics st k) as A. pose proof (get_statics st' k) as B.
  rewrite H in A. rewrite A in B.
  destruct (JsMap.get st k), (JsMap.get st' k); simpl in B; congruence.
Qed.

Lemma blank_totalLiabilities d d' :
  blank d = blank d' -> totalLiabilities d = totalLiabilities d'.
Proof. intros H. apply (f_equal totalLiabilities) in H. exact H. Qed.

Lemma statics_hasLiabilities st st' :
  statics st = statics st' -> hasLiabilities st = hasLiabilities st'.
Proof.
  intros H. extensionality k. unfold hasLiabilities.
  pose proof (get_statics st k) as A. pose proof (get_statics st' k) as B.
  rewrite H in A. rewrite A in B.
  destruct (JsMap.get st k) as [d1|], (JsMap.get st' k) as [d2|]; simpl in B; try congruence.
  assert (B' : blank d1 = blank d2) by congruence.
  now rewrite (blank_totalLiabilities _ _ B').
Qed.

Lemma statics_get_None st st' k :
  statics st = statics st' -> JsMap.get st k = None -> JsMap.get st' k = None.
Proof.
  intros H G. pose proof (get_statics st k) as A. pose proof (get_statics st' k) as B.
  rewrite H in A. rewrite A, G in B. destruct (JsMap.get st' k); simpl in B; congruence.
Qed.

Lemma statics_allocateToCreditor entityId ct s su T st kv :
  statics (allocateToCreditor entityId ct s su T st kv) = statics st.
Proof.
  unfold allocateToCreditor.
  destruct (Qcgtb (getOr0 (snd kv) ct) 0); [|reflexivity]. cbv zeta.
  destruct (JsMap.get st (fst kv)) as [cd|] eqn:Gk; [|reflexivity].
  match goal with
  | |- statics (match JsMap.get ?st2 _ with _ => _ end) = _ =>
      assert (S2 : statics st2 = statics st)
  end.
  { destruct (JsMap.get (JsMap.set st (fst kv) _) entityId) as [data|] eqn:Ga.
    - erewrite statics_set; [| exact Ga | reflexivity].
      erewrite statics_set; [reflexivity | exact Gk | reflexivity].
    - erewrite statics_set; [reflexivity | exact Gk | reflexivity]. }
  match goal with
  | |- statics (match JsMap.get ?st2 ?k with _ => _ end) = _ =>
      destruct (JsMap.get st2 k) as [cd'|] eqn:Gk'; [|exact S2]
  end.
  destruct (Nat.ltb 0 (List.length (totalLiabilities cd'))); [|exact S2].
  erewrite statics_set; [exact S2 | exact Gk' | reflexivity].
Qed.

Lemma statics_fold_allocate entityId ct s su T obc st :
  statics (fold_left (allocateToCreditor entityId ct s su T) obc st) = statics st.
Proof.
  revert st. induction obc as [|kv obc IH]; intros st; simpl; [reflexivity|].
  rewrite IH. apply statics_allocateToCreditor.
Qed.

Lemma statics_distributeCoin entityId obc priceMap st kv :
  statics (distributeCoin entityId obc priceMap st kv) = statics st.
Proof.
  unfold distributeCoin. cbv zeta.
  destruct (Qcgtb _ 0); [|reflexivity].
  destruct (JsMap.get priceMap (fst kv)); [|reflexivity].
  apply statics_fold_allocate.
Qed.

Lemma statics_fold_distribute entityId obc priceMap l st :
  statics (fold_left (distributeCoin entityId obc priceMap) l st) = statics st.
Proof.
  revert st. induction l as [|kv l IH]; intros st; simpl; [reflexivity|].
  rewrite IH. apply statics_distributeCoin.
Qed.

Lemma statics_propagateEntityShortfalls entityId st entities priceMap :
  statics (propagateEntityShortfalls entityId st entities priceMap) = statics st.
Proof.
  unfold propagateEntityShortfalls.
  destruct (entities_get entities entityId); [|reflexivity].
  destruct (JsMap.get st entityId); [|reflexivity].
  destruct (Nat.ltb 0 _); [|reflexivity].
  apply statics_fold_distribute.
Qed.

Lemma statics_propagateInOrder order st entities priceMap :
  statics (propagateInOrder order st entities priceMap) = statics st.
Proof.
  unfold propagateInOrder. revert st.
  induction order as [|a order IH]; intros st; simpl; [reflexivity|].
  rewrite IH. apply statics_propagateEntityShortfalls.
Qed.

Lemma statics_keys st st' : statics st = statics st' -> JsMap.keys st = JsMap.keys st'.
Proof. intros H. rewrite <- (keys_statics st), H. apply keys_statics. Qed.

Lemma statics_get_Some st st' k :
  statics st = statics st' -> JsMap.get st k <> None -> JsMap.get st' k <> None.
Proof.
  intros H G N. apply G. eapply statics_get_None; [symmetry; exact H | exact N].
Qed.

(** ** Propagation commutes with observation *)

Lemma observe_fold_allocate entityId ct s su T obc st :
  JsMap.get st entityId <> None ->
  observe (fold_left (allocateToCreditor entityId ct s su T) obc st) =
  fold_left (allocateObs (present st) (hasLiabilities st) entityId ct s su T) obc (observe st).
Proof.
  revert st. induction obc as [|kv obc IH]; intros st Ha; simpl; [reflexivity|].
  pose proof (statics_allocateToCreditor entityId ct s su T st kv) as S.
  rewrite IH by (eapply statics_get_Some; [symmetry; exact S | exact Ha]).
  rewrite (statics_present _ _ S), (statics_hasLiabilities _ _ S).
  now rewrite observe_allocateToCreditor.
Qed.

Lemma observe_distributeCoin entityId obc priceMap st kv :
  JsMap.get st entityId <> None ->
  observe (distributeCoin entityId obc priceMap st kv) =
  distributeObs (present st) (hasLiabilities st) entityId obc priceMap (observe st) kv.
Proof.
  intros Ha. unfold distributeCoin, distributeObs. cbv zeta.
  destruct (Qcgtb _ 0); [|reflexivity].
  destruct (JsMap.get priceMap (fst kv)); [|reflexivity].
  now apply observe_fold_allocate.
Qed.

Lemma observe_fold_distribute entityId obc priceMap l st :
  JsMap.get st entityId <> None ->
  observe (fold_left (distributeCoin entityId obc priceMap) l st) =
  fold_left (distributeObs (present st) (hasLiabilities st) entityId obc priceMap) l
    (observe st).
Proof.
  revert st. induction l as [|kv l IH]; intros st Ha; simpl; [reflexivity|].
  pose proof (statics_distributeCoin entityId obc priceMap st kv) as S.
  rewrite IH by (eapply statics_get_Some; [symmetry; exact S | exact Ha]).
  rewrite (statics_present _ _ S), (statics_hasLiabilities _ _ S).
  now rewrite observe_distributeCoin.
Qed.

Lemma observe_propagateEntityShortfalls entityId st entities priceMap entity data :
  entities_get entities entityId = Some entity ->
  JsMap.get st entityId = Some data ->
  observe (propagateEntityShortfalls entityId st entities priceMap) =
  stepObs (present st) (hasLiabilities st) entityId entity priceMap
    (shortfallsByCoin data) (observe st).
Proof.
  intros He Hd. unfold propagateEntityShortfalls, stepObs. rewrite He, Hd.
  destruct (shortfallsByCoin data) as [|kv l] eqn:E; [reflexivity|].
  cbn [JsMap.size List.length Nat.ltb Nat.leb].
  apply observe_fold_distribute. congruence.
Qed.

(** ** The cells written by one coin's distribution *)

Lemma cellAmount_bump x u o c : cellAmount (bumpCell x u o c) = cellAmount c + x.
Proof. destruct c as [[[x0 u0] o0]|]; simpl; ring. Qed.

Lemma cellUsd_bump x u o c : cellUsd (bumpCell x u o c) = cellUsd c + u.
Proof. destruct c as [[[x0 u0] o0]|]; simpl; ring. Qed.

Lemma get_cons_NoDup (V : Type) (k' : string) (v : V) (m : JsMap.t V) k :
  NoDup (JsMap.keys ((k', v) :: m)) ->
  JsMap.get ((k', v) :: m) k = (if String.eqb k' k then Some v else JsMap.get m k)
  /\ (k' = k -> JsMap.get m k = None).
Proof.
  intros ND. split; [reflexivity|]. intros <-.
  inversion ND; subst. now apply JsMapFacts.get_None_iff.
Qed.

Lemma recv_allocateObs pres liab a ct s su T o kv k :
  o_recv (allocateObs pres liab a ct s su T o kv) k a ct =
  if String.eqb (fst kv) k && (Qcgtb (getOr0 (snd kv) ct) 0 && pres (fst kv))
  then bumpCell (s * (getOr0 (snd kv) ct / T)) (su * (getOr0 (snd kv) ct / T)) a
         (o_recv o k a ct)
  else o_recv o k a ct.
Proof.
  unfold allocateObs. cbv zeta.
  destruct (Qcgtb (getOr0 (snd kv) ct) 0 && pres (fst kv)).
  - cbn [allocObs o_recv]. rewrite !String.eqb_refl, (String.eqb_sym k (fst kv)).
    destruct (String.eqb (fst kv) k); reflexivity.
  - now rewrite andb_false_r.
Qed.

Lemma caused_allocateObs pres liab a ct s su T o kv k :
  o_caused (allocateObs pres liab a ct s su T o kv) a k ct =
  if String.eqb (fst kv) k && (Qcgtb (getOr0 (snd kv) ct) 0 && pres (fst kv))
  then bumpCell (s * (getOr0 (snd kv) ct / T)) (su * (getOr0 (snd kv) ct / T)) a
         (o_caused o a k ct)
  else o_caused o a k ct.
Proof.
  unfold allocateObs. cbv zeta.
  destruct (Qcgtb (getOr0 (snd kv) ct) 0 && pres (fst kv)).
  - cbn [allocObs o_caused]. rewrite !String.eqb_refl, (String.eqb_sym k (fst kv)).
    destruct (String.eqb (fst kv) k); reflexivity.
  - now rewrite andb_false_r.
Qed.

Lemma recv_fold_allocateObs pres liab a ct s su T obc o k :
  NoDup (JsMap.keys obc) ->
  o_recv (fold_left (allocateObs pres liab a ct s su T) obc o) k a ct =
  match JsMap.get obc k with
  | Some obs =>
      if Qcgtb (getOr0 obs ct) 0 && pres k
      then bumpCell (s * (getOr0 obs ct / T)) (su * (getOr0 obs ct / T)) a (o_recv o k a ct)
      else o_recv o k a ct
  | None => o_recv o k a ct
  end.
Proof.
  revert o. induction obc as [|[k' obs'] obc IH]; intros o ND; [reflexivity|].
  destruct (get_cons_NoDup _ k' obs' obc k ND) as [-> Hn].
  inversion ND as [|? ? NI ND']; subst.
  cbn [fold_left]. rewrite IH by assumption.
  rewrite recv_allocateObs. cbn [fst snd].
  destruct (String.eqb_spec k' k) as [->|N]; cbn [andb].
  - now rewrite Hn.
  - reflexivity.
Qed.

Lemma caused_fold_allocateObs pres liab a ct s su T obc o k :
  NoDup (JsMap.keys obc) ->
  o_caused (fold_left (allocateObs pres liab a ct s su T) obc o) a k ct =
  match JsMap.get obc k with
  | Some obs =>
      if Qcgtb (getOr0 obs ct) 0 && pres k
      then bumpCell (s * (getOr0 obs ct / T)) (su * (getOr0 obs ct / T)) a (o_caused o a k ct)
      else o_caused o a k ct
  | None => o_caused o a k ct
  end.
Proof.
  revert o. induction obc as [|[k' obs'] obc IH]; intros o ND; [reflexivity|].
  destruct (get_cons_NoDup _ k' obs' obc k ND) as [-> Hn].
  inversion ND as [|? ? NI ND']; subst.
  cbn [fold_left]. rewrite IH by assumption.
  rewrite caused_allocateObs. cbn [fst snd].
  destruct (String.eqb_spec k' k) as [->|N]; cbn [andb].
  - now rewrite Hn.
  - reflexivity.
Qed.

(** ** The grouping of obligations by creditor *)

Lemma pow10_pos d : 0 < pow10 d.
Proof.
  unfold pow10, Z2Qc, Qclt. change (this 0) with (inject_Z 0).
  cbn [this Q2Qc]. rewrite Qred_correct. rewrite <- Zlt_Qlt.
  apply Z.pow_pos_nonneg; lia.
Qed.

Lemma Z2Qc_nonneg z : (0 <= z)%Z -> 0 <= Z2Qc z.
Proof.
  intros H. unfold Z2Qc, Qcle. change (this 0) with (inject_Z 0).
  cbn [this Q2Qc]. rewrite Qred_correct. now rewrite <- Zle_Qle.
Qed.

Lemma Z2Qc_pos z : (0 < z)%Z -> 0 < Z2Qc z.
Proof.
  intros H. unfold Z2Qc, Qclt. change (this 0) with (inject_Z 0).
  cbn [this Q2Qc]. rewrite Qred_correct. now rewrite <- Zlt_Qlt.
Qed.

Lemma toNumber_nonneg a : (0 <= int a)%Z -> 0 <= toNumber a.
Proof.
  intros H. unfold toNumber, toDecimal, Qcdiv.
  apply Qcmult_nonneg; [now apply Z2Qc_nonneg|].
  apply Qclt_le_weak, Qcinv_pos, pow10_pos.
Qed.

Lemma nonnegMap_nil : nonnegMap [].
Proof. intros c. apply Qcle_refl. Qed.

Lemma nonnegMap_set m c x :
  nonnegMap m -> 0 <= x -> nonnegMap (JsMap.set m c (getOr0 m c + x)).
Proof.
  intros Hm Hx c'. unfold getOr0 at 1. rewrite JsMapFacts.get_set.
  destruct (String.eqb c c').
  - apply Qcplus_nonneg; auto.
  - apply Hm.
Qed.

Lemma obligationsByCreditor_inv (obs : list Obligation) (m : JsMap.t (JsMap.t Qc)) :
  forallb (fun ob => assetNonneg (asset ob)) obs = true ->
  NoDup (JsMap.keys m) ->
  (forall k v, JsMap.get m k = Some v -> nonnegMap v) ->
  let m' := fold_left addCreditorObligation obs m in
  NoDup (JsMap.keys m') /\ (forall k v, JsMap.get m' k = Some v -> nonnegMap v).
Proof.
  revert m. induction obs as [|ob obs IH]; intros m Hn ND Hm; [now split|].
  simpl in Hn. apply andb_true_iff in Hn. destruct Hn as [Hob Hn].
  cbn [fold_left]. apply IH; [assumption | |].
  - unfold addCreditorObligation, ensureCreditor, JsMap.has.
    destruct (asset ob); cbv zeta;
      destruct (JsMap.get m (to ob)) eqn:G;
      rewrite ?G, ?JsMapFacts.get_set_eq; repeat apply JsMapFacts.NoDup_keys_set; assumption.
  - intros k v.
    assert (E : forall cur, JsMap.get (ensureCreditor m (to ob)) (to ob) = Some cur ->
                            nonnegMap cur).
    { intros cur. unfold ensureCreditor, JsMap.has.
      destruct (JsMap.get m (to ob)) eqn:G.
      - rewrite G. intros [= <-]. eapply Hm; eauto.
      - rewrite JsMapFacts.get_set_eq. intros [= <-]. apply nonnegMap_nil. }
    assert (O : forall k', k' <> to ob ->
                           JsMap.get (ensureCreditor m (to ob)) k' = JsMap.get m k').
    { intros k' N. unfold ensureCreditor, JsMap.has.
      destruct (JsMap.get m (to ob)); [reflexivity|].
      apply JsMapFacts.get_set_neq. congruence. }
    unfold addCreditorObligation.
    destruct (asset ob) as [coin i | coinA coinB iA iB]; cbv zeta; simpl in Hob.
    + destruct (JsMap.get (ensureCreditor m (to ob)) (to ob)) as [cur|] eqn:G.
      * rewrite JsMapFacts.get_set.
        destruct (String.eqb_spec (to ob) k) as [<-|N].
        -- intros [= <-]. apply nonnegMap_set; [now apply E|].
           apply toNumber_nonneg. simpl. lia.
        -- rewrite O by congruence. apply Hm.
      * destruct (String.eqb_spec (to ob) k) as [<-|N].
        -- rewrite G. discriminate.
        -- rewrite O by congruence. apply Hm.
    + apply andb_true_iff in Hob. destruct Hob as [HA HB].
      destruct (JsMap.get (ensureCreditor m (to ob)) (to ob)) as [cur|] eqn:G.
      * rewrite JsMapFacts.get_set.
        destruct (String.eqb_spec (to ob) k) as [<-|N].
        -- intros [= <-]. apply nonnegMap_set.
           ++ apply nonnegMap_set; [now apply E|]. apply toNumber_nonneg. simpl. lia.
           ++ apply toNumber_nonneg. simpl. lia.
        -- rewrite O by congruence. apply Hm.
      * destruct (String.eqb_spec (to ob) k) as [<-|N].
        -- rewrite G. discriminate.
        -- rewrite O by congruence. apply Hm.
Qed.

Lemma NoDup_keys_fold_addCreditorObligation obs m :
  NoDup (JsMap.keys m) -> NoDup (JsMap.keys (fold_left addCreditorObligation obs m)).
Proof.
  revert m. induction obs as [|ob obs IH]; intros m ND; [assumption|].
  cbn [fold_left]. apply IH.
  unfold addCreditorObligation, ensureCreditor, JsMap.has.
  destruct (asset ob); cbv zeta;
    destruct (JsMap.get m (to ob)) eqn:G;
    rewrite ?G, ?JsMapFacts.get_set_eq; repeat apply JsMapFacts.NoDup_keys_set; assumption.
Qed.

Lemma NoDup_keys_obligationsByCreditor entity :
  NoDup (JsMap.keys (obligationsByCreditor entity)).
Proof. apply NoDup_keys_fold_addCreditorObligation. constructor. Qed.

Lemma obligationsByCreditor_nonneg entity k obs ct :
  nonnegObligations entity = true ->
  In (k, obs) (obligationsByCreditor entity) -> 0 <= getOr0 obs ct.
Proof.
  intros Hn Hin.
  destruct (obligationsByCreditor_inv (obligations entity) [] Hn) as [ND Hm].
  - constructor.
  - intros ? ? G. discriminate.
  - apply (Hm k obs). now apply JsMapFacts.in_get_NoDup.
Qed.

(** ** Pro-rata distribution without rounding *)

Lemma sumQc_scale (A : Type) (c : Qc) (f : A -> Qc) (l : list A) :
  sumQc (map (fun x => c * f x) l) = c * sumQc (map f l).
Proof.
  induction l as [|x l IH]; simpl.
  - ring.
  - rewrite IH. ring.
Qed.

Lemma totalObligationsForCoin_sum obc ct :
  totalObligationsForCoin obc ct = sumQc (map (fun kv => getOr0 (snd kv) ct) obc).
Proof.
  unfold totalObligationsForCoin, JsMap.values.
  rewrite fold_left_Qcplus, map_map. ring.
Qed.

Lemma distributeCoin_priced entityId obc priceMap st ct s price :
  JsMap.get priceMap ct = Some price ->
  0 < totalObligationsForCoin obc ct ->
  distributeCoin entityId obc priceMap st (ct, s) =
  fold_left
    (allocateToCreditor entityId ct s (s * price) (totalObligationsForCoin obc ct)) obc st.
Proof.
  intros Hp HT. unfold distributeCoin. cbn [fst snd].
  apply Qcgtb_true in HT. now rewrite HT, Hp.
Qed.

Lemma receivedCell_distributeCoin entityId obc priceMap st ct s price k obs :
  NoDup (JsMap.keys obc) ->
  JsMap.get priceMap ct = Some price ->
  0 < totalObligationsForCoin obc ct ->
  JsMap.get st entityId <> None ->
  In (k, obs) obc ->
  receivedCell (distributeCoin entityId obc priceMap st (ct, s)) k entityId ct =
  if Qcgtb (getOr0 obs ct) 0 && present st k
  then bumpCell (s * (getOr0 obs ct / totalObligationsForCoin obc ct))
         (s * price * (getOr0 obs ct / totalObligationsForCoin obc ct)) entityId
         (receivedCell st k entityId ct)
  else receivedCell st k entityId ct.
Proof.
  intros ND Hp HT Ha Hin.
  rewrite (distributeCoin_priced _ _ _ _ _ _ _ Hp HT).
  change (receivedCell ?x) with (o_recv (observe x)).
  rewrite observe_fold_allocate by assumption.
  rewrite recv_fold_allocateObs by assumption.
  now rewrite (JsMapFacts.in_get_NoDup _ _ _ ND Hin).
Qed.

Lemma causedCell_distributeCoin entityId obc priceMap st ct s price k obs :
  NoDup (JsMap.keys obc) ->
  JsMap.get priceMap ct = Some price ->
  0 < totalObligationsForCoin obc ct ->
  JsMap.get st entityId <> None ->
  In (k, obs) obc ->
  causedCell (distributeCoin entityId obc priceMap st (ct, s)) entityId k ct =
  if Qcgtb (getOr0 obs ct) 0 && present st k
  then bumpCell (s * (getOr0 obs ct / totalObligationsForCoin obc ct))
         (s * price * (getOr0 obs ct / totalObligationsForCoin obc ct)) entityId
         (causedCell st entityId k ct)
  else causedCell st entityId k ct.
Proof.
  intros ND Hp HT Ha Hin.
  rewrite (distributeCoin_priced _ _ _ _ _ _ _ Hp HT).
  change (causedCell ?x) with (o_caused (observe x)).
  rewrite observe_fold_allocate by assumption.
  rewrite caused_fold_allocateObs by assumption.
  now rewrite (JsMapFacts.in_get_NoDup _ _ _ ND Hin).
Qed.

Lemma share_of_nonneg (s amt T : Qc) :
  0 <= amt ->
  (if Qcgtb amt 0 then s * (amt / T) else 0) = s * (amt / T).
Proof.
  intros H. destruct (Qcgtb amt 0) eqn:E; [reflexivity|].
  apply Qcgtb_false in E. assert (amt = 0) by (now apply Qcle_antisym).
  subst. unfold Qcdiv. ring.
Qed.

(** Without rounding (every number a rational): when the shortfall [s]
    of coin [ct] of an entity is distributed
    and its creditors' obligation amounts of that coin sum to [S > 0]
    (all creditors being entities of the map), the creditor with amount
    [si > 0] has [s * si / S] added to the amount, and [(s * price) * si / S]
    to the USD value, of its received entry from the entity; summed over
    all creditors these additions are exactly [s] (and [s * price] in
    USD). *)
Theorem exact_pro_rata_allocation :
  forall (entity : Entity) (priceMap : JsMap.t Qc) (st : JsMap.t EntitySolvencyData)
         (ct : string) (s price : Qc),
    nonnegObligations entity = true ->
    creditorsPresent st (obligationsByCreditor entity) = true ->
    JsMap.get st (id entity) <> None ->
    JsMap.get priceMap ct = Some price ->
    0 < totalObligationsForCoin (obligationsByCreditor entity) ct ->
    let obc := obligationsByCreditor entity in
    let S := totalObligationsForCoin obc ct in
    let st' := distributeCoin (id entity) obc priceMap st (ct, s) in
    (forall k obs, In (k, obs) obc -> 0 < getOr0 obs ct ->
       receivedAmount st' k (id entity) ct
         = receivedAmount st k (id entity) ct + s * getOr0 obs ct / S
       /\ receivedUsd st' k (id entity) ct
         = receivedUsd st k (id entity) ct + (s * price) * getOr0 obs ct / S)
    /\ sumQc (map (fun kv => receivedAmount st' (fst kv) (id entity) ct
                             - receivedAmount st (fst kv) (id entity) ct) obc) = s
    /\ sumQc (map (fun kv => receivedUsd st' (fst kv) (id entity) ct
                             - receivedUsd st (fst kv) (id entity) ct) obc) = s * price.
Proof.
  intros entity priceMap st ct s price Hnn Hpres Ha Hp HT obc S st'.
  pose proof (NoDup_keys_obligationsByCreditor entity) as ND. fold obc in ND.
  assert (HS : S <> 0) by (apply Qclt_neq0; exact HT).
  assert (Pres : forall k obs, In (k, obs) obc -> present st k = true).
  { intros k obs Hin. unfold creditorsPresent in Hpres.
    rewrite forallb_forall in Hpres. apply Hpres.
    change k with (fst (k, obs)). now apply in_map. }
  assert (Cell : forall k obs, In (k, obs) obc ->
            receivedCell st' k (id entity) ct =
            if Qcgtb (getOr0 obs ct) 0
            then bumpCell (s * (getOr0 obs ct / S)) (s * price * (getOr0 obs ct / S))
                   (id entity) (receivedCell st k (id entity) ct)
            else receivedCell st k (id entity) ct).
  { intros k obs Hin. unfold st'.
    rewrite (receivedCell_distributeCoin _ _ _ _ _ _ _ _ _ ND Hp HT Ha Hin).
    rewrite (Pres _ _ Hin). now rewrite andb_true_r. }
  split; [|split].
  - intros k obs Hin Hpos. unfold receivedAmount, receivedUsd.
    rewrite (Cell _ _ Hin). apply Qcgtb_true in Hpos. rewrite Hpos.
    rewrite cellAmount_bump, cellUsd_bump. split; field; exact HS.
  - rewrite (map_ext_in _ (fun kv => (s / S) * getOr0 (snd kv) ct)).
    + rewrite sumQc_scale, <- totalObligationsForCoin_sum. fold S. field. exact HS.
    + intros [k obs] Hin. cbn [fst snd]. unfold receivedAmount.
      rewrite (Cell _ _ Hin).
      replace (s / S * getOr0 obs ct) with (s * (getOr0 obs ct / S))
        by (unfold Qcdiv; ring).
      rewrite <- (share_of_nonneg s (getOr0 obs ct) S)
        by (eapply obligationsByCreditor_nonneg; eauto).
      destruct (Qcgtb (getOr0 obs ct) 0); [rewrite cellAmount_bump|]; ring.
  - rewrite (map_ext_in _ (fun kv => (s * price / S) * getOr0 (snd kv) ct)).
    + rewrite sumQc_scale, <- totalObligationsForCoin_sum. fold S. field. exact HS.
    + intros [k obs] Hin. cbn [fst snd]. unfold receivedUsd.
      rewrite (Cell _ _ Hin).
      replace (s * price / S * getOr0 obs ct) with (s * price * (getOr0 obs ct / S))
        by (unfold Qcdiv; ring).
      rewrite <- (share_of_nonneg (s * price) (getOr0 obs ct) S)
        by (eapply obligationsByCreditor_nonneg; eauto).
      destruct (Qcgtb (getOr0 obs ct) 0); [rewrite cellUsd_bump|]; ring.
Qed.

Lemma exact_pro_rata_allocation_witness :
  let st := Examples.stateOf (firstPass Examples.proRata Examples.priceMap) in
  let st' :=
    distributeCoin "entity3" (obligationsByCreditor Examples.proRataDebtor)
      Examples.priceMap st ("USDC", Z2Qc 350) in
  sumQc (map (fun kv => receivedAmount st' (fst kv) "entity3" "USDC"
                        - receivedAmount st (fst kv) "entity3" "USDC")
           (obligationsByCreditor Examples.proRataDebtor)) = Z2Qc 350.
Proof.
  refine (proj1 (proj2
    (exact_pro_rata_allocation Examples.proRataDebtor Examples.priceMap
       (Examples.stateOf (firstPass Examples.proRata Examples.priceMap))
       "USDC" (Z2Qc 350) (Z2Qc 1) _ _ _ _ _))).
  - reflexivity.
  - reflexivity.
  - vm_compute. discriminate.
  - reflexivity.
  - reflexivity.
Defined.

Lemma sumQc_lt (A : Type) (f g : A -> Qc) (l : list A) :
  (forall x, In x l -> f x <= g x) ->
  (exists x, In x l /\ f x < g x) ->
  sumQc (map f l) < sumQc (map g l).
Proof.
  induction l as [|y l IH]; intros Hle [x [Hin Hlt]]; [destruct Hin|].
  assert (Hsum : forall l', (forall x, In x l' -> f x <= g x) ->
                            sumQc (map f l') <= sumQc (map g l')).
  { clear. induction l' as [|z l' IH']; intros H; simpl.
    - apply Qcle_refl.
    - apply Qcplus_le_compat; [apply H; now left | apply IH'; intros; apply H; now right]. }
  simpl. destruct Hin as [->|Hin].
  - assert (T := Hsum l (fun z Hz => Hle z (or_intror Hz))).
    qc_unfold. lra.
  - assert (T := IH (fun z Hz => Hle z (or_intror Hz)) (ex_intro _ x (conj Hin Hlt))).
    assert (Hy := Hle y (or_introl eq_refl)).
    qc_unfold. lra.
Qed.

Lemma sumQc_pos_of_member (A : Type) (f : A -> Qc) (l : list A) (x : A) :
  (forall y, In y l -> 0 <= f y) -> In x l -> 0 < f x -> 0 < sumQc (map f l).
Proof.
  intros Hnn Hin Hpos.
  assert (E : sumQc (map (fun _ : A => 0) l) = 0).
  { clear. induction l; simpl; [reflexivity|]. rewrite IHl. ring. }
  rewrite <- E at 1. apply sumQc_lt; [assumption|]. now exists x.
Qed.

(** Without rounding (every number a rational): when the entity being
    processed owes coin [ct] to a creditor
    [j] that has no record in the entity map, nothing is recorded for
    [j]: it still has no record afterwards and the debtor gets no caused
    entry for it.  The other creditors' proportions are still taken over
    the total [S] that includes [j]'s amount, so the amounts recorded as
    caused by the debtor sum to strictly less than the shortfall [s]. *)
Theorem exact_absent_creditor_share_dropped :
  forall (entity : Entity) (priceMap : JsMap.t Qc) (st : JsMap.t EntitySolvencyData)
         (ct : string) (s price : Qc) (j : string) (obsj : JsMap.t Qc),
    nonnegObligations entity = true ->
    JsMap.get st (id entity) <> None ->
    JsMap.get priceMap ct = Some price ->
    0 < s ->
    In (j, obsj) (obligationsByCreditor entity) ->
    0 < getOr0 obsj ct ->
    JsMap.get st j = None ->
    let obc := obligationsByCreditor entity in
    let S := totalObligationsForCoin obc ct in
    let st' := distributeCoin (id entity) obc priceMap st (ct, s) in
    JsMap.get st' j = None
    /\ causedCell st' (id entity) j ct = causedCell st (id entity) j ct
    /\ (forall k obs, In (k, obs) obc -> JsMap.get st k <> None -> 0 < getOr0 obs ct ->
          receivedAmount st' k (id entity) ct
          = receivedAmount st k (id entity) ct + s * getOr0 obs ct / S)
    /\ sumQc (map (fun kv => causedAmount st' (id entity) (fst kv) ct
                             - causedAmount st (id entity) (fst kv) ct) obc) < s.
Proof.
  intros entity priceMap st ct s price j obsj Hnn Ha Hp Hs Hj Hjpos Hjabs obc S st'.
  pose proof (NoDup_keys_obligationsByCreditor entity) as ND. fold obc in ND, Hj.
  assert (Nonneg : forall kv, In kv obc -> 0 <= getOr0 (snd kv) ct).
  { intros [k obs] Hin. eapply obligationsByCreditor_nonneg; eauto. }
  assert (HT : 0 < S).
  { unfold S. rewrite totalObligationsForCoin_sum.
    apply (sumQc_pos_of_member _ (fun kv => getOr0 (snd kv) ct) obc (j, obsj)); auto. }
  assert (HS : S <> 0) by (apply Qclt_neq0; exact HT).
  assert (Pj : present st j = false).
  { unfold present, JsMap.has. now rewrite Hjabs. }
  split; [|split; [|split]].
  - eapply statics_get_None; [|exact Hjabs]. symmetry. apply statics_distributeCoin.
  - unfold st'. rewrite (causedCell_distributeCoin _ _ _ _ _ _ _ _ _ ND Hp HT Ha Hj).
    now rewrite Pj, andb_false_r.
  - intros k obs Hin Hk Hpos. unfold receivedAmount, st'.
    rewrite (receivedCell_distributeCoin _ _ _ _ _ _ _ _ _ ND Hp HT Ha Hin).
    apply present_true in Hk. apply Qcgtb_true in Hpos. rewrite Hk, Hpos. cbn [andb].
    rewrite cellAmount_bump. fold S. field. exact HS.
  - assert (E : s = sumQc (map (fun kv => (s / S) * getOr0 (snd kv) ct) obc)).
    { rewrite sumQc_scale, <- totalObligationsForCoin_sum. fold S. field. exact HS. }
    apply Qclt_le_trans with (sumQc (map (fun kv => (s / S) * getOr0 (snd kv) ct) obc));
      [|rewrite <- E; apply Qcle_refl].
    clear E.
    assert (Term : forall k obs, In (k, obs) obc ->
              causedAmount st' (id entity) k ct - causedAmount st (id entity) k ct =
              if Qcgtb (getOr0 obs ct) 0 && present st k
              then s * (getOr0 obs ct / S) else 0).
    { intros k obs Hin. unfold causedAmount, st'.
      rewrite (causedCell_distributeCoin _ _ _ _ _ _ _ _ _ ND Hp HT Ha Hin). fold S.
      destruct (Qcgtb (getOr0 obs ct) 0 && present st k);
        [rewrite cellAmount_bump|]; ring. }
    assert (Share : forall x, 0 <= x -> 0 <= s / S * x).
    { intros x Hx. apply Qcmult_nonneg; [|exact Hx].
      apply Qclt_le_weak, Qcdiv_pos; assumption. }
    apply sumQc_lt.
    + intros [k obs] Hin. cbn [fst snd]. rewrite (Term _ _ Hin).
      destruct (Qcgtb (getOr0 obs ct) 0 && present st k).
      * replace (s * (getOr0 obs ct / S)) with (s / S * getOr0 obs ct)
          by (unfold Qcdiv; ring).
        apply Qcle_refl.
      * apply Share. apply (Nonneg (k, obs) Hin).
    + exists (j, obsj). split; [exact Hj|]. cbn [fst snd]. rewrite (Term _ _ Hj).
      rewrite Pj, andb_false_r.
      apply Qcmult_pos; [|exact Hjpos]. apply Qcdiv_pos; assumption.
Qed.

Lemma exact_absent_creditor_share_dropped_witness :
  let st := Examples.stateOf (firstPass Examples.proRataExternal Examples.priceMap) in
  let obc := obligationsByCreditor Examples.proRataDebtor in
  let st' := distributeCoin "entity3" obc Examples.priceMap st ("USDC", Z2Qc 350) in
  sumQc (map (fun kv => causedAmount st' "entity3" (fst kv) "USDC"
                        - causedAmount st "entity3" (fst kv) "USDC") obc) < Z2Qc 350.
Proof.
  refine (proj2 (proj2 (proj2
    (exact_absent_creditor_share_dropped Examples.proRataDebtor Examples.priceMap
       (Examples.stateOf (firstPass Examples.proRataExternal Examples.priceMap))
       "USDC" (Z2Qc 350) (Z2Qc 1) "entity2"
       (match JsMap.get (obligationsByCreditor Examples.proRataDebtor) "entity2" with
        | Some obs => obs
        | None => []
        end)
       _ _ _ _ _ _ _)))).
  - reflexivity.
  - vm_compute. discriminate.
  - reflexivity.
  - reflexivity.
  - vm_compute. right. left. reflexivity.
  - reflexivity.
  - reflexivity.
Defined.

(** ** The documented chain scenario (claim C1) *)

Ltac qc_eval := apply Qc_is_canon; vm_compute; reflexivity.

(** C1.  On the chain of SOLVENCY_CHECK.md (position owes 1000 USDC to the
    pool, pool 800 to the strategy, strategy 600 to the vault, position
    holds 400 USDC) the run succeeds, the pool receives a shortfall of 600
    from the position, and the same 600 is forwarded unchanged at every
    hop: the strategy receives 600 from the pool and the vault receives
    600 from the strategy, not the 200 that the claim and the
    documentation state. *)
Theorem chain_forwards_full_shortfall :
  exists r : SolvencyResult,
    checkEntitySolvency Examples.chain Examples.priceMap = Ok r
    /\ reportedReceived r "pool" "position" "USDC" = Z2Qc 600
    /\ reportedReceived r "strategy" "pool" "USDC" = Z2Qc 600
    /\ reportedReceived r "vault" "strategy" "USDC" = Z2Qc 600
    /\ reportedReceived r "vault" "strategy" "USDC" <> Z2Qc 200.
Proof.
  eexists. split; [vm_compute; reflexivity|].
  repeat split; try qc_eval.
  intros H. apply (f_equal this) in H. vm_compute in H. discriminate.
Qed.

(** ** Loops that may throw *)

Lemma foldM_app (A B : Type) (f : A -> B -> Result A) (l1 l2 : list B) (a : A) :
  foldM f (l1 ++ l2) a = (a' <- foldM f l1 a ;; foldM f l2 a').
Proof.
  revert a. induction l1 as [|x l1 IH]; intros a; simpl; [reflexivity|].
  destruct (f a x); simpl; auto.
Qed.

Lemma foldM_invariant (A B : Type) (f : A -> B -> Result A) (P : A -> Prop)
    (Q : B -> Prop) (l : list B) (a b : A) :
  (forall a x a', Q x -> P a -> f a x = Ok a' -> P a') ->
  (forall x, In x l -> Q x) ->
  P a -> foldM f l a = Ok b -> P b.
Proof.
  intros Hstep. revert a. induction l as [|x l IH]; intros a HQ Pa H; simpl in H.
  - now inversion H; subst.
  - destruct (f a x) as [a'|e] eqn:E; simpl in H; [|discriminate].
    apply (IH a'); auto.
    + intros y Hy. apply HQ. now right.
    + eapply Hstep; eauto. apply HQ. now left.
Qed.

Lemma foldM_total (A B : Type) (f : A -> B -> Result A) (P : A -> Prop)
    (Q : B -> Prop) (l : list B) (a : A) :
  (forall a x, Q x -> P a -> exists a', f a x = Ok a' /\ P a') ->
  (forall x, In x l -> Q x) ->
  P a -> exists b, foldM f l a = Ok b /\ P b.
Proof.
  intros Hstep. revert a. induction l as [|x l IH]; intros a HQ Pa; simpl.
  - now exists a.
  - destruct (Hstep a x) as [a' [E Pa']]; [apply HQ; now left | assumption |].
    rewrite E. simpl. apply IH; auto. intros y Hy. apply HQ. now right.
Qed.

Lemma foldM_Throw (A B : Type) (f : A -> B -> Result A) (l : list B) (a : A) (e : Error) :
  foldM f l a = Throw e -> exists a' x, In x l /\ f a' x = Throw e.
Proof.
  revert a. induction l as [|x l IH]; intros a H; simpl in H; [discriminate|].
  destruct (f a x) as [a'|e'] eqn:E; simpl in H.
  - destruct (IH _ H) as [a'' [y [Hy Hf]]]. exists a'', y. split; [now right | assumption].
  - inversion H; subst. exists a, x. split; [now left | assumption].
Qed.

Lemma foldM_Ok_each (A B : Type) (f : A -> B -> Result A) (l : list B) (a b : A) :
  foldM f l a = Ok b -> forall x, In x l -> exists a1 a2, f a1 x = Ok a2.
Proof.
  revert a. induction l as [|y l IH]; intros a H x Hx; simpl in H; [destruct Hx|].
  destruct (f a y) as [a'|e] eqn:E; simpl in H; [|discriminate].
  destruct Hx as [->|Hx]; [now exists a, a' | eapply IH; eauto].
Qed.

(** ** Which asset types the first pass prices (claim C7) *)

Lemma priced_true pm ct : priced pm ct = true <-> JsMap.get pm ct <> None.
Proof. unfold priced, JsMap.has. destruct (JsMap.get pm ct); split; congruence. Qed.

Lemma in_keys_addAsset m a k :
  In k (JsMap.keys (addAsset m a)) <-> In k (JsMap.keys m) \/ In k (assetCoinTypes a).
Proof.
  destruct a as [coin i | coinA coinB iA iB]; simpl.
  - rewrite JsMapFacts.in_keys_set. intuition.
  - rewrite !JsMapFacts.in_keys_set. intuition.
Qed.

Lemma in_keys_fold_addAsset l m k :
  In k (JsMap.keys (fold_left addAsset l m)) <->
  In k (JsMap.keys m) \/ In k (flat_map assetCoinTypes l).
Proof.
  revert m. induction l as [|a l IH]; intros m; simpl; [tauto|].
  rewrite IH, in_keys_addAsset, in_app_iff. tauto.
Qed.

Lemma in_keys_addIncoming entity m other k :
  In k (JsMap.keys (addIncoming entity m other)) ->
  In k (JsMap.keys m) \/ In k (owedCoinTypes other).
Proof.
  unfold addIncoming, owedCoinTypes. revert m.
  induction (obligations other) as [|ob obs IH]; intros m; simpl; [tauto|].
  intros H. apply IH in H. rewrite in_app_iff.
  destruct (String.eqb (to ob) (id entity)); [|tauto].
  destruct H as [H|H]; [|tauto]. apply in_keys_addAsset in H. tauto.
Qed.

Lemma keys_addIncoming_mono entity m other k :
  In k (JsMap.keys m) -> In k (JsMap.keys (addIncoming entity m other)).
Proof.
  unfold addIncoming. revert m.
  induction (obligations other) as [|ob obs IH]; intros m H; simpl; [assumption|].
  apply IH. destruct (String.eqb (to ob) (id entity)); [|assumption].
  apply in_keys_addAsset. now left.
Qed.

Lemma in_keys_aggregateAssets entities entity k :
  In k (JsMap.keys (aggregateAssets entities entity)) ->
  In k (heldCoinTypes entity) \/ exists other, In other entities /\ In k (owedCoinTypes other).
Proof.
  unfold aggregateAssets.
  assert (G : forall l m, In k (JsMap.keys (fold_left (addIncoming entity) l m)) ->
                          In k (JsMap.keys m) \/
                          exists other, In other l /\ In k (owedCoinTypes other)).
  { induction l as [|o l IH]; intros m H; simpl in *; [tauto|].
    apply IH in H. destruct H as [H|[other [Ho Hk]]].
    - apply in_keys_addIncoming in H. destruct H; [tauto|]. right. exists o. tauto.
    - right. exists other. tauto. }
  intros H. apply G in H. destruct H as [H|H]; [|tauto].
  apply in_keys_fold_addAsset in H. simpl in H. unfold heldCoinTypes. tauto.
Qed.

Lemma held_in_keys_aggregateAssets entities entity k :
  In k (heldCoinTypes entity) -> In k (JsMap.keys (aggregateAssets entities entity)).
Proof.
  unfold aggregateAssets, heldCoinTypes. intros H.
  assert (G : forall l m, In k (JsMap.keys m) ->
                          In k (JsMap.keys (fold_left (addIncoming entity) l m))).
  { induction l as [|o l IH]; intros m Hm; simpl; [assumption|].
    apply IH. now apply keys_addIncoming_mono. }
  apply G. apply in_keys_fold_addAsset. now right.
Qed.

Lemma assetCoinTypes_parts a : assetCoinTypes a = map (fun p => typeName (fst p)) (assetParts a).
Proof. destruct a; reflexivity. Qed.

Lemma owedCoinTypes_parts entity :
  owedCoinTypes entity = map (fun p => typeName (fst p)) (owedParts (obligations entity)).
Proof.
  unfold owedCoinTypes, owedParts.
  induction (obligations entity) as [|ob obs IH]; simpl; [reflexivity|].
  now rewrite map_app, IH, assetCoinTypes_parts.
Qed.

Lemma flattenObligation_Ok pm ob lines :
  flattenObligation pm ob = Ok lines ->
  Forall2 (lineOfPart pm) (assetParts (asset ob)) lines.
Proof.
  unfold flattenObligation.
  destruct (asset ob) as [coin i | coinA coinB iA iB]; simpl.
  - destruct (JsMap.get pm (typeName coin)) as [p|] eqn:G; [|discriminate].
    intros [= <-]. repeat constructor. simpl. now exists p.
  - destruct (JsMap.get pm (typeName coinA)) as [pA|] eqn:GA; [|discriminate].
    destruct (JsMap.get pm (typeName coinB)) as [pB|] eqn:GB; [|discriminate].
    intros [= <-]. repeat constructor; simpl; eauto.
Qed.

Lemma flattenObligation_priced pm ob :
  forallb (priced pm) (assetCoinTypes (asset ob)) = true ->
  exists lines, flattenObligation pm ob = Ok lines.
Proof.
  unfold flattenObligation, priced, JsMap.has.
  destruct (asset ob) as [coin i | coinA coinB iA iB]; simpl.
  - destruct (JsMap.get pm (typeName coin)); [eauto | discriminate].
  - destruct (JsMap.get pm (typeName coinA)); [|discriminate].
    destruct (JsMap.get pm (typeName coinB)); [eauto | discriminate].
Qed.

Lemma flattenObligation_Throw pm ob e :
  flattenObligation pm ob = Throw e -> isPricingError e = true.
Proof.
  unfold flattenObligation.
  destruct (asset ob) as [coin i | coinA coinB iA iB].
  - destruct (JsMap.get pm (typeName coin)); [discriminate | now intros [= <-]].
  - destruct (JsMap.get pm (typeName coinA)); [|now intros [= <-]].
    destruct (JsMap.get pm (typeName coinB)); [discriminate | now intros [= <-]].
Qed.

Lemma flattenObligations_Ok pm obs lines :
  flattenObligations pm obs = Ok lines ->
  Forall2 (lineOfPart pm) (owedParts obs) lines.
Proof.
  revert lines. induction obs as [|ob obs IH]; intros lines; simpl.
  - intros [= <-]. constructor.
  - destruct (flattenObligation pm ob) as [l1|] eqn:E1; simpl; [|discriminate].
    destruct (flattenObligations pm obs) as [l2|] eqn:E2; simpl; [|discriminate].
    intros [= <-]. apply Forall2_app; [now apply flattenObligation_Ok | now apply IH].
Qed.

Lemma flattenObligations_priced pm obs :
  forallb (priced pm) (flat_map (fun ob => assetCoinTypes (asset ob)) obs) = true ->
  exists lines, flattenObligations pm obs = Ok lines.
Proof.
  induction obs as [|ob obs IH]; simpl; [eauto|].
  rewrite forallb_app, andb_true_iff. intros [H1 H2].
  destruct (flattenObligation_priced pm ob H1) as [l1 ->].
  destruct (IH H2) as [l2 ->]. simpl. eauto.
Qed.

Lemma flattenObligations_Throw pm obs e :
  flattenObligations pm obs = Throw e -> isPricingError e = true.
Proof.
  induction obs as [|ob obs IH]; simpl; [discriminate|].
  destruct (flattenObligation pm ob) as [l1|e1] eqn:E1; simpl.
  - destruct (flattenObligations pm obs) as [l2|e2] eqn:E2; simpl; [discriminate|].
    intros [= <-]. now apply IH.
  - intros [= <-]. eapply flattenObligation_Throw; eauto.
Qed.

Lemma lines_coinTypes pm parts lines :
  Forall2 (lineOfPart pm) parts lines ->
  map od_coinType lines = map (fun p => typeName (fst p)) parts.
Proof.
  induction 1 as [|p o parts lines [H _] _ IH]; simpl; [reflexivity|].
  now rewrite H, IH.
Qed.

Lemma lines_priced pm parts lines o :
  Forall2 (lineOfPart pm) parts lines -> In o lines ->
  JsMap.get pm (od_coinType o) <> None.
Proof.
  induction 1 as [|p o' parts lines [H1 [_ [price [H2 _]]]] _ IH]; intros Hin; [destruct Hin|].
  destruct Hin as [<-|Hin]; [rewrite H1; congruence | auto].
Qed.

Lemma flattenObligations_Ok_priced pm entity lines :
  flattenObligations pm (obligations entity) = Ok lines ->
  forallb (priced pm) (owedCoinTypes entity) = true.
Proof.
  intros H. apply flattenObligations_Ok in H.
  rewrite owedCoinTypes_parts, <- (lines_coinTypes _ _ _ H).
  apply forallb_forall. intros ct Hct. apply in_map_iff in Hct.
  destruct Hct as [o [<- Ho]]. apply priced_true. eapply lines_priced; eauto.
Qed.

Lemma addAssetUsd_Throw pm acc kv e :
  addAssetUsd pm acc kv = Throw e -> isPricingError e = true.
Proof.
  unfold addAssetUsd. destruct (JsMap.get pm (fst kv)); [discriminate | now intros [= <-]].
Qed.

Lemma sumAssetsUsd_priced pm assets :
  (forall k, In k (JsMap.keys assets) -> JsMap.get pm k <> None) ->
  exists usd, sumAssetsUsd pm assets = Ok usd.
Proof.
  intros H. unfold sumAssetsUsd.
  destruct (foldM_total _ _ (addAssetUsd pm) (fun _ => True)
              (fun kv => JsMap.get pm (fst kv) <> None) assets 0) as [b [E _]]; eauto.
  - intros a x Hx _. unfold addAssetUsd.
    destruct (JsMap.get pm (fst x)); [eauto | congruence].
  - intros x Hx. apply H. unfold JsMap.keys. now apply in_map.
Qed.

Lemma sumAssetsUsd_Ok_priced pm assets usd k :
  sumAssetsUsd pm assets = Ok usd -> In k (JsMap.keys assets) -> JsMap.get pm k <> None.
Proof.
  unfold sumAssetsUsd, JsMap.keys. intros H Hk. apply in_map_iff in Hk.
  destruct Hk as [kv [<- Hkv]].
  destruct (foldM_Ok_each _ _ _ _ _ _ H kv Hkv) as [a1 [a2 E]].
  unfold addAssetUsd in E. destruct (JsMap.get pm (fst kv)); congruence.
Qed.

Lemma weight_set (V : Type) (w : string -> V -> Qc) (m : JsMap.t V) k v :
  NoDup (JsMap.keys m) ->
  weight w (JsMap.set m k v) =
  weight w m - match JsMap.get m k with Some v0 => w k v0 | None => 0 end + w k v.
Proof.
  unfold weight. induction m as [|[k0 v0] m IH]; intros ND; simpl.
  - ring.
  - inversion ND as [|? ? NI ND']; subst.
    destruct (String.eqb_spec k0 k) as [->|N]; simpl.
    + ring.
    + rewrite IH by assumption. ring.
Qed.

Lemma weight_delete (V : Type) (w : string -> V -> Qc) (m : JsMap.t V) k :
  NoDup (JsMap.keys m) ->
  weight w (JsMap.delete m k) =
  weight w m - match JsMap.get m k with Some v0 => w k v0 | None => 0 end.
Proof.
  unfold weight. induction m as [|[k0 v0] m IH]; intros ND; simpl.
  - ring.
  - inversion ND as [|? ? NI ND']; subst.
    destruct (String.eqb_spec k0 k) as [->|N]; simpl.
    + ring.
    + rewrite IH by assumption. ring.
Qed.

(** *** Grouping the lines by coin *)

Lemma groupByCoin_fold lines : groupByCoin lines = fold_left groupStep lines [].
Proof. reflexivity. Qed.

Lemma NoDup_keys_groupStep acc ob :
  NoDup (JsMap.keys acc) -> NoDup (JsMap.keys (groupStep acc ob)).
Proof.
  intros ND. unfold groupStep.
  destruct (JsMap.get acc (od_coinType ob)); now apply JsMapFacts.NoDup_keys_set.
Qed.

Lemma NoDup_keys_groupByCoin lines : NoDup (JsMap.keys (groupByCoin lines)).
Proof.
  rewrite groupByCoin_fold.
  assert (G : forall l acc, NoDup (JsMap.keys acc) ->
                            NoDup (JsMap.keys (fold_left groupStep l acc))).
  { induction l as [|o l IH]; intros acc ND; simpl; [assumption|].
    apply IH. now apply NoDup_keys_groupStep. }
  apply G. constructor.
Qed.

Lemma get_groupStep acc ob c :
  JsMap.get (groupStep acc ob) c =
  if String.eqb (od_coinType ob) c
  then Some (match JsMap.get acc c with Some l => l ++ [ob] | None => [ob] end)
  else JsMap.get acc c.
Proof.
  unfold groupStep.
  destruct (String.eqb_spec (od_coinType ob) c) as [<-|N].
  - destruct (JsMap.get acc (od_coinType ob)); apply JsMapFacts.get_set_eq.
  - destruct (JsMap.get acc (od_coinType ob)); now apply JsMapFacts.get_set_neq.
Qed.

(** The group of a coin is the list of the lines of that coin, in order. *)
Lemma get_fold_groupStep lines acc c :
  JsMap.get (fold_left groupStep lines acc) c =
  match JsMap.get acc c, filter (fun o => String.eqb (od_coinType o) c) lines with
  | Some l, f => Some (l ++ f)
  | None, [] => None
  | None, f => Some f
  end.
Proof.
  revert acc. induction lines as [|o lines IH]; intros acc; simpl.
  - destruct (JsMap.get acc c); [now rewrite app_nil_r | reflexivity].
  - rewrite IH, get_groupStep.
    destruct (String.eqb (od_coinType o) c).
    + destruct (JsMap.get acc c); [now rewrite <- app_assoc | reflexivity].
    + reflexivity.
Qed.

Lemma get_groupByCoin lines c obs :
  JsMap.get (groupByCoin lines) c = Some obs ->
  obs = filter (fun o => String.eqb (od_coinType o) c) lines /\ obs <> [].
Proof.
  rewrite groupByCoin_fold, get_fold_groupStep. simpl.
  destruct (filter _ lines) eqn:F; [discriminate|].
  intros [= <-]. split; [reflexivity | discriminate].
Qed.

Lemma in_groupByCoin lines c obs :
  In (c, obs) (groupByCoin lines) ->
  obs = filter (fun o => String.eqb (od_coinType o) c) lines /\ obs <> [].
Proof.
  intros H. apply get_groupByCoin.
  apply JsMapFacts.in_get_NoDup; [apply NoDup_keys_groupByCoin | assumption].
Qed.

Lemma in_keys_groupByCoin lines c :
  In c (JsMap.keys (groupByCoin lines)) -> exists o, In o lines /\ od_coinType o = c.
Proof.
  intros H. unfold JsMap.keys in H. apply in_map_iff in H.
  destruct H as [[c' obs] [<- Hin]]. simpl.
  destruct (in_groupByCoin _ _ _ Hin) as [E NE].
  destruct obs as [|o obs]; [congruence|].
  assert (Ho : In o (filter (fun o => String.eqb (od_coinType o) c') lines)).
  { rewrite <- E. now left. }
  apply filter_In in Ho. destruct Ho as [Ho Hc]. apply String.eqb_eq in Hc. eauto.
Qed.

Lemma groupByCoin_nil_iff lines : groupByCoin lines = [] <-> lines = [].
Proof.
  split; [|now intros ->].
  destruct lines as [|o lines]; [reflexivity|]. intros H.
  pose proof (get_fold_groupStep (o :: lines) [] (od_coinType o)) as G.
  rewrite <- groupByCoin_fold, H in G. simpl in G.
  rewrite String.eqb_refl in G. discriminate.
Qed.

(** *** No throw when every referenced asset type is priced *)

Lemma netCoin_priced pm lines st g :
  JsMap.get pm (fst g) <> None -> NetPriced pm st ->
  exists st', netCoin pm lines st g = Ok st' /\ NetPriced pm st'.
Proof.
  intros Hg [Hr Hs]. unfold netCoin. cbv zeta.
  destruct (_ >=? _)%Z.
  - eexists. split; [reflexivity|]. split; simpl; [|assumption].
    intros k Hk. destruct (_ >? 0)%Z.
    + apply JsMapFacts.in_keys_set in Hk. destruct Hk as [->|Hk]; auto.
    + apply JsMapFacts.in_keys_delete in Hk. auto.
  - destruct (JsMap.get pm (fst g)) as [price|] eqn:Gp; [|congruence].
    destruct (find _ lines).
    + eexists. split; [reflexivity|]. split; simpl; intros k Hk.
      * apply JsMapFacts.in_keys_delete in Hk. auto.
      * apply JsMapFacts.in_keys_set in Hk. destruct Hk as [->|Hk]; [congruence | auto].
    + eexists. split; [reflexivity|]. split; simpl; [|assumption].
      intros k Hk. apply JsMapFacts.in_keys_delete in Hk. auto.
Qed.

Lemma netCoin_Throw pm lines st g e :
  netCoin pm lines st g = Throw e -> isPricingError e = true.
Proof.
  unfold netCoin. cbv zeta. destruct (_ >=? _)%Z; [discriminate|].
  destruct (JsMap.get pm (fst g)); [|now intros [= <-]].
  destruct (find _ lines); discriminate.
Qed.

Lemma directNetting_priced pm assets lines :
  (forall k, In k (JsMap.keys assets) -> JsMap.get pm k <> None) ->
  (forall o, In o lines -> JsMap.get pm (od_coinType o) <> None) ->
  exists net, directNetting pm assets lines = Ok net /\ NetPriced pm net.
Proof.
  intros Ha Hl. unfold directNetting.
  apply (foldM_total _ _ (netCoin pm lines) (NetPriced pm)
           (fun g => JsMap.get pm (fst g) <> None)).
  - intros st g Hg Hst. now apply netCoin_priced.
  - intros [c obs] Hin. simpl.
    destruct (in_keys_groupByCoin lines c) as [o [Ho <-]]; [|auto].
    unfold JsMap.keys. change c with (fst (c, obs)). now apply in_map.
  - split; simpl; [|tauto]. intros k Hk. apply Ha.
    unfold JsMap.keys in *. rewrite map_map in Hk. exact Hk.
Qed.

Lemma directNetting_Throw pm assets lines e :
  directNetting pm assets lines = Throw e -> isPricingError e = true.
Proof.
  unfold directNetting. intros H. apply foldM_Throw in H.
  destruct H as [st [g [_ H]]]. eapply netCoin_Throw; eauto.
Qed.

Lemma swapCoverage_priced pm assets net :
  NetPriced pm net -> exists sw, swapCoverage pm assets net = Ok sw.
Proof.
  intros [Hr Hs]. unfold swapCoverage.
  destruct (Qcgtb (remainingLiabilitiesUsd net) 0 && _); [|eauto].
  destruct (foldM_total _ _ (addRemainingUsd pm assets) (fun _ => True)
              (fun kv => JsMap.get pm (fst kv) <> None) (remainingByCoin net) 0)
    as [usd [-> _]]; auto.
  { intros a x Hx _. unfold addRemainingUsd.
    destruct (JsMap.get pm (fst x)); [|congruence].
    destruct (JsMap.get assets (fst x)); eauto. }
  { intros x Hx. apply Hr. unfold JsMap.keys. now apply in_map. }
  cbn [bind].
  destruct (Qcgtb _ 0 && _); [|cbn [bind]; eauto].
  match goal with
  | |- context [foldM ?f ?l ?a] =>
      destruct (foldM_total _ _ f (fun _ => True)
                  (fun kv => JsMap.get pm (fst kv) <> None) l a) as [rep [-> _]]; auto
  end.
  { intros a x Hx _. unfold addRepayment.
    destruct (JsMap.get pm (fst x)); [eauto | congruence]. }
  { intros x Hx. apply Hs. unfold JsMap.keys. now apply in_map. }
  cbn [bind]. eauto.
Qed.

Lemma swapCoverage_Throw pm assets net e :
  swapCoverage pm assets net = Throw e -> isPricingError e = true.
Proof.
  unfold swapCoverage.
  destruct (Qcgtb (remainingLiabilitiesUsd net) 0 && _); [|discriminate].
  destruct (foldM (addRemainingUsd pm assets) (remainingByCoin net) 0) as [usd|e1] eqn:E1;
    cbn [bind].
  - destruct (Qcgtb _ 0 && _); [|discriminate].
    match goal with
    | |- context [foldM ?f ?l ?a] => destruct (foldM f l a) as [rep|e2] eqn:E2
    end; cbn [bind]; [discriminate|].
    intros [= <-]. apply foldM_Throw in E2. destruct E2 as [a [x [_ E2]]].
    unfold addRepayment in E2. destruct (JsMap.get pm (fst x)); [discriminate|].
    now inversion E2.
  - intros [= <-]. apply foldM_Throw in E1. destruct E1 as [a [x [_ E1]]].
    unfold addRemainingUsd in E1. destruct (JsMap.get pm (fst x)).
    + destruct (JsMap.get assets (fst x)); discriminate.
    + now inversion E1.
Qed.

Lemma entitySolvency_Throw entities pm entity e :
  entitySolvency entities pm entity = Throw e -> isPricingError e = true.
Proof.
  unfold entitySolvency. cbv zeta.
  destruct (flattenObligations pm (obligations entity)) as [lines|e1] eqn:E1; cbn [bind].
  2:{ intros [= <-]. eapply flattenObligations_Throw; eauto. }
  destruct (sumAssetsUsd pm _) as [usd|e2] eqn:E2; cbn [bind].
  2:{ intros [= <-]. apply foldM_Throw in E2. destruct E2 as [a [x [_ E2]]].
      eapply addAssetUsd_Throw; eauto. }
  destruct (directNetting pm _ lines) as [net|e3] eqn:E3; cbn [bind].
  2:{ intros [= <-]. eapply directNetting_Throw; eauto. }
  destruct (swapCoverage pm _ net) as [sw|e4] eqn:E4; cbn [bind]; [discriminate|].
  intros [= <-]. eapply swapCoverage_Throw; eauto.
Qed.

Lemma allPriced_entity pm entities entity :
  allPriced pm entities = true -> In entity entities ->
  (forall ct, In ct (heldCoinTypes entity) -> JsMap.get pm ct <> None)
  /\ (forall ct, In ct (owedCoinTypes entity) -> JsMap.get pm ct <> None).
Proof.
  unfold allPriced, entityPriced. rewrite forallb_forall. intros H Hin.
  specialize (H _ Hin). apply andb_true_iff in H. destruct H as [H1 H2].
  rewrite forallb_forall in H1, H2.
  split; intros ct Hct; apply priced_true; auto.
Qed.

Lemma entitySolvency_priced entities pm entity :
  allPriced pm entities = true -> In entity entities ->
  exists d, entitySolvency entities pm entity = Ok d.
Proof.
  intros Hall Hin.
  destruct (allPriced_entity _ _ _ Hall Hin) as [Hheld Howed].
  assert (Hassets : forall k, In k (JsMap.keys (aggregateAssets entities entity)) ->
                              JsMap.get pm k <> None).
  { intros k Hk. apply in_keys_aggregateAssets in Hk.
    destruct Hk as [Hk|[other [Ho Hk]]]; [auto|].
    now apply (allPriced_entity _ _ _ Hall Ho). }
  unfold entitySolvency. cbv zeta.
  destruct (flattenObligations_priced pm (obligations entity)) as [lines E1].
  { apply forallb_forall. intros ct Hct. apply priced_true. now apply Howed. }
  rewrite E1. cbn [bind].
  destruct (sumAssetsUsd_priced pm _ Hassets) as [usd ->]. cbn [bind].
  destruct (directNetting_priced pm (aggregateAssets entities entity) lines Hassets)
    as [net [-> Hnet]].
  { intros o Ho. eapply lines_priced; [eapply flattenObligations_Ok; eauto | exact Ho]. }
  cbn [bind].
  destruct (swapCoverage_priced pm (aggregateAssets entities entity) net Hnet) as [sw ->].
  cbn [bind]. eauto.
Qed.

Lemma entitySolvency_Ok_priced entities pm entity d :
  entitySolvency entities pm entity = Ok d -> entityPriced pm entity = true.
Proof.
  unfold entitySolvency. cbv zeta.
  destruct (flattenObligations pm (obligations entity)) as [lines|] eqn:E1;
    cbn [bind]; [|discriminate].
  destruct (sumAssetsUsd pm _) as [usd|] eqn:E2; cbn [bind]; [|discriminate].
  intros _. unfold entityPriced. apply andb_true_iff. split.
  - apply forallb_forall. intros ct Hct. apply priced_true.
    eapply sumAssetsUsd_Ok_priced; [exact E2|].
    now apply held_in_keys_aggregateAssets.
  - eapply flattenObligations_Ok_priced; eauto.
Qed.

Lemma firstPass_Ok_iff entities pm :
  (exists st, firstPass entities pm = Ok st) <-> allPriced pm entities = true.
Proof.
  unfold firstPass. split.
  - intros [st H]. unfold allPriced. apply forallb_forall. intros entity Hin.
    destruct (foldM_Ok_each _ _ _ _ _ _ H entity Hin) as [a1 [a2 E]].
    unfold firstPassStep in E.
    destruct (entitySolvency entities pm entity) as [d|] eqn:Ed; [|discriminate].
    eapply entitySolvency_Ok_priced; eauto.
  - intros Hall.
    destruct (foldM_total _ _ (firstPassStep entities pm) (fun _ => True)
                (fun entity => In entity entities) entities []) as [st [E _]]; eauto.
    intros a entity Hin _. unfold firstPassStep.
    destruct (entitySolvency_priced _ _ _ Hall Hin) as [d ->]. cbn [bind]. eauto.
Qed.

Lemma firstPass_Throw entities pm e :
  firstPass entities pm = Throw e -> isPricingError e = true.
Proof.
  unfold firstPass. intros H. apply foldM_Throw in H.
  destruct H as [a [entity [_ H]]]. unfold firstPassStep in H.
  destruct (entitySolvency entities pm entity) as [d|e'] eqn:E; cbn [bind] in H;
    [discriminate|].
  inversion H; subst. eapply entitySolvency_Throw; eauto.
Qed.

(** C7, as amended.  The first pass throws exactly when some asset type
    referenced by a holding or by an outbound obligation of some entity of
    the map has no price, whether or not that asset type has a deficit;
    what it throws is then a pricing error, and otherwise it completes. *)
Theorem first_pass_fails_iff_unpriced :
  forall (entities : list Entity) (priceMap : JsMap.t Qc),
    ((exists e, firstPass entities priceMap = Throw e)
       <-> allPriced priceMap entities = false)
    /\ ((exists st, firstPass entities priceMap = Ok st)
       <-> allPriced priceMap entities = true)
    /\ (forall e, firstPass entities priceMap = Throw e -> isPricingError e = true).
Proof.
  intros entities priceMap.
  pose proof (firstPass_Ok_iff entities priceMap) as Hok.
  split; [|split; [exact Hok | apply firstPass_Throw]].
  split.
  - intros [e He]. destruct (allPriced priceMap entities) eqn:A; [|reflexivity].
    destruct (proj2 Hok eq_refl) as [st Hst]. congruence.
  - intros A. destruct (firstPass entities priceMap) as [st|e] eqn:E; [|eauto].
    rewrite (proj1 Hok (ex_intro _ st eq_refl)) in A. discriminate.
Qed.

(** C7, counterexample to the claim as stated.  The entity of the test
    'should throw error for missing price' only holds USDC: it has no
    outbound obligation and hence no deficit in any asset type, and the
    only missing price is that of the held coin; yet the first pass
    throws. *)
Lemma first_pass_throws_without_deficit :
  Forall (fun entity => obligations entity = []) Examples.holderOnly
  /\ firstPass Examples.holderOnly Examples.pricesWithoutUSDC
     = Throw (PriceNotFound "USDC").
Proof.
  split; [repeat constructor | reflexivity].
Qed.

(** ** The dependency graph and its cycles (claim C4) *)

Lemma hasEdge_In g a b : hasEdge g a b = true <-> In (a, b) (edges g).
Proof.
  unfold hasEdge. rewrite existsb_exists. split.
  - intros [[x y] [Hin H]]. simpl in H. apply andb_true_iff in H.
    destruct H as [H1 H2]. apply String.eqb_eq in H1, H2. now subst.
  - intros H. exists (a, b). simpl. now rewrite !String.eqb_refl.
Qed.

Lemma hasNode_In g n : hasNode g n = true <-> In n (nodes g).
Proof.
  unfold hasNode. rewrite existsb_exists. split.
  - intros [x [Hin H]]. apply String.eqb_eq in H. now subst.
  - intros H. exists n. now rewrite String.eqb_refl.
Qed.

Lemma addObligationEdge_closed entity g ob :
  edgesClosed g -> edgesClosed (addObligationEdge entity g ob)
                   /\ nodes (addObligationEdge entity g ob) = nodes g.
Proof.
  intros H. unfold addObligationEdge.
  destruct (hasNode g (id entity) && hasNode g (to ob)) eqn:N; [|now split].
  destruct (negb (hasEdge g (id entity) (to ob))); [|now split].
  apply andb_true_iff in N. destruct N as [N1 N2].
  apply hasNode_In in N1, N2. split; [|reflexivity].
  intros a b Hin. simpl in *. apply in_app_iff in Hin.
  destruct Hin as [Hin|[[= <- <-]|[]]]; auto.
Qed.

Lemma buildGraph_closed entities :
  edgesClosed (buildGraph entities) /\ nodes (buildGraph entities) = map id entities.
Proof.
  unfold buildGraph.
  set (g0 := {| nodes := map id entities; edges := [] |}).
  assert (Inner : forall entity obs g,
             edgesClosed g ->
             edgesClosed (fold_left (addObligationEdge entity) obs g)
             /\ nodes (fold_left (addObligationEdge entity) obs g) = nodes g).
  { intros entity. induction obs as [|ob obs IH]; intros g H; simpl; [now split|].
    destruct (addObligationEdge_closed entity g ob H) as [H1 H2].
    destruct (IH _ H1) as [H3 H4]. split; [assumption | congruence]. }
  assert (Outer : forall l g,
             edgesClosed g ->
             edgesClosed
               (fold_left (fun graph entity =>
                             fold_left (addObligationEdge entity) (obligations entity) graph)
                  l g)
             /\ nodes
                  (fold_left (fun graph entity =>
                                fold_left (addObligationEdge entity) (obligations entity) graph)
                     l g) = nodes g).
  { induction l as [|entity l IH]; intros g H; simpl; [now split|].
    destruct (Inner entity (obligations entity) g H) as [H1 H2].
    destruct (IH _ H1) as [H3 H4]. split; [assumption | congruence]. }
  apply Outer. intros a b [].
Qed.

Lemma walk_predecessor g l :
  forall v, isWalk g v l = true ->
            forall w, In w l -> exists u, (u = v \/ In u l) /\ hasEdge g u w = true.
Proof.
  induction l as [|x l IH]; intros v H w Hw; [destruct Hw|].
  simpl in H. apply andb_true_iff in H. destruct H as [He Hl].
  destruct Hw as [<-|Hw].
  - exists v. split; [now left | assumption].
  - destruct (IH x Hl w Hw) as [u [[->|Hu] Hedge]].
    + exists x. split; [right; now left | assumption].
    + exists u. split; [right; now right | assumption].
Qed.

Lemma last_In (l : list string) (d : string) : l <> [] -> In (last l d) l.
Proof.
  induction l as [|x l IH]; [congruence|]. intros _.
  destruct l as [|y l]; [now left|]. right. apply IH. discriminate.
Qed.

Lemma peel_stuck g (C : list string) :
  C <> [] ->
  (forall v, In v C -> exists u, In u C /\ hasEdge g u v = true) ->
  forall fuel remaining,
    (forall v, In v C -> In v remaining) -> peel g fuel remaining = None.
Proof.
  intros NE Hpred. induction fuel as [|fuel IH]; intros remaining Hsub.
  - destruct remaining as [|r remaining]; [|reflexivity].
    destruct C as [|c C]; [congruence|]. destruct (Hsub c (or_introl eq_refl)).
  - destruct remaining as [|r remaining].
    { destruct C as [|c C]; [congruence|]. destruct (Hsub c (or_introl eq_refl)). }
    cbn [peel].
    destruct (find (noIncoming g (r :: remaining)) (r :: remaining)) as [v|] eqn:F;
      [|reflexivity].
    apply find_some in F. destruct F as [Hv Hno].
    assert (NC : ~ In v C).
    { intros Hc. destruct (Hpred v Hc) as [u [Hu He]].
      unfold noIncoming in Hno. rewrite forallb_forall in Hno.
      specialize (Hno u (Hsub u Hu)). rewrite He in Hno. discriminate. }
    rewrite IH; [reflexivity|].
    intros w Hw. apply in_in_remove; [|auto]. intros ->. contradiction.
Qed.

Lemma cyclic_hasCycle entities : cyclic (buildGraph entities) -> hasCycle (buildGraph entities) = true.
Proof.
  intros [v [l [NE [Hw Hlast]]]].
  destruct (buildGraph_closed entities) as [Hclosed _].
  unfold hasCycle, topologicalOrder.
  rewrite (peel_stuck (buildGraph entities) l); auto.
  - intros w Hin. destruct (walk_predecessor _ _ _ Hw w Hin) as [u [[->|Hu] He]].
    + exists (last l v). split; [now apply last_In | now rewrite Hlast].
    + eauto.
  - intros w Hin. destruct (walk_predecessor _ _ _ Hw w Hin) as [u [_ He]].
    apply hasEdge_In in He. now apply (Hclosed u w).
Qed.

(** C4.  If the obligation graph has a directed cycle, [checkEntitySolvency]
    throws and returns no result: when the first pass itself throws, that
    pricing error is the outcome; when the first pass completes, its
    records are discarded and the outcome is the cyclic-graph error. *)
Theorem cyclic_graph_throws :
  forall (entities : list Entity) (priceMap : JsMap.t Qc),
    cyclic (buildGraph entities) ->
    (exists e, checkEntitySolvency entities priceMap = Throw e)
    /\ (forall entityData, firstPass entities priceMap = Ok entityData ->
          propagateShortfalls entityData entities priceMap = Throw CyclicDependencyGraph
          /\ checkEntitySolvency entities priceMap = Throw CyclicDependencyGraph).
Proof.
  intros entities priceMap Hc. apply cyclic_hasCycle in Hc.
  assert (P : forall entityData,
             propagateShortfalls entityData entities priceMap = Throw CyclicDependencyGraph).
  { intros entityData. unfold propagateShortfalls. cbv zeta. now rewrite Hc. }
  unfold checkEntitySolvency. split.
  - destruct (firstPass entities priceMap) as [entityData|e]; cbn [bind].
    + rewrite P. cbn [bind]. eauto.
    + eauto.
  - intros entityData ->. cbn [bind]. rewrite P. now split.
Qed.

Lemma cyclic_graph_throws_witness :
  checkEntitySolvency Examples.cycle Examples.priceMap = Throw CyclicDependencyGraph.
Proof.
  refine (proj2 (proj2 (cyclic_graph_throws Examples.cycle Examples.priceMap _)
                   (Examples.stateOf (firstPass Examples.cycle Examples.priceMap)) _)).
  - exists "entityA", ["entityB"; "entityC"; "entityA"].
    split; [discriminate | split; reflexivity].
  - vm_compute. reflexivity.
Defined.

(** ** The deficits recorded by the netting *)

Lemma Forall_set (V : Type) (P : string * V -> Prop) (m : JsMap.t V) k v :
  Forall P m -> P (k, v) -> Forall P (JsMap.set m k v).
Proof.
  intros Hm Hv. induction m as [|[k0 v0] m IH]; simpl.
  - now constructor.
  - inversion Hm; subst. destruct (String.eqb_spec k0 k) as [->|N].
    + now constructor.
    + constructor; auto.
Qed.

Lemma in_set_inv (V : Type) (m : JsMap.t V) k v k' v' :
  In (k', v') (JsMap.set m k v) -> (k' = k /\ v' = v) \/ In (k', v') m.
Proof.
  induction m as [|[k0 v0] m IH]; simpl.
  - intros [[= <- <-]|[]]. now left.
  - destruct (String.eqb_spec k0 k) as [->|N]; simpl.
    + intros [[= <- <-]|H]; [now left | right; now right].
    + intros [H|H]; [right; now left|]. destruct (IH H); [now left | right; now right].
Qed.

Lemma set_nonempty (V : Type) (m : JsMap.t V) k v : JsMap.set m k v <> [].
Proof.
  destruct m as [|[k0 v0] m]; simpl; [discriminate|].
  destruct (String.eqb k0 k); discriminate.
Qed.

Lemma values_weight (m : JsMap.t Qc) : sumQc (JsMap.values m) = weight (fun _ v => v) m.
Proof. reflexivity. Qed.

Lemma Z2Qc_div_pos z d : (0 < z)%Z -> 0 < Z2Qc z / pow10 d.
Proof. intros H. apply Qcdiv_pos; [now apply Z2Qc_pos | apply pow10_pos]. Qed.

Lemma netCoin_shortfalls pm lines st g st' :
  ~ In (fst g) (JsMap.keys (shortfallUsdByCoin st)) ->
  NetShortfalls pm st -> netCoin pm lines st g = Ok st' ->
  NetShortfalls pm st'
  /\ (forall k, In k (JsMap.keys (shortfallUsdByCoin st')) ->
                k = fst g \/ In k (JsMap.keys (shortfallUsdByCoin st))).
Proof.
  intros Hfresh [H1 [H2 H3]]. unfold netCoin. cbv zeta.
  destruct (_ >=? _)%Z eqn:Cmp.
  - intros [= <-]. unfold NetShortfalls.
      cbn [remainingLiabilitiesUsd shortfallUsdByCoin remainingByCoin]. repeat split; auto.
  - destruct (JsMap.get pm (fst g)) as [price|] eqn:Gp; [|discriminate].
    destruct (find _ lines) as [obligation|].
    + intros [= <-]. unfold NetShortfalls.
      cbn [remainingLiabilitiesUsd shortfallUsdByCoin remainingByCoin]. split; [split; [|split]|].
      * rewrite !values_weight, weight_set by assumption.
        apply JsMapFacts.get_None_iff in Hfresh. rewrite Hfresh.
        rewrite H1, values_weight. ring.
      * now apply JsMapFacts.NoDup_keys_set.
      * intros c usd Hin. apply in_set_inv in Hin.
        destruct Hin as [[-> ->]|Hin]; [|eauto].
        exists price. eexists. split; [exact Gp | split; [reflexivity|]].
        unfold toDecimal, Amount_fromInt. cbn [int amt_decimals]. apply Z2Qc_div_pos.
        rewrite Z.geb_leb in Cmp. apply Z.leb_gt in Cmp. lia.
      * intros k Hk. apply JsMapFacts.in_keys_set in Hk. tauto.
    + intros [= <-]. unfold NetShortfalls.
      cbn [remainingLiabilitiesUsd shortfallUsdByCoin remainingByCoin]. repeat split; auto.
Qed.

Lemma foldM_netCoin_shortfalls pm lines gs st st' :
  NoDup (JsMap.keys gs) ->
  (forall k, In k (JsMap.keys gs) -> ~ In k (JsMap.keys (shortfallUsdByCoin st))) ->
  NetShortfalls pm st ->
  foldM (netCoin pm lines) gs st = Ok st' ->
  NetShortfalls pm st'.
Proof.
  revert st. induction gs as [|g gs IH]; intros st ND Hfresh Hst H; simpl in H.
  - now inversion H; subst.
  - destruct (netCoin pm lines st g) as [st1|] eqn:E; cbn [bind] in H; [|discriminate].
    simpl in ND. inversion ND as [|? ? NI ND']; subst.
    destruct (netCoin_shortfalls pm lines st g st1) as [H1 Hkeys]; auto.
    { apply Hfresh. now left. }
    apply (IH st1); auto.
    intros k Hk Hin. apply Hkeys in Hin. destruct Hin as [->|Hin].
    + contradiction.
    + apply (Hfresh k); [now right | assumption].
Qed.

Lemma directNetting_shortfalls pm assets lines net :
  directNetting pm assets lines = Ok net -> NetShortfalls pm net.
Proof.
  unfold directNetting. intros H.
  eapply foldM_netCoin_shortfalls; [apply NoDup_keys_groupByCoin | | | exact H].
  - intros k _ [].
  - repeat split; simpl; [constructor | intros c usd []].
Qed.

(** *** The per-coin shortfalls that remain after swaps *)

Lemma sumShortfallUsd_values m : sumShortfallUsd m = sumQc (JsMap.values m).
Proof.
  unfold sumShortfallUsd.
  rewrite (fold_left_Qcplus _ (fun x => x)), map_id. ring.
Qed.

Lemma addShortfallByCoin_inv pm final total m kv :
  Forall (fun kv => 0 < snd kv) m -> NoDup (JsMap.keys m) ->
  Forall (fun kv => 0 < snd kv) (addShortfallByCoin pm final total m kv)
  /\ NoDup (JsMap.keys (addShortfallByCoin pm final total m kv)).
Proof.
  intros Hpos ND. unfold addShortfallByCoin. cbv zeta.
  destruct (JsMap.get pm (fst kv)) as [price|]; [|now split].
  destruct (Qcgtb _ 0) eqn:G; [|now split].
  apply Qcgtb_true in G. split.
  - now apply Forall_set.
  - now apply JsMapFacts.NoDup_keys_set.
Qed.

Lemma addShortfallByCoin_nonempty pm final total m kv :
  m <> [] -> addShortfallByCoin pm final total m kv <> [].
Proof.
  intros Hm. unfold addShortfallByCoin. cbv zeta.
  destruct (JsMap.get pm (fst kv)) as [price|]; [|assumption].
  destruct (Qcgtb _ 0); [apply set_nonempty | assumption].
Qed.

Lemma addShortfallByCoin_positive pm final total m c usd p :
  JsMap.get pm c = Some p -> 0 < p -> 0 < final -> 0 < total -> 0 < usd ->
  addShortfallByCoin pm final total m (c, usd) <> [].
Proof.
  intros Gp Hp Hf Ht Hu. unfold addShortfallByCoin. cbn [fst snd]. rewrite Gp.
  assert (G : Qcgtb (final * (usd / total) / p) 0 = true).
  { apply Qcgtb_true. apply Qcdiv_pos; [|assumption].
    apply Qcmult_pos; [assumption|]. now apply Qcdiv_pos. }
  rewrite G. apply set_nonempty.
Qed.

Lemma shortfallsByCoinMap_inv pm final sfmap :
  Forall (fun kv => 0 < snd kv) (shortfallsByCoinMap pm final sfmap)
  /\ NoDup (JsMap.keys (shortfallsByCoinMap pm final sfmap)).
Proof.
  unfold shortfallsByCoinMap.
  destruct (Qcgtb final 0 && _); [|split; constructor].
  generalize (sumShortfallUsd sfmap). intros total.
  assert (G : forall l m, Forall (fun kv => 0 < snd kv) m -> NoDup (JsMap.keys m) ->
             Forall (fun kv => 0 < snd kv) (fold_left (addShortfallByCoin pm final total) l m)
             /\ NoDup (JsMap.keys (fold_left (addShortfallByCoin pm final total) l m))).
  { induction l as [|kv l IH]; intros m Hm ND; simpl; [now split|].
    destruct (addShortfallByCoin_inv pm final total m kv Hm ND) as [H1 H2].
    now apply IH. }
  apply G; constructor.
Qed.

Lemma sumQc_pos_member (l : list Qc) : 0 < sumQc l -> exists x, In x l /\ 0 < x.
Proof.
  induction l as [|x l IH]; simpl; intros H.
  - exfalso. revert H. apply Qcle_not_lt, Qcle_refl.
  - destruct (Qclt_le_dec 0 x) as [Hx|Hx]; [exists x; auto|].
    destruct IH as [y [Hy Hpos]]; [|exists y; auto].
    qc_unfold. lra.
Qed.

Lemma shortfallsByCoinMap_nonempty pm final sfmap :
  0 < final -> 0 < sumQc (JsMap.values sfmap) ->
  (forall c usd, In (c, usd) sfmap ->
      exists p q, JsMap.get pm c = Some p /\ usd = q * p /\ 0 < q) ->
  shortfallsByCoinMap pm final sfmap <> [].
Proof.
  intros Hf Hsum Hentries. unfold shortfallsByCoinMap.
  assert (Gf : Qcgtb final 0 = true) by now apply Qcgtb_true.
  rewrite Gf.
  assert (Hsize : Nat.ltb 0 (JsMap.size sfmap) = true).
  { destruct sfmap; [|reflexivity]. simpl in Hsum. exfalso.
    revert Hsum. apply Qcle_not_lt, Qcle_refl. }
  rewrite Hsize. cbn [andb]. rewrite sumShortfallUsd_values.
  destruct (sumQc_pos_member _ Hsum) as [usd [Hin Hpos]].
  unfold JsMap.values in Hin. apply in_map_iff in Hin.
  destruct Hin as [[c usd'] [E Hin]]. simpl in E. subst usd'.
  destruct (Hentries c usd Hin) as [p [q [Gp [Eq Hq]]]].
  assert (Hp : 0 < p).
  { destruct (Qclt_le_dec 0 p) as [Hp|Hp]; [assumption|]. exfalso.
    subst usd. qc_unfold. nra. }
  set (total := sumQc (JsMap.values sfmap)) in *.
  assert (G : forall l m, m <> [] \/ In (c, usd) l ->
                          fold_left (addShortfallByCoin pm final total) l m <> []).
  { induction l as [|kv l IH]; intros m [Hm|Hl]; simpl.
    - assumption.
    - destruct Hl.
    - apply IH. left. now apply addShortfallByCoin_nonempty.
    - destruct Hl as [->|Hl].
      + apply IH. left. now apply (addShortfallByCoin_positive pm final total m c usd p).
      + apply IH. now right. }
  apply G. now right.
Qed.

(** ** The record that the first pass produces *)

Lemma Qcmax_pos x : 0 < Qcmax x 0 -> 0 < x.
Proof.
  unfold Qcmax. destruct (Qcleb x 0) eqn:E; [|auto].
  intros H. exfalso. revert H. apply Qcle_not_lt, Qcle_refl.
Qed.

Lemma swapCoverage_remaining pm assets net sw :
  swapCoverage pm assets net = Ok sw ->
  0 < sw_remainingLiabilitiesUsd sw -> 0 < remainingLiabilitiesUsd net.
Proof.
  unfold swapCoverage.
  destruct (Qcgtb (remainingLiabilitiesUsd net) 0) eqn:G; cbn [andb].
  - intros _ _. now apply Qcgtb_true.
  - now intros [= <-].
Qed.

Lemma totalLiabilitiesList_nil lines : totalLiabilitiesList lines = [] <-> lines = [].
Proof.
  split; [|now intros ->].
  unfold totalLiabilitiesList.
  set (step := fun acc ob => match JsMap.get acc (od_coinType ob) with
                             | Some ex => _ | None => _ end).
  assert (G : forall l acc, (l <> [] \/ acc <> []) -> fold_left step l acc <> []).
  { induction l as [|o l IH]; intros acc [H|H]; simpl; try congruence.
    - apply IH. right. unfold step.
      destruct (JsMap.get acc (od_coinType o)); apply set_nonempty.
    - apply IH. right. unfold step.
      destruct (JsMap.get acc (od_coinType o)); apply set_nonempty. }
  destruct lines as [|o lines]; [reflexivity|]. intros H. exfalso.
  unfold JsMap.values in H. apply map_eq_nil in H.
  apply (G (o :: lines) []); [left; discriminate | exact H].
Qed.

Lemma owedParts_nil obs : owedParts obs = [] <-> obs = [].
Proof.
  split; [|now intros ->]. destruct obs as [|ob obs]; [reflexivity|].
  unfold owedParts. simpl. destruct (asset ob); discriminate.
Qed.

Lemma flattenObligations_nil pm obs lines :
  flattenObligations pm obs = Ok lines -> (lines = [] <-> obs = []).
Proof.
  intros H. apply flattenObligations_Ok in H. rewrite <- owedParts_nil.
  split; intros E; rewrite E in H; inversion H; reflexivity.
Qed.

Lemma entitySolvency_record entities pm entity d :
  entitySolvency entities pm entity = Ok d ->
  RecordInv d
  /\ entityId d = id entity
  /\ shortfallsReceived d = [] /\ shortfallsCaused d = []
  /\ (totalLiabilities d = [] <-> obligations entity = []).
Proof.
  unfold entitySolvency. cbv zeta.
  destruct (flattenObligations pm (obligations entity)) as [lines|] eqn:E1;
    cbn [bind]; [|discriminate].
  destruct (sumAssetsUsd pm _) as [usd|] eqn:E2; cbn [bind]; [|discriminate].
  destruct (directNetting pm _ lines) as [net|] eqn:E3; cbn [bind]; [|discriminate].
  destruct (swapCoverage pm _ net) as [sw|] eqn:E4; cbn [bind]; [|discriminate].
  intros [= <-].
  cbn [shortfallsByCoin totalLiabilities shortfallUsd entityId shortfallsReceived
         shortfallsCaused].
  destruct (directNetting_shortfalls _ _ _ _ E3) as [N1 [N2 N3]].
  destruct (shortfallsByCoinMap_inv pm (Qcmax (sw_remainingLiabilitiesUsd sw) 0)
              (shortfallUsdByCoin net)) as [P1 P2].
  assert (Hnil : totalLiabilitiesList lines = [] <-> obligations entity = []).
  { rewrite totalLiabilitiesList_nil. eapply flattenObligations_nil; eauto. }
  split; [|tauto].
  unfold RecordInv.
  cbn [shortfallsByCoin totalLiabilities shortfallUsd].
  split; [exact P1 | split; [exact P2 | split]].
  - intros Hl. apply totalLiabilitiesList_nil in Hl. subst lines.
    unfold directNetting in E3. simpl in E3. inversion E3; subst.
    unfold shortfallsByCoinMap. cbn [shortfallUsdByCoin JsMap.size List.length Nat.ltb Nat.leb].
    now rewrite andb_false_r.
  - intros Hpos. apply shortfallsByCoinMap_nonempty; [assumption | | assumption].
    rewrite <- N1. eapply swapCoverage_remaining; eauto. now apply Qcmax_pos.
Qed.

(** ** The propagation keeps the record invariant *)

Lemma getOr0_nonneg m c : Forall (fun kv : string * Qc => 0 < snd kv) m -> 0 <= getOr0 m c.
Proof.
  intros H. unfold getOr0. destruct (JsMap.get m c) as [x|] eqn:G; [|apply Qcle_refl].
  apply JsMapFacts.get_Some_in in G. rewrite Forall_forall in H.
  apply Qclt_le_weak. apply (H (c, x) G).
Qed.

Lemma allocRecord_shortfallUsd a k ct x u e d :
  shortfallUsd (allocRecord a k ct x u e d) = shortfallUsd d.
Proof.
  unfold allocRecord.
  destruct (String.eqb k e), (String.eqb a e); simpl;
    destruct (Nat.ltb 0 (List.length (totalLiabilities d))); reflexivity.
Qed.

Lemma allocRecord_inv a k ct x u e d :
  0 < x -> RecordInv d -> RecordInv (allocRecord a k ct x u e d).
Proof.
  intros Hx [H1 [H2 [H3 H4]]]. unfold RecordInv.
  rewrite allocRecord_byCoin, allocRecord_totalLiabilities, allocRecord_shortfallUsd.
  destruct (String.eqb k e && Nat.ltb 0 (List.length (totalLiabilities d))) eqn:C;
    [|now repeat split].
  apply andb_true_iff in C. destruct C as [_ C]. apply Nat.ltb_lt in C.
  repeat split.
  - apply Forall_set; [assumption|]. simpl.
    apply Qcplus_nonneg_pos; [now apply getOr0_nonneg | assumption].
  - now apply JsMapFacts.NoDup_keys_set.
  - intros E. rewrite E in C. simpl in C. lia.
  - intros _. apply set_nonempty.
Qed.

Lemma StateInv_allocateToCreditor entityId ct s su T st kv :
  0 < s -> 0 < T -> StateInv st ->
  StateInv (allocateToCreditor entityId ct s su T st kv).
Proof.
  intros Hs HT Hst.
  destruct (Qcgtb (getOr0 (snd kv) ct) 0 && present st (fst kv)) eqn:C.
  2:{ now rewrite allocateToCreditor_skip. }
  apply andb_true_iff in C. destruct C as [Hpos Hpres].
  apply present_true in Hpres.
  intros k d. rewrite get_allocateToCreditor by assumption.
  destruct (JsMap.get st k) as [d0|] eqn:G; [|discriminate].
  intros [= <-]. apply allocRecord_inv; [|eapply Hst; eauto].
  apply Qcmult_pos; [assumption|]. apply Qcdiv_pos; [|assumption].
  now apply Qcgtb_true.
Qed.

Lemma StateInv_distributeCoin entityId obc pm st kv :
  0 < snd kv -> StateInv st -> StateInv (distributeCoin entityId obc pm st kv).
Proof.
  intros Hs Hst. unfold distributeCoin. cbv zeta.
  destruct (Qcgtb _ 0) eqn:G; [|assumption]. apply Qcgtb_true in G.
  destruct (JsMap.get pm (fst kv)) as [price|]; [|assumption].
  revert G. generalize (totalObligationsForCoin obc (fst kv)). intros T HT.
  revert st Hst. induction obc as [|c obc' IH]; intros st Hst; simpl; [assumption|].
  apply IH. now apply StateInv_allocateToCreditor.
Qed.

Lemma StateInv_fold_distribute entityId obc pm l st :
  Forall (fun kv : string * Qc => 0 < snd kv) l -> StateInv st ->
  StateInv (fold_left (distributeCoin entityId obc pm) l st).
Proof.
  intros Hl. revert st. induction Hl as [|kv l Hkv Hl IH]; intros st Hst; simpl;
    [assumption|].
  apply IH. now apply StateInv_distributeCoin.
Qed.

Lemma StateInv_propagateEntityShortfalls entityId st entities pm :
  StateInv st -> StateInv (propagateEntityShortfalls entityId st entities pm).
Proof.
  intros Hst. unfold propagateEntityShortfalls.
  destruct (entities_get entities entityId) as [entity|]; [|assumption].
  destruct (JsMap.get st entityId) as [data|] eqn:G; [|assumption].
  destruct (Nat.ltb 0 _); [|assumption].
  apply StateInv_fold_distribute; [|assumption].
  now destruct (Hst _ _ G) as [Hpos _].
Qed.


(** ** The state after the first pass *)

Lemma foldM_firstPassStep entities pm l acc st :
  NoDup (JsMap.keys acc ++ map id l) ->
  foldM (firstPassStep entities pm) l acc = Ok st ->
  JsMap.keys st = JsMap.keys acc ++ map id l
  /\ (forall entity, In entity l ->
        exists d, entitySolvency entities pm entity = Ok d
                  /\ JsMap.get st (id entity) = Some d)
  /\ (forall k, In k (JsMap.keys acc) -> JsMap.get st k = JsMap.get acc k).
Proof.
  revert acc. induction l as [|entity l IH]; intros acc ND H; simpl in H.
  - inversion H; subst. simpl. rewrite app_nil_r. repeat split; auto. intros ? [].
  - unfold firstPassStep at 1 in H.
    destruct (entitySolvency entities pm entity) as [d|] eqn:E; cbn [bind] in H;
      [|discriminate].
    assert (NI : ~ In (id entity) (JsMap.keys acc)).
    { intros Hin. apply NoDup_app_remove_r in ND as ND1.
      simpl in ND. apply NoDup_remove_2 in ND. apply ND. apply in_app_iff. now left. }
    assert (K : JsMap.keys (JsMap.set acc (id entity) d) = JsMap.keys acc ++ [id entity]).
    { now apply JsMapFacts.keys_set_absent. }
    destruct (IH (JsMap.set acc (id entity) d)) as [H1 [H2 H3]]; [| exact H |].
    { rewrite K, <- app_assoc. exact ND. }
    repeat split.
    + rewrite H1, K, <- app_assoc. reflexivity.
    + intros e [<-|He]; [|auto]. exists d. split; [assumption|].
      rewrite H3; [apply JsMapFacts.get_set_eq|].
      rewrite K. apply in_app_iff. right. now left.
    + intros k Hk. rewrite H3.
      * apply JsMapFacts.get_set_neq. intros <-. contradiction.
      * rewrite K. apply in_app_iff. now left.
Qed.

Lemma firstPass_records entities pm st :
  NoDup (map id entities) ->
  firstPass entities pm = Ok st ->
  JsMap.keys st = map id entities
  /\ (forall entity, In entity entities ->
        exists d, entitySolvency entities pm entity = Ok d
                  /\ JsMap.get st (id entity) = Some d).
Proof.
  intros ND H. unfold firstPass in H.
  destruct (foldM_firstPassStep entities pm entities [] st) as [H1 [H2 _]]; auto.
Qed.

Lemma firstPass_get entities pm st k d :
  NoDup (map id entities) ->
  firstPass entities pm = Ok st ->
  JsMap.get st k = Some d ->
  exists entity, In entity entities /\ id entity = k
                 /\ entitySolvency entities pm entity = Ok d.
Proof.
  intros ND H G. destruct (firstPass_records _ _ _ ND H) as [K R].
  pose proof (JsMapFacts.get_Some_key _ _ _ G) as Hk. rewrite K in Hk.
  apply in_map_iff in Hk. destruct Hk as [entity [<- Hin]].
  destruct (R entity Hin) as [d' [E G']]. exists entity. repeat split; auto.
  congruence.
Qed.

Lemma firstPass_StateInv entities pm st :
  NoDup (map id entities) -> firstPass entities pm = Ok st -> StateInv st.
Proof.
  intros ND H k d G.
  destruct (firstPass_get _ _ _ _ _ ND H G) as [entity [_ [_ E]]].
  now apply entitySolvency_record in E.
Qed.

(** ** The final classification (claim C3) *)


Lemma in_insolventEntities (st : JsMap.t EntitySolvencyData) e d :
  NoDup (JsMap.keys st) ->
  (forall k d', In (k, d') st -> entityId d' = k) ->
  JsMap.get st e = Some d ->
  (In e (insolventEntities (buildResult st)) <-> isInsolvent d = true).
Proof.
  intros ND Hkey G. unfold buildResult. cbn [insolventEntities].
  rewrite in_map_iff. split.
  - intros [d' [He Hin]]. apply filter_In in Hin. destruct Hin as [Hin Hins].
    unfold JsMap.values in Hin. apply in_map_iff in Hin.
    destruct Hin as [[k' d''] [E Hin]]. simpl in E. subst d''.
    pose proof (Hkey _ _ Hin) as Hk. rewrite He in Hk. subst k'.
    rewrite (JsMapFacts.in_get_NoDup _ _ _ ND Hin) in G. now inversion G; subst.
  - intros Hins. exists d. split.
    + apply JsMapFacts.get_Some_in in G. now apply Hkey in G.
    + apply filter_In. split; [|assumption].
      apply JsMapFacts.get_Some_in in G. unfold JsMap.values.
      change d with (snd (e, d)). now apply in_map.
Qed.


Lemma statics_fields st st' k d d' :
  statics st = statics st' -> JsMap.get st k = Some d -> JsMap.get st' k = Some d' ->
  blank d = blank d'.
Proof.
  intros S G G'. pose proof (get_statics st k) as A. pose proof (get_statics st' k) as B.
  rewrite S in A. rewrite A, G, G' in B. simpl in B. congruence.
Qed.

Lemma keyed_by_entityId_statics st st' :
  statics st = statics st' ->
  (forall k d, In (k, d) st -> entityId d = k) ->
  (forall k d, In (k, d) st' -> entityId d = k).
Proof.
  intros S H k d' Hin.
  assert (Hin' : In (k, blank d') (statics st')).
  { unfold statics. change (k, blank d') with ((fun kv => (fst kv, blank (snd kv))) (k, d')).
    now apply in_map. }
  rewrite <- S in Hin'. unfold statics in Hin'. apply in_map_iff in Hin'.
  destruct Hin' as [[k0 d0] [E Hin0]]. simpl in E.
  assert (Ek : k0 = k) by congruence.
  assert (B : blank d0 = blank d') by congruence.
  apply (f_equal entityId) in B. simpl in B.
  rewrite <- Ek, <- (H _ _ Hin0). congruence.
Qed.

Lemma firstPass_keyed entities pm st :
  NoDup (map id entities) -> firstPass entities pm = Ok st ->
  forall k d, In (k, d) st -> entityId d = k.
Proof.
  intros ND H k d Hin.
  destruct (firstPass_records _ _ _ ND H) as [K _].
  assert (G : JsMap.get st k = Some d).
  { apply JsMapFacts.in_get_NoDup; [now rewrite K | assumption]. }
  destruct (firstPass_get _ _ _ _ _ ND H G) as [entity [_ [<- E]]].
  now apply entitySolvency_record in E.
Qed.




(** ** Coverage after the first pass, without rounding *)

Lemma consistentDecimals_decimalsOf entities c :
  consistentDecimals entities = true -> In c (allCoins entities) ->
  decimals c = decimalsOf entities (typeName c).
Proof.
  intros H Hin. unfold decimalsOf.
  destruct (find (fun c' => String.eqb (typeName c') (typeName c)) (allCoins entities))
    as [c'|] eqn:F.
  - apply find_some in F. destruct F as [Hin' E]. apply String.eqb_eq in E.
    unfold consistentDecimals in H. rewrite forallb_forall in H.
    specialize (H c Hin). rewrite forallb_forall in H. specialize (H c' Hin').
    unfold sameDecimals in H. rewrite E, String.eqb_refl in H. simpl in H.
    now apply Nat.eqb_eq in H.
  - exfalso. apply (find_none _ _ F c) in Hin. now rewrite String.eqb_refl in Hin.
Qed.

Lemma in_allCoins_held entities entity a c :
  In entity entities -> In a (holdings entity) -> In c (assetCoins a) ->
  In c (allCoins entities).
Proof.
  intros He Ha Hc. unfold allCoins. apply in_flat_map. exists entity. split; [assumption|].
  unfold entityCoins. apply in_app_iff. left. apply in_flat_map. eauto.
Qed.

Lemma in_allCoins_owed entities entity ob c :
  In entity entities -> In ob (obligations entity) -> In c (assetCoins (asset ob)) ->
  In c (allCoins entities).
Proof.
  intros He Hob Hc. unfold allCoins. apply in_flat_map. exists entity. split; [assumption|].
  unfold entityCoins. apply in_app_iff. right. unfold owedParts.
  unfold assetCoins in Hc. apply in_map_iff in Hc. destruct Hc as [p [<- Hp]].
  apply in_map. apply in_flat_map. eauto.
Qed.

Lemma prevInt_nonneg entities m c :
  Forall (AmountOk entities) m -> (0 <= prevInt m c)%Z.
Proof.
  intros H. unfold prevInt. destruct (JsMap.get m c) as [a|] eqn:G; [|lia].
  apply JsMapFacts.get_Some_in in G. rewrite Forall_forall in H.
  now destruct (H _ G).
Qed.

Lemma addAsset_ok entities m a :
  consistentDecimals entities = true ->
  (forall c, In c (assetCoins a) -> In c (allCoins entities)) ->
  assetNonneg a = true ->
  Forall (AmountOk entities) m -> NoDup (JsMap.keys m) ->
  Forall (AmountOk entities) (addAsset m a) /\ NoDup (JsMap.keys (addAsset m a)).
Proof.
  intros Hc Hin Hnn Hm ND.
  destruct a as [coin i | coinA coinB iA iB]; simpl in *.
  - split; [|now apply JsMapFacts.NoDup_keys_set].
    apply Forall_set; [assumption|]. split; simpl.
    + apply consistentDecimals_decimalsOf; auto.
    + pose proof (prevInt_nonneg entities m (typeName coin) Hm). lia.
  - apply andb_true_iff in Hnn. destruct Hnn as [HA HB].
    split; [|now repeat apply JsMapFacts.NoDup_keys_set].
    apply Forall_set; [apply Forall_set; [assumption|]|]; split; simpl.
    + apply consistentDecimals_decimalsOf; auto.
    + pose proof (prevInt_nonneg entities m (typeName coinA) Hm). lia.
    + apply consistentDecimals_decimalsOf; auto.
    + pose proof (prevInt_nonneg entities m (typeName coinB) Hm). lia.
Qed.

Lemma nonnegAmounts_entity entities entity :
  nonnegAmounts entities = true -> In entity entities ->
  nonnegHoldings entity = true /\ nonnegObligations entity = true.
Proof.
  unfold nonnegAmounts. rewrite forallb_forall. intros H Hin.
  now apply andb_true_iff, H.
Qed.

Lemma aggregateAssets_ok entities entity :
  consistentDecimals entities = true -> nonnegAmounts entities = true ->
  In entity entities ->
  Forall (AmountOk entities) (aggregateAssets entities entity)
  /\ NoDup (JsMap.keys (aggregateAssets entities entity)).
Proof.
  intros Hc Hnn Hin. unfold aggregateAssets.
  assert (Held : forall l m,
             (forall a, In a l -> In a (holdings entity)) ->
             Forall (AmountOk entities) m -> NoDup (JsMap.keys m) ->
             Forall (AmountOk entities) (fold_left addAsset l m)
             /\ NoDup (JsMap.keys (fold_left addAsset l m))).
  { induction l as [|a l IH]; intros m Hl Hm ND; simpl; [now split|].
    destruct (addAsset_ok entities m a Hc) as [H1 H2]; auto.
    - intros c Hcn. eapply in_allCoins_held; eauto. apply Hl. now left.
    - destruct (nonnegAmounts_entity _ _ Hnn Hin) as [Hh _].
      unfold nonnegHoldings in Hh. rewrite forallb_forall in Hh. apply Hh, Hl. now left.
    - apply IH; auto. intros a' Ha'. apply Hl. now right. }
  assert (Inc : forall other, In other entities ->
             forall obs m,
               (forall ob, In ob obs -> In ob (obligations other)) ->
               Forall (AmountOk entities) m -> NoDup (JsMap.keys m) ->
               let m' := fold_left
                           (fun m ob => if String.eqb (to ob) (id entity)
                                        then addAsset m (asset ob) else m) obs m in
               Forall (AmountOk entities) m' /\ NoDup (JsMap.keys m')).
  { intros other Ho. induction obs as [|ob obs IH]; intros m Hl Hm ND; simpl; [now split|].
    assert (Hl' : forall ob', In ob' obs -> In ob' (obligations other)).
    { intros ob' Hob'. apply Hl. now right. }
    destruct (String.eqb (to ob) (id entity)); [|now apply IH].
    destruct (addAsset_ok entities m (asset ob) Hc) as [H1 H2]; auto.
    - intros c Hcn. eapply in_allCoins_owed; eauto. apply Hl. now left.
    - destruct (nonnegAmounts_entity _ _ Hnn Ho) as [_ Hob].
      unfold nonnegObligations in Hob. rewrite forallb_forall in Hob.
      apply (Hob ob), Hl. now left. }
  assert (Outer : forall l m,
             (forall other, In other l -> In other entities) ->
             Forall (AmountOk entities) m -> NoDup (JsMap.keys m) ->
             Forall (AmountOk entities) (fold_left (addIncoming entity) l m)
             /\ NoDup (JsMap.keys (fold_left (addIncoming entity) l m))).
  { induction l as [|other l IH]; intros m Hl Hm ND; simpl; [now split|].
    destruct (Inc other (Hl other (or_introl eq_refl)) (obligations other) m) as [H1 H2];
      auto.
    apply IH; auto. intros o Ho. apply Hl. now right. }
  destruct (Held (holdings entity) []) as [H1 H2]; [tauto | constructor | constructor |].
  now apply Outer.
Qed.

Lemma Z2Qc_plus a b : Z2Qc (a + b) = Z2Qc a + Z2Qc b.
Proof.
  apply Qc_is_canon. rewrite this_plus. unfold Z2Qc. cbn [this Q2Qc].
  rewrite !Qred_correct. rewrite inject_Z_plus. reflexivity.
Qed.

Lemma Z2Qc_minus a b : Z2Qc (a - b) = Z2Qc a - Z2Qc b.
Proof.
  apply Qc_is_canon. rewrite this_minus. unfold Z2Qc. cbn [this Q2Qc].
  rewrite !Qred_correct. unfold Z.sub. rewrite inject_Z_plus, inject_Z_opp. reflexivity.
Qed.

Lemma Z2Qc_0 : Z2Qc 0 = 0.
Proof. apply Qc_is_canon. reflexivity. Qed.

Lemma usdOfInt_plus entities pm c a b :
  usdOfInt entities pm c (a + b) = usdOfInt entities pm c a + usdOfInt entities pm c b.
Proof. unfold usdOfInt, Qcdiv. rewrite Z2Qc_plus. ring. Qed.

Lemma usdOfInt_minus entities pm c a b :
  usdOfInt entities pm c (a - b) = usdOfInt entities pm c a - usdOfInt entities pm c b.
Proof. unfold usdOfInt, Qcdiv. rewrite Z2Qc_minus. ring. Qed.

Lemma usdOfInt_0 entities pm c : usdOfInt entities pm c 0 = 0.
Proof. unfold usdOfInt, Qcdiv. rewrite Z2Qc_0. ring. Qed.

Lemma positivePrices_getOr0 pm c : positivePrices pm = true -> 0 <= getOr0 pm c.
Proof.
  unfold positivePrices. rewrite forallb_forall. intros H. unfold getOr0.
  destruct (JsMap.get pm c) as [p|] eqn:G; [|apply Qcle_refl].
  apply JsMapFacts.get_Some_in in G. apply H in G. simpl in G.
  apply Qclt_le_weak. now apply Qcgtb_true.
Qed.

Lemma usdOfInt_nonneg entities pm c n :
  positivePrices pm = true -> (0 <= n)%Z -> 0 <= usdOfInt entities pm c n.
Proof.
  intros Hp Hn. unfold usdOfInt.
  apply Qcmult_nonneg; [|now apply positivePrices_getOr0].
  unfold Qcdiv. apply Qcmult_nonneg; [now apply Z2Qc_nonneg|].
  apply Qclt_le_weak, Qcinv_pos, pow10_pos.
Qed.

Lemma owedParts_nonneg entity part :
  nonnegObligations entity = true -> In part (owedParts (obligations entity)) ->
  (0 <= snd part)%Z.
Proof.
  unfold nonnegObligations, owedParts. rewrite forallb_forall. intros H Hin.
  apply in_flat_map in Hin. destruct Hin as [ob [Hob Hp]].
  specialize (H ob Hob). destruct (asset ob) as [coin i | cA cB iA iB]; simpl in *.
  - destruct Hp as [<-|[]]. simpl. lia.
  - apply andb_true_iff in H. destruct H as [HA HB].
    destruct Hp as [<-|[<-|[]]]; simpl; lia.
Qed.

Lemma lines_ok entities pm entity lines :
  consistentDecimals entities = true -> nonnegAmounts entities = true ->
  In entity entities ->
  flattenObligations pm (obligations entity) = Ok lines ->
  Forall (LineOk entities pm) lines.
Proof.
  intros Hc Hnn Hin H. apply flattenObligations_Ok in H.
  destruct (nonnegAmounts_entity _ _ Hnn Hin) as [_ Hob].
  assert (Hparts : forall part, In part (owedParts (obligations entity)) ->
                     In (fst part) (allCoins entities) /\ (0 <= snd part)%Z).
  { intros part Hp. split; [|eapply owedParts_nonneg; eauto].
    unfold allCoins. apply in_flat_map. exists entity. split; [assumption|].
    unfold entityCoins. apply in_app_iff. right. now apply in_map. }
  revert Hparts. induction H as [|part o parts lines Hpo _ IH]; intros Hparts;
    constructor.
  - destruct Hpo as [E1 [E2 [price [Gp Eu]]]].
    destruct (Hparts part (or_introl eq_refl)) as [Hcoin Hi].
    split; [split|]; simpl.
    + rewrite E1, E2. simpl. now apply consistentDecimals_decimalsOf.
    + rewrite E2. simpl. exact Hi.
    + exists price. rewrite E1. auto.
  - apply IH. intros p Hp. apply Hparts. now right.
Qed.

Lemma LineOk_usd entities pm o :
  LineOk entities pm o ->
  od_usdValue o = usdOfInt entities pm (od_coinType o) (int (od_amount o)).
Proof.
  intros [[Hd _] [price [Gp Eu]]]. simpl in Hd.
  rewrite Eu. unfold usdOfInt, toNumber, toDecimal, getOr0. now rewrite Hd, Gp.
Qed.

Lemma totalObInt_sumZ obs : totalObInt obs = sumZ (map (fun o => int (od_amount o)) obs).
Proof.
  unfold totalObInt.
  assert (G : forall l acc, fold_left (fun sum o => (sum + int (od_amount o))%Z) l acc
                            = (acc + sumZ (map (fun o => int (od_amount o)) l))%Z).
  { induction l as [|o l IH]; intros acc; simpl; [lia|]. rewrite IH. lia. }
  rewrite G. lia.
Qed.

Lemma totalObInt_snoc obs o : totalObInt (obs ++ [o]) = (totalObInt obs + int (od_amount o))%Z.
Proof.
  rewrite !totalObInt_sumZ, map_app. simpl.
  induction (map (fun o0 => int (od_amount o0)) obs) as [|x l IH]; simpl; lia.
Qed.

Lemma sumLiabilitiesUsd_sum lines :
  sumLiabilitiesUsd lines = sumQc (map od_usdValue lines).
Proof. unfold sumLiabilitiesUsd. rewrite fold_left_Qcplus. ring. Qed.

(** The groups partition the lines: their USD values add up to the total
    liabilities. *)
Lemma groups_total entities pm lines :
  Forall (LineOk entities pm) lines ->
  weight (fun c obs => usdOfInt entities pm c (totalObInt obs)) (groupByCoin lines)
  = sumLiabilitiesUsd lines.
Proof.
  intros Hl. rewrite sumLiabilitiesUsd_sum, groupByCoin_fold.
  set (w := fun c obs => usdOfInt entities pm c (totalObInt obs)).
  assert (G : forall l acc, Forall (LineOk entities pm) l -> NoDup (JsMap.keys acc) ->
                            weight w (fold_left groupStep l acc)
                            = weight w acc + sumQc (map od_usdValue l)).
  { induction l as [|o l IH]; intros acc Hok ND; simpl; [ring|].
    inversion Hok; subst.
    rewrite IH by (auto using NoDup_keys_groupStep).
    unfold groupStep.
    destruct (JsMap.get acc (od_coinType o)) as [obs|] eqn:Ga;
      rewrite weight_set, Ga by assumption; unfold w;
      rewrite (LineOk_usd entities pm o) by assumption.
    - rewrite totalObInt_snoc, usdOfInt_plus. ring.
    - unfold totalObInt. simpl. ring. }
  rewrite G; [|assumption|constructor]. unfold weight. simpl. ring.
Qed.

Lemma find_filter_hd (A : Type) (p : A -> bool) (l : list A) :
  find p l = hd_error (filter p l).
Proof.
  induction l as [|x l IH]; simpl; [reflexivity|]. destruct (p x); auto.
Qed.

Lemma group_ok entities pm lines g :
  Forall (LineOk entities pm) lines -> In g (groupByCoin lines) ->
  GroupOk entities pm lines g.
Proof.
  intros Hl Hin. destruct g as [c obs]. destruct (in_groupByCoin _ _ _ Hin) as [E NE].
  assert (Hobs : Forall (fun o => LineOk entities pm o /\ od_coinType o = c) obs).
  { rewrite E. apply Forall_forall. intros o Ho. apply filter_In in Ho.
    destruct Ho as [Ho Hc]. apply String.eqb_eq in Hc. split; [|assumption].
    rewrite Forall_forall in Hl. auto. }
  unfold GroupOk. cbn [fst snd]. split; [|split].
  - rewrite totalObInt_sumZ. clear -Hobs. induction Hobs as [|o l [[[_ Hi] _] _] _ IH];
      simpl in *; lia.
  - rewrite find_filter_hd, <- E. destruct obs as [|o obs]; [congruence|].
    exists o. split; [reflexivity|]. inversion Hobs as [|? ? [[[Hd _] _] Hc] _]; subst.
    exact Hd.
  - clear -Hobs. induction Hobs as [|o l [Hok Hc] _ IH]; simpl.
    + unfold totalObInt. simpl. now rewrite usdOfInt_0.
    + rewrite IH, (LineOk_usd _ _ _ Hok), Hc.
      rewrite !totalObInt_sumZ. simpl. rewrite usdOfInt_plus. reflexivity.
Qed.

Lemma Forall_delete (V : Type) (P : string * V -> Prop) (m : JsMap.t V) k :
  Forall P m -> Forall P (JsMap.delete m k).
Proof.
  induction 1 as [|[k' v'] m' Hx Hm IH]; simpl; [constructor|].
  destruct (String.eqb k' k); [assumption|now constructor].
Qed.

Lemma toDecimal_fromInt entities pm c n dec price :
  dec = decimalsOf entities c -> JsMap.get pm c = Some price ->
  toDecimal (Amount_fromInt n dec) * price = usdOfInt entities pm c n.
Proof.
  intros -> G. unfold usdOfInt, getOr0, toDecimal, Amount_fromInt. rewrite G. reflexivity.
Qed.

(** One coin of the direct netting: the state stays well formed, and
    remaining asset value minus remaining liabilities drops by exactly
    the USD value of what is owed in this coin. *)
Lemma netCoin_value entities pm assets lines st g st' :
  positivePrices pm = true ->
  RemInv assets st -> GroupOk entities pm lines g ->
  netCoin pm lines st g = Ok st' ->
  RemInv assets st'
  /\ valueRem entities pm (remainingByCoin st') - remainingLiabilitiesUsd st'
     = valueRem entities pm (remainingByCoin st) - remainingLiabilitiesUsd st
       - usdOfInt entities pm (fst g) (totalObInt (snd g)).
Proof.
  intros Hp [ND [Hnn [Hsub HD]]] [Ht [[o [Hf Hd]] _]] H.
  unfold netCoin in H. cbn zeta in H.
  set (c := fst g) in *. set (total := totalObInt (snd g)) in *.
  assert (Hav : match JsMap.get (remainingByCoin st) c with
                | Some v0 => usdOfInt entities pm c v0 | None => 0 end
                = usdOfInt entities pm c
                    match JsMap.get (remainingByCoin st) c with Some n => n | None => 0%Z end).
  { destruct (JsMap.get (remainingByCoin st) c); [reflexivity|]. now rewrite usdOfInt_0. }
  assert (Hav0 : (0 <= match JsMap.get (remainingByCoin st) c with
                       | Some n => n | None => 0%Z end)%Z).
  { destruct (JsMap.get (remainingByCoin st) c) as [n|] eqn:G; [|lia].
    apply JsMapFacts.get_Some_in in G. rewrite Forall_forall in Hnn.
    apply (Hnn _ G). }
  set (available := match JsMap.get (remainingByCoin st) c with
                    | Some n => n | None => 0%Z end) in *.
  destruct (available >=? total)%Z eqn:Cmp.
  - rewrite Z.geb_leb in Cmp. apply Z.leb_le in Cmp.
    inversion H; subst st'; clear H. unfold RemInv, valueRem.
    cbn [remainingByCoin remainingLiabilitiesUsd].
    destruct (available - total >? 0)%Z eqn:R.
    + rewrite Z.gtb_ltb in R. apply Z.ltb_lt in R.
      split; [split; [|split; [|split]]|].
      * now apply JsMapFacts.NoDup_keys_set.
      * apply Forall_set; [assumption|simpl; lia].
      * intros k Hk. apply JsMapFacts.in_keys_set in Hk. destruct Hk as [->|Hk]; [|auto].
        apply Hsub. subst available.
        destruct (JsMap.get (remainingByCoin st) c) as [n|] eqn:G; [|lia].
        eapply JsMapFacts.get_Some_key; eauto.
      * assumption.
      * rewrite weight_set by assumption. rewrite Hav, usdOfInt_minus. ring.
    + rewrite Z.gtb_ltb in R. apply Z.ltb_ge in R.
      assert (E : total = available) by lia.
      split; [split; [|split; [|split]]|].
      * now apply JsMapFacts.NoDup_keys_delete.
      * now apply Forall_delete.
      * intros k Hk. apply JsMapFacts.in_keys_delete in Hk. auto.
      * assumption.
      * rewrite weight_delete by assumption. rewrite Hav, E. ring.
  - rewrite Z.geb_leb in Cmp. apply Z.leb_gt in Cmp.
    destruct (JsMap.get pm c) as [price|] eqn:Gp; [|discriminate].
    fold c in Hf. rewrite Hf in H.
    inversion H; subst st'; clear H. unfold RemInv, valueRem.
    cbn [remainingByCoin remainingLiabilitiesUsd].
    rewrite (toDecimal_fromInt entities pm c) by assumption.
    split; [split; [|split; [|split]]|].
    + now apply JsMapFacts.NoDup_keys_delete.
    + now apply Forall_delete.
    + intros k Hk. apply JsMapFacts.in_keys_delete in Hk. auto.
    + apply Qcplus_nonneg; [assumption|]. apply usdOfInt_nonneg; [assumption|lia].
    + rewrite weight_delete by assumption. rewrite Hav, usdOfInt_minus. ring.
Qed.

Lemma directNetting_value entities pm assets lines net :
  positivePrices pm = true ->
  Forall (AmountOk entities) assets -> NoDup (JsMap.keys assets) ->
  Forall (LineOk entities pm) lines ->
  directNetting pm assets lines = Ok net ->
  RemInv assets net
  /\ valueRem entities pm (remainingByCoin net) - remainingLiabilitiesUsd net
     = valueRem entities pm (map (fun kv => (fst kv, int (snd kv))) assets)
       - sumLiabilitiesUsd lines.
Proof.
  intros Hp Ha ND Hl H. unfold directNetting in H.
  rewrite <- (groups_total entities pm lines Hl).
  assert (Hg : forall g, In g (groupByCoin lines) -> GroupOk entities pm lines g)
    by (intros g; now apply group_ok).
  set (st0 := {| remainingByCoin := map (fun kv => (fst kv, int (snd kv))) assets;
                 remainingLiabilitiesUsd := 0; shortfallUsdByCoin := [] |}) in *.
  assert (I0 : RemInv assets st0).
  { unfold RemInv, st0. cbn [remainingByCoin remainingLiabilitiesUsd].
    assert (K : JsMap.keys (map (fun kv : string * Amount => (fst kv, int (snd kv))) assets)
                = JsMap.keys assets).
    { unfold JsMap.keys. rewrite map_map. reflexivity. }
    rewrite K. split; [assumption|]. split; [|split; [auto|apply Qcle_refl]].
    rewrite Forall_forall in *. intros x Hx. apply in_map_iff in Hx.
    destruct Hx as [kv [<- Hkv]]. simpl. apply (Ha _ Hkv). }
  change (map (fun kv => (fst kv, int (snd kv))) assets) with (remainingByCoin st0).
  replace (valueRem entities pm (remainingByCoin st0))
    with (valueRem entities pm (remainingByCoin st0) - remainingLiabilitiesUsd st0)
    by (unfold st0; cbn [remainingLiabilitiesUsd]; ring).
  revert H I0 Hg. generalize st0. generalize (groupByCoin lines) as gs.
  induction gs as [|g gs IH]; intros st H I Hg; simpl in H.
  - inversion H; subst. split; [assumption|]. unfold weight. simpl. ring.
  - destruct (netCoin pm lines st g) as [st1|e] eqn:E; simpl in H; [|discriminate].
    destruct (netCoin_value entities pm assets lines st g st1 Hp I (Hg g (or_introl eq_refl)) E)
      as [I1 V1].
    destruct (IH st1 H I1 (fun g' Hg' => Hg g' (or_intror Hg'))) as [I2 V2].
    split; [assumption|]. rewrite V2, V1. unfold weight. simpl. ring.
Qed.

Lemma sumAssetsUsd_value entities pm assets v :
  Forall (AmountOk entities) assets ->
  sumAssetsUsd pm assets = Ok v ->
  v = valueRem entities pm (map (fun kv => (fst kv, int (snd kv))) assets).
Proof.
  unfold sumAssetsUsd, valueRem, weight. intros Ha.
  assert (G : forall acc, foldM (addAssetUsd pm) assets acc = Ok v ->
                v = acc + sumQc (map (fun kv => usdOfInt entities pm (fst kv) (snd kv))
                                   (map (fun kv => (fst kv, int (snd kv))) assets))).
  { induction Ha as [|[k a] l [Hd _] _ IH]; intros acc H; simpl in H.
    - inversion H. simpl. ring.
    - unfold addAssetUsd in H at 1. simpl in H, Hd.
      destruct (JsMap.get pm k) as [price|] eqn:Gp; simpl in H; [|discriminate].
      rewrite (IH _ H). simpl.
      unfold usdOfInt at 2. unfold getOr0, toDecimal. rewrite Gp, Hd. ring. }
  intros H. rewrite (G 0 H). ring.
Qed.

Lemma remainingUsd_value entities pm assets rem v :
  Forall (AmountOk entities) assets ->
  (forall k, In k (JsMap.keys rem) -> In k (JsMap.keys assets)) ->
  foldM (addRemainingUsd pm assets) rem 0 = Ok v ->
  v = valueRem entities pm rem.
Proof.
  unfold valueRem, weight. intros Ha.
  assert (G : forall acc,
                (forall k, In k (JsMap.keys rem) -> In k (JsMap.keys assets)) ->
                foldM (addRemainingUsd pm assets) rem acc = Ok v ->
                v = acc + sumQc (map (fun kv => usdOfInt entities pm (fst kv) (snd kv)) rem)).
  { induction rem as [|[k n] l IH]; intros acc Hsub H; simpl in H.
    - inversion H. simpl. ring.
    - unfold addRemainingUsd in H at 1. simpl in H.
      destruct (JsMap.get pm k) as [price|] eqn:Gp; simpl in H; [|discriminate].
      destruct (JsMap.get assets k) as [a|] eqn:Ga.
      + simpl in H. rewrite (IH _ (fun k' Hk' => Hsub k' (or_intror Hk')) H). simpl.
        apply JsMapFacts.get_Some_in in Ga. rewrite Forall_forall in Ha.
        destruct (Ha _ Ga) as [Hd _]. simpl in Hd.
        unfold usdOfInt at 2. unfold getOr0, toNumber, toDecimal, Amount_fromInt.
        simpl. rewrite Gp, Hd. ring.
      + exfalso. apply JsMapFacts.get_None_iff in Ga. apply Ga, Hsub. now left. }
  intros Hsub H. rewrite (G 0 Hsub H). ring.
Qed.

Lemma valueRem_nonneg entities pm rem :
  positivePrices pm = true -> Forall (fun kv => (0 <= snd kv)%Z) rem ->
  0 <= valueRem entities pm rem.
Proof.
  intros Hp H. unfold valueRem, weight. apply sumQc_nonneg. intros x Hx.
  apply in_map_iff in Hx. destruct Hx as [kv [<- Hkv]].
  rewrite Forall_forall in H. apply usdOfInt_nonneg; auto.
Qed.

Lemma Qcmax_eq (x y : Qc) : (x <= y -> Qcmax x y = y) /\ (y <= x -> Qcmax x y = x).
Proof.
  unfold Qcmax. destruct (Qcleb x y) eqn:E; split; intros H; try reflexivity.
  - apply Qcleb_true in E. now apply Qcle_antisym.
  - assert (N : ~ x <= y) by (intros C; apply Qcleb_true in C; congruence). contradiction.
Qed.

Lemma Qcmin_eq (x y : Qc) : (x <= y -> Qcmin x y = x) /\ (y <= x -> Qcmin x y = y).
Proof.
  unfold Qcmin. destruct (Qcleb x y) eqn:E; split; intros H; try reflexivity.
  - apply Qcleb_true in E. now apply Qcle_antisym.
  - assert (N : ~ x <= y) by (intros C; apply Qcleb_true in C; congruence). contradiction.
Qed.

Lemma Qcle_total (x y : Qc) : x <= y \/ y <= x.
Proof.
  destruct (Qclt_le_dec x y) as [H|H]; [left; now apply Qclt_le_weak|now right].
Qed.

(** After the swap, what is left of the deficit is the excess of the
    deficit over the value of the remaining assets. *)
Lemma swapCoverage_value entities pm assets net sw :
  positivePrices pm = true ->
  Forall (AmountOk entities) assets ->
  RemInv assets net ->
  swapCoverage pm assets net = Ok sw ->
  Qcmax (sw_remainingLiabilitiesUsd sw) 0
  = Qcmax 0 (remainingLiabilitiesUsd net - valueRem entities pm (remainingByCoin net)).
Proof.
  intros Hp Ha [ND [Hnn [Hsub HD]]] H.
  pose proof (valueRem_nonneg entities pm _ Hp Hnn) as HR.
  set (D := remainingLiabilitiesUsd net) in *.
  set (R := valueRem entities pm (remainingByCoin net)) in *.
  unfold swapCoverage in H. fold D in H.
  destruct (Qcgtb D 0) eqn:GD; simpl in H.
  - destruct (Nat.ltb 0 (JsMap.size (remainingByCoin net))) eqn:Sz.
    + destruct (foldM (addRemainingUsd pm assets) (remainingByCoin net) 0) as [v|e] eqn:F;
        simpl in H; [|discriminate].
      apply (remainingUsd_value entities) in F; [|assumption|assumption]. fold R in F. subst v.
      destruct (if Qcgtb (Qcmin R D) 0 && Nat.ltb 0 (JsMap.size (shortfallUsdByCoin net))
                then _ else _) as [reps|e]; simpl in H; [|discriminate].
      inversion H; subst sw; clear H. cbn [sw_remainingLiabilitiesUsd].
      destruct (Qcle_total R D) as [C|C].
      * rewrite (proj1 (Qcmin_eq R D) C).
        assert (C' : 0 <= D - R) by (revert C; qc_unfold; lra).
        rewrite (proj2 (Qcmax_eq (D - R) 0) C'), (proj1 (Qcmax_eq 0 (D - R)) C').
        reflexivity.
      * rewrite (proj2 (Qcmin_eq R D) C).
        assert (C' : D - R <= 0) by (revert C; qc_unfold; lra).
        rewrite (proj2 (Qcmax_eq 0 (D - R)) C').
        replace (D - D) with 0 by ring. apply Qcmax_eq, Qcle_refl.
    + inversion H; subst sw; clear H. cbn [sw_remainingLiabilitiesUsd]. fold D.
      apply Nat.ltb_ge in Sz. unfold JsMap.size in Sz.
      assert (E : R = 0).
      { unfold R. destruct (remainingByCoin net); [reflexivity|simpl in Sz; lia]. }
      rewrite E. replace (D - 0) with D by ring.
      rewrite (proj2 (Qcmax_eq D 0) HD), (proj1 (Qcmax_eq 0 D) HD). reflexivity.
  - inversion H; subst sw; clear H. cbn [sw_remainingLiabilitiesUsd]. fold D.
    apply Qcgtb_false in GD.
    assert (E : D = 0) by (now apply Qcle_antisym). rewrite E.
    assert (C' : 0 - R <= 0) by (revert HR; qc_unfold; lra).
    rewrite (proj2 (Qcmax_eq 0 (0 - R)) C'). apply Qcmax_eq, Qcle_refl.
Qed.

Lemma entitySolvency_shortfall entities pm entity d :
  consistentDecimals entities = true -> nonnegAmounts entities = true ->
  positivePrices pm = true -> In entity entities ->
  entitySolvency entities pm entity = Ok d ->
  shortfallUsd d = Qcmax 0 (totalLiabilitiesUsd d - totalAssetsUsd d).
Proof.
  intros Hc Hnn Hp Hin H. unfold entitySolvency in H.
  destruct (aggregateAssets_ok entities entity Hc Hnn Hin) as [Ha ND].
  destruct (flattenObligations pm (obligations entity)) as [lines|e] eqn:Fl;
    simpl in H; [|discriminate].
  pose proof (lines_ok _ _ _ _ Hc Hnn Hin Fl) as Hl.
  destruct (sumAssetsUsd pm (aggregateAssets entities entity)) as [A|e] eqn:SA;
    simpl in H; [|discriminate].
  destruct (directNetting pm (aggregateAssets entities entity) lines) as [net|e] eqn:DN;
    simpl in H; [|discriminate].
  destruct (swapCoverage pm (aggregateAssets entities entity) net) as [sw|e] eqn:SW;
    simpl in H; [|discriminate].
  inversion H; subst d; clear H. cbn [shortfallUsd totalLiabilitiesUsd totalAssetsUsd].
  destruct (directNetting_value entities pm _ _ _ Hp Ha ND Hl DN) as [I V].
  rewrite (swapCoverage_value entities pm _ _ _ Hp Ha I SW).
  rewrite (sumAssetsUsd_value entities pm _ _ Ha SA).
  f_equal.
  transitivity (- (valueRem entities pm (remainingByCoin net) - remainingLiabilitiesUsd net));
    [ring|]. rewrite V. ring.
Qed.

(** *** Coverage in every asset type *)

Lemma sumQc_le (A : Type) (f g : A -> Qc) (l : list A) :
  (forall x, In x l -> f x <= g x) -> sumQc (map f l) <= sumQc (map g l).
Proof.
  induction l as [|x l IH]; intros H; simpl; [apply Qcle_refl|].
  apply Qcplus_le_compat; [apply H; now left|apply IH; intros y Hy; apply H; now right].
Qed.

Lemma usdOfInt_mono entities pm c a b :
  positivePrices pm = true -> (a <= b)%Z ->
  usdOfInt entities pm c a <= usdOfInt entities pm c b.
Proof.
  intros Hp Hab.
  assert (H : 0 <= usdOfInt entities pm c (b - a)) by (apply usdOfInt_nonneg; [assumption|lia]).
  rewrite usdOfInt_minus in H. revert H. qc_unfold. lra.
Qed.

(** The values of the entries of a map at distinct keys add up to at
    most the value of the whole map. *)
Lemma subset_weight (w : string -> Z -> Qc) (ks : list string) :
  NoDup ks ->
  forall m : JsMap.t Z,
    NoDup (JsMap.keys m) -> Forall (fun kv => 0 <= w (fst kv) (snd kv)) m ->
    sumQc (map (fun k => match JsMap.get m k with Some v => w k v | None => 0 end) ks)
    <= weight w m.
Proof.
  induction 1 as [|k ks NI ND IH]; intros m NDm Hm; simpl.
  - apply sumQc_nonneg. intros x Hx. apply in_map_iff in Hx.
    destruct Hx as [kv [<- Hkv]]. rewrite Forall_forall in Hm. now apply Hm.
  - assert (E : map (fun k0 => match JsMap.get m k0 with Some v => w k0 v | None => 0 end) ks
                = map (fun k0 => match JsMap.get (JsMap.delete m k) k0 with
                                 | Some v => w k0 v | None => 0 end) ks).
    { apply map_ext_in. intros k' Hk'. rewrite JsMapFacts.get_delete_neq; [reflexivity|].
      intros ->. contradiction. }
    rewrite E.
    pose proof (IH (JsMap.delete m k) (JsMapFacts.NoDup_keys_delete m k NDm)
                  (Forall_delete _ _ m k Hm)) as B.
    rewrite weight_delete in B by assumption. revert B. qc_unfold. lra.
Qed.

Lemma get_map_int (assets : JsMap.t Amount) c :
  match JsMap.get (map (fun kv => (fst kv, int (snd kv))) assets) c with
  | Some n => n | None => 0%Z end = prevInt assets c.
Proof.
  unfold prevInt. induction assets as [|[k a] l IH]; simpl; [reflexivity|].
  destruct (String.eqb k c); [reflexivity|exact IH].
Qed.

Lemma totalObInt_owedInt pm parts lines c :
  Forall2 (lineOfPart pm) parts lines ->
  totalObInt (filter (fun o => String.eqb (od_coinType o) c) lines)
  = sumZ (map snd (filter (fun p => String.eqb (typeName (fst p)) c) parts)).
Proof.
  rewrite totalObInt_sumZ.
  induction 1 as [|p o parts lines [E1 [E2 _]] _ IH]; simpl; [reflexivity|].
  rewrite E1. destruct (String.eqb (typeName (fst p)) c); simpl; [|exact IH].
  rewrite IH, E2. reflexivity.
Qed.

Lemma entitySolvency_covered entities pm entity d :
  consistentDecimals entities = true -> nonnegAmounts entities = true ->
  positivePrices pm = true -> In entity entities ->
  entitySolvency entities pm entity = Ok d ->
  coversEveryType entities entity = true ->
  totalLiabilitiesUsd d <= totalAssetsUsd d.
Proof.
  intros Hc Hnn Hp Hin H Hcov. unfold entitySolvency in H.
  destruct (aggregateAssets_ok entities entity Hc Hnn Hin) as [Ha ND].
  destruct (flattenObligations pm (obligations entity)) as [lines|e] eqn:Fl;
    simpl in H; [|discriminate].
  pose proof (lines_ok _ _ _ _ Hc Hnn Hin Fl) as Hl.
  pose proof (flattenObligations_Ok _ _ _ Fl) as F2.
  destruct (sumAssetsUsd pm (aggregateAssets entities entity)) as [A|e] eqn:SA;
    simpl in H; [|discriminate].
  destruct (directNetting pm (aggregateAssets entities entity) lines) as [net|e] eqn:DN;
    simpl in H; [|discriminate].
  destruct (swapCoverage pm (aggregateAssets entities entity) net) as [sw|e] eqn:SW;
    simpl in H; [|discriminate].
  inversion H; subst d; clear H. cbn [totalLiabilitiesUsd totalAssetsUsd].
  rewrite (sumAssetsUsd_value entities pm _ _ Ha SA).
  rewrite <- (groups_total entities pm lines Hl).
  set (assets := aggregateAssets entities entity) in *.
  set (rem0 := map (fun kv => (fst kv, int (snd kv))) assets).
  assert (K : JsMap.keys rem0 = JsMap.keys assets).
  { unfold rem0, JsMap.keys. rewrite map_map. reflexivity. }
  apply Qcle_trans with
    (sumQc (map (fun k => match JsMap.get rem0 k with
                          | Some v => usdOfInt entities pm k v | None => 0 end)
              (JsMap.keys (groupByCoin lines)))).
  - unfold weight, JsMap.keys. rewrite map_map. apply sumQc_le.
    intros [c obs] Hg. cbn [fst snd].
    destruct (in_groupByCoin _ _ _ Hg) as [E _].
    assert (Hle : (totalObInt obs <= prevInt assets c)%Z).
    { rewrite E, (totalObInt_owedInt pm _ _ c F2).
      unfold coversEveryType in Hcov. rewrite forallb_forall in Hcov.
      apply Z.leb_le. apply (Hcov c).
      rewrite owedCoinTypes_parts, <- (lines_coinTypes pm _ _ F2).
      assert (Hk : In c (JsMap.keys (groupByCoin lines)))
        by (unfold JsMap.keys; apply in_map_iff; exists (c, obs); auto).
      destruct (in_keys_groupByCoin _ _ Hk) as [o [Ho <-]]. now apply in_map. }
    rewrite <- get_map_int in Hle. fold rem0 in Hle.
    destruct (JsMap.get rem0 c) as [n|].
    + now apply usdOfInt_mono.
    + rewrite <- (usdOfInt_0 entities pm c). now apply usdOfInt_mono.
  - apply subset_weight.
    + apply NoDup_keys_groupByCoin.
    + now rewrite K.
    + unfold rem0. rewrite Forall_forall in *. intros x Hx. apply in_map_iff in Hx.
      destruct Hx as [kv [<- Hkv]]. simpl. apply usdOfInt_nonneg; [assumption|].
      apply (Ha _ Hkv).
Qed.

(** Without rounding (every number a rational): when every asset type
    that occurs has a price, the first pass
    succeeds, and for every entity the shortfall it reports is
    [max(0, totalLiabilitiesUsd - totalAssetsUsd)]; for an entity whose
    available assets (holdings and what it is owed) cover what it owes in
    every asset type, the shortfall is 0.  Amounts are non-negative, an
    asset type has one decimal exponent, prices are positive. *)
Theorem exact_first_pass_shortfall_is_net_deficit :
  forall (entities : list Entity) (priceMap : JsMap.t Qc),
    NoDup (map id entities) ->
    consistentDecimals entities = true ->
    nonnegAmounts entities = true ->
    positivePrices priceMap = true ->
    allPriced priceMap entities = true ->
    exists st,
      firstPass entities priceMap = Ok st
      /\ forall entity, In entity entities ->
           exists d,
             JsMap.get st (id entity) = Some d
             /\ shortfallUsd d = Qcmax 0 (totalLiabilitiesUsd d - totalAssetsUsd d)
             /\ (coversEveryType entities entity = true -> shortfallUsd d = 0).
Proof.
  intros entities priceMap ND Hc Hnn Hp Hall.
  destruct (proj2 (firstPass_Ok_iff entities priceMap) Hall) as [st Hst].
  exists st. split; [assumption|]. intros entity Hin.
  destruct (firstPass_records _ _ _ ND Hst) as [_ Hrec].
  destruct (Hrec entity Hin) as [d [Hd Hg]]. exists d. split; [assumption|].
  pose proof (entitySolvency_shortfall _ _ _ _ Hc Hnn Hp Hin Hd) as E.
  split; [assumption|]. intros Hcov. rewrite E.
  pose proof (entitySolvency_covered _ _ _ _ Hc Hnn Hp Hin Hd Hcov) as Hle.
  apply Qcmax_eq. revert Hle. qc_unfold. lra.
Qed.

Lemma exact_first_pass_shortfall_is_net_deficit_witness :
  exists st,
    firstPass Examples.swapTest Examples.priceMap = Ok st
    /\ forall entity, In entity Examples.swapTest ->
         exists d,
           JsMap.get st (id entity) = Some d
           /\ shortfallUsd d = Qcmax 0 (totalLiabilitiesUsd d - totalAssetsUsd d)
           /\ (coversEveryType Examples.swapTest entity = true -> shortfallUsd d = 0).
Proof.
  apply (exact_first_pass_shortfall_is_net_deficit Examples.swapTest Examples.priceMap).
  - repeat constructor; simpl; intuition discriminate.
  - vm_compute; reflexivity.
  - vm_compute; reflexivity.
  - vm_compute; reflexivity.
  - vm_compute; reflexivity.
Defined.

(** The run of that test: the swap uses the $2000 that remain, and
    $48300 of the $50800 owed stay uncovered. *)
Lemma swapTest_run :
  exists d,
    JsMap.get (Examples.stateOf (firstPass Examples.swapTest Examples.priceMap)) "entity1"
    = Some d
    /\ swapUsedUsd d = Z2Qc 2000 /\ shortfallUsd d = Z2Qc 48300
    /\ totalAssetsUsd d = Z2Qc 2500 /\ totalLiabilitiesUsd d = Z2Qc 50800.
Proof.
  eexists. split; [vm_compute; reflexivity|].
  repeat split; qc_eval.
Qed.

(** ** The topological order without rounding (claim C8) *)

(** *** Allocations commute *)

Lemma bumpCell_comm x1 u1 x2 u2 o c :
  bumpCell x1 u1 o (bumpCell x2 u2 o c) = bumpCell x2 u2 o (bumpCell x1 u1 o c).
Proof.
  destruct c as [[[x0 u0] o0]|]; cbn [bumpCell]; do 3 f_equal; ring.
Qed.

Lemma allocObs_comm (liab : string -> bool) e1 c1 ct1 x1 u1 e2 c2 ct2 x2 u2 o :
  allocObs e1 c1 ct1 x1 u1 (liab c1) (allocObs e2 c2 ct2 x2 u2 (liab c2) o)
  = allocObs e2 c2 ct2 x2 u2 (liab c2) (allocObs e1 c1 ct1 x1 u1 (liab c1) o).
Proof.
  unfold allocObs. cbn [o_byCoin o_recvTotal o_recv o_causedTotal o_caused].
  f_equal.
  - extensionality e. extensionality c. eqb_cases;
      repeat match goal with |- context [liab ?x] => destruct (liab x) end;
      cbn [andb]; try reflexivity.
    cbn [optOr0]. f_equal. ring.
  - extensionality e. extensionality k. eqb_cases; cbn [andb]; try reflexivity.
    cbn [optOr0]. f_equal. ring.
  - extensionality e. extensionality k. extensionality c.
    eqb_cases; cbn [andb]; try reflexivity. apply bumpCell_comm.
  - extensionality e. extensionality k. eqb_cases; cbn [andb]; try reflexivity.
    cbn [optOr0]. f_equal. ring.
  - extensionality e. extensionality k. extensionality c.
    eqb_cases; cbn [andb]; try reflexivity. apply bumpCell_comm.
Qed.

Lemma fold_left_comm (A B C : Type) (f : A -> B -> A) (g : A -> C -> A) :
  (forall a x y, f (g a y) x = g (f a x) y) ->
  forall l l' a, fold_left f l (fold_left g l' a) = fold_left g l' (fold_left f l a).
Proof.
  intros H.
  assert (H1 : forall l' a x, f (fold_left g l' a) x = fold_left g l' (f a x)).
  { induction l' as [|y l' IH]; intros a x; simpl; [reflexivity|].
    now rewrite IH, H. }
  induction l as [|x l IH]; intros l' a; simpl; [reflexivity|].
  now rewrite H1, IH.
Qed.

Lemma fold_left_Permutation (A B : Type) (f : A -> B -> A) :
  (forall a x y, f (f a x) y = f (f a y) x) ->
  forall l l', Permutation l l' -> forall a, fold_left f l a = fold_left f l' a.
Proof.
  intros H l l' P. induction P as [|x l l' _ IH|x y l|l l' l'' _ IH1 _ IH2]; intros a; simpl.
  - reflexivity.
  - apply IH.
  - now rewrite H.
  - now rewrite IH1.
Qed.

Lemma allocateObs_comm pres liab e1 ct1 s1 su1 T1 kv1 e2 ct2 s2 su2 T2 kv2 o :
  allocateObs pres liab e1 ct1 s1 su1 T1 (allocateObs pres liab e2 ct2 s2 su2 T2 o kv2) kv1
  = allocateObs pres liab e2 ct2 s2 su2 T2 (allocateObs pres liab e1 ct1 s1 su1 T1 o kv1) kv2.
Proof.
  unfold allocateObs. cbv zeta.
  destruct (Qcgtb (getOr0 (snd kv1) ct1) 0 && pres (fst kv1));
    destruct (Qcgtb (getOr0 (snd kv2) ct2) 0 && pres (fst kv2)); try reflexivity.
  apply allocObs_comm.
Qed.

Lemma distributeObs_comm pres liab pm e1 obc1 kv1 e2 obc2 kv2 o :
  distributeObs pres liab e1 obc1 pm (distributeObs pres liab e2 obc2 pm o kv2) kv1
  = distributeObs pres liab e2 obc2 pm (distributeObs pres liab e1 obc1 pm o kv1) kv2.
Proof.
  unfold distributeObs. cbv zeta.
  destruct (Qcgtb (totalObligationsForCoin obc1 (fst kv1)) 0); [|reflexivity].
  destruct (JsMap.get pm (fst kv1)) as [p1|]; [|reflexivity].
  destruct (Qcgtb (totalObligationsForCoin obc2 (fst kv2)) 0); [|reflexivity].
  destruct (JsMap.get pm (fst kv2)) as [p2|]; [|reflexivity].
  apply fold_left_comm. intros a x y. apply allocateObs_comm.
Qed.

Lemma stepObs_comm pres liab pm a ea snapA b eb snapB o :
  stepObs pres liab a ea pm snapA (stepObs pres liab b eb pm snapB o)
  = stepObs pres liab b eb pm snapB (stepObs pres liab a ea pm snapA o).
Proof.
  unfold stepObs. apply fold_left_comm. intros x y z. apply distributeObs_comm.
Qed.

Lemma stepObs_Permutation pres liab pm a ea snap snap' o :
  Permutation snap snap' ->
  stepObs pres liab a ea pm snap o = stepObs pres liab a ea pm snap' o.
Proof.
  intros P. unfold stepObs. apply fold_left_Permutation; [|assumption].
  intros x y z. apply distributeObs_comm.
Qed.

(** *** States with the same records up to order *)

Lemma sameState_refl st : StateInv st -> sameState st st.
Proof. intros H. unfold sameState. auto. Qed.

Lemma sameState_sym st st' : sameState st st' -> sameState st' st.
Proof. intros [H1 [H2 [H3 H4]]]. unfold sameState. auto. Qed.

Lemma sameState_trans st1 st2 st3 :
  sameState st1 st2 -> sameState st2 st3 -> sameState st1 st3.
Proof.
  intros [H1 [H2 [H3 H4]]] [K1 [K2 [K3 K4]]].
  split; [congruence|]. split; [congruence|]. split; assumption.
Qed.

Lemma Permutation_of_get (V : Type) (m m' : JsMap.t V) :
  NoDup (JsMap.keys m) -> NoDup (JsMap.keys m') ->
  (forall k, JsMap.get m k = JsMap.get m' k) -> Permutation m m'.
Proof.
  intros ND ND' H. apply NoDup_Permutation.
  - eapply NoDup_map_inv. exact ND.
  - eapply NoDup_map_inv. exact ND'.
  - intros [k v]. split; intros Hin.
    + apply JsMapFacts.get_Some_in. rewrite <- H. now apply JsMapFacts.in_get_NoDup.
    + apply JsMapFacts.get_Some_in. rewrite H. now apply JsMapFacts.in_get_NoDup.
Qed.

Lemma sameState_get st st' k d :
  sameState st st' -> JsMap.get st k = Some d ->
  exists d', JsMap.get st' k = Some d'
             /\ blank d = blank d'
             /\ Permutation (shortfallsByCoin d) (shortfallsByCoin d')
             /\ sameLookups (shortfallsReceived d) (shortfallsReceived d')
             /\ sameLookups (shortfallsCaused d) (shortfallsCaused d').
Proof.
  intros [Hs [Ho [I I']]] G.
  destruct (JsMap.get st' k) as [d'|] eqn:G'.
  2:{ exfalso. apply (statics_get_Some st st' k Hs); congruence. }
  exists d'. split; [reflexivity|]. split; [eapply statics_fields; eauto|].
  split; [|split].
  - apply Permutation_of_get.
    + apply (I k d G).
    + apply (I' k d' G').
    + intros c. pose proof (f_equal (fun o => o_byCoin o k c) Ho) as E.
      cbn [observe o_byCoin] in E. now rewrite G, G' in E.
  - intros e. split.
    + pose proof (f_equal (fun o => o_recvTotal o k e) Ho) as E.
      cbn [observe o_recvTotal] in E. now rewrite G, G' in E.
    + intros ct. pose proof (f_equal (fun o => o_recv o k e ct) Ho) as E.
      cbn [observe o_recv] in E. unfold receivedCell in E. now rewrite G, G' in E.
  - intros e. split.
    + pose proof (f_equal (fun o => o_causedTotal o k e) Ho) as E.
      cbn [observe o_causedTotal] in E. now rewrite G, G' in E.
    + intros ct. pose proof (f_equal (fun o => o_caused o k e ct) Ho) as E.
      cbn [observe o_caused] in E. unfold causedCell in E. now rewrite G, G' in E.
Qed.

Lemma propagate_identity a st entities pm :
  entities_get entities a = None \/ JsMap.get st a = None ->
  propagateEntityShortfalls a st entities pm = st.
Proof.
  unfold propagateEntityShortfalls. intros [H|H]; rewrite H; [reflexivity|].
  destruct (entities_get entities a); reflexivity.
Qed.

(** Processing an entity maps states with the same records up to order
    to such states. *)
Lemma sameState_step a st st' entities pm :
  sameState st st' ->
  sameState (propagateEntityShortfalls a st entities pm)
            (propagateEntityShortfalls a st' entities pm).
Proof.
  intros S. pose proof S as [Hs [Ho [I I']]].
  split; [now rewrite !statics_propagateEntityShortfalls|].
  split; [|split; now apply StateInv_propagateEntityShortfalls].
  destruct (entities_get entities a) as [ea|] eqn:Ea.
  2:{ rewrite !propagate_identity by auto. assumption. }
  destruct (JsMap.get st a) as [d|] eqn:G.
  2:{ assert (G' : JsMap.get st' a = None) by (eapply statics_get_None; eauto).
      now rewrite !propagate_identity by auto. }
  destruct (sameState_get st st' a d S G) as [d' [G' [_ [P _]]]].
  rewrite (observe_propagateEntityShortfalls a st entities pm ea d Ea G).
  rewrite (observe_propagateEntityShortfalls a st' entities pm ea d' Ea G').
  rewrite (statics_present st st' Hs), (statics_hasLiabilities st st' Hs), Ho.
  now apply stepObs_Permutation.
Qed.

Lemma get_allocateToCreditor_other entityId ct s su T st kv k :
  k <> entityId -> k <> fst kv ->
  JsMap.get (allocateToCreditor entityId ct s su T st kv) k = JsMap.get st k.
Proof.
  intros N1 N2.
  destruct (Qcgtb (getOr0 (snd kv) ct) 0) eqn:C.
  2:{ rewrite allocateToCreditor_skip; [reflexivity|]. now rewrite C. }
  destruct (JsMap.get st (fst kv)) as [cd|] eqn:G.
  2:{ rewrite allocateToCreditor_skip; [reflexivity|].
      rewrite C. simpl. destruct (present st (fst kv)) eqn:Pr; [|reflexivity].
      apply present_true in Pr. congruence. }
  rewrite get_allocateToCreditor by (assumption || congruence).
  destruct (JsMap.get st k) as [d|]; [|reflexivity]. simpl. f_equal.
  unfold allocRecord.
  destruct (String.eqb_spec (fst kv) k) as [E|_]; [congruence|].
  destruct (String.eqb_spec entityId k) as [E|_]; [congruence|]. reflexivity.
Qed.

Lemma get_propagate_other a b st entities pm :
  a <> b -> ~ In a (creditorsOf entities b) ->
  JsMap.get (propagateEntityShortfalls b st entities pm) a = JsMap.get st a.
Proof.
  intros N Hc. unfold creditorsOf in Hc. unfold propagateEntityShortfalls.
  destruct (entities_get entities b) as [eb|]; [|reflexivity].
  destruct (JsMap.get st b) as [db|]; [|reflexivity].
  destruct (Nat.ltb 0 (JsMap.size (shortfallsByCoin db))); [|reflexivity].
  generalize (shortfallsByCoin db) as snap. intros snap. revert st.
  induction snap as [|kv snap IH]; intros st; simpl; [reflexivity|].
  rewrite IH. unfold distributeCoin. cbv zeta.
  destruct (Qcgtb _ 0); [|reflexivity].
  destruct (JsMap.get pm (fst kv)) as [price|]; [|reflexivity].
  generalize (totalObligationsForCoin (obligationsByCreditor eb) (fst kv)) as T. intros T.
  revert Hc. generalize (obligationsByCreditor eb) as obc. intros obc Hc. revert st.
  induction obc as [|c obc IHo]; intros st; simpl; [reflexivity|].
  rewrite IHo by (intros C; apply Hc; right; exact C).
  apply get_allocateToCreditor_other; [assumption|].
  intros E. apply Hc. left. now symmetry.
Qed.

Lemma independent_sym entities a b : independent entities a b -> independent entities b a.
Proof. intros [N [H1 H2]]. repeat split; auto. Qed.

(** Two entities neither of which owes to the other can be processed in
    either order. *)
Lemma swap_independent a b st entities pm :
  StateInv st -> independent entities a b ->
  sameState
    (propagateEntityShortfalls a (propagateEntityShortfalls b st entities pm) entities pm)
    (propagateEntityShortfalls b (propagateEntityShortfalls a st entities pm) entities pm).
Proof.
  intros I [N [Hab Hba]].
  split; [now rewrite !statics_propagateEntityShortfalls|].
  split; [|split; now repeat apply StateInv_propagateEntityShortfalls].
  assert (Sa : statics (propagateEntityShortfalls a st entities pm) = statics st)
    by apply statics_propagateEntityShortfalls.
  assert (Sb : statics (propagateEntityShortfalls b st entities pm) = statics st)
    by apply statics_propagateEntityShortfalls.
  destruct (entities_get entities a) as [ea|] eqn:Ea.
  2:{ now rewrite !(propagate_identity a) by auto. }
  destruct (entities_get entities b) as [eb|] eqn:Eb.
  2:{ now rewrite !(propagate_identity b) by auto. }
  destruct (JsMap.get st a) as [da|] eqn:Ga.
  2:{ assert (Ga' : JsMap.get (propagateEntityShortfalls b st entities pm) a = None)
        by (apply (statics_get_None st); [now symmetry|assumption]).
      now rewrite !(propagate_identity a) by auto. }
  destruct (JsMap.get st b) as [db|] eqn:Gb.
  2:{ assert (Gb' : JsMap.get (propagateEntityShortfalls a st entities pm) b = None)
        by (apply (statics_get_None st); [now symmetry|assumption]).
      now rewrite !(propagate_identity b) by auto. }
  assert (Ga' : JsMap.get (propagateEntityShortfalls b st entities pm) a = Some da).
  { rewrite get_propagate_other; auto. }
  assert (Gb' : JsMap.get (propagateEntityShortfalls a st entities pm) b = Some db).
  { rewrite get_propagate_other; auto. }
  rewrite (observe_propagateEntityShortfalls a _ entities pm ea da Ea Ga').
  rewrite (observe_propagateEntityShortfalls b _ entities pm eb db Eb Gb').
  rewrite (observe_propagateEntityShortfalls a st entities pm ea da Ea Ga).
  rewrite (observe_propagateEntityShortfalls b st entities pm eb db Eb Gb).
  rewrite (statics_present _ _ Sa), (statics_hasLiabilities _ _ Sa).
  rewrite (statics_present _ _ Sb), (statics_hasLiabilities _ _ Sb).
  apply stepObs_comm.
Qed.

(** *** Reordering the processing order *)

Lemma propagateInOrder_app l l' st entities pm :
  propagateInOrder (l ++ l') st entities pm
  = propagateInOrder l' (propagateInOrder l st entities pm) entities pm.
Proof. unfold propagateInOrder. apply fold_left_app. Qed.

Lemma sameState_run l entities pm :
  forall st st', sameState st st' ->
    sameState (propagateInOrder l st entities pm) (propagateInOrder l st' entities pm).
Proof.
  induction l as [|a l IH]; intros st st' S; simpl; [assumption|].
  apply IH. now apply sameState_step.
Qed.

Lemma run_move a p entities pm :
  (forall x, In x p -> independent entities a x) ->
  forall st, StateInv st ->
    sameState
      (propagateInOrder p (propagateEntityShortfalls a st entities pm) entities pm)
      (propagateEntityShortfalls a (propagateInOrder p st entities pm) entities pm).
Proof.
  induction p as [|x p IH]; intros Hind st I; simpl.
  - apply sameState_refl. now apply StateInv_propagateEntityShortfalls.
  - eapply sameState_trans.
    + apply sameState_run. apply (swap_independent x a st entities pm I).
      apply independent_sym. apply Hind. now left.
    + apply IH; [intros y Hy; apply Hind; now right|].
      now apply StateInv_propagateEntityShortfalls.
Qed.

Lemma debtorsFirst_remove entities p a q :
  debtorsFirst entities (p ++ a :: q) -> debtorsFirst entities (p ++ q).
Proof.
  induction p as [|x p IH]; simpl.
  - intros [_ H]. exact H.
  - intros [H1 H2]. split; [|auto].
    intros y Hy. apply H1. apply in_app_iff in Hy. apply in_app_iff.
    destruct Hy as [Hy|Hy]; [now left|right; now right].
Qed.

Lemma debtorsFirst_before entities p a q :
  debtorsFirst entities (p ++ a :: q) ->
  forall x, In x p -> ~ In x (creditorsOf entities a).
Proof.
  induction p as [|y p IH]; simpl; intros H x Hx; [destruct Hx|].
  destruct H as [H1 H2]. destruct Hx as [<-|Hx].
  - apply H1. apply in_app_iff. right. now left.
  - now apply IH.
Qed.

(** Two processing orders of the same entities in which debtors come
    before their creditors lead to the same records up to order. *)
Lemma run_orders entities pm :
  forall l1 l2,
    NoDup l1 -> Permutation l1 l2 ->
    debtorsFirst entities l1 -> debtorsFirst entities l2 ->
    forall st st', sameState st st' ->
      sameState (propagateInOrder l1 st entities pm) (propagateInOrder l2 st' entities pm).
Proof.
  induction l1 as [|a l1 IH]; intros l2 ND P D1 D2 st st' S.
  - apply Permutation_nil in P. subst l2. exact S.
  - assert (Hin : In a l2) by (eapply Permutation_in; [exact P|now left]).
    destruct (in_split a l2 Hin) as [p [q ->]].
    pose proof (Permutation_cons_app_inv _ _ P) as P'.
    inversion ND as [|? ? NI ND']; subst.
    destruct D1 as [D1a D1].
    assert (ND2 : NoDup (p ++ a :: q)) by (eapply Permutation_NoDup; eauto).
    assert (Hind : forall x, In x p -> independent entities a x).
    { intros x Hx.
      assert (Nx : a <> x).
      { intros <-. apply NoDup_remove_2 in ND2. apply ND2, in_app_iff. now left. }
      split; [assumption|]. split.
      - eapply debtorsFirst_before; eauto.
      - apply D1a. apply (Permutation_in x (Permutation_sym P')), in_app_iff. now left. }
    rewrite propagateInOrder_app. simpl.
    change (fold_left (fun st0 entityId => propagateEntityShortfalls entityId st0 entities pm) q
              (propagateEntityShortfalls a (propagateInOrder p st' entities pm) entities pm))
      with (propagateInOrder q
              (propagateEntityShortfalls a (propagateInOrder p st' entities pm) entities pm)
              entities pm).
    change (fold_left (fun st0 entityId => propagateEntityShortfalls entityId st0 entities pm) l1
              (propagateEntityShortfalls a st entities pm))
      with (propagateInOrder l1 (propagateEntityShortfalls a st entities pm) entities pm).
    eapply sameState_trans.
    + apply (IH (p ++ q) ND' P' D1 (debtorsFirst_remove _ _ _ _ D2)
               (propagateEntityShortfalls a st entities pm)
               (propagateEntityShortfalls a st' entities pm)).
      now apply sameState_step.
    + rewrite propagateInOrder_app. apply sameState_run.
      apply run_move; [assumption|]. apply S.
Qed.

(** *** Topological orders put debtors first *)

Lemma keys_addCreditorObligation m ob k :
  In k (JsMap.keys (addCreditorObligation m ob)) -> k = to ob \/ In k (JsMap.keys m).
Proof.
  unfold addCreditorObligation, ensureCreditor, JsMap.has.
  destruct (asset ob); cbv zeta;
    destruct (JsMap.get m (to ob)) eqn:G;
    rewrite ?G, ?JsMapFacts.get_set_eq; intros H;
    repeat (apply JsMapFacts.in_keys_set in H; destruct H as [H|H]; [now left|]);
    now right.
Qed.

Lemma keys_obligationsByCreditor entity k :
  In k (JsMap.keys (obligationsByCreditor entity)) ->
  exists ob, In ob (obligations entity) /\ to ob = k.
Proof.
  unfold obligationsByCreditor.
  assert (G : forall obs m,
             In k (JsMap.keys (fold_left addCreditorObligation obs m)) ->
             In k (JsMap.keys m) \/ exists ob, In ob obs /\ to ob = k).
  { induction obs as [|ob obs IH]; intros m H; simpl in H; [now left|].
    destruct (IH _ H) as [H1|[ob' [H1 H2]]].
    - apply keys_addCreditorObligation in H1. destruct H1 as [->|H1]; [|now left].
      right. exists ob. split; [now left|reflexivity].
    - right. exists ob'. split; [now right|assumption]. }
  intros H. destruct (G _ _ H) as [[]|H']. exact H'.
Qed.

Lemma entities_get_Some entities k e :
  entities_get entities k = Some e -> In e entities /\ id e = k.
Proof.
  unfold entities_get. intros H. apply find_some in H. destruct H as [H1 H2].
  apply String.eqb_eq in H2. now split.
Qed.

Lemma addObligationEdge_mono entity g ob a b :
  hasEdge g a b = true -> hasEdge (addObligationEdge entity g ob) a b = true.
Proof.
  intros H. unfold addObligationEdge.
  destruct (hasNode g (id entity) && hasNode g (to ob)); [|assumption].
  destruct (negb (hasEdge g (id entity) (to ob))); [|assumption].
  apply hasEdge_In. apply hasEdge_In in H. simpl. apply in_app_iff. now left.
Qed.

Lemma addObligationEdge_adds entity g ob :
  In (id entity) (nodes g) -> In (to ob) (nodes g) ->
  hasEdge (addObligationEdge entity g ob) (id entity) (to ob) = true.
Proof.
  intros H1 H2. unfold addObligationEdge.
  apply hasNode_In in H1, H2. rewrite H1, H2. cbn [andb].
  destruct (hasEdge g (id entity) (to ob)) eqn:E; cbn [negb]; [assumption|].
  apply hasEdge_In. simpl. apply in_app_iff. right. now left.
Qed.

Lemma fold_addObligationEdge_mono entity obs g a b :
  hasEdge g a b = true ->
  hasEdge (fold_left (addObligationEdge entity) obs g) a b = true.
Proof.
  revert g. induction obs as [|ob obs IH]; intros g H; simpl; [assumption|].
  apply IH. now apply addObligationEdge_mono.
Qed.

Lemma addObligationEdge_nodes entity g ob :
  nodes (addObligationEdge entity g ob) = nodes g.
Proof.
  unfold addObligationEdge.
  destruct (hasNode g (id entity) && hasNode g (to ob)); [|reflexivity].
  destruct (negb (hasEdge g (id entity) (to ob))); reflexivity.
Qed.

Lemma fold_addObligationEdge_nodes entity obs g :
  nodes (fold_left (addObligationEdge entity) obs g) = nodes g.
Proof.
  revert g. induction obs as [|ob obs IH]; intros g; simpl; [reflexivity|].
  rewrite IH. apply addObligationEdge_nodes.
Qed.

Lemma fold_addObligationEdge_adds entity obs ob g :
  In ob obs -> In (id entity) (nodes g) -> In (to ob) (nodes g) ->
  hasEdge (fold_left (addObligationEdge entity) obs g) (id entity) (to ob) = true.
Proof.
  revert g. induction obs as [|ob' obs IH]; intros g Hin H1 H2; [destruct Hin|].
  simpl. destruct Hin as [->|Hin].
  - apply fold_addObligationEdge_mono. now apply addObligationEdge_adds.
  - apply IH; [assumption| |]; rewrite addObligationEdge_nodes; assumption.
Qed.

(** The graph has an edge for every obligation between two entities of
    the map. *)
Lemma buildGraph_edge entities entity ob :
  In entity entities -> In ob (obligations entity) -> In (to ob) (map id entities) ->
  hasEdge (buildGraph entities) (id entity) (to ob) = true.
Proof.
  intros Hin Hob Hto. unfold buildGraph.
  set (step := fun graph entity0 =>
                 fold_left (addObligationEdge entity0) (obligations entity0) graph).
  assert (Nodes : forall l g, nodes (fold_left step l g) = nodes g).
  { induction l as [|e l IH]; intros g; simpl; [reflexivity|].
    rewrite IH. apply fold_addObligationEdge_nodes. }
  assert (Mono : forall l g a b, hasEdge g a b = true ->
                                 hasEdge (fold_left step l g) a b = true).
  { induction l as [|e l IH]; intros g a b H; simpl; [assumption|].
    apply IH. now apply fold_addObligationEdge_mono. }
  assert (Adds : forall l g, In entity l -> In (id entity) (nodes g) ->
                             In (to ob) (nodes g) ->
                             hasEdge (fold_left step l g) (id entity) (to ob) = true).
  { induction l as [|e l IH]; intros g Hl H1 H2; [destruct Hl|].
    simpl. destruct Hl as [->|Hl].
    - apply Mono. now apply fold_addObligationEdge_adds.
    - apply IH; [assumption| |]; unfold step at 1;
        rewrite fold_addObligationEdge_nodes; assumption. }
  apply Adds; simpl; [assumption| |assumption]. now apply in_map.
Qed.

Lemma forward_debtorsFirst entities l :
  forward (buildGraph entities) l ->
  (forall x, In x l -> In x (map id entities)) ->
  debtorsFirst entities l.
Proof.
  induction l as [|x l IH]; simpl; [trivial|].
  intros [_ [H1 H2]] Hn. split; [|apply IH; auto].
  intros y Hy Hc. unfold creditorsOf in Hc.
  destruct (entities_get entities y) as [ey|] eqn:Ey; [|destruct Hc].
  apply entities_get_Some in Ey. destruct Ey as [Hin <-].
  apply keys_obligationsByCreditor in Hc. destruct Hc as [ob [Hob <-]].
  specialize (H1 _ Hy). rewrite (buildGraph_edge entities ey ob) in H1; auto.
  discriminate.
Qed.

Lemma topologicalOrder_debtorsFirst entities l :
  isTopologicalOrder (buildGraph entities) l ->
  Permutation (map id entities) l /\ debtorsFirst entities l.
Proof.
  intros [P F]. destruct (buildGraph_closed entities) as [_ N]. rewrite N in P.
  split; [assumption|]. apply forward_debtorsFirst; [assumption|].
  intros x Hx. apply (Permutation_in x (Permutation_sym P) Hx).
Qed.

(** *** One entry per counterparty, one detail per coin type *)

Lemma map_updateFirst (A B : Type) (g : A -> B) (p : A -> bool) (f : A -> A) (l : list A) :
  (forall x, g (f x) = g x) -> map g (updateFirst p f l) = map g l.
Proof.
  intros H. induction l as [|x l IH]; simpl; [reflexivity|].
  destruct (p x); simpl; [now rewrite H|now rewrite IH].
Qed.

Lemma Forall_updateFirst (A : Type) (P : A -> Prop) (p : A -> bool) (f : A -> A)
    (l : list A) :
  (forall x, P x -> P (f x)) -> Forall P l -> Forall P (updateFirst p f l).
Proof.
  intros H. induction 1 as [|x l Hx Hl IH]; simpl; [constructor|].
  destruct (p x); constructor; auto.
Qed.

Lemma NoDup_snoc (A : Type) (l : list A) (x : A) :
  NoDup l -> ~ In x l -> NoDup (l ++ [x]).
Proof.
  intros ND NI. apply (Permutation_NoDup (Permutation_cons_append l x)).
  now constructor.
Qed.

Lemma find_None_key (A : Type) (g : A -> string) (k : string) (l : list A) :
  find (fun x => String.eqb (g x) k) l = None -> ~ In k (map g l).
Proof.
  intros H Hin. apply in_map_iff in Hin. destruct Hin as [x [E Hx]].
  pose proof (find_none _ _ H x Hx) as N. simpl in N.
  rewrite E, String.eqb_refl in N. discriminate.
Qed.

Lemma bumpShortfall_details ct x u o s :
  NoDup (map coinType (shortfalls s)) ->
  NoDup (map coinType (shortfalls (bumpShortfall ct x u o s))).
Proof.
  intros ND. unfold bumpShortfall. cbn [shortfalls].
  destruct (find (fun d => String.eqb (coinType d) ct) (shortfalls s)) eqn:F.
  - rewrite map_updateFirst; [assumption|reflexivity].
  - rewrite map_app. simpl. apply NoDup_snoc; [assumption|].
    now apply find_None_key.
Qed.

Lemma recordShortfall_inv key ct x u o l :
  EntriesInv l -> EntriesInv (recordShortfall key ct x u o l).
Proof.
  intros [ND Hd]. unfold recordShortfall.
  destruct (find (fun s => String.eqb (owesTo s) key) l) eqn:F.
  - split.
    + rewrite map_updateFirst; [assumption|reflexivity].
    + apply Forall_updateFirst; [|assumption]. intros s. apply bumpShortfall_details.
  - split.
    + rewrite map_app. simpl. apply NoDup_snoc; [assumption|]. now apply find_None_key.
    + apply Forall_app. split; [assumption|]. constructor; [|constructor].
      simpl. constructor; [intros []|constructor].
Qed.

Lemma ListsInv_allocateToCreditor entityId ct s su T st kv :
  ListsInv st -> ListsInv (allocateToCreditor entityId ct s su T st kv).
Proof.
  intros Hst.
  destruct (Qcgtb (getOr0 (snd kv) ct) 0 && present st (fst kv)) eqn:C.
  2:{ now rewrite allocateToCreditor_skip. }
  apply andb_true_iff in C. destruct C as [Hpos Hpres].
  apply present_true in Hpres.
  intros k d. rewrite get_allocateToCreditor by assumption.
  destruct (JsMap.get st k) as [d0|] eqn:G; [|discriminate].
  intros [= <-]. destruct (Hst _ _ G) as [HR HC].
  rewrite allocRecord_received, allocRecord_caused.
  split.
  - destruct (String.eqb (fst kv) k); [now apply recordShortfall_inv|assumption].
  - destruct (String.eqb entityId k); [now apply recordShortfall_inv|assumption].
Qed.

Lemma ListsInv_propagateEntityShortfalls entityId st entities pm :
  ListsInv st -> ListsInv (propagateEntityShortfalls entityId st entities pm).
Proof.
  intros Hst. unfold propagateEntityShortfalls.
  destruct (entities_get entities entityId) as [entity|]; [|assumption].
  destruct (JsMap.get st entityId) as [data|]; [|assumption].
  destruct (Nat.ltb 0 _); [|assumption].
  generalize (shortfallsByCoin data) as snap. intros snap. revert st Hst.
  induction snap as [|kv snap IH]; intros st Hst; simpl; [assumption|].
  apply IH. unfold distributeCoin. cbv zeta.
  destruct (Qcgtb _ 0); [|assumption].
  destruct (JsMap.get pm (fst kv)) as [price|]; [|assumption].
  generalize (totalObligationsForCoin (obligationsByCreditor entity) (fst kv)) as T.
  intros T. generalize (obligationsByCreditor entity) as obc. intros obc.
  revert st Hst. induction obc as [|c obc IHo]; intros st Hst; simpl; [assumption|].
  apply IHo. now apply ListsInv_allocateToCreditor.
Qed.

Lemma ListsInv_propagateInOrder order st entities pm :
  ListsInv st -> ListsInv (propagateInOrder order st entities pm).
Proof.
  unfold propagateInOrder. revert st.
  induction order as [|a order IH]; intros st Hst; simpl; [assumption|].
  apply IH. now apply ListsInv_propagateEntityShortfalls.
Qed.

Lemma firstPass_ListsInv entities pm st :
  NoDup (map id entities) -> firstPass entities pm = Ok st -> ListsInv st.
Proof.
  intros ND H k d G.
  destruct (firstPass_get _ _ _ _ _ ND H G) as [entity [_ [_ E]]].
  destruct (entitySolvency_record _ _ _ _ E) as [_ [_ [R [C _]]]].
  rewrite R, C. split; split; constructor.
Qed.

(** *** Lists with the same lookups are equal up to order *)

Lemma find_key_In (A : Type) (g : A -> string) (l : list A) (x : A) :
  NoDup (map g l) -> In x l -> find (fun y => String.eqb (g y) (g x)) l = Some x.
Proof.
  induction l as [|y l IH]; intros ND Hin; [destruct Hin|].
  simpl in *. inversion ND as [|? ? NI ND']; subst.
  destruct Hin as [->|Hin]; [now rewrite String.eqb_refl|].
  destruct (String.eqb_spec (g y) (g x)) as [E|_]; [|auto].
  exfalso. apply NI. rewrite E. now apply in_map.
Qed.

Lemma find_key_Some (A : Type) (g : A -> string) (k : string) (l : list A) (x : A) :
  find (fun y => String.eqb (g y) k) l = Some x -> In x l /\ g x = k.
Proof.
  intros H. apply find_some in H. destruct H as [H1 H2].
  apply String.eqb_eq in H2. now split.
Qed.

Lemma details_incl ds ds' :
  NoDup (map coinType ds) ->
  (forall ct,
      option_map (fun d => (amount d, usdValue d, causedBy d))
        (find (fun d => String.eqb (coinType d) ct) ds)
      = option_map (fun d => (amount d, usdValue d, causedBy d))
          (find (fun d => String.eqb (coinType d) ct) ds')) ->
  forall d, In d ds -> In d ds'.
Proof.
  intros ND H d Hd. specialize (H (coinType d)).
  rewrite (find_key_In _ coinType ds d ND Hd) in H. simpl in H.
  destruct (find (fun d0 => String.eqb (coinType d0) (coinType d)) ds') as [d'|] eqn:F;
    [|discriminate].
  apply find_key_Some in F. destruct F as [Hin E].
  assert (d' = d); [|now subst].
  destruct d, d'. simpl in *. congruence.
Qed.

Lemma details_Permutation ds ds' :
  NoDup (map coinType ds) -> NoDup (map coinType ds') ->
  (forall ct,
      option_map (fun d => (amount d, usdValue d, causedBy d))
        (find (fun d => String.eqb (coinType d) ct) ds)
      = option_map (fun d => (amount d, usdValue d, causedBy d))
          (find (fun d => String.eqb (coinType d) ct) ds')) ->
  Permutation ds ds'.
Proof.
  intros ND ND' H. apply NoDup_Permutation.
  - eapply NoDup_map_inv; eauto.
  - eapply NoDup_map_inv; eauto.
  - intros d. split; apply details_incl; auto.
Qed.

(** The entry of [l] that corresponds to an entry of [l']. *)
Lemma sameLookups_entry l l' s' :
  EntriesInv l -> EntriesInv l' -> sameLookups l l' -> In s' l' ->
  exists s, entryOf l (owesTo s') = Some s /\ In s l /\ sameEntry s s'.
Proof.
  intros [ND Hd] [ND' Hd'] H Hin. destruct (H (owesTo s')) as [Ht Hc].
  pose proof (find_key_In _ owesTo l' s' ND' Hin) as E'. fold (entryOf l' (owesTo s')) in E'.
  unfold totalOfEntry in Ht. rewrite E' in Ht.
  destruct (entryOf l (owesTo s')) as [s|] eqn:E; [|discriminate].
  simpl in Ht. injection Ht as Ht.
  pose proof E as E0. unfold entryOf in E0. apply find_key_Some in E0.
  destruct E0 as [Hs Hk].
  exists s. split; [reflexivity|]. split; [assumption|].
  split; [assumption|]. split; [assumption|].
  rewrite Forall_forall in Hd, Hd'.
  apply details_Permutation; [now apply Hd|now apply Hd'|].
  intros ct. specialize (Hc ct). unfold cellOf in Hc. now rewrite E, E' in Hc.
Qed.

Lemma sameLookups_sym l l' : sameLookups l l' -> sameLookups l' l.
Proof. intros H k. destruct (H k) as [E1 E2]. split; [auto|]. intros ct. auto. Qed.

Lemma sameEntries_of_lookups l l' :
  EntriesInv l -> EntriesInv l' -> sameLookups l l' -> sameEntries l l'.
Proof.
  intros I I' H.
  set (pick := fun s' => match entryOf l (owesTo s') with Some s => s | None => s' end).
  assert (P : forall s', In s' l' -> In (pick s') l /\ sameEntry (pick s') s').
  { intros s' Hin. destruct (sameLookups_entry l l' s' I I' H Hin) as [s [E [Hs R]]].
    unfold pick. rewrite E. now split. }
  exists (map pick l'). split.
  - apply NoDup_Permutation.
    + destruct I as [ND _]. eapply NoDup_map_inv; eauto.
    + destruct I' as [ND' _]. apply (NoDup_map_inv owesTo).
      rewrite map_map.
      replace (map (fun x => owesTo (pick x)) l') with (map owesTo l'); [assumption|].
      apply map_ext_in. intros s' Hin. destruct (P s' Hin) as [_ [E _]]. now symmetry.
    + intros x. split; intros Hx.
      * destruct (sameLookups_entry l' l x I' I (sameLookups_sym _ _ H) Hx)
          as [s' [E' [Hs' [Ek _]]]].
        apply in_map_iff. exists s'. split; [|assumption].
        unfold pick. rewrite Ek.
        destruct I as [ND _]. pose proof (find_key_In _ owesTo l x ND Hx) as F.
        fold (entryOf l (owesTo x)) in F. now rewrite F.
      * apply in_map_iff in Hx. destruct Hx as [s' [<- Hin]]. now apply P.
  - clear -P. induction l' as [|s' l' IH]; simpl; constructor.
    + apply P. now left.
    + apply IH. intros x Hx. apply P. now right.
Qed.

Lemma sameEntries_length l l' :
  sameEntries l l' -> List.length l = List.length l'.
Proof.
  intros [l0 [P F]]. rewrite (Permutation_length P). clear P.
  induction F; simpl; congruence.
Qed.

(** *** The results *)

Lemma sameRecord_isInsolvent d d' : sameRecord d d' -> isInsolvent d = isInsolvent d'.
Proof.
  intros [B [P [R _]]]. unfold isInsolvent. cbv zeta.
  assert (E1 : shortfallUsd d = shortfallUsd d') by (apply (f_equal shortfallUsd) in B; exact B).
  assert (E2 : totalLiabilities d = totalLiabilities d')
    by (apply (f_equal totalLiabilities) in B; exact B).
  unfold JsMap.size. rewrite (Permutation_length P), E1, E2, (sameEntries_length _ _ R).
  reflexivity.
Qed.

Lemma sameRecord_entityId d d' : sameRecord d d' -> entityId d = entityId d'.
Proof. intros [B _]. apply (f_equal entityId) in B. exact B. Qed.

Lemma Forall2_values (V : Type) (R : V -> V -> Prop) (m m' : JsMap.t V) :
  JsMap.keys m = JsMap.keys m' ->
  (forall k d d', In (k, d) m -> In (k, d') m' -> R d d') ->
  Forall2 R (JsMap.values m) (JsMap.values m').
Proof.
  unfold JsMap.keys, JsMap.values. revert m'.
  induction m as [|[k d] m IH]; intros [|[k' d'] m'] K H; simpl in *;
    try discriminate; constructor.
  - injection K as -> _. apply (H k'); now left.
  - injection K as _ K. apply IH; [assumption|].
    intros k0 d0 d0' H1 H2. apply (H k0); now right.
Qed.

Lemma sameState_values st st' :
  NoDup (JsMap.keys st) -> ListsInv st -> ListsInv st' -> sameState st st' ->
  Forall2 sameRecord (JsMap.values st) (JsMap.values st').
Proof.
  intros ND L L' S. pose proof S as [Hs _].
  pose proof (statics_keys _ _ Hs) as K.
  apply Forall2_values; [assumption|].
  intros k d d' H1 H2.
  apply JsMapFacts.in_get_NoDup in H1; [|assumption].
  apply JsMapFacts.in_get_NoDup in H2; [|now rewrite <- K].
  destruct (sameState_get st st' k d S H1) as [d'' [G [B [P [R C]]]]].
  assert (d'' = d') by congruence. subst d''.
  destruct (L _ _ H1) as [I1 I2]. destruct (L' _ _ H2) as [I1' I2'].
  split; [assumption|]. split; [assumption|].
  split; now apply sameEntries_of_lookups.
Qed.

Lemma sameState_result st st' :
  NoDup (JsMap.keys st) -> ListsInv st -> ListsInv st' -> sameState st st' ->
  sameUpToOrder (buildResult st) (buildResult st').
Proof.
  intros ND L L' S. pose proof (sameState_values st st' ND L L' S) as F.
  assert (E : map entityId (filter isInsolvent (JsMap.values st))
              = map entityId (filter isInsolvent (JsMap.values st'))).
  { induction F as [|d d' l l' R _ IH]; simpl; [reflexivity|].
    rewrite (sameRecord_isInsolvent d d' R).
    destruct (isInsolvent d'); simpl; [|exact IH].
    now rewrite IH, (sameRecord_entityId d d' R). }
  unfold sameUpToOrder, buildResult. cbn [isSolvent insolventEntities details].
  rewrite E. auto.
Qed.

(** Without rounding (every number a rational): after a successful first
    pass, two processing orders that both put debtors before their
    creditors give the same result up to order, numbers included. *)
Lemma orders_same_result entities pm st order1 order2 :
  NoDup (map id entities) ->
  firstPass entities pm = Ok st ->
  Permutation (map id entities) order1 -> debtorsFirst entities order1 ->
  Permutation (map id entities) order2 -> debtorsFirst entities order2 ->
  sameUpToOrder (buildResult (propagateInOrder order1 st entities pm))
                (buildResult (propagateInOrder order2 st entities pm)).
Proof.
  intros ND E P1 D1 P2 D2.
  pose proof (firstPass_StateInv _ _ _ ND E) as I.
  pose proof (firstPass_ListsInv _ _ _ ND E) as L.
  destruct (firstPass_records _ _ _ ND E) as [K _].
  apply sameState_result.
  - rewrite <- (keys_statics (propagateInOrder order1 st entities pm)),
      statics_propagateInOrder, keys_statics, K. assumption.
  - now apply ListsInv_propagateInOrder.
  - now apply ListsInv_propagateInOrder.
  - apply run_orders; try assumption.
    + eapply Permutation_NoDup; eauto.
    + eapply Permutation_trans; [apply Permutation_sym; exact P1|exact P2].
    + now apply sameState_refl.
Qed.

(** The order computed by [topologicalSort] is a valid topological order
    whenever [hasCycle] is false, so [checkEntitySolvency] is one of the
    runs over a topological order. *)
Lemma NoDup_remove_string (v : string) (l : list string) :
  NoDup l -> NoDup (remove string_dec v l).
Proof.
  induction 1 as [|x l NI ND IH]; simpl; [constructor|].
  destruct (string_dec v x); [assumption|].
  constructor; [|assumption]. intros Hin. apply in_remove in Hin. tauto.
Qed.

Lemma Permutation_remove_string (v : string) (l : list string) :
  NoDup l -> In v l -> Permutation l (v :: remove string_dec v l).
Proof.
  induction 1 as [|x l NI ND IH]; intros Hin; [destruct Hin|].
  simpl. destruct (string_dec v x) as [<-|N].
  - rewrite notin_remove by assumption. apply Permutation_refl.
  - destruct Hin as [E|Hin]; [congruence|].
    eapply Permutation_trans; [apply perm_skip, (IH Hin)|apply perm_swap].
Qed.

Lemma peel_order g :
  forall fuel remaining order,
    NoDup remaining -> peel g fuel remaining = Some order ->
    Permutation remaining order /\ forward g order.
Proof.
  induction fuel as [|fuel IH]; intros remaining order ND H.
  - destruct remaining; [|discriminate]. injection H as <-. now split.
  - destruct remaining as [|x rem']; [injection H as <-; now split|].
    cbn [peel] in H. set (remaining := x :: rem') in *.
    destruct (find (noIncoming g remaining) remaining) as [v|] eqn:F; [|discriminate].
    apply find_some in F. destruct F as [Hv Hno].
    destruct (peel g fuel (remove string_dec v remaining)) as [rest|] eqn:P;
      [|discriminate].
    injection H as <-.
    destruct (IH _ _ (NoDup_remove_string v remaining ND) P) as [Pm Fw].
    unfold noIncoming in Hno. rewrite forallb_forall in Hno.
    split.
    + apply Permutation_trans with (v :: remove string_dec v remaining);
        [now apply Permutation_remove_string|now apply perm_skip].
    + cbn [forward]. split; [|split; [|assumption]].
      * specialize (Hno v Hv). now destruct (hasEdge g v v).
      * intros y Hy. apply (Permutation_in y (Permutation_sym Pm)) in Hy.
        apply in_remove in Hy. destruct Hy as [Hy _].
        specialize (Hno y Hy). now destruct (hasEdge g y v).
Qed.

Lemma topologicalSort_valid entities :
  NoDup (map id entities) -> hasCycle (buildGraph entities) = false ->
  isTopologicalOrder (buildGraph entities) (topologicalSort (buildGraph entities)).
Proof.
  intros ND H. unfold hasCycle in H. unfold topologicalSort.
  destruct (topologicalOrder (buildGraph entities)) as [order|] eqn:E; [|discriminate].
  unfold topologicalOrder in E. apply peel_order in E; [exact E|].
  destruct (buildGraph_closed entities) as [_ N]. now rewrite N.
Qed.

Lemma checkEntitySolvency_any_order entities pm r order :
  NoDup (map id entities) ->
  checkEntitySolvency entities pm = Ok r ->
  isTopologicalOrder (buildGraph entities) order ->
  exists r', checkEntitySolvencyInOrder order entities pm = Ok r' /\ sameUpToOrder r r'.
Proof.
  intros ND H T. unfold checkEntitySolvency in H. unfold checkEntitySolvencyInOrder.
  destruct (firstPass entities pm) as [st|] eqn:E; cbn [bind] in *; [|discriminate].
  unfold propagateShortfalls in H. cbv zeta in H.
  destruct (hasCycle (buildGraph entities)) eqn:C; cbn [bind] in H; [discriminate|].
  injection H as <-. eexists. split; [reflexivity|].
  destruct (topologicalOrder_debtorsFirst _ _ (topologicalSort_valid entities ND C))
    as [P1 D1].
  destruct (topologicalOrder_debtorsFirst _ _ T) as [P2 D2].
  now apply orders_same_result.
Qed.




(** ** Native floating point in the second pass (claim C6) *)

Section Binary64Facts.
Import PrimFloat.

(** C6.  The second pass computes on JavaScript numbers, not on decimals.
    For the debtor that holds 7 USDC and owes 1 USDC and 9 USDC, the share
    of the first creditor is 3/10 in exact (decimal) arithmetic, which is
    what the run gives on the exact model; the source computes it as
    [3 * (1 / 10)] in binary64, which is 0.30000000000000004
    (0x1.3333333333334p-2) and not the double nearest to 3/10
    (0x1.3333333333333p-2). *)
Theorem binary64_share_differs_from_decimal :
  (exists r : SolvencyResult,
      checkEntitySolvency Examples.tenths Examples.priceMap = Ok r
      /\ reportedReceived r "c1" "debtor" "USDC" = Q2Qc (3 # 10))
  /\ Binary64.creditorShortfall 3%float 1%float 10%float = 0x1.3333333333334p-2%float
  /\ PrimFloat.eqb (Binary64.creditorShortfall 3%float 1%float 10%float)
       0x1.3333333333333p-2%float = false.
Proof.
  split; [|split; vm_compute; reflexivity].
  eexists. split; [vm_compute; reflexivity|]. qc_eval.
Qed.

End Binary64Facts.

(** * Further properties of the solvency check *)

(** ** The run behind a result *)

Lemma detailsOf_buildResult st k :
  keyed st -> detailsOf (buildResult st) k = JsMap.get st k.
Proof.
  unfold detailsOf, buildResult, JsMap.values. cbn [details].
  induction st as [|[k' d'] st IH]; intros K; simpl; [reflexivity|].
  rewrite (K k' d' (or_introl eq_refl)).
  destruct (String.eqb k' k); [reflexivity|].
  apply IH. intros k0 d0 H0. apply K. now right.
Qed.

(** A result of [checkEntitySolvency] is built from the state that the
    second pass leaves when it processes the first-pass records in the
    order of [topologicalSort], which is a valid topological order. *)
Lemma checkEntitySolvency_run entities pm r :
  NoDup (map id entities) ->
  checkEntitySolvency entities pm = Ok r ->
  exists st0,
    firstPass entities pm = Ok st0
    /\ isTopologicalOrder (buildGraph entities) (topologicalSort (buildGraph entities))
    /\ r = buildResult
             (propagateInOrder (topologicalSort (buildGraph entities)) st0 entities pm)
    /\ keyed (propagateInOrder (topologicalSort (buildGraph entities)) st0 entities pm).
Proof.
  intros ND H. unfold checkEntitySolvency in H.
  destruct (firstPass entities pm) as [st0|] eqn:E; cbn [bind] in H; [|discriminate].
  unfold propagateShortfalls in H. cbv zeta in H.
  destruct (hasCycle (buildGraph entities)) eqn:C; cbn [bind] in H; [discriminate|].
  injection H as <-. exists st0. split; [reflexivity|].
  split; [now apply topologicalSort_valid|]. split; [reflexivity|].
  unfold keyed. apply (keyed_by_entityId_statics st0).
  - symmetry. apply statics_propagateInOrder.
  - now apply (firstPass_keyed entities pm).
Qed.

Lemma blank_entityId d : entityId (blank d) = entityId d.
Proof. reflexivity. Qed.

Lemma statics_values st st' :
  statics st = statics st' -> map blank (JsMap.values st) = map blank (JsMap.values st').
Proof.
  intros H. apply (f_equal (map snd)) in H. unfold statics, JsMap.values in *.
  rewrite !map_map in *. exact H.
Qed.

(** X1.  A result lists one record per entity, in the order of the
    entity map, and the second pass leaves every first-pass field of a
    record as the first pass computed it: only [shortfallsByCoin],
    [shortfallsReceived] and [shortfallsCaused] can differ. *)
Theorem result_details_follow_entities :
  forall (entities : list Entity) (priceMap : JsMap.t Qc) (r : SolvencyResult),
    NoDup (map id entities) ->
    checkEntitySolvency entities priceMap = Ok r ->
    map entityId (details r) = map id entities
    /\ exists st0,
         firstPass entities priceMap = Ok st0
         /\ map blank (details r) = map blank (JsMap.values st0).
Proof.
  intros entities priceMap r ND H.
  destruct (checkEntitySolvency_run _ _ _ ND H) as [st0 [E [_ [-> K]]]].
  pose proof (statics_propagateInOrder (topologicalSort (buildGraph entities)) st0
                entities priceMap) as S.
  cbn [buildResult details]. split.
  - destruct (firstPass_records _ _ _ ND E) as [Keys _].
    rewrite <- Keys, <- (statics_keys _ _ S).
    unfold JsMap.values, JsMap.keys. rewrite map_map.
    apply map_ext_in. intros [k d] Hin. simpl. now apply K.
  - exists st0. split; [exact E|]. now apply statics_values.
Qed.

Lemma result_details_follow_entities_witness :
  map entityId
    (details (Examples.resultOf (checkEntitySolvency Examples.chain Examples.priceMap)))
  = ["position"; "pool"; "strategy"; "vault"].
Proof.
  assert (ND : NoDup (map id Examples.chain)).
  { repeat constructor; simpl; intuition discriminate. }
  assert (H : checkEntitySolvency Examples.chain Examples.priceMap
              = Ok (Examples.resultOf
                      (checkEntitySolvency Examples.chain Examples.priceMap))).
  { vm_compute. reflexivity. }
  exact (proj1 (result_details_follow_entities _ _ _ ND H)).
Defined.

(** ** Received and caused shortfalls mirror each other *)

Lemma mirrored_allocObs e c ct x u liab o :
  mirrored o -> mirrored (allocObs e c ct x u liab o).
Proof.
  intros [H1 H2]. split.
  - intros c' e' ct'. cbn [allocObs o_recv o_caused]. rewrite H1.
    destruct (String.eqb c' c), (String.eqb e' e), (String.eqb ct' ct); reflexivity.
  - intros c' e'. cbn [allocObs o_recvTotal o_causedTotal]. rewrite H2.
    destruct (String.eqb c' c), (String.eqb e' e); reflexivity.
Qed.

Lemma mirrored_stepObs pres liab a entity pm snap o :
  mirrored o -> mirrored (stepObs pres liab a entity pm snap o).
Proof.
  unfold stepObs. revert o. induction snap as [|kv snap IH]; intros o H; simpl;
    [assumption|].
  apply IH. unfold distributeObs. cbv zeta.
  destruct (Qcgtb _ 0); [|assumption].
  destruct (JsMap.get pm (fst kv)); [|assumption].
  generalize (totalObligationsForCoin (obligationsByCreditor entity) (fst kv)) as T.
  intros T. generalize (obligationsByCreditor entity) as obc. intros obc. revert o H.
  induction obc as [|c obc IHo]; intros o H; simpl; [assumption|].
  apply IHo. unfold allocateObs. cbv zeta.
  destruct (_ && _); [|assumption]. now apply mirrored_allocObs.
Qed.

Lemma mirrored_step a st entities pm :
  mirrored (observe st) ->
  mirrored (observe (propagateEntityShortfalls a st entities pm)).
Proof.
  intros H.
  destruct (entities_get entities a) as [ea|] eqn:Ea.
  2:{ now rewrite propagate_identity by auto. }
  destruct (JsMap.get st a) as [d|] eqn:G.
  2:{ now rewrite propagate_identity by auto. }
  rewrite (observe_propagateEntityShortfalls a st entities pm ea d Ea G).
  now apply mirrored_stepObs.
Qed.

Lemma mirrored_run order st entities pm :
  mirrored (observe st) -> mirrored (observe (propagateInOrder order st entities pm)).
Proof.
  unfold propagateInOrder. revert st.
  induction order as [|a order IH]; intros st H; simpl; [assumption|].
  apply IH. now apply mirrored_step.
Qed.

Lemma firstPass_lists_empty entities pm st k d :
  NoDup (map id entities) -> firstPass entities pm = Ok st ->
  JsMap.get st k = Some d ->
  shortfallsReceived d = [] /\ shortfallsCaused d = [].
Proof.
  intros ND H G.
  destruct (firstPass_get _ _ _ _ _ ND H G) as [entity [_ [_ E]]].
  destruct (entitySolvency_record _ _ _ _ E) as [_ [_ [R [C _]]]]. now split.
Qed.

Lemma firstPass_mirrored entities pm st :
  NoDup (map id entities) -> firstPass entities pm = Ok st -> mirrored (observe st).
Proof.
  intros ND H. split.
  - intros c e ct. cbn [observe o_recv o_caused]. unfold receivedCell, causedCell.
    destruct (JsMap.get st c) as [dc|] eqn:Gc;
      [destruct (firstPass_lists_empty _ _ _ _ _ ND H Gc) as [-> _]|];
      (destruct (JsMap.get st e) as [de|] eqn:Ge;
       [destruct (firstPass_lists_empty _ _ _ _ _ ND H Ge) as [_ ->]|]); reflexivity.
  - intros c e. cbn [observe o_recvTotal o_causedTotal].
    destruct (JsMap.get st c) as [dc|] eqn:Gc;
      [destruct (firstPass_lists_empty _ _ _ _ _ ND H Gc) as [-> _]|];
      (destruct (JsMap.get st e) as [de|] eqn:Ge;
       [destruct (firstPass_lists_empty _ _ _ _ _ ND H Ge) as [_ ->]|]); reflexivity.
Qed.

(** X2.  In a result, what a debtor is recorded to have caused to a
    creditor is exactly what the creditor is recorded to have received from
    that debtor: the same amount, USD value and origin per coin type, and
    the same total; in particular nothing is caused to a creditor that has
    no record. *)
Theorem received_mirrors_caused :
  forall (entities : list Entity) (priceMap : JsMap.t Qc) (r : SolvencyResult),
    NoDup (map id entities) ->
    checkEntitySolvency entities priceMap = Ok r ->
    forall creditor debtor : string,
      receivedTotalIn r creditor debtor = causedTotalIn r debtor creditor
      /\ forall ct, receivedIn r creditor debtor ct = causedIn r debtor creditor ct.
Proof.
  intros entities priceMap r ND H creditor debtor.
  destruct (checkEntitySolvency_run _ _ _ ND H) as [st0 [E [_ [-> K]]]].
  pose proof (mirrored_run (topologicalSort (buildGraph entities)) st0 entities priceMap
                (firstPass_mirrored _ _ _ ND E)) as [M1 M2].
  unfold receivedTotalIn, causedTotalIn, receivedIn, causedIn.
  rewrite !(detailsOf_buildResult _ _ K). split.
  - apply (M2 creditor debtor).
  - intros ct. apply (M1 creditor debtor ct).
Qed.

Lemma received_mirrors_caused_witness :
  receivedIn (Examples.resultOf (checkEntitySolvency Examples.chain Examples.priceMap))
    "pool" "position" "USDC"
  = causedIn (Examples.resultOf (checkEntitySolvency Examples.chain Examples.priceMap))
      "position" "pool" "USDC".
Proof.
  assert (ND : NoDup (map id Examples.chain)).
  { repeat constructor; simpl; intuition discriminate. }
  assert (H : checkEntitySolvency Examples.chain Examples.priceMap
              = Ok (Examples.resultOf
                      (checkEntitySolvency Examples.chain Examples.priceMap))).
  { vm_compute. reflexivity. }
  exact (proj2 (received_mirrors_caused _ _ _ ND H "pool" "position") "USDC").
Defined.

(** ** The entries of the received and caused lists *)

Lemma sum_usd_updateFirst ct x u ds :
  find (fun d => String.eqb (coinType d) ct) ds <> None ->
  sumQc (map usdValue
           (updateFirst (fun d => String.eqb (coinType d) ct) (bumpDetail x u) ds))
  = sumQc (map usdValue ds) + u.
Proof.
  induction ds as [|d ds IH]; simpl; [congruence|].
  destruct (String.eqb (coinType d) ct); simpl; intros H.
  - ring.
  - rewrite IH by assumption. ring.
Qed.

Lemma bumpShortfall_ok origin ct x u o s :
  0 < x -> origin s = o -> origin (bumpShortfall ct x u o s) = origin s ->
  EntryOk origin s -> EntryOk origin (bumpShortfall ct x u o s).
Proof.
  intros Hx Ho Hb [NE [T D]]. unfold EntryOk. rewrite Hb.
  unfold bumpShortfall. cbn [shortfalls totalUsdValue].
  destruct (find (fun d => String.eqb (coinType d) ct) (shortfalls s)) eqn:F.
  - split; [|split].
    + destruct (shortfalls s) as [|d0 ds]; [congruence|]. simpl.
      destruct (String.eqb (coinType d0) ct); discriminate.
    + rewrite sum_usd_updateFirst by congruence. now rewrite T.
    + apply Forall_updateFirst; [|assumption].
      intros d [Hd1 Hd2]. split; [|assumption]. simpl.
      apply Qcplus_nonneg_pos; [now apply Qclt_le_weak|assumption].
  - split; [|split].
    + destruct (shortfalls s); discriminate.
    + rewrite map_app, sumQc_app, T. simpl. ring.
    + apply Forall_app. split; [assumption|]. constructor; [|constructor].
      simpl. now split.
Qed.

Lemma recordShortfall_ok origin key ct x u o l :
  0 < x ->
  (forall s, owesTo s = key -> origin s = o) ->
  (forall s, origin (bumpShortfall ct x u o s) = origin s) ->
  Forall (EntryOk origin) l ->
  Forall (EntryOk origin) (recordShortfall key ct x u o l).
Proof.
  intros Hx Ho Hb Hl. unfold recordShortfall.
  destruct (find (fun s => String.eqb (owesTo s) key) l) eqn:F.
  - clear F. induction Hl as [|s l Hs Hl IH]; simpl; [constructor|].
    destruct (String.eqb_spec (owesTo s) key) as [E|N]; constructor; auto.
    apply bumpShortfall_ok; auto.
  - apply Forall_app. split; [assumption|]. constructor; [|constructor].
    split; [discriminate|]. split; [simpl; ring|].
    constructor; [|constructor]. simpl. split; [assumption|].
    symmetry. now apply Ho.
Qed.

Lemma ListsOk_allocateToCreditor entityId ct s su T st kv :
  0 < s -> 0 < T -> ListsOk st ->
  ListsOk (allocateToCreditor entityId ct s su T st kv).
Proof.
  intros Hs HT Hst.
  destruct (Qcgtb (getOr0 (snd kv) ct) 0 && present st (fst kv)) eqn:C.
  2:{ now rewrite allocateToCreditor_skip. }
  apply andb_true_iff in C. destruct C as [Hpos Hpres].
  apply present_true in Hpres.
  assert (Hx : 0 < s * (getOr0 (snd kv) ct / T)).
  { apply Qcmult_pos; [assumption|]. apply Qcdiv_pos; [|assumption].
    now apply Qcgtb_true. }
  intros k d. rewrite get_allocateToCreditor by assumption.
  destruct (JsMap.get st k) as [d0|] eqn:G; [|discriminate].
  intros [= <-]. destruct (Hst _ _ G) as [HR HC].
  rewrite allocRecord_received, allocRecord_caused. split.
  - destruct (String.eqb (fst kv) k); [|assumption].
    apply recordShortfall_ok; auto.
  - destruct (String.eqb_spec entityId k) as [->|N]; [|assumption].
    apply recordShortfall_ok; auto.
Qed.

Lemma ListsOk_propagateEntityShortfalls entityId st entities pm :
  StateInv st -> ListsOk st ->
  ListsOk (propagateEntityShortfalls entityId st entities pm).
Proof.
  intros Hinv Hst. unfold propagateEntityShortfalls.
  destruct (entities_get entities entityId) as [entity|]; [|assumption].
  destruct (JsMap.get st entityId) as [data|] eqn:G; [|assumption].
  destruct (Nat.ltb 0 _); [|assumption].
  destruct (Hinv _ _ G) as [Hpos _]. clear G Hinv.
  revert st Hst. induction Hpos as [|kv snap Hkv Hsnap IH]; intros st Hst; simpl;
    [assumption|].
  apply IH. unfold distributeCoin. cbv zeta.
  destruct (Qcgtb _ 0) eqn:GT; [|assumption]. apply Qcgtb_true in GT.
  destruct (JsMap.get pm (fst kv)) as [price|]; [|assumption].
  revert GT. generalize (totalObligationsForCoin (obligationsByCreditor entity) (fst kv)) as T.
  intros T HT. generalize (obligationsByCreditor entity) as obc. intros obc.
  revert st Hst. induction obc as [|c obc IHo]; intros st Hst; simpl; [assumption|].
  apply IHo. now apply ListsOk_allocateToCreditor.
Qed.

Lemma ListsOk_propagateInOrder order st entities pm :
  StateInv st -> ListsOk st -> ListsOk (propagateInOrder order st entities pm).
Proof.
  unfold propagateInOrder. revert st.
  induction order as [|a order IH]; intros st Hinv Hst; simpl; [assumption|].
  apply IH; [now apply StateInv_propagateEntityShortfalls|].
  now apply ListsOk_propagateEntityShortfalls.
Qed.

Lemma firstPass_ListsOk entities pm st :
  NoDup (map id entities) -> firstPass entities pm = Ok st -> ListsOk st.
Proof.
  intros ND H k d G.
  destruct (firstPass_lists_empty _ _ _ _ _ ND H G) as [-> ->]. split; constructor.
Qed.

Lemma in_details_get st d :
  keyed st -> NoDup (JsMap.keys st) -> In d (details (buildResult st)) ->
  JsMap.get st (entityId d) = Some d.
Proof.
  intros K ND Hin. cbn [buildResult details] in Hin. unfold JsMap.values in Hin.
  apply in_map_iff in Hin. destruct Hin as [[k d0] [E Hin]]. simpl in E. subst d0.
  rewrite (K _ _ Hin). now apply JsMapFacts.in_get_NoDup.
Qed.

Lemma run_keys order st0 entities pm :
  JsMap.keys (propagateInOrder order st0 entities pm) = JsMap.keys st0.
Proof. apply statics_keys, statics_propagateInOrder. Qed.


(** X4.  Attribution: in the received list of a record every detail of
    the entry of a debtor names that debtor in [causedBy], and in the
    caused list every detail names the entity of the record itself. *)
Theorem shortfall_details_name_the_debtor :
  forall (entities : list Entity) (priceMap : JsMap.t Qc) (r : SolvencyResult),
    NoDup (map id entities) ->
    checkEntitySolvency entities priceMap = Ok r ->
    forall d, In d (details r) ->
      (forall s det, In s (shortfallsReceived d) -> In det (shortfalls s) ->
                     causedBy det = owesTo s)
      /\ (forall s det, In s (shortfallsCaused d) -> In det (shortfalls s) ->
                        causedBy det = entityId d).
Proof.
  intros entities priceMap r ND H d Hin.
  destruct (checkEntitySolvency_run _ _ _ ND H) as [st0 [E [_ [-> K]]]].
  destruct (firstPass_records _ _ _ ND E) as [Keys _].
  apply in_details_get in Hin; [|assumption|now rewrite run_keys, Keys].
  destruct (ListsOk_propagateInOrder _ _ entities priceMap (firstPass_StateInv _ _ _ ND E)
              (firstPass_ListsOk _ _ _ ND E) _ _ Hin) as [O1 O2].
  rewrite Forall_forall in O1, O2. split; intros s det Hs Hdet.
  - destruct (O1 s Hs) as [_ [_ F]]. rewrite Forall_forall in F. now apply F.
  - destruct (O2 s Hs) as [_ [_ F]]. rewrite Forall_forall in F. now apply F.
Qed.

Lemma chain_NoDup : NoDup (map id Examples.chain).
Proof. repeat constructor; simpl; intuition discriminate. Qed.

Lemma chain_Ok :
  checkEntitySolvency Examples.chain Examples.priceMap
  = Ok (Examples.resultOf (checkEntitySolvency Examples.chain Examples.priceMap)).
Proof. vm_compute. reflexivity. Qed.


Lemma shortfall_details_name_the_debtor_witness :
  Forall (fun d => forall s det, In s (shortfallsCaused d) -> In det (shortfalls s) ->
                                 causedBy det = entityId d)
    (details (Examples.resultOf (checkEntitySolvency Examples.chain Examples.priceMap))).
Proof.
  apply Forall_forall. intros d Hd.
  exact (proj2 (shortfall_details_name_the_debtor _ _ _ chain_NoDup chain_Ok d Hd)).
Defined.

(** ** The final shortfall is not negative *)

Lemma Qcmax_nonneg x : 0 <= Qcmax x 0.
Proof.
  unfold Qcmax. destruct (Qcleb x 0) eqn:E; [apply Qcle_refl|].
  destruct (Qcle_total x 0) as [H|H]; [|assumption].
  apply Qcleb_true in H. congruence.
Qed.

(** ** A system without shortfall *)

Lemma entitySolvency_no_shortfall entities pm entity d :
  entitySolvency entities pm entity = Ok d ->
  0 <= shortfallUsd d /\ (shortfallUsd d = 0 -> shortfallsByCoin d = []).
Proof.
  intros H. unfold entitySolvency in H.
  destruct (flattenObligations pm (obligations entity)) as [lines|e];
    simpl in H; [|discriminate].
  destruct (sumAssetsUsd pm (aggregateAssets entities entity)) as [A|e];
    simpl in H; [|discriminate].
  destruct (directNetting pm (aggregateAssets entities entity) lines) as [net|e];
    simpl in H; [|discriminate].
  destruct (swapCoverage pm (aggregateAssets entities entity) net) as [sw|e];
    simpl in H; [|discriminate].
  injection H as <-. cbn [shortfallsByCoin shortfallUsd].
  split; [apply Qcmax_nonneg|]. intros E0. rewrite E0. unfold shortfallsByCoinMap.
  assert (G0 : Qcgtb 0 0 = false) by (apply Qcgtb_false, Qcle_refl).
  now rewrite G0.
Qed.

Lemma propagate_quiet order st entities pm :
  (forall k d, JsMap.get st k = Some d -> shortfallsByCoin d = []) ->
  propagateInOrder order st entities pm = st.
Proof.
  intros H. unfold propagateInOrder. induction order as [|a order IH]; simpl;
    [reflexivity|].
  assert (E : propagateEntityShortfalls a st entities pm = st).
  { unfold propagateEntityShortfalls.
    destruct (entities_get entities a); [|reflexivity].
    destruct (JsMap.get st a) as [d|] eqn:G; [|reflexivity].
    now rewrite (H _ _ G). }
  rewrite E. exact IH.
Qed.



Lemma run_shortfallUsd order st0 entities pm k d :
  JsMap.get (propagateInOrder order st0 entities pm) k = Some d ->
  exists d0, JsMap.get st0 k = Some d0 /\ shortfallUsd d = shortfallUsd d0.
Proof.
  intros G.
  pose proof (statics_propagateInOrder order st0 entities pm) as S.
  destruct (JsMap.get st0 k) as [d0|] eqn:G0.
  - exists d0. split; [reflexivity|].
    pose proof (statics_fields _ _ k d d0 S G G0) as B.
    apply (f_equal shortfallUsd) in B. exact B.
  - exfalso. pose proof (statics_get_None _ _ k (eq_sym S) G0). congruence.
Qed.



(** ** The listings of main.ts *)

Lemma allocateToCreditor_caused entityId ct s su T st kv :
  (forall k d, JsMap.get st k = Some d ->
     (k = entityId -> shortfallsByCoin d <> [])
     /\ (shortfallsCaused d <> [] -> shortfallsByCoin d <> [])) ->
  forall k d, JsMap.get (allocateToCreditor entityId ct s su T st kv) k = Some d ->
    (k = entityId -> shortfallsByCoin d <> [])
    /\ (shortfallsCaused d <> [] -> shortfallsByCoin d <> []).
Proof.
  intros Hst.
  destruct (Qcgtb (getOr0 (snd kv) ct) 0 && present st (fst kv)) eqn:C.
  2:{ now rewrite allocateToCreditor_skip. }
  apply andb_true_iff in C. destruct C as [Hpos Hpres].
  apply present_true in Hpres.
  intros k d. rewrite get_allocateToCreditor by assumption.
  destruct (JsMap.get st k) as [d0|] eqn:G; [|discriminate].
  intros [= <-]. destruct (Hst _ _ G) as [H1 H2].
  assert (Hb : shortfallsByCoin d0 <> [] ->
               shortfallsByCoin (allocRecord entityId (fst kv) ct
                                   (s * (getOr0 (snd kv) ct / T))
                                   (su * (getOr0 (snd kv) ct / T)) k d0) <> []).
  { intros Hne. rewrite allocRecord_byCoin.
    destruct (_ && _); [apply set_nonempty|assumption]. }
  split; [auto|].
  rewrite allocRecord_caused.
  destruct (String.eqb_spec entityId k) as [->|N]; [auto|]. auto.
Qed.

Lemma CausedInv_propagateEntityShortfalls entityId st entities pm :
  CausedInv st -> CausedInv (propagateEntityShortfalls entityId st entities pm).
Proof.
  intros Hst. unfold propagateEntityShortfalls.
  destruct (entities_get entities entityId) as [entity|]; [|assumption].
  destruct (JsMap.get st entityId) as [data|] eqn:G; [|assumption].
  destruct (Nat.ltb 0 (JsMap.size (shortfallsByCoin data))) eqn:Sz; [|assumption].
  assert (Hne : shortfallsByCoin data <> []).
  { destruct (shortfallsByCoin data); [discriminate|discriminate]. }
  assert (Q : forall k d, JsMap.get st k = Some d ->
                (k = entityId -> shortfallsByCoin d <> [])
                /\ (shortfallsCaused d <> [] -> shortfallsByCoin d <> [])).
  { intros k d Gk. split; [|now apply (Hst k)]. intros ->.
    assert (d = data) by congruence. now subst. }
  clear G Hne Sz Hst.
  assert (R : forall k d,
             JsMap.get (fold_left (distributeCoin entityId (obligationsByCreditor entity) pm)
                          (shortfallsByCoin data) st) k = Some d ->
             (k = entityId -> shortfallsByCoin d <> [])
             /\ (shortfallsCaused d <> [] -> shortfallsByCoin d <> [])).
  { generalize (shortfallsByCoin data) as snap. intros snap. revert st Q.
    induction snap as [|kv snap IH]; intros st Q; simpl; [assumption|].
    apply IH. unfold distributeCoin. cbv zeta.
    destruct (Qcgtb _ 0); [|assumption].
    destruct (JsMap.get pm (fst kv)) as [price|]; [|assumption].
    generalize (totalObligationsForCoin (obligationsByCreditor entity) (fst kv)) as T.
    intros T. generalize (obligationsByCreditor entity) as obc. intros obc.
    clear IH. revert st Q. induction obc as [|c obc IHo]; intros st Q; simpl; [assumption|].
    apply IHo. now apply allocateToCreditor_caused. }
  intros k d Gk. now apply (R k d Gk).
Qed.

Lemma CausedInv_propagateInOrder order st entities pm :
  CausedInv st -> CausedInv (propagateInOrder order st entities pm).
Proof.
  unfold propagateInOrder. revert st.
  induction order as [|a order IH]; intros st Hst; simpl; [assumption|].
  apply IH. now apply CausedInv_propagateEntityShortfalls.
Qed.

Lemma caused_implies_insolvent entities pm r d :
  NoDup (map id entities) ->
  checkEntitySolvency entities pm = Ok r ->
  In d (details r) -> shortfallsCaused d <> [] ->
  In (entityId d) (insolventEntities r).
Proof.
  intros ND H Hd Hc.
  destruct (checkEntitySolvency_run _ _ _ ND H) as [st0 [E [_ [-> K]]]].
  destruct (firstPass_records _ _ _ ND E) as [Keys _].
  set (st := propagateInOrder (topologicalSort (buildGraph entities)) st0 entities pm) in *.
  assert (NDk : NoDup (JsMap.keys st)) by (unfold st; now rewrite run_keys, Keys).
  apply in_details_get in Hd; [|assumption|assumption].
  apply (in_insolventEntities st (entityId d) d NDk K Hd).
  assert (CI : CausedInv st).
  { apply CausedInv_propagateInOrder. intros k d0 G0 Hne.
    destruct (firstPass_lists_empty _ _ _ _ _ ND E G0) as [_ C]. congruence. }
  pose proof (CI _ _ Hd Hc) as Hb.
  unfold isInsolvent. cbv zeta.
  destruct (shortfallsByCoin d); [congruence|reflexivity].
Qed.

(** X8.  Every SAV and every position that main.ts lists as in shortfall
    is one of the result's [insolventEntities], whatever the threshold
    [minEntityShortfall]: a record with a caused shortfall always has a
    per-coin shortfall of its own. *)
Theorem listed_shortfalls_are_insolvent :
  forall (entities : list Entity) (priceMap : JsMap.t Qc) (r : SolvencyResult)
         (minEntityShortfall : Qc),
    NoDup (map id entities) ->
    checkEntitySolvency entities priceMap = Ok r ->
    forall d,
      In d (Main.savShortfalls minEntityShortfall r)
      \/ In d (Main.positionShortfalls minEntityShortfall r) ->
      In (entityId d) (insolventEntities r).
Proof.
  intros entities priceMap r minEntityShortfall ND H d Hd.
  assert (G : In d (details r) /\ shortfallsCaused d <> []).
  { unfold Main.savShortfalls, Main.positionShortfalls in Hd.
    destruct Hd as [Hd|Hd]; apply filter_In in Hd; destruct Hd as [Hin Hp];
      unfold Main.inShortfall in Hp; apply andb_true_iff in Hp; destruct Hp as [Hp _];
      apply andb_true_iff in Hp; destruct Hp as [_ Hp];
      (split; [assumption|]); intros C; rewrite C in Hp; discriminate. }
  destruct G as [Hin Hc]. now apply (caused_implies_insolvent entities priceMap).
Qed.

Lemma listed_shortfalls_are_insolvent_witness :
  Forall (fun d =>
            In (entityId d)
               (insolventEntities
                  (Examples.resultOf (checkEntitySolvency Examples.chain Examples.priceMap))))
    (Main.savShortfalls 0
       (Examples.resultOf (checkEntitySolvency Examples.chain Examples.priceMap))).
Proof.
  apply Forall_forall. intros d Hd.
  exact (listed_shortfalls_are_insolvent _ _ _ 0 chain_NoDup chain_Ok d (or_introl Hd)).
Defined.

(** The chain of SOLVENCY_CHECK.md lists its three debtors. *)
Lemma chain_listing :
  map entityId
    (Main.savShortfalls 0
       (Examples.resultOf (checkEntitySolvency Examples.chain Examples.priceMap)))
  = ["position"; "pool"; "strategy"].
Proof. vm_compute. reflexivity. Qed.

(** ** A system in which every entity covers what it owes *)

Lemma filter_nil_of_false (A : Type) (p : A -> bool) (l : list A) :
  (forall x, In x l -> p x = false) -> filter p l = [].
Proof.
  induction l as [|x l IH]; intros H; simpl; [reflexivity|].
  rewrite (H x (or_introl eq_refl)). apply IH. intros y Hy. apply H. now right.
Qed.

Lemma quiet_result entities pm st0 order :
  NoDup (map id entities) ->
  firstPass entities pm = Ok st0 ->
  (forall k d0, JsMap.get st0 k = Some d0 -> shortfallUsd d0 = 0) ->
  buildResult (propagateInOrder order st0 entities pm)
  = {| isSolvent := true; insolventEntities := []; details := JsMap.values st0 |}
  /\ Forall (fun d => shortfallUsd d = 0 /\ shortfallsByCoin d = []
                      /\ shortfallsReceived d = [] /\ shortfallsCaused d = [])
       (JsMap.values st0).
Proof.
  intros ND E Hz.
  destruct (firstPass_records _ _ _ ND E) as [Keys _].
  assert (Hrec : forall d, In d (JsMap.values st0) ->
                   shortfallUsd d = 0 /\ shortfallsByCoin d = []
                   /\ shortfallsReceived d = [] /\ shortfallsCaused d = []).
  { intros d Hd. unfold JsMap.values in Hd. apply in_map_iff in Hd.
    destruct Hd as [[k d'] [Ed Hin]]. simpl in Ed. subst d'.
    apply JsMapFacts.in_get_NoDup in Hin; [|now rewrite Keys].
    destruct (firstPass_get _ _ _ _ _ ND E Hin) as [entity [_ [_ Es]]].
    destruct (entitySolvency_no_shortfall _ _ _ _ Es) as [_ Hb].
    destruct (firstPass_lists_empty _ _ _ _ _ ND E Hin) as [R C].
    pose proof (Hz _ _ Hin) as Z. auto. }
  split; [|now apply Forall_forall].
  rewrite propagate_quiet.
  - unfold buildResult. rewrite (filter_nil_of_false _ isInsolvent); [reflexivity|].
    intros d Hd. destruct (Hrec d Hd) as [Z [B [R _]]].
    unfold isInsolvent. cbv zeta. rewrite Z, B, R.
    assert (G0 : Qcgtb 0 0 = false) by (apply Qcgtb_false, Qcle_refl).
    rewrite G0. simpl. now rewrite andb_false_r.
  - intros k d0 G0.
    destruct (firstPass_get _ _ _ _ _ ND E G0) as [entity [_ [_ Es]]].
    destruct (entitySolvency_no_shortfall _ _ _ _ Es) as [_ Hb]. apply Hb, (Hz k d0 G0).
Qed.

(** X9.  When every entity covers what it owes in every asset type with
    its holdings and with what it is owed, and the obligation graph has no
    cycle, [checkEntitySolvency] returns a solvent result with no insolvent
    entity, and its records are those of the first pass, untouched: no
    shortfall in USD or per coin, nothing received and nothing caused. *)
Theorem covered_system_is_solvent :
  forall (entities : list Entity) (priceMap : JsMap.t Qc),
    NoDup (map id entities) ->
    consistentDecimals entities = true ->
    nonnegAmounts entities = true ->
    positivePrices priceMap = true ->
    allPriced priceMap entities = true ->
    hasCycle (buildGraph entities) = false ->
    (forall entity, In entity entities -> coversEveryType entities entity = true) ->
    exists st0,
      firstPass entities priceMap = Ok st0
      /\ checkEntitySolvency entities priceMap
         = Ok {| isSolvent := true; insolventEntities := [];
                 details := JsMap.values st0 |}
      /\ Forall (fun d => shortfallUsd d = 0 /\ shortfallsByCoin d = []
                          /\ shortfallsReceived d = [] /\ shortfallsCaused d = [])
           (JsMap.values st0).
Proof.
  intros entities priceMap ND Hc Hnn Hp Hall Hcyc Hcov.
  destruct (proj2 (firstPass_Ok_iff entities priceMap) Hall) as [st0 E].
  exists st0. split; [assumption|].
  assert (Hz : forall k d0, JsMap.get st0 k = Some d0 -> shortfallUsd d0 = 0).
  { intros k d0 G0.
    destruct (firstPass_get _ _ _ _ _ ND E G0) as [entity [Hin [_ Es]]].
    rewrite (entitySolvency_shortfall _ _ _ _ Hc Hnn Hp Hin Es).
    pose proof (entitySolvency_covered _ _ _ _ Hc Hnn Hp Hin Es (Hcov _ Hin)) as Hle.
    apply Qcmax_eq. revert Hle. qc_unfold. lra. }
  destruct (quiet_result entities priceMap st0 (topologicalSort (buildGraph entities))
              ND E Hz) as [R F].
  split; [|assumption].
  unfold checkEntitySolvency. rewrite E. cbn [bind].
  unfold propagateShortfalls. cbv zeta. rewrite Hcyc. cbn [bind]. now rewrite R.
Qed.

Lemma covered_system_is_solvent_witness :
  exists st0,
    firstPass Examples.solventChain Examples.priceMap = Ok st0
    /\ checkEntitySolvency Examples.solventChain Examples.priceMap
       = Ok {| isSolvent := true; insolventEntities := [];
               details := JsMap.values st0 |}
    /\ Forall (fun d => shortfallUsd d = 0 /\ shortfallsByCoin d = []
                        /\ shortfallsReceived d = [] /\ shortfallsCaused d = [])
         (JsMap.values st0).
Proof.
  apply (covered_system_is_solvent Examples.solventChain Examples.priceMap).
  - repeat constructor; simpl; intuition discriminate.
  - vm_compute; reflexivity.
  - vm_compute; reflexivity.
  - vm_compute; reflexivity.
  - vm_compute; reflexivity.
  - vm_compute; reflexivity.
  - intros entity Hin. simpl in Hin.
    destruct Hin as [<-|[<-|[<-|[<-|[]]]]]; vm_compute; reflexivity.
Defined.

(** ** What is received is added to the receiver's own shortfall *)

Lemma amount_updateFirst ct x u ds c :
  find (fun d => String.eqb (coinType d) ct) ds <> None ->
  sumQc (map amount
           (filter (fun det => String.eqb (coinType det) c)
              (updateFirst (fun d => String.eqb (coinType d) ct) (bumpDetail x u) ds)))
  = sumQc (map amount (filter (fun det => String.eqb (coinType det) c) ds))
    + (if String.eqb ct c then x else 0).
Proof.
  induction ds as [|d ds IH]; simpl; [congruence|].
  destruct (String.eqb_spec (coinType d) ct) as [E|N]; simpl; intros H.
  - rewrite E. destruct (String.eqb ct c); simpl; ring.
  - destruct (String.eqb (coinType d) c); simpl; rewrite IH by assumption; ring.
Qed.

Lemma amountOfCoin_bumpShortfall ct x u o s c :
  amountOfCoin c (bumpShortfall ct x u o s)
  = amountOfCoin c s + (if String.eqb ct c then x else 0).
Proof.
  unfold amountOfCoin, bumpShortfall. cbn [shortfalls].
  destruct (find (fun d => String.eqb (coinType d) ct) (shortfalls s)) eqn:F.
  - apply amount_updateFirst. congruence.
  - rewrite filter_app, map_app, sumQc_app. simpl.
    destruct (String.eqb ct c); simpl; ring.
Qed.

Lemma receivedOfCoin_recordShortfall key ct x u o l c :
  sumQc (map (amountOfCoin c) (recordShortfall key ct x u o l))
  = sumQc (map (amountOfCoin c) l) + (if String.eqb ct c then x else 0).
Proof.
  unfold recordShortfall.
  destruct (find (fun s => String.eqb (owesTo s) key) l) eqn:F.
  - assert (F' : find (fun s => String.eqb (owesTo s) key) l <> None) by congruence.
    clear F. induction l as [|s l IH]; simpl in *; [congruence|].
    destruct (String.eqb (owesTo s) key); simpl.
    + rewrite amountOfCoin_bumpShortfall. ring.
    + rewrite IH by assumption. ring.
  - rewrite map_app, sumQc_app. simpl. unfold amountOfCoin at 2. simpl.
    destruct (String.eqb ct c); simpl; ring.
Qed.

Lemma getOr0_set (m : JsMap.t Qc) k v k' :
  getOr0 (JsMap.set m k v) k' = if String.eqb k k' then v else getOr0 m k'.
Proof. unfold getOr0. rewrite JsMapFacts.get_set. now destruct (String.eqb k k'). Qed.

Lemma Accounted_allocRecord a k ct x u e d0 d :
  Accounted d0 d -> Accounted d0 (allocRecord a k ct x u e d).
Proof.
  intros H c. unfold receivedOfCoin.
  rewrite allocRecord_byCoin, allocRecord_received, allocRecord_totalLiabilities.
  specialize (H c). unfold receivedOfCoin in H.
  destruct (String.eqb k e); cbn [andb]; [|exact H].
  rewrite receivedOfCoin_recordShortfall.
  destruct (Nat.ltb 0 (List.length (totalLiabilities d))); [|exact H].
  rewrite getOr0_set.
  destruct (String.eqb_spec ct c) as [->|N]; rewrite H; ring.
Qed.

Lemma Accounted_allocateToCreditor entityId ct s su T st0 st kv :
  (forall k d0 d, JsMap.get st0 k = Some d0 -> JsMap.get st k = Some d -> Accounted d0 d) ->
  forall k d0 d, JsMap.get st0 k = Some d0 ->
    JsMap.get (allocateToCreditor entityId ct s su T st kv) k = Some d -> Accounted d0 d.
Proof.
  intros Hst.
  destruct (Qcgtb (getOr0 (snd kv) ct) 0 && present st (fst kv)) eqn:C.
  2:{ now rewrite allocateToCreditor_skip. }
  apply andb_true_iff in C. destruct C as [Hpos Hpres].
  apply present_true in Hpres.
  intros k d0 d G0. rewrite get_allocateToCreditor by assumption.
  destruct (JsMap.get st k) as [d1|] eqn:G; [|discriminate].
  intros [= <-]. apply Accounted_allocRecord. now apply (Hst k).
Qed.

Lemma Accounted_propagateInOrder order st0 entities pm :
  forall st,
    (forall k d0 d, JsMap.get st0 k = Some d0 -> JsMap.get st k = Some d -> Accounted d0 d) ->
    forall k d0 d, JsMap.get st0 k = Some d0 ->
      JsMap.get (propagateInOrder order st entities pm) k = Some d -> Accounted d0 d.
Proof.
  unfold propagateInOrder.
  induction order as [|a order IH]; intros st Hst; simpl; [assumption|].
  apply IH. unfold propagateEntityShortfalls.
  destruct (entities_get entities a) as [entity|]; [|assumption].
  destruct (JsMap.get st a) as [data|]; [|assumption].
  destruct (Nat.ltb 0 _); [|assumption].
  generalize (shortfallsByCoin data) as snap. intros snap. clear IH. revert st Hst.
  induction snap as [|kv snap IHs]; intros st Hst; simpl; [assumption|].
  apply IHs. unfold distributeCoin. cbv zeta.
  destruct (Qcgtb _ 0); [|assumption].
  destruct (JsMap.get pm (fst kv)) as [price|]; [|assumption].
  generalize (totalObligationsForCoin (obligationsByCreditor entity) (fst kv)) as T.
  intros T. generalize (obligationsByCreditor entity) as obc. intros obc.
  clear IHs. revert st Hst. induction obc as [|c obc IHo]; intros st Hst; simpl;
    [assumption|].
  apply IHo. now apply Accounted_allocateToCreditor.
Qed.

(** ** The obligation graph *)

Lemma addObligationEdge_edges entity g ob a b :
  In (a, b) (edges (addObligationEdge entity g ob)) ->
  In (a, b) (edges g)
  \/ (a = id entity /\ b = to ob /\ In a (nodes g) /\ In b (nodes g)).
Proof.
  unfold addObligationEdge.
  destruct (hasNode g (id entity) && hasNode g (to ob)) eqn:N; [|now left].
  destruct (negb (hasEdge g (id entity) (to ob))); [|now left].
  apply andb_true_iff in N. destruct N as [N1 N2]. apply hasNode_In in N1, N2.
  simpl. intros H. apply in_app_iff in H. destruct H as [H|[[= <- <-]|[]]]; [now left|].
  right. auto.
Qed.

Lemma addObligationEdge_NoDup entity g ob :
  NoDup (edges g) -> NoDup (edges (addObligationEdge entity g ob)).
Proof.
  intros ND. unfold addObligationEdge.
  destruct (hasNode g (id entity) && hasNode g (to ob)); [|assumption].
  destruct (hasEdge g (id entity) (to ob)) eqn:E; cbn [negb]; [assumption|].
  simpl. apply NoDup_snoc; [assumption|]. intros Hin.
  apply hasEdge_In in Hin. congruence.
Qed.

Lemma buildGraph_edges_inv entities :
  NoDup (edges (buildGraph entities))
  /\ forall a b, In (a, b) (edges (buildGraph entities)) -> owesWithin entities a b.
Proof.
  unfold buildGraph.
  set (g0 := {| nodes := map id entities; edges := [] |}).
  set (Inv := fun g : DirectedGraph =>
                nodes g = map id entities /\ NoDup (edges g)
                /\ forall a b, In (a, b) (edges g) -> owesWithin entities a b).
  assert (Inner : forall entity, In entity entities ->
             forall obs g, (forall ob, In ob obs -> In ob (obligations entity)) ->
               Inv g -> Inv (fold_left (addObligationEdge entity) obs g)).
  { intros entity He. induction obs as [|ob obs IH]; intros g Hsub Hg; simpl;
      [assumption|].
    apply IH; [intros ob' Hob'; apply Hsub; now right|].
    destruct Hg as [Hn [ND Hed]]. split; [|split].
    - now rewrite addObligationEdge_nodes.
    - now apply addObligationEdge_NoDup.
    - intros a b Hin. apply addObligationEdge_edges in Hin.
      destruct Hin as [Hin|[-> [-> [Ha Hb]]]]; [now apply Hed|].
      rewrite Hn in Ha, Hb. split; [assumption|]. split; [assumption|].
      exists entity, ob. repeat split; auto. apply Hsub. now left. }
  assert (Outer : forall l g, (forall e, In e l -> In e entities) -> Inv g ->
             Inv (fold_left (fun graph entity =>
                               fold_left (addObligationEdge entity) (obligations entity)
                                 graph) l g)).
  { induction l as [|entity l IH]; intros g Hsub Hg; simpl; [assumption|].
    apply IH; [intros e He; apply Hsub; now right|].
    apply Inner; auto. apply Hsub. now left. }
  destruct (Outer entities g0) as [_ [ND Hed]]; auto.
  split; [reflexivity|]. split; [constructor|]. intros a b [].
Qed.

(** X12.  The obligation graph has the entity ids as nodes, holds every
    edge once, and has an edge from [a] to [b] exactly when [a] has an
    obligation to [b] and both are entities of the map: obligations to ids
    outside the map add no edge. *)
Theorem obligation_graph_edges :
  forall (entities : list Entity),
    nodes (buildGraph entities) = map id entities
    /\ NoDup (edges (buildGraph entities))
    /\ forall a b,
         hasEdge (buildGraph entities) a b = true <-> owesWithin entities a b.
Proof.
  intros entities. destruct (buildGraph_closed entities) as [_ N].
  destruct (buildGraph_edges_inv entities) as [ND Hed].
  split; [assumption|]. split; [assumption|].
  intros a b. split.
  - intros H. apply hasEdge_In in H. now apply Hed.
  - intros [Ha [Hb [entity [ob [He [<- [Hob <-]]]]]]]. now apply buildGraph_edge.
Qed.

(** ** The second pass only adds *)

Lemma receivedOfCoin_nonneg d ct :
  Forall (EntryOk owesTo) (shortfallsReceived d) -> 0 <= receivedOfCoin d ct.
Proof.
  intros H. unfold receivedOfCoin. apply sumQc_nonneg. intros x Hx.
  apply in_map_iff in Hx. destruct Hx as [s [<- Hs]].
  rewrite Forall_forall in H. destruct (H s Hs) as [_ [_ F]].
  unfold amountOfCoin. apply sumQc_nonneg. intros y Hy.
  apply in_map_iff in Hy. destruct Hy as [det [<- Hdet]].
  apply filter_In in Hdet. destruct Hdet as [Hdet _].
  rewrite Forall_forall in F. apply Qclt_le_weak. now apply F.
Qed.

(** X13.  The second pass never lowers a per-coin shortfall below what
    the first pass computed, and an entity that the first pass leaves with
    a shortfall is listed in [insolventEntities] of the result. *)
Theorem propagation_only_adds :
  forall (entities : list Entity) (priceMap : JsMap.t Qc) (r : SolvencyResult),
    NoDup (map id entities) ->
    checkEntitySolvency entities priceMap = Ok r ->
    exists st0,
      firstPass entities priceMap = Ok st0
      /\ forall d, In d (details r) ->
           exists d0,
             JsMap.get st0 (entityId d) = Some d0
             /\ (forall ct,
                   getOr0 (shortfallsByCoin d0) ct <= getOr0 (shortfallsByCoin d) ct)
             /\ (isInsolvent d0 = true -> In (entityId d) (insolventEntities r)).
Proof.
  intros entities priceMap r ND H.
  destruct (checkEntitySolvency_run _ _ _ ND H) as [st0 [E [_ [-> K]]]].
  destruct (firstPass_records _ _ _ ND E) as [Keys _].
  set (st := propagateInOrder (topologicalSort (buildGraph entities)) st0 entities priceMap)
    in *.
  assert (NDk : NoDup (JsMap.keys st)) by (unfold st; now rewrite run_keys, Keys).
  exists st0. split; [assumption|]. intros d Hd.
  apply in_details_get in Hd; [|assumption|assumption].
  destruct (run_shortfallUsd _ _ _ _ _ _ Hd) as [d0 [G0 Eu]].
  exists d0. split; [assumption|].
  assert (Acc : Accounted d0 d).
  { apply (Accounted_propagateInOrder (topologicalSort (buildGraph entities)) st0 entities
             priceMap st0) with (k := entityId d); try assumption.
    intros k d1 d2 G1 G2. assert (d2 = d1) by congruence. subst d2.
    intros ct. destruct (firstPass_lists_empty _ _ _ _ _ ND E G1) as [R _].
    unfold receivedOfCoin. rewrite R. simpl. destruct (Nat.ltb 0 _); ring. }
  destruct (ListsOk_propagateInOrder _ _ entities priceMap (firstPass_StateInv _ _ _ ND E)
              (firstPass_ListsOk _ _ _ ND E) _ _ Hd) as [O1 _].
  assert (Mono : forall ct,
             getOr0 (shortfallsByCoin d0) ct <= getOr0 (shortfallsByCoin d) ct).
  { intros ct. rewrite (Acc ct).
    pose proof (receivedOfCoin_nonneg d ct O1) as Hr.
    destruct (Nat.ltb 0 _); revert Hr; qc_unfold; lra. }
  split; [assumption|]. intros Ins.
  apply (in_insolventEntities st (entityId d) d NDk K Hd).
  destruct (firstPass_StateInv _ _ _ ND E _ _ G0) as [Hpos [_ [_ Hu]]].
  destruct (firstPass_lists_empty _ _ _ _ _ ND E G0) as [R _].
  assert (Hne : shortfallsByCoin d0 <> []).
  { unfold isInsolvent in Ins. cbv zeta in Ins. rewrite R in Ins.
    simpl in Ins. rewrite andb_false_r, orb_false_r in Ins.
    apply orb_true_iff in Ins. destruct Ins as [Ins|Ins].
    - destruct (shortfallsByCoin d0); [discriminate|discriminate].
    - apply Hu. now apply Qcgtb_true. }
  destruct (shortfallsByCoin d0) as [|[c q] m] eqn:Eb; [congruence|].
  inversion Hpos as [|? ? Hq _]; subst. simpl in Hq.
  pose proof (Mono c) as Mc. unfold getOr0 at 1 in Mc. simpl in Mc.
  rewrite String.eqb_refl in Mc.
  unfold isInsolvent. cbv zeta.
  destruct (shortfallsByCoin d) as [|kv m'] eqn:Ed; [|reflexivity].
  exfalso. unfold getOr0 in Mc. simpl in Mc. revert Hq Mc. qc_unfold. lra.
Qed.

Lemma propagation_only_adds_witness :
  exists st0,
    firstPass Examples.chain Examples.priceMap = Ok st0
    /\ forall d,
         In d (details (Examples.resultOf
                          (checkEntitySolvency Examples.chain Examples.priceMap))) ->
         exists d0,
           JsMap.get st0 (entityId d) = Some d0
           /\ (forall ct,
                 getOr0 (shortfallsByCoin d0) ct <= getOr0 (shortfallsByCoin d) ct)
           /\ (isInsolvent d0 = true ->
               In (entityId d)
                  (insolventEntities
                     (Examples.resultOf
                        (checkEntitySolvency Examples.chain Examples.priceMap)))).
Proof.
  exact (propagation_only_adds _ _ _ chain_NoDup chain_Ok).
Defined.

(** ** The price map of main.ts *)

Lemma in_dedup_fold xs acc c :
  In c (fold_left (fun acc x => if existsb (String.eqb x) acc then acc else acc ++ [x])
          xs acc)
  <-> In c acc \/ In c xs.
Proof.
  revert acc. induction xs as [|x xs IH]; intros acc; simpl; [tauto|].
  rewrite IH. destruct (existsb (String.eqb x) acc) eqn:E.
  - apply existsb_exists in E. destruct E as [y [Hy Exy]]. apply String.eqb_eq in Exy.
    subst y. split; [tauto|]. intros [H|[<-|H]]; auto.
  - rewrite in_app_iff. simpl. tauto.
Qed.

Lemma NoDup_dedup_fold xs acc :
  NoDup acc ->
  NoDup (fold_left (fun acc x => if existsb (String.eqb x) acc then acc else acc ++ [x])
           xs acc).
Proof.
  revert acc. induction xs as [|x xs IH]; intros acc ND; simpl; [assumption|].
  apply IH. destruct (existsb (String.eqb x) acc) eqn:E; [assumption|].
  apply NoDup_snoc; [assumption|]. intros Hin.
  assert (existsb (String.eqb x) acc = true); [|congruence].
  apply existsb_exists. exists x. split; [assumption|apply String.eqb_refl].
Qed.

Lemma in_allCoinTypes entities c :
  In c (MainSetup.allCoinTypes entities)
  <-> exists e, In e entities /\ (In c (heldCoinTypes e) \/ In c (owedCoinTypes e)).
Proof.
  unfold MainSetup.allCoinTypes, MainSetup.dedup. rewrite in_dedup_fold, in_flat_map.
  split.
  - intros [[]|[e [He Hc]]]. exists e. rewrite in_app_iff in Hc. auto.
  - intros [e [He Hc]]. right. exists e. rewrite in_app_iff. auto.
Qed.

Lemma get_priceMapOf_fold cts (usdPrice : string -> Qc) (m : JsMap.t Qc) c :
  JsMap.get (fold_left (fun m c => JsMap.set m c (usdPrice c)) cts m) c
  = if existsb (String.eqb c) cts then Some (usdPrice c) else JsMap.get m c.
Proof.
  revert m. induction cts as [|x cts IH]; intros m; simpl; [reflexivity|].
  rewrite IH. destruct (existsb (String.eqb c) cts); [now rewrite orb_true_r|].
  rewrite orb_false_r, JsMapFacts.get_set, (String.eqb_sym c x).
  destruct (String.eqb_spec x c) as [->|N]; reflexivity.
Qed.

Lemma get_priceMapOf cts usdPrice c :
  JsMap.get (MainSetup.priceMapOf cts usdPrice) c
  = if existsb (String.eqb c) cts then Some (usdPrice c) else None.
Proof. unfold MainSetup.priceMapOf. now rewrite get_priceMapOf_fold. Qed.

Lemma existsb_eqb_In c (l : list string) : existsb (String.eqb c) l = true <-> In c l.
Proof.
  rewrite existsb_exists. split.
  - intros [y [Hy E]]. apply String.eqb_eq in E. now subst.
  - intros H. exists c. split; [assumption|apply String.eqb_refl].
Qed.

Lemma priced_priceMapOf cts usdPrice c :
  priced (MainSetup.priceMapOf cts usdPrice) c = true <-> In c cts.
Proof.
  rewrite priced_true, get_priceMapOf, <- existsb_eqb_In.
  destruct (existsb (String.eqb c) cts); split; congruence.
Qed.

(** X14.  main.ts collects the coin types before the supply pools and
    the positions are added to the entity map.  The price map it builds
    holds the fetched price of exactly the coin types of the entities
    collected until then, so the first pass of [checkEntitySolvency] on
    all entities succeeds exactly when every coin type of the entities
    added later also occurs in an earlier entity; otherwise it throws a
    pricing error. *)
Theorem main_price_map_covers_collected_types :
  forall (early later : list Entity) (usdPrice : string -> Qc),
    let priceMap := MainSetup.priceMapOf (MainSetup.allCoinTypes early) usdPrice in
    (forall c, JsMap.get priceMap c
               = if existsb (String.eqb c) (MainSetup.allCoinTypes early)
                 then Some (usdPrice c) else None)
    /\ allPriced priceMap early = true
    /\ ((exists st, firstPass (early ++ later) priceMap = Ok st)
        <-> forall e c, In e later -> In c (heldCoinTypes e) \/ In c (owedCoinTypes e) ->
                        In c (MainSetup.allCoinTypes early))
    /\ forall err, firstPass (early ++ later) priceMap = Throw err ->
                   isPricingError err = true.
Proof.
  intros early later usdPrice priceMap.
  assert (Hearly : allPriced priceMap early = true).
  { unfold allPriced, entityPriced. apply forallb_forall. intros e He.
    apply andb_true_iff. split; apply forallb_forall; intros c Hc;
      apply priced_priceMapOf, in_allCoinTypes; exists e; auto. }
  split; [intros c; apply get_priceMapOf|]. split; [assumption|]. split.
  - rewrite firstPass_Ok_iff. unfold allPriced. rewrite forallb_app.
    fold (allPriced priceMap early). rewrite Hearly. cbn [andb].
    rewrite forallb_forall. split.
    + intros H e c He Hc. specialize (H e He). unfold entityPriced in H.
      apply andb_true_iff in H. destruct H as [H1 H2].
      rewrite forallb_forall in H1, H2.
      apply (priced_priceMapOf _ usdPrice). destruct Hc as [Hc|Hc]; auto.
    + intros H e He. unfold entityPriced. apply andb_true_iff.
      split; apply forallb_forall; intros c Hc; apply priced_priceMapOf; eauto.
  - intros err. apply firstPass_Throw.
Qed.

(** ** The value of a strategy's shares *)

(** X15.  The value that main.ts computes for the shares of a supply
    pool strategy: the division throws for a zero supply; for a positive
    supply and non-negative inputs the scaling of the shares by [2^64]
    cancels exactly, and the value is [underlyingValueX64 * stShares /
    supplyX64] rounded down, never more than the exact quotient and less
    than one unit below it. *)
Theorem strategy_value_rounds_down :
  forall stShares underlyingValueX64 supplyX64 : Z,
    MainSetup.strategyValue stShares underlyingValueX64 0 = None
    /\ ((0 <= stShares)%Z -> (0 <= underlyingValueX64)%Z -> (0 < supplyX64)%Z ->
        exists value,
          MainSetup.strategyValue stShares underlyingValueX64 supplyX64 = Some value
          /\ value = (underlyingValueX64 * stShares / supplyX64)%Z
          /\ (value * supplyX64 <= underlyingValueX64 * stShares)%Z
          /\ (underlyingValueX64 * stShares < (value + 1) * supplyX64)%Z).
Proof.
  intros s u n. split; [reflexivity|]. intros Hs Hu Hn.
  unfold MainSetup.strategyValue, MainSetup.bigintDiv. cbv zeta.
  assert (E64 : Z.shiftl 1 64 = (2 ^ 64)%Z) by reflexivity.
  rewrite E64.
  destruct (Z.eqb_spec n 0) as [E|_]; [lia|].
  destruct (Z.eqb_spec (2 ^ 64) 0) as [E|_]; [discriminate E|].
  assert (P64 : (0 < 2 ^ 64)%Z) by reflexivity.
  eexists. split; [reflexivity|].
  assert (Ev : Z.quot (Z.quot (u * (s * 2 ^ 64)) n) (2 ^ 64) = (u * s / n)%Z).
  { assert (N1 : (0 <= u * (s * 2 ^ 64))%Z) by (apply Z.mul_nonneg_nonneg; lia).
    rewrite (Z.quot_div_nonneg (u * (s * 2 ^ 64)) n N1 Hn).
    assert (N2 : (0 <= u * (s * 2 ^ 64) / n)%Z) by (apply Z.div_pos; lia).
    rewrite (Z.quot_div_nonneg _ (2 ^ 64) N2 P64).
    rewrite Z.div_div by lia.
    replace (u * (s * 2 ^ 64))%Z with ((u * s) * 2 ^ 64)%Z by ring.
    apply Z.div_mul_cancel_r; lia. }
  rewrite Ev. split; [reflexivity|].
  assert (Hus : (0 <= u * s)%Z) by (apply Z.mul_nonneg_nonneg; lia).
  pose proof (Z.mul_div_le (u * s) n Hn) as L1.
  pose proof (Z.mul_succ_div_gt (u * s) n Hn) as L2.
  split; lia.
Qed.

Lemma strategy_value_rounds_down_witness :
  MainSetup.strategyValue 3 (10 * 2 ^ 64) (4 * 2 ^ 64) = Some 7%Z.
Proof.
  destruct (proj2 (strategy_value_rounds_down 3 (10 * 2 ^ 64) (4 * 2 ^ 64)))
    as [value [E [Ev _]]]; [lia|lia|lia|].
  rewrite E, Ev. reflexivity.
Defined.

(** ** Batched fetching (util.ts) *)

Section BatchedFacts.
Variables Data T E : Type.
Variable fetchObject : string -> option Data.
Variable deserializer : Data -> Util.Outcome E T.

(** The client answers a request with the object of every id, in order. *)
Let multiGetObjects (batch : list string) : list (option Data) := map fetchObject batch.

(** [t] is what the deserializer makes of the data of [id]. *)
Let deserialized (id : string) (t : T) : Prop :=
  exists data, fetchObject id = Some data /\ deserializer data = Util.Returns t.

Lemma deserialized_functional ids out out' :
  Forall2 deserialized ids out -> Forall2 deserialized ids out' -> out = out'.
Proof.
  intros H. revert out'. induction H as [|id t ids out [data [F D]] _ IH]; intros out' H';
    inversion H' as [|? t' ? out'' [data' [F' D']] Hrest]; subst; [reflexivity|].
  f_equal; [congruence|]. now apply IH.
Qed.

Lemma pushAll_spec first batch results :
  match Util.pushAll Data T E deserializer first (multiGetObjects batch) results with
  | Util.Returns results' =>
      exists new, results' = results ++ new /\ Forall2 deserialized batch new
  | Util.Throws _ => ~ exists new, Forall2 deserialized batch new
  end.
Proof.
  revert results. induction batch as [|id batch IH]; intros results; simpl.
  - exists []. split; [now rewrite app_nil_r|constructor].
  - destruct (fetchObject id) as [data|] eqn:F.
    + destruct (deserializer data) as [t|e] eqn:D.
      * specialize (IH (results ++ [t])).
        destruct (Util.pushAll Data T E deserializer first (multiGetObjects batch)
                    (results ++ [t])) as [results'|e].
        -- destruct IH as [new [-> Hnew]]. exists (t :: new).
           split; [now rewrite <- app_assoc|]. constructor; [|assumption].
           exists data. now split.
        -- intros [new Hnew]. apply IH.
           inversion Hnew; subst. eauto.
      * intros [new Hnew]. inversion Hnew as [|? t ? ? [data' [F' D']] _]; subst.
        congruence.
    + intros [new Hnew]. inversion Hnew as [|? t ? ? [data' [F' D']] _]; subst.
      congruence.
Qed.

Lemma firstn_plus (A : Type) (i b : nat) (l : list A) :
  firstn (i + b) l = firstn i l ++ firstn b (skipn i l).
Proof.
  revert l. induction i as [|i IH]; intros l; simpl; [reflexivity|].
  destruct l as [|x l]; simpl; [now rewrite firstn_nil|]. now rewrite IH.
Qed.

Lemma Forall2_app_inv_both (A B : Type) (R : A -> B -> Prop) l1 l2 r :
  Forall2 R (l1 ++ l2) r ->
  exists r1 r2, r = r1 ++ r2 /\ Forall2 R l1 r1 /\ Forall2 R l2 r2.
Proof.
  intros H. apply Forall2_app_inv_l in H. destruct H as [r1 [r2 [H1 [H2 ->]]]]. eauto.
Qed.

Lemma batchLoop_spec ids batchSize :
  (0 < batchSize)%nat ->
  forall fuel i results,
    (List.length ids <= i + fuel)%nat ->
    Forall2 deserialized (firstn i ids) results ->
    exists outcome,
      Util.batchLoop Data T E multiGetObjects deserializer fuel ids batchSize i results
      = Some outcome
      /\ forall out, outcome = Util.Returns out <-> Forall2 deserialized ids out.
Proof.
  intros Hb. induction fuel as [|fuel IH]; intros i results Hlen Hres.
  - simpl. assert (L : Nat.ltb i (List.length ids) = false) by (apply Nat.ltb_ge; lia).
    rewrite L. rewrite firstn_all2 in Hres by lia.
    exists (Util.Returns results). split; [reflexivity|]. intros out. split.
    + intros [= <-]. assumption.
    + intros H. f_equal. now apply (deserialized_functional ids).
  - cbn [Util.batchLoop]. destruct (Nat.ltb i (List.length ids)) eqn:L.
    + pose proof (pushAll_spec (nth_error ids i) (firstn batchSize (skipn i ids)) results)
        as P.
      destruct (Util.pushAll Data T E deserializer (nth_error ids i)
                  (multiGetObjects (firstn batchSize (skipn i ids))) results)
        as [results'|e].
      * destruct P as [new [-> Hnew]].
        apply IH; [lia|]. rewrite firstn_plus. now apply Forall2_app.
      * exists (Util.Throws e). split; [reflexivity|]. intros out.
        split; [discriminate|]. intros H. exfalso. apply P.
        rewrite <- (firstn_skipn (i + batchSize) ids), firstn_plus in H.
        apply Forall2_app_inv_both in H. destruct H as [r1 [r2 [_ [H1 _]]]].
        apply Forall2_app_inv_both in H1. destruct H1 as [r3 [r4 [_ [_ H4]]]]. eauto.
    + apply Nat.ltb_ge in L. rewrite firstn_all2 in Hres by lia.
      exists (Util.Returns results). split; [reflexivity|]. intros out. split.
      * intros [= <-]. assumption.
      * intros H. f_equal. now apply (deserialized_functional ids).
Qed.

(** X16.  Batching is transparent.  With a client that answers every
    request with the objects of the requested ids in order, and a batch
    size of at least one, [getBatchedObjects] terminates (fuel
    [ids.length] suffices for the loop), and it returns a list exactly
    when every id has data that the deserializer accepts; the list then
    holds the deserialized object of every id, in the order of [ids],
    whatever the batch size. *)
Theorem batching_is_transparent :
  forall (ids : list string) (batchSize : nat),
    (0 < batchSize)%nat ->
    exists outcome,
      Util.getBatchedObjects Data T E multiGetObjects deserializer
        (List.length ids) ids batchSize = Some outcome
      /\ forall out, outcome = Util.Returns out <-> Forall2 deserialized ids out.
Proof.
  intros ids batchSize Hb. unfold Util.getBatchedObjects.
  apply batchLoop_spec; [assumption|lia|]. simpl. constructor.
Qed.

(** X17.  With a batch size of zero and at least one id the loop of
    [getBatchedObjects] never ends: every round requests an empty batch
    and leaves the index at zero, so no amount of fuel gives an outcome. *)
Theorem zero_batch_size_never_returns :
  forall (ids : list string) (fuel : nat),
    ids <> [] ->
    Util.getBatchedObjects Data T E multiGetObjects deserializer fuel ids 0 = None.
Proof.
  intros ids fuel Hne. unfold Util.getBatchedObjects.
  assert (L : Nat.ltb 0 (List.length ids) = true).
  { destruct ids; [congruence|reflexivity]. }
  assert (G : forall results,
             Util.batchLoop Data T E multiGetObjects deserializer fuel ids 0 0 results
             = None).
  { induction fuel as [|fuel IH]; intros results; cbn [Util.batchLoop]; rewrite L;
      [reflexivity|].
    simpl. apply IH. }
  apply G.
Qed.

Lemma pushAll_missing first batch o id results :
  nth_error batch o = Some id -> fetchObject id = None ->
  (exists pre, Forall2 deserialized (firstn o batch) pre) ->
  Util.pushAll Data T E deserializer first (multiGetObjects batch) results
  = Util.Throws (@Util.NoDataFound E first).
Proof.
  revert o results. induction batch as [|x batch IH]; intros o results Hn F [pre Hpre].
  - destruct o; discriminate Hn.
  - destruct o as [|o]; simpl in Hn.
    + injection Hn as ->. simpl. now rewrite F.
    + simpl in Hpre. inversion Hpre as [|? t ? pre' [data [Fx Dx]] Hrest]; subst.
      simpl. rewrite Fx, Dx. apply (IH o); eauto.
Qed.

Lemma Forall2_firstn (A B : Type) (R : A -> B -> Prop) n l r :
  Forall2 R l r -> Forall2 R (firstn n l) (firstn n r).
Proof.
  intros H. revert n. induction H; intros [|n]; simpl; constructor; auto.
Qed.

Lemma batchLoop_missing ids batchSize j id :
  (0 < batchSize)%nat ->
  nth_error ids j = Some id -> fetchObject id = None ->
  (exists pre, Forall2 deserialized (firstn j ids) pre) ->
  forall fuel k results,
    (k * batchSize <= j)%nat ->
    (List.length ids <= k * batchSize + fuel)%nat ->
    Util.batchLoop Data T E multiGetObjects deserializer fuel ids batchSize
      (k * batchSize) results
    = Some (Util.Throws
              (@Util.NoDataFound E (nth_error ids (j / batchSize * batchSize)))).
Proof.
  intros Hb Hn F [pre Hpre].
  assert (Hj : (j < List.length ids)%nat).
  { apply nth_error_Some. congruence. }
  induction fuel as [|fuel IH]; intros k results Hk Hlen; [lia|].
  cbn [Util.batchLoop].
  assert (L : Nat.ltb (k * batchSize) (List.length ids) = true) by (apply Nat.ltb_lt; lia).
  rewrite L.
  destruct (Nat.lt_ge_cases j (k * batchSize + batchSize)) as [In|Out].
  - assert (Ek : k = (j / batchSize)%nat).
    { apply (Nat.div_unique j batchSize k (j - k * batchSize)); lia. }
    rewrite (pushAll_missing _ _ (j - k * batchSize) id).
    + now rewrite <- Ek.
    + rewrite nth_error_firstn.
      assert (Lt : Nat.ltb (j - k * batchSize) batchSize = true) by (apply Nat.ltb_lt; lia).
      rewrite Lt, nth_error_skipn.
      now replace (k * batchSize + (j - k * batchSize))%nat with j by lia.
    + assumption.
    + rewrite firstn_firstn, Nat.min_l by lia.
      replace j with (k * batchSize + (j - k * batchSize))%nat in Hpre by lia.
      rewrite firstn_plus in Hpre.
      apply Forall2_app_inv_both in Hpre. destruct Hpre as [r1 [r2 [_ [_ H2]]]]. eauto.
  - pose proof (pushAll_spec (nth_error ids (k * batchSize))
                  (firstn batchSize (skipn (k * batchSize) ids)) results) as P.
    destruct (Util.pushAll Data T E deserializer (nth_error ids (k * batchSize))
                (multiGetObjects (firstn batchSize (skipn (k * batchSize) ids))) results)
      as [results'|e].
    + replace (k * batchSize + batchSize)%nat with (S k * batchSize)%nat by lia.
      apply IH; lia.
    + exfalso. apply P.
      pose proof (Forall2_firstn _ _ _ (k * batchSize + batchSize) _ _ Hpre) as H.
      rewrite firstn_firstn, Nat.min_l in H by lia.
      rewrite firstn_plus in H.
      apply Forall2_app_inv_both in H. destruct H as [r1 [r2 [_ [_ H2]]]]. eauto.
Qed.

(** X23.  The error for an object without data names the first id of
    the batch, not the id of the object: when the object at index [j]
    of [ids] is the first without data (and all ids before it
    deserialize), [getBatchedObjects] throws `No data found in response
    for` the id at index [(j / batchSize) * batchSize]. *)
Theorem missing_object_error_names_batch_start :
  forall (ids : list string) (batchSize j : nat) (id : string),
    (0 < batchSize)%nat ->
    nth_error ids j = Some id ->
    fetchObject id = None ->
    (exists pre, Forall2 deserialized (firstn j ids) pre) ->
    Util.getBatchedObjects Data T E multiGetObjects deserializer
      (List.length ids) ids batchSize
    = Some (Util.Throws
              (@Util.NoDataFound E (nth_error ids (j / batchSize * batchSize)))).
Proof.
  intros ids batchSize j id Hb Hn F Hpre. unfold Util.getBatchedObjects.
  apply (batchLoop_missing ids batchSize j id Hb Hn F Hpre (List.length ids) 0 []); lia.
Qed.

End BatchedFacts.

Lemma batching_is_transparent_witness :
  Util.getBatchedObjects nat nat unit
    (map (fun id => Some (String.length id))) (fun data => Util.Returns (data * 10)%nat)
    3 ["a"; "bb"; "ccc"] 2
  = Some (Util.Returns [10; 20; 30]%nat).
Proof.
  destruct (batching_is_transparent nat nat unit
              (fun id => Some (String.length id)) (fun data => Util.Returns (data * 10)%nat)
              ["a"; "bb"; "ccc"] 2) as [outcome [E H]]; [lia|].
  assert (O : outcome = Util.Returns [10; 20; 30]%nat).
  { apply H. repeat constructor; eexists; split; reflexivity. }
  rewrite O in E. exact E.
Defined.

Lemma zero_batch_size_never_returns_witness :
  Util.getBatchedObjects nat nat unit
    (map (fun id => Some (String.length id))) (fun data => Util.Returns data)
    1000 ["a"] 0
  = None.
Proof.
  apply (zero_batch_size_never_returns nat nat unit
           (fun id => Some (String.length id)) (fun data => Util.Returns data) ["a"] 1000).
  discriminate.
Defined.

(** Ids "a", "b", "c", "d" in batches of two, "d" without data: the error
    names "c". *)
Lemma missing_object_error_names_batch_start_witness :
  Util.getBatchedObjects nat nat unit
    (map (fun id => if String.eqb id "d" then None else Some (String.length id)))
    (fun data => Util.Returns data)
    4 ["a"; "b"; "c"; "d"] 2
  = Some (Util.Throws (@Util.NoDataFound unit (Some "c"))).
Proof.
  apply (missing_object_error_names_batch_start nat nat unit
           (fun id => if String.eqb id "d" then None else Some (String.length id))
           (fun data => Util.Returns data) ["a"; "b"; "c"; "d"] 2 3 "d").
  - lia.
  - reflexivity.
  - reflexivity.
  - exists [1; 1; 1]%nat. repeat constructor; eexists; split; reflexivity.
Defined.

(** ** Fetched prices (util.ts and main.ts) *)

Section PriceFacts.
Variable USDC_typeName : string.
Variable fetch : string -> Util.Response.
Variable normalizeStructTag : string -> string.

Lemma fetchUsdPrice_Returns coinType p :
  Util.fetchUsdPrice USDC_typeName fetch normalizeStructTag coinType = Util.Returns p ->
  p <> 0
  /\ (coinType = USDC_typeName -> p = 1)
  /\ (coinType <> USDC_typeName ->
      Util.ok (fetch (Util.priceUrl USDC_typeName coinType)) = true
      /\ exists tokenPrice,
           JsMap.get (Util.json (fetch (Util.priceUrl USDC_typeName coinType)))
             (normalizeStructTag coinType) = Some tokenPrice
           /\ Util.price tokenPrice = Some p).
Proof.
  unfold Util.fetchUsdPrice.
  destruct (String.eqb_spec coinType USDC_typeName) as [->|N].
  - intros [= <-]. split; [|split]; [|reflexivity|congruence].
    intros H. apply (f_equal this) in H. vm_compute in H. discriminate.
  - cbv zeta.
    destruct (Util.ok (fetch (Util.priceUrl USDC_typeName coinType))); cbn [negb];
      [|discriminate].
    destruct (JsMap.get _ (normalizeStructTag coinType)) as [tokenPrice|]; [|discriminate].
    destruct (Util.price tokenPrice) as [q|] eqn:P; [|discriminate].
    destruct (Qc_eq_bool q 0) eqn:Z; [discriminate|]. intros [= <-].
    split; [|split]; [|congruence|].
    + intros ->. vm_compute in Z. discriminate.
    + intros _. split; [reflexivity|]. exists tokenPrice. now split.
Qed.

(** X18.  When every price request of main.ts succeeds, the price map
    built from the answers holds exactly the requested coin types, never
    a zero price, the price 1 for USDC (for which no request is sent), and
    for every other coin type the price that an [ok] response of the API
    lists under the normalized type. *)
Theorem fetched_price_map_has_no_zero_price :
  forall (coinTypes : list string) (usdPrice : string -> Qc),
    (forall c, In c coinTypes ->
       Util.fetchUsdPrice USDC_typeName fetch normalizeStructTag c
       = Util.Returns (usdPrice c)) ->
    forall c,
      match JsMap.get (MainSetup.priceMapOf coinTypes usdPrice) c with
      | Some p =>
          In c coinTypes /\ p <> 0
          /\ (c = USDC_typeName -> p = 1)
          /\ (c <> USDC_typeName ->
              Util.ok (fetch (Util.priceUrl USDC_typeName c)) = true
              /\ exists tokenPrice,
                   JsMap.get (Util.json (fetch (Util.priceUrl USDC_typeName c)))
                     (normalizeStructTag c) = Some tokenPrice
                   /\ Util.price tokenPrice = Some p)
      | None => ~ In c coinTypes
      end.
Proof.
  intros coinTypes usdPrice H c. rewrite get_priceMapOf.
  destruct (existsb (String.eqb c) coinTypes) eqn:Ex.
  - apply existsb_eqb_In in Ex. split; [assumption|].
    apply fetchUsdPrice_Returns. now apply H.
  - intros Hin. apply existsb_eqb_In in Hin. congruence.
Qed.

End PriceFacts.

Lemma fetched_price_map_has_no_zero_price_witness :
  match JsMap.get
          (MainSetup.priceMapOf ["USDC"; "SUI"]
             (fun c => if String.eqb c "USDC" then 1 else Z2Qc 2)) "SUI" with
  | Some p => p <> 0
  | None => False
  end.
Proof.
  pose proof (fetched_price_map_has_no_zero_price "USDC"
                (fun _ => {| Util.ok := true; Util.status := 200;
                             Util.json := [("SUI", {| Util.price := Some (Z2Qc 2);
                                                      Util.lastUpdated := 0 |})] |})
                (fun c => c) ["USDC"; "SUI"]
                (fun c => if String.eqb c "USDC" then 1 else Z2Qc 2)) as H.
  assert (Hall : forall c, In c ["USDC"; "SUI"] ->
            Util.fetchUsdPrice "USDC"
              (fun _ => {| Util.ok := true; Util.status := 200;
                           Util.json := [("SUI", {| Util.price := Some (Z2Qc 2);
                                                    Util.lastUpdated := 0 |})] |})
              (fun c => c) c
            = Util.Returns (if String.eqb c "USDC" then 1 else Z2Qc 2)).
  { intros c [<-|[<-|[]]]; reflexivity. }
  specialize (H Hall "SUI").
  destruct (JsMap.get _ "SUI") as [p|].
  - exact (proj1 (proj2 H)).
  - apply H. right. left. reflexivity.
Defined.

(** ** Total assets: holdings plus incoming obligations *)

Lemma prevInt_set m k v ct :
  prevInt (JsMap.set m k v) ct = if String.eqb k ct then int v else prevInt m ct.
Proof.
  unfold prevInt. rewrite JsMapFacts.get_set. now destruct (String.eqb k ct).
Qed.

Lemma unitsOf_app ct l1 l2 :
  unitsOf ct (l1 ++ l2) = (unitsOf ct l1 + unitsOf ct l2)%Z.
Proof.
  unfold unitsOf. rewrite flat_map_app, filter_app, map_app.
  induction (map snd (filter _ (flat_map assetParts l1))) as [|x l IH]; simpl; lia.
Qed.

Lemma unitsOf_cons ct a l :
  unitsOf ct (a :: l) = (unitsOf ct [a] + unitsOf ct l)%Z.
Proof. apply (unitsOf_app ct [a] l). Qed.

Lemma prevInt_addAsset m a ct :
  lpDistinct a = true ->
  prevInt (addAsset m a) ct = (prevInt m ct + unitsOf ct [a])%Z.
Proof.
  destruct a as [coin i | coinA coinB iA iB]; intros D; unfold unitsOf; simpl.
  - rewrite prevInt_set. simpl.
    destruct (String.eqb_spec (typeName coin) ct) as [->|N]; simpl; lia.
  - apply negb_true_iff in D. rewrite !prevInt_set. simpl.
    destruct (String.eqb_spec (typeName coinA) ct) as [EA|NA];
      destruct (String.eqb_spec (typeName coinB) ct) as [EB|NB]; simpl.
    + exfalso. rewrite EA, EB, String.eqb_refl in D. discriminate D.
    + subst ct. lia.
    + subst ct. lia.
    + lia.
Qed.

Lemma prevInt_fold_addAsset l m ct :
  forallb lpDistinct l = true ->
  prevInt (fold_left addAsset l m) ct = (prevInt m ct + unitsOf ct l)%Z.
Proof.
  revert m. induction l as [|a l IH]; intros m D; simpl in *.
  - unfold unitsOf. simpl. lia.
  - apply andb_true_iff in D. destruct D as [Da Dl].
    rewrite IH by assumption. rewrite prevInt_addAsset by assumption.
    rewrite (unitsOf_cons ct a l). lia.
Qed.

Lemma addIncoming_fold entity m other :
  addIncoming entity m other
  = fold_left addAsset
      (map asset (filter (fun ob => String.eqb (to ob) (id entity)) (obligations other)))
      m.
Proof.
  unfold addIncoming. generalize (obligations other) as obs. intros obs. revert m.
  induction obs as [|ob obs IH]; intros m; simpl; [reflexivity|].
  destruct (String.eqb (to ob) (id entity)); simpl; apply IH.
Qed.

Lemma aggregateAssets_fold entities entity :
  aggregateAssets entities entity
  = fold_left addAsset (holdings entity ++ incomingAssets entities entity) [].
Proof.
  unfold aggregateAssets, incomingAssets. rewrite fold_left_app.
  generalize (fold_left addAsset (holdings entity) []) as m.
  induction entities as [|other entities IH]; intros m; simpl; [reflexivity|].
  rewrite fold_left_app, IH. now rewrite addIncoming_fold.
Qed.

(** X20.  The raw total assets of an entity in a coin are the units of
    that coin it holds plus the units that the obligations towards it
    carry, as long as every LP asset involved has two different coin
    types.  An LP asset over one and the same coin type is the
    exception: adding it counts [amountB] only, [amountA] is
    overwritten. *)
Theorem total_assets_are_held_plus_incoming :
  forall (entities : list Entity) (entity : Entity),
    (forallb lpDistinct (holdings entity ++ incomingAssets entities entity) = true ->
     forall ct,
       prevInt (aggregateAssets entities entity) ct
       = (unitsOf ct (holdings entity)
          + unitsOf ct (incomingAssets entities entity))%Z)
    /\ (forall totalAssets coinA coinB amountA amountB,
          typeName coinA = typeName coinB ->
          prevInt (addAsset totalAssets (LPAsset coinA coinB amountA amountB))
                  (typeName coinA)
          = (prevInt totalAssets (typeName coinA) + amountB)%Z).
Proof.
  intros entities entity. split.
  - intros D ct. rewrite aggregateAssets_fold, prevInt_fold_addAsset by assumption.
    rewrite unitsOf_app. unfold prevInt. simpl. lia.
  - intros m coinA coinB amountA amountB E. simpl. rewrite prevInt_set, E.
    rewrite String.eqb_refl. reflexivity.
Qed.

Lemma total_assets_are_held_plus_incoming_witness :
  prevInt (aggregateAssets Examples.lpPair Examples.lpCreditor) "SUI" = 4000000000%Z.
Proof.
  rewrite (proj1 (total_assets_are_held_plus_incoming Examples.lpPair Examples.lpCreditor)
             eq_refl "SUI").
  reflexivity.
Defined.

(** ** An LP obligation is a pair of coin obligations *)

Lemma sameOk_refl (A : Type) (r : Result A) : sameOk r r.
Proof. destruct r; simpl; auto. Qed.

Lemma sameOk_Ok (A : Type) (r1 r2 : Result A) :
  sameOk r1 r2 -> forall a, r1 = Ok a <-> r2 = Ok a.
Proof.
  destruct r1 as [x|e1], r2 as [y|e2]; simpl; intros H z; try contradiction.
  - subst. reflexivity.
  - split; intros E; discriminate E.
Qed.

Lemma sameOk_bind (A B : Type) (r1 r2 : Result A) (k1 k2 : A -> Result B) :
  sameOk r1 r2 -> (forall a, sameOk (k1 a) (k2 a)) -> sameOk (bind r1 k1) (bind r2 k2).
Proof.
  destruct r1 as [x|e1], r2 as [y|e2]; simpl; intros H K; try contradiction; auto.
  subst. apply K.
Qed.

Lemma flattenObligations_app pm l1 l2 :
  flattenObligations pm (l1 ++ l2)
  = (a <- flattenObligations pm l1 ;; b <- flattenObligations pm l2 ;; Ok (a ++ b)).
Proof.
  induction l1 as [|ob l1 IH]; simpl.
  - destruct (flattenObligations pm l2); reflexivity.
  - rewrite IH. destruct (flattenObligation pm ob) as [x|]; simpl; [|reflexivity].
    destruct (flattenObligations pm l1) as [a|]; simpl; [|reflexivity].
    destruct (flattenObligations pm l2) as [b|]; simpl; [|reflexivity].
    now rewrite app_assoc.
Qed.

Lemma flattenObligation_split pm ob :
  sameOk (flattenObligations pm (splitObligation ob)) (flattenObligation pm ob).
Proof.
  unfold splitObligation, flattenObligation.
  destruct (asset ob) as [coin i | coinA coinB iA iB] eqn:Ea; simpl.
  - unfold flattenObligation. rewrite Ea.
    destruct (JsMap.get pm (typeName coin)); simpl; auto.
  - unfold flattenObligation. simpl.
    destruct (JsMap.get pm (typeName coinA)); simpl; auto;
      destruct (JsMap.get pm (typeName coinB)); simpl; auto.
Qed.

Lemma flattenObligations_split pm obs :
  sameOk (flattenObligations pm (flat_map splitObligation obs)) (flattenObligations pm obs).
Proof.
  induction obs as [|ob obs IH]; simpl; [reflexivity|].
  rewrite flattenObligations_app.
  apply sameOk_bind; [apply flattenObligation_split|].
  intros a. apply sameOk_bind; [exact IH|]. intros b. reflexivity.
Qed.

Lemma addAsset_split m coinA coinB iA iB :
  lpDistinct (LPAsset coinA coinB iA iB) = true ->
  addAsset (addAsset m (CoinAsset coinA iA)) (CoinAsset coinB iB)
  = addAsset m (LPAsset coinA coinB iA iB).
Proof.
  simpl. intros D. apply negb_true_iff in D. rewrite prevInt_set, D. reflexivity.
Qed.

Lemma addIncoming_split entity m other :
  forallb (fun ob => lpDistinct (asset ob)) (obligations other) = true ->
  addIncoming (splitEntity entity) m (splitEntity other) = addIncoming entity m other.
Proof.
  unfold addIncoming. simpl. generalize (obligations other) as obs. intros obs. revert m.
  induction obs as [|ob obs IH]; intros m D; simpl in *; [reflexivity|].
  apply andb_true_iff in D. destruct D as [Db Dl].
  rewrite fold_left_app, <- (IH _ Dl). f_equal.
  unfold splitObligation. destruct (asset ob) as [coin i | coinA coinB iA iB] eqn:Ea; simpl.
  - now rewrite Ea.
  - destruct (String.eqb (to ob) (id entity)); [|reflexivity].
    now apply addAsset_split.
Qed.

Lemma aggregateAssets_split entities entity :
  lpObligationsDistinct entities = true ->
  aggregateAssets (map splitEntity entities) (splitEntity entity)
  = aggregateAssets entities entity.
Proof.
  unfold aggregateAssets, lpObligationsDistinct. simpl.
  generalize (fold_left addAsset (holdings entity) []) as m.
  induction entities as [|other entities IH]; intros m D; simpl in *; [reflexivity|].
  apply andb_true_iff in D. destruct D as [Do Dl].
  rewrite addIncoming_split by assumption. now apply IH.
Qed.

Lemma entitySolvency_split entities pm entity :
  lpObligationsDistinct entities = true ->
  sameOk (entitySolvency (map splitEntity entities) pm (splitEntity entity))
         (entitySolvency entities pm entity).
Proof.
  intros D. unfold entitySolvency. rewrite aggregateAssets_split by assumption.
  cbn [obligations splitEntity id type name].
  apply sameOk_bind; [apply flattenObligations_split|].
  intros lines. apply sameOk_refl.
Qed.

Lemma firstPass_split entities pm :
  lpObligationsDistinct entities = true ->
  sameOk (firstPass (map splitEntity entities) pm) (firstPass entities pm).
Proof.
  intros D. unfold firstPass.
  generalize (@nil (string * EntitySolvencyData)) as acc.
  generalize entities at 2 4 as l.
  induction l as [|e l IH]; intros acc; simpl; [reflexivity|].
  unfold firstPassStep at 1 3.
  pose proof (entitySolvency_split entities pm e D) as S.
  destruct (entitySolvency (map splitEntity entities) pm (splitEntity e)) as [d1|];
    destruct (entitySolvency entities pm e) as [d2|]; simpl in *; try contradiction; auto.
  subst d2. apply IH.
Qed.

Lemma hasEdge_addEdge g a b : hasEdge (addEdge g a b) a b = true.
Proof.
  unfold hasEdge, addEdge. simpl. rewrite existsb_app. simpl.
  rewrite !String.eqb_refl. simpl. apply orb_true_r.
Qed.

Lemma addObligationEdge_twice entity g ob ob' :
  to ob' = to ob ->
  addObligationEdge entity (addObligationEdge entity g ob) ob'
  = addObligationEdge entity g ob.
Proof.
  intros E. unfold addObligationEdge at 2.
  destruct (hasNode g (id entity) && hasNode g (to ob)) eqn:N.
  - destruct (hasEdge g (id entity) (to ob)) eqn:He; simpl.
    + unfold addObligationEdge. now rewrite E, N, He.
    + unfold addObligationEdge. rewrite E.
      replace (hasNode (addEdge g (id entity) (to ob)) (id entity)
               && hasNode (addEdge g (id entity) (to ob)) (to ob)) with true
        by (symmetry; exact N).
      rewrite hasEdge_addEdge, N, He. reflexivity.
  - unfold addObligationEdge. now rewrite E, N.
Qed.

Lemma fold_addObligationEdge_split entity obs g :
  fold_left (addObligationEdge (splitEntity entity)) (flat_map splitObligation obs) g
  = fold_left (addObligationEdge entity) obs g.
Proof.
  revert g. induction obs as [|ob obs IH]; intros g; simpl; [reflexivity|].
  rewrite fold_left_app, <- IH. f_equal.
  unfold splitObligation. destruct (asset ob); simpl; [reflexivity|].
  now rewrite addObligationEdge_twice.
Qed.

Lemma buildGraph_split entities : buildGraph (map splitEntity entities) = buildGraph entities.
Proof.
  unfold buildGraph. rewrite map_map. simpl.
  change (map (fun x => id x) entities) with (map id entities).
  generalize ({| nodes := map id entities; edges := [] |}) as g.
  generalize entities as l.
  induction l as [|e l IH]; intros g; simpl; [reflexivity|].
  now rewrite fold_addObligationEdge_split, IH.
Qed.

Lemma set_set_eq (V : Type) (m : JsMap.t V) k v v' :
  JsMap.set (JsMap.set m k v) k v' = JsMap.set m k v'.
Proof.
  induction m as [|[k0 v0] m IH]; simpl.
  - now rewrite String.eqb_refl.
  - destruct (String.eqb k0 k) eqn:E; simpl; rewrite E; [reflexivity|now rewrite IH].
Qed.

Lemma has_set_eq (V : Type) (m : JsMap.t V) k v : JsMap.has (JsMap.set m k v) k = true.
Proof. unfold JsMap.has. now rewrite JsMapFacts.get_set_eq. Qed.

Lemma get_ensureCreditor m c :
  exists cur, JsMap.get (ensureCreditor m c) c = Some cur.
Proof.
  unfold ensureCreditor, JsMap.has.
  destruct (JsMap.get m c) as [cur|] eqn:G.
  - exists cur. exact G.
  - exists []. apply JsMapFacts.get_set_eq.
Qed.

Lemma ensureCreditor_set m c v : ensureCreditor (JsMap.set m c v) c = JsMap.set m c v.
Proof. unfold ensureCreditor. now rewrite has_set_eq. Qed.

Lemma addCreditorObligation_split m ob :
  fold_left addCreditorObligation (splitObligation ob) m = addCreditorObligation m ob.
Proof.
  unfold splitObligation.
  destruct (asset ob) as [coin i | coinA coinB iA iB] eqn:Ea; simpl; [reflexivity|].
  unfold addCreditorObligation. rewrite Ea. simpl.
  destruct (get_ensureCreditor m (to ob)) as [cur G]. rewrite G.
  rewrite ensureCreditor_set, JsMapFacts.get_set_eq.
  apply set_set_eq.
Qed.

Lemma obligationsByCreditor_split entity :
  obligationsByCreditor (splitEntity entity) = obligationsByCreditor entity.
Proof.
  unfold obligationsByCreditor. simpl.
  generalize (@nil (string * JsMap.t Qc)) as m.
  induction (obligations entity) as [|ob obs IH]; intros m; simpl; [reflexivity|].
  now rewrite fold_left_app, addCreditorObligation_split, IH.
Qed.

Lemma entities_get_split entities k :
  entities_get (map splitEntity entities) k
  = option_map splitEntity (entities_get entities k).
Proof.
  unfold entities_get. induction entities as [|e l IH]; simpl; [reflexivity|].
  destruct (String.eqb (id e) k); [reflexivity|exact IH].
Qed.

Lemma propagateInOrder_split order st entities pm :
  propagateInOrder order st (map splitEntity entities) pm
  = propagateInOrder order st entities pm.
Proof.
  unfold propagateInOrder. revert st.
  induction order as [|k order IH]; intros st; simpl; [reflexivity|].
  rewrite IH. f_equal. unfold propagateEntityShortfalls.
  rewrite entities_get_split.
  destruct (entities_get entities k) as [entity|]; simpl; [|reflexivity].
  now rewrite obligationsByCreditor_split.
Qed.

(** X21.  An LP obligation is treated exactly like two coin obligations
    to the same creditor, one for each of its coins: when the two coins
    of every LP obligation have different types, replacing each LP
    obligation by such a pair leaves the outcome of
    [checkEntitySolvency] unchanged (the same result, or an error in
    both cases). *)
Theorem lp_obligation_is_two_coin_obligations :
  forall (entities : list Entity) (priceMap : JsMap.t Qc),
    lpObligationsDistinct entities = true ->
    sameOk (checkEntitySolvency (map splitEntity entities) priceMap)
           (checkEntitySolvency entities priceMap)
    /\ forall r,
         checkEntitySolvency (map splitEntity entities) priceMap = Ok r
         <-> checkEntitySolvency entities priceMap = Ok r.
Proof.
  intros entities priceMap D.
  assert (S : sameOk (checkEntitySolvency (map splitEntity entities) priceMap)
                     (checkEntitySolvency entities priceMap)).
  { unfold checkEntitySolvency.
    apply sameOk_bind; [now apply firstPass_split|].
    intros st. unfold propagateShortfalls. rewrite buildGraph_split.
    destruct (hasCycle (buildGraph entities)); simpl; [exact I|].
    now rewrite propagateInOrder_split. }
  split; [exact S|]. now apply sameOk_Ok.
Qed.

Lemma lpPair_Ok :
  checkEntitySolvency Examples.lpPair Examples.priceMap
  = Ok (Examples.resultOf (checkEntitySolvency Examples.lpPair Examples.priceMap)).
Proof. vm_compute. reflexivity. Qed.

Lemma lp_obligation_is_two_coin_obligations_witness :
  checkEntitySolvency (map splitEntity Examples.lpPair) Examples.priceMap
  = Ok (Examples.resultOf (checkEntitySolvency Examples.lpPair Examples.priceMap)).
Proof.
  apply (proj2 (lp_obligation_is_two_coin_obligations Examples.lpPair Examples.priceMap
                  eq_refl)).
  exact lpPair_Ok.
Defined.

(** ** The debtor of an obligation is the entity that lists it *)

Section FromIgnored.
Variable f : Obligation -> string.

Lemma flattenObligations_relabel pm obs :
  flattenObligations pm (map (setFrom f) obs) = flattenObligations pm obs.
Proof.
  induction obs as [|ob obs IH]; simpl; [reflexivity|]. now rewrite IH.
Qed.

Lemma addIncoming_relabel entity m other :
  addIncoming (relabelFrom f entity) m (relabelFrom f other) = addIncoming entity m other.
Proof.
  unfold addIncoming. simpl. generalize (obligations other) as obs. intros obs. revert m.
  induction obs as [|ob obs IH]; intros m; simpl; [reflexivity|]. apply IH.
Qed.

Lemma aggregateAssets_relabel entities entity :
  aggregateAssets (map (relabelFrom f) entities) (relabelFrom f entity)
  = aggregateAssets entities entity.
Proof.
  unfold aggregateAssets. simpl.
  generalize (fold_left addAsset (holdings entity) []) as m.
  induction entities as [|other entities IH]; intros m; simpl; [reflexivity|].
  now rewrite addIncoming_relabel, IH.
Qed.

Lemma entitySolvency_relabel entities pm entity :
  entitySolvency (map (relabelFrom f) entities) pm (relabelFrom f entity)
  = entitySolvency entities pm entity.
Proof.
  unfold entitySolvency. rewrite aggregateAssets_relabel.
  cbn [obligations relabelFrom id type name].
  now rewrite flattenObligations_relabel.
Qed.

Lemma firstPass_relabel entities pm :
  firstPass (map (relabelFrom f) entities) pm = firstPass entities pm.
Proof.
  unfold firstPass.
  generalize (@nil (string * EntitySolvencyData)) as acc.
  generalize entities at 2 4 as l.
  induction l as [|e l IH]; intros acc; simpl; [reflexivity|].
  unfold firstPassStep at 1 3. rewrite entitySolvency_relabel.
  destruct (entitySolvency entities pm e) as [d|]; simpl; [apply IH|reflexivity].
Qed.

Lemma buildGraph_relabel entities :
  buildGraph (map (relabelFrom f) entities) = buildGraph entities.
Proof.
  unfold buildGraph. rewrite map_map. simpl.
  change (map (fun x => id x) entities) with (map id entities).
  generalize ({| nodes := map id entities; edges := [] |}) as g.
  generalize entities as l.
  induction l as [|e l IH]; intros g; simpl; [reflexivity|].
  rewrite IH. f_equal. generalize (obligations e) as obs. intros obs. revert g.
  induction obs as [|ob obs IHo]; intros g; simpl; [reflexivity|]. apply IHo.
Qed.

Lemma obligationsByCreditor_relabel entity :
  obligationsByCreditor (relabelFrom f entity) = obligationsByCreditor entity.
Proof.
  unfold obligationsByCreditor. simpl.
  generalize (@nil (string * JsMap.t Qc)) as m.
  induction (obligations entity) as [|ob obs IH]; intros m; simpl; [reflexivity|].
  apply IH.
Qed.

Lemma entities_get_relabel entities k :
  entities_get (map (relabelFrom f) entities) k
  = option_map (relabelFrom f) (entities_get entities k).
Proof.
  unfold entities_get. induction entities as [|e l IH]; simpl; [reflexivity|].
  destruct (String.eqb (id e) k); [reflexivity|exact IH].
Qed.

Lemma propagateInOrder_relabel order st entities pm :
  propagateInOrder order st (map (relabelFrom f) entities) pm
  = propagateInOrder order st entities pm.
Proof.
  unfold propagateInOrder. revert st.
  induction order as [|k order IH]; intros st; simpl; [reflexivity|].
  rewrite IH. f_equal. unfold propagateEntityShortfalls.
  rewrite entities_get_relabel.
  destruct (entities_get entities k) as [entity|]; simpl; [|reflexivity].
  now rewrite obligationsByCreditor_relabel.
Qed.

(** X22.  [checkEntitySolvency] never reads the [from] field of an
    obligation: the debtor of an obligation is the entity whose
    [obligations] list holds it.  Rewriting the [from] fields in any way
    leaves the outcome (result or error) unchanged. *)
Theorem obligation_from_is_ignored :
  forall (entities : list Entity) (priceMap : JsMap.t Qc),
    checkEntitySolvency (map (relabelFrom f) entities) priceMap
    = checkEntitySolvency entities priceMap.
Proof.
  intros entities priceMap. unfold checkEntitySolvency.
  rewrite firstPass_relabel.
  destruct (firstPass entities priceMap) as [st|]; simpl; [|reflexivity].
  unfold propagateShortfalls. rewrite buildGraph_relabel.
  destruct (hasCycle (buildGraph entities)); simpl; [reflexivity|].
  now rewrite propagateInOrder_relabel.
Qed.

End FromIgnored.

(** ** The CLMM pools (util.ts) *)

Section BatchErrors.
Variables Data T E : Type.
Variable fetchObject : string -> option Data.
Variable deserializer : Data -> Util.Outcome E T.

(** An error of the deserializer comes from the data of a requested id. *)
Let raisedBy (ids : list string) (err : Util.BatchError E) : Prop :=
  (exists first, err = Util.NoDataFound first)
  \/ (exists id data e,
         In id ids /\ fetchObject id = Some data
         /\ deserializer data = Util.Throws e /\ err = Util.DeserializerError e).

Lemma pushAll_Throws first batch results err :
  Util.pushAll Data T E deserializer first (map fetchObject batch) results
  = Util.Throws err ->
  raisedBy batch err.
Proof.
  revert results. induction batch as [|id batch IH]; intros results; simpl; [discriminate|].
  destruct (fetchObject id) as [data|] eqn:F.
  - destruct (deserializer data) as [t|e] eqn:D.
    + intros H. destruct (IH _ H) as [N|[id' [data' [e' [Hin Hrest]]]]]; [now left|].
      right. exists id', data', e'. split; [now right|assumption].
    + intros [= <-]. right. exists id, data, e. repeat split; auto. now left.
  - intros [= <-]. left. now exists first.
Qed.

Lemma In_firstn_skipn (A : Type) (x : A) n i l : In x (firstn n (skipn i l)) -> In x l.
Proof.
  intros H. rewrite <- (firstn_skipn i l). apply in_or_app. right.
  rewrite <- (firstn_skipn n (skipn i l)). apply in_or_app. now left.
Qed.

Lemma batchLoop_Throws ids batchSize fuel :
  forall i results err,
    Util.batchLoop Data T E (map fetchObject) deserializer fuel ids batchSize i results
    = Some (Util.Throws err) ->
    raisedBy ids err.
Proof.
  induction fuel as [|fuel IH]; intros i results err; cbn [Util.batchLoop];
    destruct (Nat.ltb i (List.length ids)); try discriminate.
  destruct (Util.pushAll Data T E deserializer (nth_error ids i)
              (map fetchObject (firstn batchSize (skipn i ids))) results)
    as [results'|e] eqn:P.
  - apply IH.
  - intros [= <-]. destruct (pushAll_Throws _ _ _ _ P) as [N|[id [data [e' [Hin Hrest]]]]];
      [now left|].
    right. exists id, data, e'. split; [|assumption].
    now apply In_firstn_skipn in Hin.
Qed.

End BatchErrors.

Section ClmmFacts.
Variables Data Reified PoolData E : Type.
Variable POSITION_CONFIG_INFOS : list (Util.PositionConfigInfo Reified).
Variable fetchObject : string -> option Data.
Variable objectId : Data -> string.
Variable fromSuiObjectData : Reified -> Data -> Util.Outcome E PoolData.

Let infoOf (c : Util.PositionConfigInfo Reified) : Util.PoolInfo Reified :=
  {| Util.poolId := Util.poolObjectId Reified c;
     Util.info_poolReified := Util.poolReified Reified c;
     Util.info_X := Util.X Reified c;
     Util.info_Y := Util.Y Reified c |}.

Let step (m : JsMap.t (Util.PoolInfo Reified)) (c : Util.PositionConfigInfo Reified) :=
  if JsMap.has m (Util.poolObjectId Reified c) then m
  else JsMap.set m (Util.poolObjectId Reified c) (infoOf c).

(** The first configuration of a pool. *)
Let firstConfig (configs : list (Util.PositionConfigInfo Reified)) (k : string) :=
  find (fun c => String.eqb (Util.poolObjectId Reified c) k) configs.

Lemma poolInfos_fold_get configs m k :
  JsMap.get (fold_left step configs m) k
  = match JsMap.get m k with
    | Some info => Some info
    | None => option_map infoOf (firstConfig configs k)
    end.
Proof.
  revert m. induction configs as [|c configs IH]; intros m; simpl.
  - now destruct (JsMap.get m k).
  - rewrite IH. unfold step, firstConfig, JsMap.has. simpl.
    destruct (JsMap.get m (Util.poolObjectId Reified c)) as [info|] eqn:Gc.
    + destruct (String.eqb_spec (Util.poolObjectId Reified c) k) as [Ek|N].
      * rewrite <- Ek, Gc. reflexivity.
      * reflexivity.
    + rewrite JsMapFacts.get_set.
      destruct (String.eqb_spec (Util.poolObjectId Reified c) k) as [Ek|N].
      * rewrite <- Ek, Gc. reflexivity.
      * reflexivity.
Qed.

Lemma poolInfosMap_get k :
  JsMap.get (Util.poolInfosMap Reified POSITION_CONFIG_INFOS) k
  = option_map infoOf (firstConfig POSITION_CONFIG_INFOS k).
Proof. apply (poolInfos_fold_get POSITION_CONFIG_INFOS [] k). Qed.

Lemma has_existsb (V : Type) (m : JsMap.t V) k :
  JsMap.has m k = existsb (String.eqb k) (JsMap.keys m).
Proof.
  unfold JsMap.has. induction m as [|[k0 v0] m IH]; simpl; [reflexivity|].
  rewrite (String.eqb_sym k k0). destruct (String.eqb k0 k); [reflexivity|exact IH].
Qed.

Lemma poolInfos_fold_keys configs m :
  JsMap.keys (fold_left step configs m)
  = fold_left (fun acc x => if existsb (String.eqb x) acc then acc else acc ++ [x])
      (map (Util.poolObjectId Reified) configs) (JsMap.keys m).
Proof.
  revert m. induction configs as [|c configs IH]; intros m; simpl; [reflexivity|].
  rewrite IH. f_equal. unfold step. rewrite has_existsb.
  destruct (existsb (String.eqb (Util.poolObjectId Reified c)) (JsMap.keys m)) eqn:Ex;
    [reflexivity|].
  apply JsMapFacts.keys_set_absent. intros Hin.
  apply Bool.not_true_iff_false in Ex. apply Ex.
  apply existsb_exists. exists (Util.poolObjectId Reified c). split; [assumption|].
  apply String.eqb_refl.
Qed.

Lemma poolIds_dedup :
  Util.poolIds Reified POSITION_CONFIG_INFOS
  = MainSetup.dedup (map (Util.poolObjectId Reified) POSITION_CONFIG_INFOS).
Proof. apply (poolInfos_fold_keys POSITION_CONFIG_INFOS []). Qed.

Lemma poolIds_have_info id :
  In id (Util.poolIds Reified POSITION_CONFIG_INFOS) ->
  exists c, firstConfig POSITION_CONFIG_INFOS id = Some c.
Proof.
  intros Hin. destruct (firstConfig POSITION_CONFIG_INFOS id) as [c|] eqn:F; [eauto|].
  exfalso. pose proof (poolInfosMap_get id) as G. rewrite F in G. simpl in G.
  apply JsMapFacts.get_None_iff in G. now apply G.
Qed.

(** X24.  [getAllClmmPools] requests every pool once, in the order in
    which the pools first occur in [POSITION_CONFIG_INFOS], and builds
    each pool from the first configuration that names it.  With a client
    that answers a request with the objects of the requested ids, it
    terminates and never throws `Pool reified not found`. *)
Theorem clmm_pools_use_first_config :
  (forall id data, fetchObject id = Some data -> objectId data = id) ->
  Util.poolIds Reified POSITION_CONFIG_INFOS
  = MainSetup.dedup (map (Util.poolObjectId Reified) POSITION_CONFIG_INFOS)
  /\ exists outcome,
       Util.getAllClmmPools Data Reified PoolData E POSITION_CONFIG_INFOS
         (map fetchObject) objectId fromSuiObjectData
         (List.length (Util.poolIds Reified POSITION_CONFIG_INFOS))
       = Some outcome
       /\ (forall id,
              outcome
              <> Util.Throws (Util.DeserializerError (Util.PoolReifiedNotFound E id)))
       /\ forall pools,
            outcome = Util.Returns pools ->
            Forall2
              (fun id pool =>
                 exists c data,
                   firstConfig POSITION_CONFIG_INFOS id = Some c
                   /\ fetchObject id = Some data
                   /\ fromSuiObjectData (Util.poolReified Reified c) data
                      = Util.Returns (Util.pool_data Reified PoolData pool)
                   /\ Util.pool_reified Reified PoolData pool = Util.poolReified Reified c
                   /\ Util.pool_X Reified PoolData pool = Util.X Reified c
                   /\ Util.pool_Y Reified PoolData pool = Util.Y Reified c)
              (Util.poolIds Reified POSITION_CONFIG_INFOS) pools.
Proof.
  intros Hid. split; [apply poolIds_dedup|].
  set (ids := Util.poolIds Reified POSITION_CONFIG_INFOS).
  set (des := Util.clmmDeserializer Data Reified PoolData E POSITION_CONFIG_INFOS
                objectId fromSuiObjectData).
  destruct (batchLoop_spec Data _ _ fetchObject des ids 50 ltac:(lia)
              (List.length ids) 0 [] ltac:(lia) (Forall2_nil _)) as [outcome [Eo Ho]].
  exists outcome. split; [exact Eo|]. split.
  - intros id Ex. rewrite Ex in Eo.
    destruct (batchLoop_Throws Data _ _ fetchObject des ids 50 (List.length ids) 0 [] _ Eo)
      as [[first N]|[id' [data [e [Hin [F [D Ee]]]]]]]; [discriminate N|].
    injection Ee as <-.
    unfold des, Util.clmmDeserializer in D. rewrite (Hid _ _ F), poolInfosMap_get in D.
    destruct (poolIds_have_info id' Hin) as [c Fc]. rewrite Fc in D. simpl in D.
    destruct (fromSuiObjectData (Util.poolReified Reified c) data); discriminate D.
  - intros pools Ep. apply Ho in Ep.
    eapply Forall2_impl; [|exact Ep]. intros id pool [data [F D]]. simpl in D.
    unfold des, Util.clmmDeserializer in D. rewrite (Hid _ _ F), poolInfosMap_get in D.
    destruct (firstConfig POSITION_CONFIG_INFOS id) as [c|] eqn:Fc; simpl in D;
      [|discriminate D].
    destruct (fromSuiObjectData (Util.poolReified Reified c) data) as [poolData|e] eqn:Fd;
      [|discriminate D].
    injection D as <-. exists c, data. simpl. repeat split; assumption || reflexivity.
Qed.

End ClmmFacts.

(** Three configurations over two pools; the ids are their own data. *)
Lemma clmm_pools_use_first_config_witness :
  exists outcome,
    Util.getAllClmmPools string nat nat unit
      [ {| Util.poolObjectId := "p1"; Util.poolReified := 1%nat;
           Util.X := Examples.USDC; Util.Y := Examples.SUI |};
        {| Util.poolObjectId := "p2"; Util.poolReified := 2%nat;
           Util.X := Examples.SUI; Util.Y := Examples.DEEP |};
        {| Util.poolObjectId := "p1"; Util.poolReified := 3%nat;
           Util.X := Examples.SUI; Util.Y := Examples.USDC |} ]
      (map (fun id => Some id)) (fun data => data)
      (fun reified data => Util.Returns (reified + String.length data)%nat) 2
    = Some outcome
    /\ forall id,
         outcome
         <> Util.Throws (Util.DeserializerError (Util.PoolReifiedNotFound unit id)).
Proof.
  destruct (clmm_pools_use_first_config string nat nat unit
              [ {| Util.poolObjectId := "p1"; Util.poolReified := 1%nat;
                   Util.X := Examples.USDC; Util.Y := Examples.SUI |};
                {| Util.poolObjectId := "p2"; Util.poolReified := 2%nat;
                   Util.X := Examples.SUI; Util.Y := Examples.DEEP |};
                {| Util.poolObjectId := "p1"; Util.poolReified := 3%nat;
                   Util.X := Examples.SUI; Util.Y := Examples.USDC |} ]
              (fun id => Some id) (fun data => data)
              (fun reified data => Util.Returns (reified + String.length data)%nat))
    as [_ [outcome [Eo [Hn _]]]].
  - intros id data [= <-]. reflexivity.
  - exists outcome. split; [exact Eo|exact Hn].
Defined.

(** The two pools of the three configurations above, each with the
    reified class and the coins of its first configuration. *)
Lemma clmm_pools_example :
  Util.getAllClmmPools string nat nat unit
    [ {| Util.poolObjectId := "p1"; Util.poolReified := 1%nat;
         Util.X := Examples.USDC; Util.Y := Examples.SUI |};
      {| Util.poolObjectId := "p2"; Util.poolReified := 2%nat;
         Util.X := Examples.SUI; Util.Y := Examples.DEEP |};
      {| Util.poolObjectId := "p1"; Util.poolReified := 3%nat;
         Util.X := Examples.SUI; Util.Y := Examples.USDC |} ]
    (map (fun id => Some id)) (fun data => data)
    (fun reified data => Util.Returns (reified + String.length data)%nat) 2
  = Some (Util.Returns
            [ {| Util.pool_reified := 1%nat; Util.pool_X := Examples.USDC;
                 Util.pool_Y := Examples.SUI; Util.pool_data := 3%nat |};
              {| Util.pool_reified := 2%nat; Util.pool_X := Examples.SUI;
                 Util.pool_Y := Examples.DEEP; Util.pool_data := 4%nat |} ]).
Proof. reflexivity. Qed.

(** * The run on machine numbers: where rounding shows *)

Section MachineFacts.
Import PrimFloat.

(** The conversions agree with the literals of the language: 0.1, 0.3
    and 1e-9 are read as the nearest numbers, [String] prints 0.1 + 0.2
    as 0.30000000000000004 and 2^60 as 1152921504606847000, and a
    quotient of decimals is cut to 20 significant digits. *)
Lemma number_conversions :
  Number.ofQ (1 # 10) = 0x1.999999999999ap-4%float
  /\ Number.ofQ (3 # 10) = 0x1.3333333333333p-2%float
  /\ Number.ofQ (1 # 1000000000) = 0x1.12e0be826d695p-30%float
  /\ Number.ofQ (inject_Z (2 ^ 53 + 1)) = 9007199254740992%float
  /\ Decimal.ofNumber 0x1.999999999999ap-4%float = Q2Qc (1 # 10)
  /\ Decimal.ofNumber (0x1.999999999999ap-4 + 0x1.999999999999ap-3)%float
     = Q2Qc (30000000000000004 # 100000000000000000)
  /\ Decimal.ofNumber 1152921504606846976%float = Z2Qc 1152921504606847000
  /\ Decimal.div (Z2Qc 6000) (Z2Qc 503)
     = Q2Qc (11928429423459244533 # 1000000000000000000).
Proof.
  repeat split; try (vm_compute; reflexivity); apply Qc_is_canon; vm_compute; reflexivity.
Qed.

(** C2.  The first pass values the liabilities through
    [amount.toNumber()] and the deficit through [amount.toDecimal()].
    For a debtor that holds nothing and owes [2^53 + 1] units of a token
    without decimals, priced at 3, the run reports
    [totalLiabilitiesUsd = 27021597764222976] (from the number [2^53]),
    [totalAssetsUsd = 0] and [shortfallUsd = 27021597764222980] (the
    number nearest to [3 * (2^53 + 1)]): [shortfallUsd] is not
    [max(0, totalLiabilitiesUsd - totalAssetsUsd)].  On exact rationals
    the liabilities and the shortfall are both [3 * (2^53 + 1)] and the
    equation holds. *)
Theorem shortfall_differs_from_net_deficit :
  (exists d,
      Machine.detailsOf
        (Machine.checkEntitySolvency MachineExamples.bigDebt MachineExamples.unitPrices)
        "debtor" = Some d
      /\ Machine.totalAssetsUsd d = 0%float
      /\ Machine.totalLiabilitiesUsd d = 27021597764222976%float
      /\ Machine.shortfallUsd d = 27021597764222980%float
      /\ (let deficit := (Machine.totalLiabilitiesUsd d - Machine.totalAssetsUsd d)%float in
          PrimFloat.eqb (Machine.shortfallUsd d)
            (if Number.gt0 deficit then deficit else 0%float) = false))
  /\ (exists r d,
        checkEntitySolvency MachineExamples.bigDebt MachineExamples.unitPrices = Ok r
        /\ detailsOf r "debtor" = Some d
        /\ totalAssetsUsd d = 0
        /\ totalLiabilitiesUsd d = Z2Qc (3 * (2 ^ 53 + 1))
        /\ shortfallUsd d = Z2Qc (3 * (2 ^ 53 + 1))).
Proof.
  split.
  - eexists. split; [vm_compute; reflexivity|]. repeat split; vm_compute; reflexivity.
  - eexists. eexists. split; [vm_compute; reflexivity|].
    split; [vm_compute; reflexivity|]. repeat split; qc_eval.
Qed.



End MachineFacts.

(** * The second pass on machine numbers: what is recorded *)

(** ** Recording a shortfall *)

Lemma machine_hasCoin_bumpShortfall ct x u e s c :
  Machine.hasCoin (Machine.shortfalls (Machine.bumpShortfall ct x u e s)) c
  = Machine.hasCoin (Machine.shortfalls s) c || String.eqb c ct.
Proof.
  unfold Machine.hasCoin, Machine.bumpShortfall. cbn [Machine.shortfalls].
  destruct (find (fun d => String.eqb (Machine.coinType d) ct) (Machine.shortfalls s)) eqn:F.
  - destruct (String.eqb_spec c ct) as [->|N].
    + rewrite find_updateFirst_same by (intros d Hd; exact Hd).
      rewrite F. simpl. reflexivity.
    + rewrite find_updateFirst_other; [now rewrite orb_false_r|].
      intros d Hd. apply String.eqb_eq in Hd. cbn [Machine.bumpDetail Machine.coinType].
      split; apply String.eqb_neq; congruence.
  - rewrite find_snoc. cbn [Machine.newDetail Machine.coinType].
    destruct (find (fun d => String.eqb (Machine.coinType d) c) (Machine.shortfalls s)) eqn:G;
      [reflexivity|].
    rewrite (String.eqb_sym ct c). now destruct (String.eqb c ct).
Qed.

Lemma machine_hasDetail_recordShortfall key ct x u e l k c :
  Machine.hasDetail (Machine.recordShortfall key ct x u e l) k c
  = Machine.hasDetail l k c || (String.eqb k key && String.eqb c ct).
Proof.
  unfold Machine.hasDetail, Machine.detailOf, Machine.recordShortfall.
  destruct (find (fun s => String.eqb (Machine.owesTo s) key) l) as [s0|] eqn:F.
  - destruct (String.eqb_spec k key) as [->|N].
    + rewrite find_updateFirst_same by (intros s Hs; exact Hs).
      rewrite F. cbn [option_map andb].
      exact (machine_hasCoin_bumpShortfall ct x u e s0 c).
    + rewrite find_updateFirst_other; [now rewrite orb_false_r|].
      intros s Hs. apply String.eqb_eq in Hs. cbn [Machine.bumpShortfall Machine.owesTo].
      split; apply String.eqb_neq; congruence.
  - rewrite find_snoc. cbn [Machine.owesTo].
    destruct (find (fun s => String.eqb (Machine.owesTo s) k) l) as [s1|] eqn:G.
    + destruct (String.eqb_spec k key) as [->|N]; [congruence|now rewrite orb_false_r].
    + rewrite (String.eqb_sym key k). destruct (String.eqb k key); [|reflexivity].
      cbn [Machine.shortfalls Machine.newDetail find Machine.coinType andb orb].
      rewrite (String.eqb_sym ct c). now destruct (String.eqb c ct).
Qed.

Lemma machine_listOk_recordShortfall key ct x u e l :
  Machine.listOk l -> Machine.listOk (Machine.recordShortfall key ct x u e l).
Proof.
  intros [ND NE]. unfold Machine.recordShortfall.
  destruct (find (fun s => String.eqb (Machine.owesTo s) key) l) as [s0|] eqn:F.
  - split.
    + rewrite map_updateFirst by reflexivity. exact ND.
    + apply Forall_updateFirst; [|exact NE].
      intros s Hs. unfold Machine.bumpShortfall. cbn [Machine.shortfalls].
      destruct (find _ (Machine.shortfalls s)).
      * destruct (Machine.shortfalls s) as [|d ds]; [congruence|].
        simpl. destruct (String.eqb _ _); discriminate.
      * destruct (Machine.shortfalls s); discriminate.
  - split.
    + rewrite map_app. cbn [map Machine.owesTo].
      apply NoDup_snoc; [exact ND|].
      intros Hin. apply in_map_iff in Hin. destruct Hin as [s [Es Hs]].
      pose proof (find_none _ _ F s Hs) as Q. cbn beta in Q.
      rewrite Es, String.eqb_refl in Q. discriminate Q.
    + apply Forall_app. split; [exact NE|]. constructor; [|constructor].
      cbn [Machine.shortfalls]. discriminate.
Qed.

(** ** Updating a record of the state *)

Lemma machine_set_same (V : Type) (m : JsMap.t V) k v :
  JsMap.get m k = Some v -> JsMap.set m k v = m.
Proof.
  induction m as [|[k0 v0] m IH]; simpl; [discriminate|].
  destruct (String.eqb_spec k0 k) as [->|N].
  - now intros [= ->].
  - intros H. now rewrite IH.
Qed.

Lemma machine_get_update st k f k' :
  JsMap.get (Machine.update st k f) k'
  = if String.eqb k k' then option_map f (JsMap.get st k) else JsMap.get st k'.
Proof.
  unfold Machine.update. destruct (JsMap.get st k) as [d|] eqn:G.
  - rewrite JsMapFacts.get_set. destruct (String.eqb k k'); reflexivity.
  - destruct (String.eqb_spec k k') as [<-|N]; [now rewrite G|reflexivity].
Qed.

Lemma machine_statics_update st k f :
  (forall d, Machine.blank (f d) = Machine.blank d) ->
  Machine.statics (Machine.update st k f) = Machine.statics st.
Proof.
  intros Hf. unfold Machine.update. destruct (JsMap.get st k) as [d|] eqn:G; [|reflexivity].
  unfold Machine.statics. revert G.
  induction st as [|[k0 d0] st IH]; simpl; [discriminate|].
  destruct (String.eqb_spec k0 k) as [->|N]; simpl.
  - intros [= ->]. now rewrite Hf.
  - intros G. now rewrite IH.
Qed.

Lemma machine_statics_get st k :
  JsMap.get (Machine.statics st) k = option_map Machine.blank (JsMap.get st k).
Proof.
  unfold Machine.statics. induction st as [|[k0 d0] st IH]; simpl; [reflexivity|].
  destruct (String.eqb k0 k); [reflexivity|exact IH].
Qed.

Lemma machine_statics_present st st' :
  Machine.statics st = Machine.statics st' -> Machine.present st = Machine.present st'.
Proof.
  intros H. apply functional_extensionality. intros c.
  unfold Machine.present, JsMap.has.
  pose proof (machine_statics_get st c) as E. rewrite H, machine_statics_get in E.
  destruct (JsMap.get st c), (JsMap.get st' c); simpl in E; congruence.
Qed.

Lemma machine_statics_hasLiabilities st st' :
  Machine.statics st = Machine.statics st' ->
  Machine.hasLiabilities st = Machine.hasLiabilities st'.
Proof.
  intros H. apply functional_extensionality. intros c.
  unfold Machine.hasLiabilities.
  pose proof (machine_statics_get st c) as E. rewrite H, machine_statics_get in E.
  destruct (JsMap.get st c) as [d|], (JsMap.get st' c) as [d'|]; cbn [option_map] in E;
    try congruence.
  assert (E' : Machine.blank d' = Machine.blank d) by congruence. clear E.
  rename E' into E. apply (f_equal Machine.totalLiabilities) in E.
  cbn in E. now rewrite E.
Qed.

Lemma machine_statics_keys st : JsMap.keys (Machine.statics st) = JsMap.keys st.
Proof.
  unfold Machine.statics, JsMap.keys. rewrite map_map. reflexivity.
Qed.

Lemma machine_listsOk_update st k f :
  (forall d,
      Machine.listOk (Machine.shortfallsReceived d)
      /\ Machine.listOk (Machine.shortfallsCaused d)
      /\ NoDup (JsMap.keys (Machine.shortfallsByCoin d)) ->
      Machine.listOk (Machine.shortfallsReceived (f d))
      /\ Machine.listOk (Machine.shortfallsCaused (f d))
      /\ NoDup (JsMap.keys (Machine.shortfallsByCoin (f d)))) ->
  Machine.listsOk st -> Machine.listsOk (Machine.update st k f).
Proof.
  intros Hf H k' d. rewrite machine_get_update.
  destruct (String.eqb k k').
  - destruct (JsMap.get st k) as [d0|] eqn:G; simpl; [|discriminate].
    intros [= <-]. apply Hf. now apply (H k).
  - apply H.
Qed.

(** ** One allocation *)

Lemma machine_allocateToCreditor_updates e ct s su T st c obs :
  Machine.allocateToCreditor e ct s su T st (c, obs)
  = if Number.gt0 (Machine.getOr0 obs ct) && Machine.present st c then
      let proportion := PrimFloat.div (Machine.getOr0 obs ct) T in
      let cs := PrimFloat.mul s proportion in
      let csu := PrimFloat.mul su proportion in
      Machine.update
        (Machine.update
           (Machine.update st c
              (fun d => Machine.set_shortfallsReceived d
                          (Machine.recordShortfall e ct cs csu e (Machine.shortfallsReceived d))))
           e
           (fun d => Machine.set_shortfallsCaused d
                       (Machine.recordShortfall c ct cs csu e (Machine.shortfallsCaused d))))
        c
        (fun d =>
           if Nat.ltb 0 (List.length (Machine.totalLiabilities d)) then
             Machine.set_shortfallsByCoin d
               (JsMap.set (Machine.shortfallsByCoin d) ct
                  (PrimFloat.add (Machine.getOr0 (Machine.shortfallsByCoin d) ct) cs))
           else d)
    else st.
Proof.
  unfold Machine.allocateToCreditor, Machine.present, JsMap.has. cbn [fst snd].
  destruct (Number.gt0 (Machine.getOr0 obs ct)); cbn [andb]; [|reflexivity].
  destruct (JsMap.get st c) as [cd|] eqn:Gc; [|reflexivity].
  cbv zeta.
  unfold Machine.update at 3. rewrite Gc.
  unfold Machine.update at 2.
  destruct (JsMap.get (JsMap.set st c _) e) as [data|] eqn:Ge.
  - unfold Machine.update.
    destruct (JsMap.get (JsMap.set (JsMap.set st c _) e _) c) as [cd'|] eqn:Gc'; [|reflexivity].
    destruct (Nat.ltb 0 (List.length (Machine.totalLiabilities cd'))); [reflexivity|].
    symmetry. now apply machine_set_same.
  - unfold Machine.update.
    destruct (JsMap.get (JsMap.set st c _) c) as [cd'|] eqn:Gc'; [|reflexivity].
    destruct (Nat.ltb 0 (List.length (Machine.totalLiabilities cd'))); [reflexivity|].
    symmetry. now apply machine_set_same.
Qed.

Lemma machine_has_set (V : Type) (m : JsMap.t V) k v k' :
  JsMap.has (JsMap.set m k v) k' = String.eqb k k' || JsMap.has m k'.
Proof.
  unfold JsMap.has. rewrite JsMapFacts.get_set. now destruct (String.eqb k k').
Qed.

Lemma machine_received_update_same st k f :
  (forall d, Machine.shortfallsReceived (f d) = Machine.shortfallsReceived d) ->
  Machine.f_received (Machine.flags (Machine.update st k f))
  = Machine.f_received (Machine.flags st).
Proof.
  intros Hf. apply functional_extensionality. intros x.
  cbn [Machine.flags Machine.f_received]. rewrite machine_get_update.
  destruct (String.eqb_spec k x) as [->|N]; [|reflexivity].
  destruct (JsMap.get st x); cbn [option_map]; [now rewrite Hf|reflexivity].
Qed.

Lemma machine_caused_update_same st k f :
  (forall d, Machine.shortfallsCaused (f d) = Machine.shortfallsCaused d) ->
  Machine.f_caused (Machine.flags (Machine.update st k f))
  = Machine.f_caused (Machine.flags st).
Proof.
  intros Hf. apply functional_extensionality. intros x.
  cbn [Machine.flags Machine.f_caused]. rewrite machine_get_update.
  destruct (String.eqb_spec k x) as [->|N]; [|reflexivity].
  destruct (JsMap.get st x); cbn [option_map]; [now rewrite Hf|reflexivity].
Qed.

Lemma machine_short_update_same st k f :
  (forall d, Machine.shortfallsByCoin (f d) = Machine.shortfallsByCoin d) ->
  Machine.f_short (Machine.flags (Machine.update st k f))
  = Machine.f_short (Machine.flags st).
Proof.
  intros Hf. apply functional_extensionality. intros x.
  cbn [Machine.flags Machine.f_short]. rewrite machine_get_update.
  destruct (String.eqb_spec k x) as [->|N]; [|reflexivity].
  destruct (JsMap.get st x); cbn [option_map]; [now rewrite Hf|reflexivity].
Qed.

Lemma machine_received_update st c e ct cs csu x y z :
  Machine.f_received
    (Machine.flags
       (Machine.update st c
          (fun d => Machine.set_shortfallsReceived d
                      (Machine.recordShortfall e ct cs csu e (Machine.shortfallsReceived d)))))
    x y z
  = Machine.f_received (Machine.flags st) x y z
    || (Machine.present st c && String.eqb x c && String.eqb y e && String.eqb z ct).
Proof.
  cbn [Machine.flags Machine.f_received]. rewrite machine_get_update.
  unfold Machine.present, JsMap.has.
  destruct (String.eqb_spec c x) as [->|N].
  - rewrite String.eqb_refl.
    destruct (JsMap.get st x) as [d|]; cbn [option_map andb]; [|reflexivity].
    cbn [Machine.set_shortfallsReceived Machine.shortfallsReceived].
    apply machine_hasDetail_recordShortfall.
  - assert (E : String.eqb x c = false) by (apply String.eqb_neq; congruence).
    rewrite E, andb_false_r. cbn [andb]. now rewrite orb_false_r.
Qed.

Lemma machine_caused_update st c e ct cs csu y x z :
  Machine.f_caused
    (Machine.flags
       (Machine.update st e
          (fun d => Machine.set_shortfallsCaused d
                      (Machine.recordShortfall c ct cs csu e (Machine.shortfallsCaused d)))))
    y x z
  = Machine.f_caused (Machine.flags st) y x z
    || (Machine.present st e && String.eqb y e && String.eqb x c && String.eqb z ct).
Proof.
  cbn [Machine.flags Machine.f_caused]. rewrite machine_get_update.
  unfold Machine.present, JsMap.has.
  destruct (String.eqb_spec e y) as [->|N].
  - rewrite String.eqb_refl.
    destruct (JsMap.get st y) as [d|]; cbn [option_map andb]; [|reflexivity].
    cbn [Machine.set_shortfallsCaused Machine.shortfallsCaused].
    apply machine_hasDetail_recordShortfall.
  - assert (E : String.eqb y e = false) by (apply String.eqb_neq; congruence).
    rewrite E, andb_false_r. cbn [andb]. now rewrite orb_false_r.
Qed.

Lemma machine_short_update st c ct cs x z :
  Machine.f_short
    (Machine.flags
       (Machine.update st c
          (fun d =>
             if Nat.ltb 0 (List.length (Machine.totalLiabilities d)) then
               Machine.set_shortfallsByCoin d
                 (JsMap.set (Machine.shortfallsByCoin d) ct
                    (PrimFloat.add (Machine.getOr0 (Machine.shortfallsByCoin d) ct) cs))
             else d)))
    x z
  = Machine.f_short (Machine.flags st) x z
    || (Machine.hasLiabilities st c && String.eqb x c && String.eqb z ct).
Proof.
  cbn [Machine.flags Machine.f_short]. rewrite machine_get_update.
  unfold Machine.hasLiabilities.
  destruct (String.eqb_spec c x) as [->|N].
  - rewrite String.eqb_refl.
    destruct (JsMap.get st x) as [d|]; cbn [option_map andb]; [|reflexivity].
    destruct (Nat.ltb 0 (List.length (Machine.totalLiabilities d))); cbn [andb].
    + cbn [Machine.set_shortfallsByCoin Machine.shortfallsByCoin].
      rewrite machine_has_set, (String.eqb_sym ct z). apply orb_comm.
    + now rewrite orb_false_r.
  - assert (E : String.eqb x c = false) by (apply String.eqb_neq; congruence).
    rewrite E, andb_false_r. cbn [andb]. now rewrite orb_false_r.
Qed.

Lemma machine_allocateToCreditor_spec e ct s su T st c obs :
  let g := Number.gt0 (Machine.getOr0 obs ct) && Machine.present st c in
  let st' := Machine.allocateToCreditor e ct s su T st (c, obs) in
  Machine.statics st' = Machine.statics st
  /\ (Machine.listsOk st -> Machine.listsOk st')
  /\ (forall x y z,
         Machine.f_received (Machine.flags st') x y z
         = Machine.f_received (Machine.flags st) x y z
           || (g && String.eqb x c && String.eqb y e && String.eqb z ct))
  /\ (forall y x z,
         Machine.f_caused (Machine.flags st') y x z
         = Machine.f_caused (Machine.flags st) y x z
           || (g && Machine.present st e && String.eqb y e && String.eqb x c
               && String.eqb z ct))
  /\ (forall x z,
         Machine.f_short (Machine.flags st') x z
         = Machine.f_short (Machine.flags st) x z
           || (g && Machine.hasLiabilities st c && String.eqb x c && String.eqb z ct)).
Proof.
  cbv zeta. rewrite machine_allocateToCreditor_updates.
  destruct (Number.gt0 (Machine.getOr0 obs ct) && Machine.present st c) eqn:G.
  2:{ cbn [andb]. split; [reflexivity|]. split; [auto|].
      repeat split; intros; now rewrite orb_false_r. }
  apply andb_true_iff in G. destruct G as [_ Pc]. cbv zeta.
  set (cs := PrimFloat.mul s (PrimFloat.div (Machine.getOr0 obs ct) T)).
  set (csu := PrimFloat.mul su (PrimFloat.div (Machine.getOr0 obs ct) T)).
  set (fR := fun d => Machine.set_shortfallsReceived d
                        (Machine.recordShortfall e ct cs csu e (Machine.shortfallsReceived d))).
  set (fC := fun d => Machine.set_shortfallsCaused d
                        (Machine.recordShortfall c ct cs csu e (Machine.shortfallsCaused d))).
  set (fB := fun d =>
               if Nat.ltb 0 (List.length (Machine.totalLiabilities d)) then
                 Machine.set_shortfallsByCoin d
                   (JsMap.set (Machine.shortfallsByCoin d) ct
                      (PrimFloat.add (Machine.getOr0 (Machine.shortfallsByCoin d) ct) cs))
               else d).
  assert (BR : forall d, Machine.blank (fR d) = Machine.blank d) by reflexivity.
  assert (BC : forall d, Machine.blank (fC d) = Machine.blank d) by reflexivity.
  assert (BB : forall d, Machine.blank (fB d) = Machine.blank d).
  { intros d. unfold fB. now destruct (Nat.ltb 0 _). }
  assert (S1 : Machine.statics (Machine.update st c fR) = Machine.statics st)
    by (now apply machine_statics_update).
  assert (S2 : Machine.statics (Machine.update (Machine.update st c fR) e fC)
               = Machine.statics st)
    by (rewrite machine_statics_update; assumption).
  split; [rewrite machine_statics_update; assumption|].
  split.
  { intros L. apply machine_listsOk_update.
    { intros d [A [B C]]. unfold fB. destruct (Nat.ltb 0 _); [|auto].
      cbn. split; [assumption|]. split; [assumption|].
      now apply JsMapFacts.NoDup_keys_set. }
    apply machine_listsOk_update.
    { intros d [A [B C]]. unfold fC. cbn. split; [assumption|]. split; [|assumption].
      now apply machine_listOk_recordShortfall. }
    apply machine_listsOk_update; [|assumption].
    intros d [A [B C]]. unfold fR. cbn. split; [|auto].
    now apply machine_listOk_recordShortfall. }
  split; [|split].
  - intros x y z.
    rewrite (machine_received_update_same _ c fB)
      by (intros d; unfold fB; now destruct (Nat.ltb 0 _)).
    rewrite (machine_received_update_same _ e fC) by reflexivity.
    unfold fR. rewrite machine_received_update, Pc. reflexivity.
  - intros y x z.
    rewrite (machine_caused_update_same _ c fB)
      by (intros d; unfold fB; now destruct (Nat.ltb 0 _)).
    unfold fC. rewrite machine_caused_update.
    rewrite (machine_statics_present _ _ S1).
    rewrite (machine_caused_update_same _ c fR) by reflexivity.
    reflexivity.
  - intros x z. unfold fB. rewrite machine_short_update.
    rewrite (machine_statics_hasLiabilities _ _ S2).
    rewrite (machine_short_update_same _ e fC) by reflexivity.
    rewrite (machine_short_update_same _ c fR) by reflexivity.
    reflexivity.
Qed.

(** ** The loops of [propagateEntityShortfalls] *)

Lemma machine_owed_cons c obs obc x ct :
  Machine.owed ((c, obs) :: obc) x ct
  = (String.eqb c x && Number.gt0 (Machine.getOr0 obs ct)) || Machine.owed obc x ct.
Proof. reflexivity. Qed.

Lemma machine_fold_allocate_spec e ct s su T obc :
  forall st,
    let st' := fold_left (Machine.allocateToCreditor e ct s su T) obc st in
    Machine.statics st' = Machine.statics st
    /\ (Machine.listsOk st -> Machine.listsOk st')
    /\ (forall x y z,
           Machine.f_received (Machine.flags st') x y z
           = Machine.f_received (Machine.flags st) x y z
             || (Machine.owed obc x ct && Machine.present st x
                 && String.eqb y e && String.eqb z ct))
    /\ (forall y x z,
           Machine.f_caused (Machine.flags st') y x z
           = Machine.f_caused (Machine.flags st) y x z
             || (Machine.owed obc x ct && Machine.present st x && Machine.present st e
                 && String.eqb y e && String.eqb z ct))
    /\ (forall x z,
           Machine.f_short (Machine.flags st') x z
           = Machine.f_short (Machine.flags st) x z
             || (Machine.owed obc x ct && Machine.present st x
                 && Machine.hasLiabilities st x && String.eqb z ct)).
Proof.
  induction obc as [|[c obs] obc IH]; intros st; cbv zeta.
  - cbn [fold_left Machine.owed existsb andb]. split; [reflexivity|]. split; [auto|].
    repeat split; intros; now rewrite orb_false_r.
  - cbn [fold_left].
    destruct (machine_allocateToCreditor_spec e ct s su T st c obs) as [S1 [L1 [R1 [C1 B1]]]].
    destruct (IH (Machine.allocateToCreditor e ct s su T st (c, obs))) as [S2 [L2 [R2 [C2 B2]]]].
    cbv zeta in *.
    rewrite (machine_statics_present _ _ S1) in R2, C2, B2.
    rewrite (machine_statics_hasLiabilities _ _ S1) in B2.
    split; [congruence|]. split; [auto|].
    split; [|split].
    + intros x y z. rewrite R2, R1, machine_owed_cons.
      destruct (String.eqb_spec c x) as [->|N].
      * rewrite String.eqb_refl.
        destruct (Number.gt0 (Machine.getOr0 obs ct)), (Machine.present st x),
          (Machine.owed obc x ct), (String.eqb y e), (String.eqb z ct),
          (Machine.f_received (Machine.flags st) x y z); reflexivity.
      * assert (E : String.eqb x c = false) by (apply String.eqb_neq; congruence).
        rewrite E, !andb_false_r. cbn [andb orb]. now rewrite orb_false_r.
    + intros y x z. rewrite C2, C1, machine_owed_cons.
      destruct (String.eqb_spec c x) as [->|N].
      * rewrite String.eqb_refl.
        destruct (Number.gt0 (Machine.getOr0 obs ct)), (Machine.present st x),
          (Machine.present st e),
          (Machine.owed obc x ct), (String.eqb y e), (String.eqb z ct),
          (Machine.f_caused (Machine.flags st) y x z); reflexivity.
      * assert (E : String.eqb x c = false) by (apply String.eqb_neq; congruence).
        rewrite E, !andb_false_r. cbn [andb orb]. now rewrite orb_false_r.
    + intros x z. rewrite B2, B1, machine_owed_cons.
      destruct (String.eqb_spec c x) as [->|N].
      * rewrite String.eqb_refl.
        destruct (Number.gt0 (Machine.getOr0 obs ct)), (Machine.present st x),
          (Machine.hasLiabilities st x),
          (Machine.owed obc x ct), (String.eqb z ct),
          (Machine.f_short (Machine.flags st) x z); reflexivity.
      * assert (E : String.eqb x c = false) by (apply String.eqb_neq; congruence).
        rewrite E, !andb_false_r. cbn [andb orb]. now rewrite orb_false_r.
Qed.

Lemma machine_distributeCoin_spec e obc pm st ct s :
  let st' := Machine.distributeCoin e obc pm st (ct, s) in
  let a := Machine.allocates (Machine.present st) obc pm in
  Machine.statics st' = Machine.statics st
  /\ (Machine.listsOk st -> Machine.listsOk st')
  /\ (forall x y z,
         Machine.f_received (Machine.flags st') x y z
         = Machine.f_received (Machine.flags st) x y z
           || (a x ct && String.eqb y e && String.eqb z ct))
  /\ (forall y x z,
         Machine.f_caused (Machine.flags st') y x z
         = Machine.f_caused (Machine.flags st) y x z
           || (a x ct && Machine.present st e && String.eqb y e && String.eqb z ct))
  /\ (forall x z,
         Machine.f_short (Machine.flags st') x z
         = Machine.f_short (Machine.flags st) x z
           || (a x ct && Machine.hasLiabilities st x && String.eqb z ct)).
Proof.
  cbv zeta. unfold Machine.distributeCoin, Machine.allocates, JsMap.has. cbn [fst snd].
  destruct (Number.gt0 (Machine.totalObligationsForCoin obc ct)); cbn [andb].
  2:{ split; [reflexivity|]. split; [auto|]. repeat split; intros; now rewrite orb_false_r. }
  destruct (JsMap.get pm ct) as [price|]; cbn [andb].
  2:{ split; [reflexivity|]. split; [auto|]. repeat split; intros; now rewrite orb_false_r. }
  exact (machine_fold_allocate_spec e ct s _ _ obc st).
Qed.

Lemma machine_has_cons (V : Type) (k : string) (v : V) (m : JsMap.t V) z :
  JsMap.has ((k, v) :: m) z = String.eqb k z || JsMap.has m z.
Proof. unfold JsMap.has. simpl. now destruct (String.eqb k z). Qed.

Lemma machine_fold_distribute_spec e obc pm snap :
  forall st,
    let st' := fold_left (Machine.distributeCoin e obc pm) snap st in
    let a := Machine.allocates (Machine.present st) obc pm in
    Machine.statics st' = Machine.statics st
    /\ (Machine.listsOk st -> Machine.listsOk st')
    /\ (forall x y z,
           Machine.f_received (Machine.flags st') x y z
           = Machine.f_received (Machine.flags st) x y z
             || (String.eqb y e && JsMap.has snap z && a x z))
    /\ (forall y x z,
           Machine.f_caused (Machine.flags st') y x z
           = Machine.f_caused (Machine.flags st) y x z
             || (String.eqb y e && JsMap.has snap z && a x z && Machine.present st e))
    /\ (forall x z,
           Machine.f_short (Machine.flags st') x z
           = Machine.f_short (Machine.flags st) x z
             || (Machine.hasLiabilities st x && JsMap.has snap z && a x z)).
Proof.
  induction snap as [|[ct s] snap IH]; intros st; cbv zeta.
  - cbn [fold_left]. split; [reflexivity|]. split; [auto|].
    repeat split; intros; unfold JsMap.has; cbn [JsMap.get];
      now rewrite ?andb_false_r, ?orb_false_r.
  - cbn [fold_left].
    destruct (machine_distributeCoin_spec e obc pm st ct s) as [S1 [L1 [R1 [C1 B1]]]].
    destruct (IH (Machine.distributeCoin e obc pm st (ct, s))) as [S2 [L2 [R2 [C2 B2]]]].
    cbv zeta in *.
    rewrite (machine_statics_present _ _ S1) in R2, C2, B2.
    rewrite (machine_statics_hasLiabilities _ _ S1) in B2.
    split; [congruence|]. split; [auto|].
    split; [|split].
    + intros x y z. rewrite R2, R1, machine_has_cons, (String.eqb_sym ct z).
      destruct (String.eqb_spec z ct) as [->|N]; cbn [andb orb].
      * destruct (Machine.allocates (Machine.present st) obc pm x ct),
          (String.eqb y e), (JsMap.has snap ct),
          (Machine.f_received (Machine.flags st) x y ct); reflexivity.
      * now rewrite !andb_false_r, orb_false_r.
    + intros y x z. rewrite C2, C1, machine_has_cons, (String.eqb_sym ct z).
      destruct (String.eqb_spec z ct) as [->|N]; cbn [andb orb].
      * destruct (Machine.allocates (Machine.present st) obc pm x ct),
          (String.eqb y e), (JsMap.has snap ct), (Machine.present st e),
          (Machine.f_caused (Machine.flags st) y x ct); reflexivity.
      * now rewrite !andb_false_r, orb_false_r.
    + intros x z. rewrite B2, B1, machine_has_cons, (String.eqb_sym ct z).
      destruct (String.eqb_spec z ct) as [->|N]; cbn [andb orb].
      * destruct (Machine.allocates (Machine.present st) obc pm x ct),
          (Machine.hasLiabilities st x), (JsMap.has snap ct),
          (Machine.f_short (Machine.flags st) x ct); reflexivity.
      * now rewrite !andb_false_r, orb_false_r.
Qed.

(** ** One entity, and a processing order *)

Lemma machine_flags_eq (o o' : Machine.Flags) :
  (forall x y z, Machine.f_received o x y z = Machine.f_received o' x y z) ->
  (forall x y z, Machine.f_caused o x y z = Machine.f_caused o' x y z) ->
  (forall x z, Machine.f_short o x z = Machine.f_short o' x z) ->
  o = o'.
Proof.
  destruct o as [r c s], o' as [r' c' s']. cbn. intros R C S.
  assert (r = r') as -> by (repeat (apply functional_extensionality; intros); apply R).
  assert (c = c') as -> by (repeat (apply functional_extensionality; intros); apply C).
  assert (s = s') as -> by (repeat (apply functional_extensionality; intros); apply S).
  reflexivity.
Qed.

Lemma machine_propagateEntityShortfalls_spec e st entities pm :
  let st' := Machine.propagateEntityShortfalls e st entities pm in
  Machine.statics st' = Machine.statics st
  /\ (Machine.listsOk st -> Machine.listsOk st')
  /\ Machine.flags st'
     = Machine.stepFlags (Machine.present st) (Machine.hasLiabilities st) entities pm e
         (Machine.flags st).
Proof.
  cbv zeta. unfold Machine.propagateEntityShortfalls, Machine.stepFlags.
  destruct (entities_get entities e) as [entity|]; [|auto].
  destruct (JsMap.get st e) as [data|] eqn:G.
  - assert (F : (if Nat.ltb 0 (JsMap.size (Machine.shortfallsByCoin data))
                 then fold_left
                        (Machine.distributeCoin e (Machine.obligationsByCreditor entity) pm)
                        (Machine.shortfallsByCoin data) st
                 else st)
                = fold_left
                    (Machine.distributeCoin e (Machine.obligationsByCreditor entity) pm)
                    (Machine.shortfallsByCoin data) st).
    { destruct (Machine.shortfallsByCoin data); reflexivity. }
    rewrite F.
    destruct (machine_fold_distribute_spec e (Machine.obligationsByCreditor entity) pm
                (Machine.shortfallsByCoin data) st) as [S [L [R [C B]]]].
    cbv zeta in *.
    split; [assumption|]. split; [assumption|].
    assert (P : Machine.present st e = true)
      by (unfold Machine.present, JsMap.has; now rewrite G).
    assert (Sh : forall z, Machine.f_short (Machine.flags st) e z
                           = JsMap.has (Machine.shortfallsByCoin data) z)
      by (intros z; cbn [Machine.flags Machine.f_short]; now rewrite G).
    apply machine_flags_eq; cbn [Machine.f_received Machine.f_caused Machine.f_short].
    + intros x y z. rewrite R, Sh. reflexivity.
    + intros y x z. rewrite C, Sh, P, andb_true_r. reflexivity.
    + intros x z. rewrite B, Sh. reflexivity.
  - split; [reflexivity|]. split; [auto|].
    assert (Sh : forall z, Machine.f_short (Machine.flags st) e z = false)
      by (intros z; cbn [Machine.flags Machine.f_short]; now rewrite G).
    apply machine_flags_eq; cbn [Machine.f_received Machine.f_caused Machine.f_short];
      intros; rewrite Sh, ?andb_false_r; cbn [andb]; now rewrite orb_false_r.
Qed.

Lemma machine_propagateInOrder_spec entities pm order :
  forall st,
    let st' := Machine.propagateInOrder order st entities pm in
    Machine.statics st' = Machine.statics st
    /\ (Machine.listsOk st -> Machine.listsOk st')
    /\ Machine.flags st'
       = fold_left
           (fun o e =>
              Machine.stepFlags (Machine.present st) (Machine.hasLiabilities st)
                entities pm e o)
           order (Machine.flags st).
Proof.
  unfold Machine.propagateInOrder.
  induction order as [|e order IH]; intros st; cbv zeta; cbn [fold_left].
  - auto.
  - destruct (machine_propagateEntityShortfalls_spec e st entities pm) as [S1 [L1 F1]].
    destruct (IH (Machine.propagateEntityShortfalls e st entities pm)) as [S2 [L2 F2]].
    cbv zeta in *.
    split; [congruence|]. split; [auto|].
    rewrite F2, F1.
    rewrite (machine_statics_present _ _ S1), (machine_statics_hasLiabilities _ _ S1).
    reflexivity.
Qed.

(** ** The creditors of an entity *)







(** ** Independent entities commute *)



(** ** Reordering a processing order *)

Section Reorder.
Variable S : Type.
Variable step : string -> S -> S.
Variable entities : list Entity.
Hypothesis step_comm :
  forall a b s, independent entities a b -> step a (step b s) = step b (step a s).

Let run (l : list string) (s : S) : S := fold_left (fun s e => step e s) l s.



End Reorder.

(** ** The state after the first pass *)

Lemma machine_NoDup_keys_shortfallsByCoinMap pm final m :
  NoDup (JsMap.keys (Machine.shortfallsByCoinMap pm final m)).
Proof.
  unfold Machine.shortfallsByCoinMap.
  destruct (_ && _); [|constructor].
  assert (G : forall l acc, NoDup (JsMap.keys acc) ->
                NoDup (JsMap.keys
                         (fold_left (Machine.addShortfallByCoin pm final
                                       (Machine.sumShortfallUsd m)) l acc))).
  { induction l as [|kv l IH]; intros acc ND; cbn [fold_left]; [assumption|].
    apply IH. unfold Machine.addShortfallByCoin.
    destruct (JsMap.get pm (fst kv)); [|assumption].
    destruct (Number.gt0 _); [|assumption].
    now apply JsMapFacts.NoDup_keys_set. }
  apply G. constructor.
Qed.

Lemma machine_entitySolvency_lists entities pm entity d :
  Machine.entitySolvency entities pm entity = Ok d ->
  Machine.shortfallsReceived d = [] /\ Machine.shortfallsCaused d = []
  /\ NoDup (JsMap.keys (Machine.shortfallsByCoin d)).
Proof.
  unfold Machine.entitySolvency. cbv zeta.
  destruct (Machine.flattenObligations pm (obligations entity)); cbn [bind]; [|discriminate].
  destruct (Machine.sumAssetsUsd pm _); cbn [bind]; [|discriminate].
  destruct (Machine.directNetting pm _ _); cbn [bind]; [|discriminate].
  destruct (Machine.swapCoverage pm _ _); cbn [bind]; [|discriminate].
  intros [= <-]. cbn. split; [reflexivity|]. split; [reflexivity|].
  apply machine_NoDup_keys_shortfallsByCoinMap.
Qed.

Lemma machine_listOk_nil : Machine.listOk [].
Proof. split; constructor. Qed.

Lemma machine_firstPass_state entities pm st :
  Machine.firstPass entities pm = Ok st ->
  NoDup (JsMap.keys st) /\ Machine.listsOk st.
Proof.
  unfold Machine.firstPass.
  apply (foldM_invariant _ _ (Machine.firstPassStep entities pm)
           (fun st => NoDup (JsMap.keys st) /\ Machine.listsOk st)
           (fun _ => True)); [| auto | ].
  - intros a x a' _ [ND L] H. unfold Machine.firstPassStep in H.
    destruct (Machine.entitySolvency entities pm x) as [d|] eqn:E; cbn [bind] in H;
      [|discriminate].
    injection H as <-. split; [now apply JsMapFacts.NoDup_keys_set|].
    intros k d0. rewrite JsMapFacts.get_set.
    destruct (String.eqb (id x) k); [|apply L].
    intros [= <-]. destruct (machine_entitySolvency_lists _ _ _ _ E) as [-> [-> ND']].
    split; [apply machine_listOk_nil|]. split; [apply machine_listOk_nil|assumption].
  - split; [constructor|]. intros k d. discriminate.
Qed.

(** ** From the flags to the shape of the result *)






(** ** What the distribution of one coin leaves alone *)








(** ** Reading the flags *)




(** ** Two processing orders *)




Lemma accumulated_order_ab :
  isTopologicalOrder (buildGraph MachineExamples.accumulated) ["a"; "b"; "c"; "d"].
Proof.
  split; [vm_compute; apply Permutation_refl|].
  simpl. repeat split; try reflexivity; intros y Hy; intuition (subst; reflexivity).
Qed.

Lemma accumulated_order_ba :
  isTopologicalOrder (buildGraph MachineExamples.accumulated) ["b"; "a"; "c"; "d"].
Proof.
  split; [vm_compute; apply perm_swap|].
  simpl. repeat split; try reflexivity; intros y Hy; intuition (subst; reflexivity).
Qed.


(** ** Propagation without a price *)




(** ** The numbers depend on the processing order *)

Section OrderFacts.
Import PrimFloat.

(** The propagated numbers depend on the processing order as well.  A
    creditor's per-coin shortfall is accumulated on numbers in the order
    in which its debtors are processed: with "a" owing 0.1 USDC and "b"
    0.4 USDC to "c", itself 0.1 USDC short, the order a, b, c, d gives
    "c" the shortfall [(0.1 + 0.1) + 0.4 = 0.6000000000000001] and the
    order b, a, c, d gives [(0.1 + 0.4) + 0.1 = 0.6], and "d" receives
    the one or the other. *)
Lemma topological_orders_give_different_numbers :
  isTopologicalOrder (buildGraph MachineExamples.accumulated) ["a"; "b"; "c"; "d"]
  /\ isTopologicalOrder (buildGraph MachineExamples.accumulated) ["b"; "a"; "c"; "d"]
  /\ Machine.shortfallOf
       (Machine.checkEntitySolvencyInOrder ["a"; "b"; "c"; "d"]
          MachineExamples.accumulated Examples.priceMap) "c" "USDC"
     = Some 0x1.3333333333334p-1%float
  /\ Machine.shortfallOf
       (Machine.checkEntitySolvencyInOrder ["b"; "a"; "c"; "d"]
          MachineExamples.accumulated Examples.priceMap) "c" "USDC"
     = Some 0x1.3333333333333p-1%float
  /\ Machine.receivedAmount
       (Machine.checkEntitySolvencyInOrder ["a"; "b"; "c"; "d"]
          MachineExamples.accumulated Examples.priceMap) "d" "c" "USDC"
     = Some 0x1.3333333333334p-1%float
  /\ Machine.receivedAmount
       (Machine.checkEntitySolvencyInOrder ["b"; "a"; "c"; "d"]
          MachineExamples.accumulated Examples.priceMap) "d" "c" "USDC"
     = Some 0x1.3333333333333p-1%float
  /\ PrimFloat.eqb 0x1.3333333333334p-1%float 0x1.3333333333333p-1%float = false.
Proof.
  split; [exact accumulated_order_ab|]. split; [exact accumulated_order_ba|].
  repeat split; vm_compute; reflexivity.
Qed.

(** On machine numbers the two runs record the same entries for the same
    coin types; only the received entries of "c" come in the order in
    which "a" and "b" were processed. *)
Lemma accumulated_shapes_on_numbers :
  Machine.shapeOf
    (Machine.checkEntitySolvencyInOrder ["a"; "b"; "c"; "d"]
       MachineExamples.accumulated Examples.priceMap)
  = Some (false, ["a"; "b"; "c"],
          [("a", ["USDC"], [], [("c", ["USDC"])]);
           ("b", ["USDC"], [], [("c", ["USDC"])]);
           ("c", ["USDC"], [("a", ["USDC"]); ("b", ["USDC"])], [("d", ["USDC"])]);
           ("d", [], [("c", ["USDC"])], [])])
  /\ Machine.shapeOf
       (Machine.checkEntitySolvencyInOrder ["b"; "a"; "c"; "d"]
          MachineExamples.accumulated Examples.priceMap)
     = Some (false, ["a"; "b"; "c"],
             [("a", ["USDC"], [], [("c", ["USDC"])]);
              ("b", ["USDC"], [], [("c", ["USDC"])]);
              ("c", ["USDC"], [("b", ["USDC"]); ("a", ["USDC"])], [("d", ["USDC"])]);
              ("d", [], [("c", ["USDC"])], [])]).
Proof. split; vm_compute; reflexivity. Qed.

End OrderFacts.

(** ** A creditor without a record *)

Lemma machine_entitySolvency_entityId entities pm entity d :
  Machine.entitySolvency entities pm entity = Ok d -> Machine.entityId d = id entity.
Proof.
  unfold Machine.entitySolvency. cbv zeta.
  destruct (Machine.flattenObligations pm (obligations entity)); cbn [bind]; [|discriminate].
  destruct (Machine.sumAssetsUsd pm _); cbn [bind]; [|discriminate].
  destruct (Machine.directNetting pm _ _); cbn [bind]; [|discriminate].
  destruct (Machine.swapCoverage pm _ _); cbn [bind]; [|discriminate].
  now intros [= <-].
Qed.

Lemma machine_firstPass_records entities pm st :
  Machine.firstPass entities pm = Ok st ->
  forall k d, JsMap.get st k = Some d ->
    Machine.entityId d = k /\ In k (map id entities)
    /\ Machine.shortfallsReceived d = [] /\ Machine.shortfallsCaused d = [].
Proof.
  unfold Machine.firstPass.
  apply (foldM_invariant _ _ (Machine.firstPassStep entities pm)
           (fun st => forall k d, JsMap.get st k = Some d ->
                        Machine.entityId d = k /\ In k (map id entities)
                        /\ Machine.shortfallsReceived d = []
                        /\ Machine.shortfallsCaused d = [])
           (fun x => In x entities)); [| auto | ].
  - intros a x a' Hx Ha H. unfold Machine.firstPassStep in H.
    destruct (Machine.entitySolvency entities pm x) as [d|] eqn:E; cbn [bind] in H;
      [|discriminate].
    injection H as <-. intros k d0. rewrite JsMapFacts.get_set.
    destruct (String.eqb_spec (id x) k) as [<-|N]; [|apply Ha].
    intros [= <-]. destruct (machine_entitySolvency_lists _ _ _ _ E) as [-> [-> _]].
    split; [eapply machine_entitySolvency_entityId; eauto|].
    split; [now apply in_map|auto].
  - intros k d. discriminate.
Qed.

Lemma machine_fold_stepFlags_absent pres liab entities pm j order :
  pres j = false ->
  forall o,
    (forall d ct, Machine.f_caused o d j ct = false) ->
    forall d ct,
      Machine.f_caused
        (fold_left (fun o e => Machine.stepFlags pres liab entities pm e o) order o) d j ct
      = false.
Proof.
  intros P. induction order as [|e order IH]; intros o H; cbn [fold_left]; [exact H|].
  apply IH. intros d ct. unfold Machine.stepFlags.
  destruct (entities_get entities e) as [entity|]; [|apply H].
  cbn [Machine.f_caused]. unfold Machine.allocates.
  now rewrite H, P, !andb_false_r.
Qed.

Lemma machine_find_entityId st k d :
  NoDup (JsMap.keys st) ->
  (forall k0 d0, JsMap.get st k0 = Some d0 -> Machine.entityId d0 = k0) ->
  find (fun d0 => String.eqb (Machine.entityId d0) k) (JsMap.values st) = Some d ->
  JsMap.get st k = Some d.
Proof.
  intros ND H F. apply find_some in F. destruct F as [Hin E].
  apply String.eqb_eq in E. unfold JsMap.values in Hin. apply in_map_iff in Hin.
  destruct Hin as [[k0 d0] [E0 Hin]]. cbn in E0. subst d0.
  apply JsMapFacts.in_get_NoDup in Hin; [|assumption].
  rewrite <- E, (H _ _ Hin). exact Hin.
Qed.

(** X25.  A creditor that is not an entity of the map is left out of the
    result, on the numbers of the program: the result has no record for
    it, no entity is reported to have caused a shortfall to it, and it
    is reported to have received none. *)
Theorem absent_creditor_never_recorded :
  forall (entities : list Entity) (priceMap : JsMap.t Decimal.t) (j : string),
    NoDup (map id entities) ->
    ~ In j (map id entities) ->
    let run := Machine.checkEntitySolvency entities priceMap in
    Machine.detailsOf run j = None
    /\ forall d ct,
         Machine.causedAmount run d j ct = None
         /\ Machine.receivedAmount run j d ct = None.
Proof.
  intros entities priceMap j ND Nj run. subst run.
  unfold Machine.checkEntitySolvency.
  destruct (Machine.firstPass entities priceMap) as [st|e] eqn:E; cbn [bind];
    [|split; [reflexivity|intros; split; reflexivity]].
  unfold Machine.propagateShortfalls. cbv zeta.
  destruct (hasCycle (buildGraph entities)); cbn [bind];
    [split; [reflexivity|intros; split; reflexivity]|].
  set (order := topologicalSort (buildGraph entities)).
  destruct (machine_firstPass_state _ _ _ E) as [NDk _].
  pose proof (machine_firstPass_records _ _ _ E) as R0.
  destruct (machine_propagateInOrder_spec entities priceMap order st) as [S [_ F]].
  cbv zeta in S, F.
  set (st' := Machine.propagateInOrder order st entities priceMap) in *.
  assert (NDk' : NoDup (JsMap.keys st'))
    by (rewrite <- machine_statics_keys, S, machine_statics_keys; exact NDk).
  assert (Id : forall k d, JsMap.get st' k = Some d ->
                           Machine.entityId d = k /\ In k (map id entities)).
  { intros k d G. pose proof (machine_statics_get st' k) as Q.
    rewrite S, machine_statics_get, G in Q.
    destruct (JsMap.get st k) as [d0|] eqn:G0; cbn [option_map] in Q; [|discriminate].
    injection Q as Q. destruct (R0 _ _ G0) as [E0 [I0 _]].
    split; [|assumption]. rewrite <- E0. symmetry. exact Q. }
  assert (Pj : Machine.present st j = false).
  { unfold Machine.present, JsMap.has. destruct (JsMap.get st j) as [d0|] eqn:G0;
      [|reflexivity].
    exfalso. apply Nj. now destruct (R0 _ _ G0) as [_ [I0 _]]. }
  assert (D : Machine.detailsOf (Ok (Machine.buildResult st')) j = None).
  { cbn [Machine.detailsOf Machine.buildResult Machine.details].
    destruct (find _ (JsMap.values st')) as [d|] eqn:Fd; [|reflexivity].
    exfalso. apply machine_find_entityId in Fd; [|assumption|intros k0 d0 G; now apply Id].
    apply Nj. now destruct (Id _ _ Fd). }
  split; [exact D|]. intros d ct. split.
  - unfold Machine.causedAmount.
    destruct (Machine.detailsOf (Ok (Machine.buildResult st')) d) as [rec|] eqn:Fd;
      [|reflexivity].
    cbn [Machine.detailsOf Machine.buildResult Machine.details] in Fd.
    apply machine_find_entityId in Fd; [|assumption|intros k0 d0 G; now apply Id].
    assert (C : Machine.f_caused (Machine.flags st') d j ct = false).
    { rewrite F. apply machine_fold_stepFlags_absent; [assumption|].
      intros d1 ct1. cbn [Machine.flags Machine.f_caused].
      destruct (JsMap.get st d1) as [r1|] eqn:G1; [|reflexivity].
      destruct (R0 _ _ G1) as [_ [_ [_ ->]]]. reflexivity. }
    cbn [Machine.flags Machine.f_caused] in C. rewrite Fd in C.
    unfold Machine.hasDetail in C.
    now destruct (Machine.detailOf (Machine.shortfallsCaused rec) j ct).
  - unfold Machine.receivedAmount. now rewrite D.
Qed.

Lemma absorbed_NoDup : NoDup (map id MachineExamples.absorbed).
Proof. repeat constructor; simpl; intuition discriminate. Qed.

(** "ghost" is owed one raw unit of SUI and is not in the map. *)
Lemma absent_creditor_never_recorded_witness :
  Machine.detailsOf
    (Machine.checkEntitySolvency MachineExamples.absorbed Examples.priceMap) "ghost" = None
  /\ Machine.causedAmount
       (Machine.checkEntitySolvency MachineExamples.absorbed Examples.priceMap)
       "debtor" "ghost" "SUI" = None.
Proof.
  assert (N : ~ In "ghost" (map id MachineExamples.absorbed))
    by (simpl; intuition discriminate).
  destruct (absent_creditor_never_recorded MachineExamples.absorbed Examples.priceMap
              "ghost" absorbed_NoDup N) as [D C].
  split; [exact D|exact (proj1 (C "debtor" "SUI"))].
Defined.
